(* ===== verification/_CoqProject ===== *)
-Q . S2P
Prelude.v
CMonad.v
CMem.v
Cursor.v
Leb128.v
Decode.v
Forms.v
FormSpec.v
Search.v
DwarfTab.v
PathJoin.v
LineProgram.v
LineUnit.v
DwarfParse.v
LineSpec.v
Findings.v
Context.v
ElfSym.v
Backtrace.v
WinUtil.v
PeSym.v
PeSpec.v
PeLoad.v
WinResolve.v
Ticket.v
