(* ===== verification/Prelude.v ===== *)
(** * A verification development for backwalk

    backwalk is a C library that walks the call stack of the running thread and
    names the frames it finds.  This development translates its sources under
    src/src/ into executable Rocq definitions and proves what makes them
    correct.  This file is the root: after this comment it holds what every
    other file shares (machine integers, generic lemmas, tactics, hint bases).

    ** The program and its parts

    - The walk (src/src/context.c, src/src/context.h): [context_init] records
      the frame pointer, [context_step] follows the saved frame pointers one
      frame at a time, [context_get_ip] reads the return address.  [Context]
    - The API (src/src/backwalk.c): [bw_backtrace] calls the user's callback
      for each frame; [bw_backtrace_collect] stores return addresses in a
      context made by [mkbw_context], and [bw_backtrace_process] calls the
      callback for them later.  [bw_frame_process] names a frame by the dynamic
      linker and, on Linux, by the symbol table of the module's file.
      [Backtrace]
    - The ELF symbol lookup (src/src/backwalk.c, [bw_elf_sname]).  [ElfSym]
    - The DWARF line reader (src/src/dwarf_line.c), which parses the line
      section of a module into a sorted table of rows and answers which source
      line an address belongs to.  Bottom up: the byte cursor ([Cursor],
      [Leb128], [Decode]); the attribute forms ([Forms], [FormSpec]); the row
      table with its string pool ([DwarfTab]) and the binary search it shares
      with the COFF symbols ([Search]); the path buffer ([PathJoin]); the
      opcode loop ([LineProgram], with its abstract machine in [LineSpec]); the
      header of a unit ([LineUnit]); the whole section ([DwarfParse], and
      inputs on which it goes wrong in [Findings]).
    - The Windows symbolizer (src/src/win.c), which captures frames through the
      system and reads the COFF symbols and the line section of a PE file:
      [bw_win_capture] and the helpers on strings and sections ([WinUtil]); the
      static tables of one module with [bw_pe_load], [bw_pe_find] and
      [bw_pe_line] ([PeSym], the functions of a symbol table as a list in
      [PeSpec], the theorems about loading and looking up in [PeLoad]);
      [bw_win_resolve], which asks DbgHelp first and these tables second, and
      the Windows branches of src/src/backwalk.c ([WinResolve]).
    - Tickets (src/src/common.c): [ticket_signal] and [ticket_wait] as threads
      that take one step at a time over a POSIX mutex and condition variable;
      [exec] is the step of one thread, [steps] a run.  [Ticket]

    [bw_backtrace] calls [context_step] and [bw_frame_process] in turn; the
    latter calls [bw_elf_sname] on Linux and [bw_win_resolve] on Windows, which
    calls [bw_pe_find] and [bw_pe_line]; these load a file with [bw_pe_load],
    which calls [bw_dwarf_tab_parse].  The files follow these calls.

    ** How the C code is read

    - Integers are [Z] in the range of their C type.  Every operation that may
      leave the range is followed by the reduction C performs ([u8] .. [u64],
      [uptr] for size_t and pointers); signed overflow is the undefined
      behaviour [SignedOverflow], with its operands.  The width of a pointer is the class
      [Platform], 32 or 64 bits.
    - A function with side effects is a computation of [CMonad]: the state it
      mutates is passed through a success and through a [return false], and
      undefined behaviour ends it.  [wp] is its weakest precondition; it says
      which undefined behaviour may be left ([no_ub] for none, [overflow_only]
      and [overflow_in] for the signed addition of the line register) and never
      admits exhausted fuel.
    - A pointer into a mapped file or section is a flat address, and the
      section an object of its own ([span] in [CMem]): a read outside of it is
      [OobRead], whatever may be mapped there.  Arrays of fixed capacity are
      finite maps from the indices written, so that reading a cell never
      written and writing behind the end are both visible.  A C string is the
      byte at each offset, or nothing where its object ends.
    - The state of the parser is the record of the C struct it models
      ([bw_cur_t], [bw_dwarf_tab_t]); the registers of the line machine, locals
      in the C function, are the record [line_regs], and its tables of
      directories and files are [dir_tab] and [file_tab].  [bw_parse_unit] is one long
      C function; it is cut into named blocks which [LineUnit.bw_parse_unit]
      composes in the order of the code.
    - Alignment is not modelled: the ELF structures are read at whatever
      address the file says.

    ** What is a parameter

    The C library's [qsort] is the class [QSort] of [Search] (a permutation,
    sorted by the comparison; nothing about equal elements; insertion sort is an
    instance).  open, fstat, mmap, munmap and close are the record [elf_os] of
    [ElfSym]; a log of the calls lets theorems speak of leaked descriptors.  The
    memory of the process, the value of the frame-pointer register, the
    instruction that strips a pointer's authentication code, [dladdr],
    [dladdr1], malloc's success (for each call) and the user's callback are
    arguments of the definitions of [Context] and [Backtrace].  The calls that
    map a file on Windows are the record [win_os] of [PeSym], those of DbgHelp
    and of the loader the record [win_api] of [WinResolve]; [win_os_ok] and
    [api_ok] state what is documented of them (a view has the size of its file,
    results are C strings, no more frames are captured than asked for).  What a
    theorem needs of the contents of a file is a hypothesis of its own about the
    file that is mapped ([section_fits], [pe_file_ok], [functions_fit]).

    ** What the theorems show

    - Safety.  [bw_dwarf_tab_parse_safe]: on any bytes whose unit headers do
      not make the program's address wrap and whose strings end in their
      section, the parser reads only its sections and either answers, with a
      well-formed sorted table, or stops where the line register would overflow.
      It rests on the lemmas behind [bw_parse_unit_safe] and [line_step_safe],
      which say the same of a unit and of one opcode.  That the conditions are
      needed, and that the overflow happens, is shown in [Findings].
      [bw_elf_sname_safe]: for any file contents the lookup stays in the
      mapping and releases what it acquired.  [bw_pe_load_safe]: loading a PE
      file keeps the invariant of the static tables and releases its handles.
    - Function.  The readers of bytes and LEB128 numbers equal arithmetic
      reference definitions and invert encoders; skipping and reading forms is
      exact for every form; the string pool, [bw_emit], the sort, the search,
      the lookup and the path join meet input-output specifications;
      [elf_search_finds] says which symbol is chosen, [frame_lookup_linux] what
      the callback is told.  [bw_pe_find_names] and [bw_pe_line_correct] say
      which COFF symbol and which row answer for an address, and
      [bw_win_resolve_correct] what the caller's buffers hold.
    - Refinement.  [line_program_refines]: the opcode loop implements the
      abstract DWARF line machine.  [bw_backtrace_walks]: the loop of
      [bw_backtrace] visits exactly the chain of frames in memory.
      [collect_process_backtrace]: collecting and processing equals walking.
    - Termination.  Well-linked stacks are finite walks
      ([bw_backtrace_terminates]); linked in a circle they are infinite ones
      ([bw_backtrace_cycle_diverges]).  [ticket_completes]: with one waiter the
      threads of a ticket always finish; [ticket_safe] is the exclusion and the
      order behind it, for any number of threads.
    - Limits.  [header_len_wraps], [unterminated_string_overread],
      [mkbw_context_overflow], [elf_second_table_wrong_name],
      [win_collect_truncates], [collect_keeps_stale_frames] and
      [ticket_waiters_block] describe the inputs on which the code does not do
      what it is meant to; examples of other limits are evaluated next to the
      definitions they concern.

    ** Fuel

    The loops of the parser get as fuel a bound the safety theorems show to be
    enough: the number of bytes left in the section for loops that consume
    input, the capacity or count for loops over an index, one more than the
    number of symbols for the loop over COFF symbols.  The weakest
    precondition of a computation excludes [NoFuel], so each safety theorem is
    also a termination theorem.  The walk of [bw_backtrace] has no bound in the
    code; its theorems are about every sufficient fuel, or show that no fuel
    suffices.

    ** What is not modelled

    The printing of src/src/debug.c.  The sanitizer annotations, the compiler
    macros and the version header have no behaviour of their own; the programs
    of src/test/ are not part of the library.  Tickets assume sequential
    consistency under the mutex, and critical sections on Windows are calls in a
    log, not threads. *)

From Stdlib Require Import ZArith Lia.
From Stdlib Require Export Strings.Byte.
From stdpp Require Export base numbers list gmap sorting.

#[export] Set Default Proof Using "Type".
Global Open Scope Z_scope.

(** ** Machine integers

    Integers are kept as [Z] inside the range of their C type; every operation
    that can leave the range is followed by one of the reductions below. *)

(** The width of a pointer, of [size_t] and of [uintptr_t] on the target:
    32 or 64 bits on the platforms the build supports. *)
Class Platform := {
  ptr_bits : Z;
  ptr_bits_cases : ptr_bits = 32 ∨ ptr_bits = 64;
}.

Definition plat32 : Platform := {| ptr_bits := 32; ptr_bits_cases := or_introl eq_refl |}.
Definition plat64 : Platform := {| ptr_bits := 64; ptr_bits_cases := or_intror eq_refl |}.

Definition u8 (z : Z) : Z := z mod 2 ^ 8.
Definition u16 (z : Z) : Z := z mod 2 ^ 16.
Definition u32 (z : Z) : Z := z mod 2 ^ 32.
Definition u64 (z : Z) : Z := z mod 2 ^ 64.

(** The signed reading of an unsigned word: the conversions [(signed char)],
    [(int64_t)], [(SHORT)] of the code. *)
Definition sext (w z : Z) : Z := if z <? 2 ^ (w - 1) then z else z - 2 ^ w.

Section width.
Context `{Platform}.

Definition ptr_mod : Z := 2 ^ ptr_bits.

(** The conversion to [size_t] or [uintptr_t], and the wrap-around of their
    arithmetic. *)
Definition uptr (z : Z) : Z := z mod ptr_mod.

Lemma ptr_mod_cases : ptr_mod = 4294967296 ∨ ptr_mod = 18446744073709551616.
Proof. unfold ptr_mod. destruct ptr_bits_cases as [-> | ->]; auto. Qed.

Lemma ptr_mod_bounds : 4294967296 ≤ ptr_mod ≤ 18446744073709551616.
Proof. destruct ptr_mod_cases; lia. Qed.

Lemma uptr_range z : 0 ≤ uptr z < ptr_mod.
Proof. apply Z.mod_pos_bound. pose proof ptr_mod_bounds. lia. Qed.

Lemma uptr_small z : 0 ≤ z < ptr_mod → uptr z = z.
Proof. apply Z.mod_small. Qed.

Lemma uptr_small32 z : 0 ≤ z < 4294967296 → uptr z = z.
Proof. intros. apply uptr_small. pose proof ptr_mod_bounds. lia. Qed.

Lemma uptr_neg z : - ptr_mod ≤ z < 0 → uptr z = z + ptr_mod.
Proof.
  intros. unfold uptr. rewrite <- (Z_mod_plus_full z 1 ptr_mod), Z.mul_1_l.
  apply Z.mod_small. lia.
Qed.

Lemma uptr_add_idemp a b : uptr (uptr a + b) = uptr (a + b).
Proof. apply Zplus_mod_idemp_l. Qed.
End width.

Lemma u32_small z : 0 ≤ z < 2 ^ 32 → u32 z = z.
Proof. apply Z.mod_small. Qed.

Lemma u64_small z : 0 ≤ z < 2 ^ 64 → u64 z = z.
Proof. apply Z.mod_small. Qed.

Lemma u32_range z : 0 ≤ u32 z < 2 ^ 32.
Proof. apply Z.mod_pos_bound. lia. Qed.

Lemma u64_range z : 0 ≤ u64 z < 2 ^ 64.
Proof. apply Z.mod_pos_bound. lia. Qed.

Lemma sext_range w z : 0 < w → 0 ≤ z < 2 ^ w → - 2 ^ (w - 1) ≤ sext w z < 2 ^ (w - 1).
Proof.
  intros Hw Hz. unfold sext.
  assert (2 ^ w = 2 * 2 ^ (w - 1)) by (rewrite <- Z.pow_succ_r by lia; f_equal; lia).
  destruct (Z.ltb_spec z (2 ^ (w - 1))); lia.
Qed.

Lemma sext_nonneg w z : z < 2 ^ (w - 1) → sext w z = z.
Proof. intros Hz. unfold sext. by rewrite (proj2 (Z.ltb_lt _ _) Hz). Qed.

Lemma sext_int z : z < 2147483648 → sext 32 z = z.
Proof. apply (sext_nonneg 32). Qed.

Lemma sext_u64 z : - 2 ^ 63 ≤ z < 2 ^ 63 → sext 64 (u64 z) = z.
Proof.
  intros Hz. unfold sext, u64. change (64 - 1) with 63.
  destruct (Z.ltb_spec z 0).
  - rewrite <- (Z_mod_plus_full z 1), Z.mod_small by lia.
    destruct (Z.ltb_spec (z + 1 * 2 ^ 64) (2 ^ 63)); lia.
  - rewrite Z.mod_small by lia. destruct (Z.ltb_spec z (2 ^ 63)); lia.
Qed.

(** ** Bytes *)

(** The value of an [unsigned char]. *)
Definition byte_val (b : byte) : Z := Z.of_N (Byte.to_N b).

(** Storing an integer into an [unsigned char]. *)
Definition byte_of (z : Z) : byte :=
  match Byte.of_N (Z.to_N (u8 z)) with Some b => b | None => x00 end.

Lemma byte_val_range b : 0 ≤ byte_val b < 256.
Proof. unfold byte_val. pose proof (Byte.to_N_bounded b). lia. Qed.

Lemma byte_val_of z : 0 ≤ z < 256 → byte_val (byte_of z) = z.
Proof.
  intros Hz. unfold byte_of, byte_val, u8. rewrite Z.mod_small by lia.
  destruct (Byte.of_N (Z.to_N z)) as [b|] eqn:E.
  - apply Byte.to_of_N in E. rewrite E. lia.
  - apply Byte.of_N_None_iff in E. lia.
Qed.

Lemma byte_of_val b : byte_of (byte_val b) = b.
Proof.
  unfold byte_of, u8. rewrite Z.mod_small by (pose proof (byte_val_range b); lia).
  unfold byte_val. by rewrite N2Z.id, Byte.of_to_N.
Qed.

Lemma byte_val_inj b1 b2 : byte_val b1 = byte_val b2 → b1 = b2.
Proof. intros E. by rewrite <- (byte_of_val b1), E, byte_of_val. Qed.

#[export] Instance byte_eq_dec : EqDecision byte.
Proof. intros a b. destruct (Byte.byte_eq_dec a b); [by left | by right]. Defined.

#[export] Instance byte_inhabited : Inhabited byte := populate x00.

(** The NUL test [c == '\0'] as a boolean. *)
Definition is_nul (b : byte) : bool := Byte.eqb b x00.

Lemma is_nul_true b : is_nul b = true ↔ b = x00.
Proof.
  unfold is_nul. split; [apply Byte.byte_dec_bl | intros ->; reflexivity].
Qed.

Lemma is_nul_false b : is_nul b = false ↔ b ≠ x00.
Proof. rewrite <- is_nul_true. by destruct (is_nul b). Qed.

Lemma is_nul_val b : is_nul b = (byte_val b =? 0).
Proof.
  destruct (is_nul b) eqn:E.
  - apply is_nul_true in E as ->. done.
  - apply is_nul_false in E. symmetry. apply Z.eqb_neq. intros H. apply E.
    by apply byte_val_inj.
Qed.

(** ** Lists *)

Lemma take_length_take {A} (n : nat) (l : list A) : take (length (take n l)) l = take n l.
Proof.
  rewrite length_take. destruct (Nat.le_ge_cases n (length l)).
  - by rewrite Nat.min_l.
  - by rewrite Nat.min_r, !take_ge by lia.
Qed.

(** ** Automation *)

Create HintDb bw discriminated.
#[export] Hint Resolve ptr_mod_bounds byte_val_range u32_range u64_range uptr_range : bw.

(** Turn boolean comparisons of the context into propositions. *)
Ltac zify_bools :=
  repeat match goal with
  | H : (_ && _)%bool = true |- _ => apply andb_true_iff in H as [? ?]
  | H : (_ || _)%bool = false |- _ => apply orb_false_iff in H as [? ?]
  | H : negb _ = true |- _ => apply negb_true_iff in H
  | H : negb _ = false |- _ => apply negb_false_iff in H
  | H : (_ <? _) = true |- _ => apply Z.ltb_lt in H
  | H : (_ <? _) = false |- _ => apply Z.ltb_ge in H
  | H : (_ <=? _) = true |- _ => apply Z.leb_le in H
  | H : (_ <=? _) = false |- _ => apply Z.leb_gt in H
  | H : (_ =? _) = true |- _ => apply Z.eqb_eq in H
  | H : (_ =? _) = false |- _ => apply Z.eqb_neq in H
  | H : (_ >? _) = true |- _ => rewrite Z.gtb_ltb in H; apply Z.ltb_lt in H
  | H : (_ >? _) = false |- _ => rewrite Z.gtb_ltb in H; apply Z.ltb_ge in H
  | H : (_ >=? _) = true |- _ => rewrite Z.geb_leb in H; apply Z.leb_le in H
  | H : (_ >=? _) = false |- _ => rewrite Z.geb_leb in H; apply Z.leb_gt in H
  end.

(** [lia] with the pointer-width bounds and the boolean tests. *)
Ltac bw_lia :=
  zify_bools; try (pose proof ptr_mod_bounds); lia.

(** Destruct every conditional of the goal on an integer test. *)
Ltac case_if :=
  match goal with
  | |- context [if ?b then _ else _] =>
      let E := fresh "E" in destruct b eqn:E
  end.

(** Decide a closed goal about concrete data by computing it. *)
Ltac concrete :=
  repeat match goal with |- _ ∧ _ => split end;
  vm_compute; first [reflexivity | discriminate | intuition discriminate].
