(* ===== verification/CMonad.v ===== *)
(** * The control flow of the C code

    A C function of the library returns nonzero ("success"), returns 0, or runs
    into undefined behaviour.  The computations below thread the state the
    function mutates through the first two (a failing function keeps the side
    effects it had before it failed), and stop at the third.  [NoFuel] is the
    result of a loop whose fuel is exhausted; every loop's fuel is shown to be
    enough by the safety theorems, whose weakest preconditions exclude it. *)

From S2P Require Import Prelude.

(** The undefined behaviours the model distinguishes. *)
Inductive ub :=
| OobRead          (** a read outside the object the pointer was derived from *)
| OobWrite         (** a write outside the array *)
| SignedOverflow (a b : Z) (** [a + b] outside [int64_t], which is undefined *)
| Indeterminate    (** a read of a local array cell that was never written *)
| BadFree.         (** a [free] of a block that is not allocated *)

#[export] Instance ub_eq_dec : EqDecision ub.
Proof. solve_decision. Defined.

Inductive outcome (S A : Type) :=
| Done (a : A) (s : S)
| Fail (s : S)
| Fault (u : ub)
| NoFuel.
Arguments Done {S A} a s.
Arguments Fail {S A} s.
Arguments Fault {S A} u.
Arguments NoFuel {S A}.

Definition M (S A : Type) : Type := S → outcome S A.

Declare Scope c_scope.
Delimit Scope c_scope with c.
Global Open Scope c_scope.

Section monad.
Context {S : Type}.

Definition ret {A} (a : A) : M S A := λ s, Done a s.
Definition fail {A} : M S A := λ s, Fail s.
Definition fault {A} (u : ub) : M S A := λ _, Fault u.
Definition no_fuel {A} : M S A := λ _, NoFuel.
Definition get : M S S := λ s, Done s s.
Definition put (s : S) : M S unit := λ _, Done tt s.

Definition bind {A B} (m : M S A) (k : A → M S B) : M S B := λ s,
  match m s with
  | Done a s' => k a s'
  | Fail s' => Fail s'
  | Fault u => Fault u
  | NoFuel => NoFuel
  end.

(** A read or a write that may leave its object. *)
Definition of_option {A} (u : ub) (o : option A) : M S A :=
  match o with Some a => ret a | None => fault u end.

(** The truth value of a call whose result is tested: success is [Some]. *)
Definition try {A} (m : M S A) : M S (option A) := λ s,
  match m s with
  | Done a s' => Done (Some a) s'
  | Fail s' => Done None s'
  | Fault u => Fault u
  | NoFuel => NoFuel
  end.

(** Signed 64-bit addition; overflow is undefined. *)
Definition add_s64 (a b : Z) : M S Z :=
  if ((- 2 ^ 63 <=? a + b) && (a + b <? 2 ^ 63))%bool then ret (a + b)
  else fault (SignedOverflow a b).
End monad.

(** A call on a part of the state, through the pointer to that part. *)
Definition zoom {S T A} (prj : S → T) (upd : T → S → S) (m : M T A) : M S A := λ s,
  match m (prj s) with
  | Done a t => Done a (upd t s)
  | Fail t => Fail (upd t s)
  | Fault u => Fault u
  | NoFuel => NoFuel
  end.

Notation "'let*' x ':=' m 'in' k" := (bind m (λ x, k))
  (at level 10, x binder, m at level 100, k at level 200) : c_scope.
Notation "'do*' m 'in' k" := (bind m (λ _, k))
  (at level 10, m at level 100, k at level 200) : c_scope.

(** ** Weakest preconditions

    [wp U F Q o] holds of an outcome that is a success satisfying [Q], a
    failure satisfying [F] or an undefined behaviour [U] allows; running out
    of fuel is never allowed. *)

Definition wp {S A} (U : ub → Prop) (F : S → Prop) (Q : A → S → Prop)
    (o : outcome S A) : Prop :=
  match o with
  | Done a s => Q a s
  | Fail s => F s
  | Fault u => U u
  | NoFuel => False
  end.

(** No undefined behaviour at all. *)
Definition no_ub : ub → Prop := λ _, False.

(** No undefined behaviour but a signed addition that overflows. *)
Definition overflow_only : ub → Prop := λ u,
  ∃ a b, u = SignedOverflow a b ∧ ¬ - 2 ^ 63 ≤ a + b < 2 ^ 63.

Section wp.
Context {S : Type}.
Implicit Types (U : ub → Prop) (F : S → Prop) (s : S).

Lemma wp_ret {A} U F (Q : A → S → Prop) a s : Q a s → wp U F Q (ret a s).
Proof. done. Qed.

Lemma wp_fail {A} U F (Q : A → S → Prop) s : F s → wp U F Q (fail s).
Proof. done. Qed.

Lemma wp_get U F (Q : S → S → Prop) s : Q s s → wp U F Q (get s).
Proof. done. Qed.

Lemma wp_put U F (Q : unit → S → Prop) s s' : Q tt s' → wp U F Q (put s' s).
Proof. done. Qed.

Lemma wp_bind {A B} U F (Q : B → S → Prop) (m : M S A) (k : A → M S B) s :
  wp U F (λ a s', wp U F Q (k a s')) (m s) → wp U F Q (bind m k s).
Proof. unfold bind, wp. destruct (m s); auto. Qed.

Lemma wp_of_option {A} U F (Q : A → S → Prop) u (o : option A) s :
  (∀ a, o = Some a → Q a s) → (o = None → U u) → wp U F Q (of_option u o s).
Proof. destruct o; simpl; auto. Qed.

Lemma wp_try {A} U F (Q : option A → S → Prop) (m : M S A) s :
  wp U (λ s', Q None s') (λ a s', Q (Some a) s') (m s) → wp U F Q (try m s).
Proof. unfold try, wp. destruct (m s); auto. Qed.

Lemma wp_add_s64 U F (Q : Z → S → Prop) a b s :
  (- 2 ^ 63 ≤ a + b < 2 ^ 63 → Q (a + b) s) →
  (¬ - 2 ^ 63 ≤ a + b < 2 ^ 63 → U (SignedOverflow a b)) →
  wp U F Q (add_s64 a b s).
Proof.
  intros HQ HU. unfold add_s64.
  destruct ((- 2 ^ 63 <=? a + b) && (a + b <? 2 ^ 63))%bool eqn:E; simpl.
  - apply HQ. zify_bools. lia.
  - apply HU. apply andb_false_iff in E as [E|E]; zify_bools; lia.
Qed.

Lemma wp_mono {A} U F (Q : A → S → Prop) (U' : ub → Prop) (F' : S → Prop)
    (Q' : A → S → Prop) o :
  wp U F Q o → (∀ u, U u → U' u) → (∀ s, F s → F' s) → (∀ a s, Q a s → Q' a s) →
  wp U' F' Q' o.
Proof. unfold wp. destruct o; auto. Qed.

(** The rule for a call: use what is proved of the callee. *)
Lemma wp_call {A} U F (Q : A → S → Prop) (F' : S → Prop) (Q' : A → S → Prop) o :
  wp U F' Q' o → (∀ s, F' s → F s) → (∀ a s, Q' a s → Q a s) → wp U F Q o.
Proof. intros. eapply wp_mono; eauto. Qed.

Lemma wp_conj {A} U F (Q1 Q2 : A → S → Prop) o :
  wp U F Q1 o → wp U F Q2 o → wp U F (λ a s, Q1 a s ∧ Q2 a s) o.
Proof. unfold wp. destruct o; auto. Qed.
End wp.

Lemma wp_zoom {S T A} U (F : S → Prop) (Q : A → S → Prop) prj upd (m : M T A) s :
  wp U (λ t, F (upd t s)) (λ a t, Q a (upd t s)) (m (prj s)) →
  wp U F Q (zoom prj upd m s).
Proof. unfold zoom, wp. destruct (m (prj s)); auto. Qed.

Lemma wp_no_ub {S A} U (F : S → Prop) (Q : A → S → Prop) o :
  wp no_ub F Q o → wp U F Q o.
Proof. intros H. eapply wp_mono; eauto. intros ? []. Qed.

(** A successful run satisfies the weakest precondition's postcondition. *)
Lemma wp_done {S A} U (F : S → Prop) (Q : A → S → Prop) o a s :
  wp U F Q o → o = Done a s → Q a s.
Proof. by intros H ->. Qed.

(** One step of symbolic execution. *)
Ltac wp_step :=
  lazymatch goal with
  | |- wp _ _ _ (bind _ _ _) => apply wp_bind
  | |- wp _ _ _ (ret _ _) => apply wp_ret
  | |- wp _ _ _ (fail _) => apply wp_fail
  | |- wp _ _ _ (get _) => apply wp_get
  | |- wp _ _ _ (put _ _) => apply wp_put
  | |- wp _ _ _ (try _ _) => apply wp_try
  | |- wp _ _ _ (zoom _ _ _ _) => apply wp_zoom
  | |- wp _ _ _ ((if ?b then _ else _) _) => let E := fresh "E" in destruct b eqn:E
  end.
Ltac wp_steps := repeat (wp_step; cbn beta).

(** Use the specification [lem] of the call at the head of the goal. *)
Tactic Notation "wp_use" uconstr(lem) :=
  eapply wp_call; [eapply lem | cbn beta; try (intros; done) | cbn beta].

(** ** Counted loops and local objects *)

Fixpoint for_steps {S A} (n : nat) (i : Z) (body : Z → A → M S A) (a : A) : M S A :=
  match n with
  | O => ret a
  | Datatypes.S n' => let* a' := body i a in for_steps n' (i + 1) body a'
  end.

(** [for (i = lo; i < hi; ++i) body], threading the variables [a] the body
    assigns. *)
Definition for_range {S A} (lo hi : Z) (body : Z → A → M S A) (a : A) : M S A :=
  for_steps (Z.to_nat (hi - lo)) lo body a.

(** A call that works on a local object [t], whose final value is returned. *)
Definition with_local {S T A} (m : M T A) (t : T) : M S (A * T) := λ s,
  match m t with
  | Done a t' => Done (a, t') s
  | Fail _ => Fail s
  | Fault u => Fault u
  | NoFuel => NoFuel
  end.

Lemma wp_with_local {S T A} U (F : S → Prop) (Q : A * T → S → Prop) (m : M T A) t s :
  wp U (λ _, F s) (λ a t', Q (a, t') s) (m t) → wp U F Q (with_local m t s).
Proof. unfold with_local, wp. destruct (m t); auto. Qed.

(** The invariant rule for a counted loop. *)
Lemma wp_for_range {S A} U (F : S → Prop) (Q : A → S → Prop) (I : Z → A → S → Prop)
    lo hi (body : Z → A → M S A) a s :
  lo ≤ hi → I lo a s →
  (∀ i a s, lo ≤ i < hi → I i a s → wp U F (λ a' s', I (i + 1) a' s') (body i a s)) →
  (∀ a s, I hi a s → Q a s) →
  wp U F Q (for_range lo hi body a s).
Proof.
  intros Hle HI Hbody HQ. unfold for_range.
  assert (Hsteps : ∀ n i a s, lo ≤ i → i + Z.of_nat n = hi → I i a s →
    wp U F Q (for_steps n i body a s)).
  { induction n as [|n IH]; intros i a' s' Hi Hn HI'; simpl.
    - apply HQ. by replace hi with i by lia.
    - apply wp_bind. eapply wp_call; [apply Hbody; [lia|done]|done|].
      intros a'' s'' HI''. apply IH; [lia|lia|done]. }
  apply Hsteps; [lia|lia|done].
Qed.

(** A counted loop whose rounds have no effect but on the threaded variable. *)
Lemma for_range_pure {S A} (I : A → Prop) (f : A → Z → A) lo hi (body : Z → A → M S A) a (s : S) :
  I a → (∀ i a, lo ≤ i < hi → I a → body i a s = Done (f a i) s ∧ I (f a i)) →
  for_range lo hi body a s = Done (foldl f a (seqZ lo (hi - lo))) s ∧
  I (foldl f a (seqZ lo (hi - lo))).
Proof.
  intros HI Hbody. unfold for_range.
  assert (Hsteps : ∀ n i a, lo ≤ i → i + Z.of_nat n ≤ hi → I a →
    for_steps n i body a s = Done (foldl f a (seqZ i (Z.of_nat n))) s ∧
    I (foldl f a (seqZ i (Z.of_nat n)))).
  { induction n as [|n IH]; intros i a' Hi Hn HI'; [done|].
    destruct (Hbody i a') as [E HI'']; [lia|done|].
    rewrite (seqZ_cons i) by lia. cbn [for_steps foldl]. unfold bind. rewrite E.
    replace (Z.pred (Z.of_nat (Datatypes.S n))) with (Z.of_nat n) by lia.
    rewrite <- Z.add_1_r. apply IH; [lia|lia|done]. }
  destruct (decide (lo ≤ hi)).
  - rewrite <- (Z2Nat.id (hi - lo)) at 2 3 by lia. apply Hsteps; [lia|lia|done].
  - replace (Z.to_nat (hi - lo)) with 0%nat by lia. rewrite seqZ_nil by lia. done.
Qed.
