(* ===== verification/CMem.v ===== *)
(** * Objects in memory: spans, arrays and C strings

    A pointer into a mapped section is a flat address (a [Z] below [2^ptr_bits]),
    because the code compares and subtracts such pointers; the section it may
    read is a [span].  An array with a fixed capacity is a finite map from the
    indices written so far.  A [const char *] is what it can read: the byte at
    each index, or nothing where the object ends. *)

From S2P Require Import Prelude CMonad.

(** ** Spans: a base address and the bytes readable from it *)

Record span := Span { sp_base : Z; sp_bytes : list byte }.

(** The null pointer with length 0. *)
Definition null_span : span := Span 0 [].

Definition sp_len (s : span) : Z := Z.of_nat (length (sp_bytes s)).
Definition sp_end (s : span) : Z := sp_base s + sp_len s.
Definition sp_null (s : span) : bool := sp_base s =? 0.

(** The byte at a flat address, if the address is inside the span. *)
Definition sp_read (s : span) (a : Z) : option byte :=
  if a <? sp_base s then None else sp_bytes s !! Z.to_nat (a - sp_base s).

Lemma sp_len_nonneg s : 0 ≤ sp_len s.
Proof. unfold sp_len. lia. Qed.
#[export] Hint Resolve sp_len_nonneg : bw.

Lemma sp_read_inside s a : sp_base s ≤ a < sp_end s → ∃ b, sp_read s a = Some b.
Proof.
  unfold sp_end, sp_len, sp_read. intros Ha.
  destruct (Z.ltb_spec a (sp_base s)); [lia|].
  destruct (lookup_lt_is_Some_2 (sp_bytes s) (Z.to_nat (a - sp_base s))) as [b Hb]; [lia|].
  eauto.
Qed.

Lemma sp_read_outside s a : a < sp_base s ∨ sp_end s ≤ a → sp_read s a = None.
Proof.
  unfold sp_end, sp_len, sp_read. intros Ha.
  destruct (Z.ltb_spec a (sp_base s)); [done|].
  apply lookup_ge_None. lia.
Qed.

(** ** Arrays of fixed capacity *)

Section arrays.
Context {S A : Type}.

Definition in_bounds (cap i : Z) : bool := ((0 <=? i) && (i <? cap))%bool.

(** A cell of a static array: zero-initialised storage, [d] where it was
    never written. *)
Definition arr_load0 (cap : Z) (d : A) (a : gmap Z A) (i : Z) : M S A :=
  if in_bounds cap i then ret (default d (a !! i)) else fault OobRead.

(** A cell of an automatic array, indeterminate until written. *)
Definition arr_load (cap : Z) (a : gmap Z A) (i : Z) : M S A :=
  if in_bounds cap i then of_option Indeterminate (a !! i) else fault OobRead.

Definition arr_store (cap : Z) (a : gmap Z A) (i : Z) (x : A) : M S (gmap Z A) :=
  if in_bounds cap i then ret (<[i:=x]> a) else fault OobWrite.

(** The [n] cells from index [lo]. *)
Definition arr_seg (d : A) (a : gmap Z A) (lo n : Z) : list A :=
  (λ i, default d (a !! i)) <$> seqZ lo n.

(** Writing a list of values from index [lo]. *)
Fixpoint arr_write (a : gmap Z A) (lo : Z) (l : list A) : gmap Z A :=
  match l with
  | [] => a
  | x :: l' => arr_write (<[lo:=x]> a) (lo + 1) l'
  end.

Lemma in_bounds_true cap i : in_bounds cap i = true ↔ 0 ≤ i < cap.
Proof. unfold in_bounds. rewrite andb_true_iff, Z.leb_le, Z.ltb_lt. done. Qed.

Lemma wp_arr_load0 U F (Q : A → S → Prop) cap d a i s :
  0 ≤ i < cap → Q (default d (a !! i)) s → wp U F Q (arr_load0 cap d a i s).
Proof. intros Hi HQ. unfold arr_load0. by rewrite (proj2 (in_bounds_true cap i) Hi). Qed.

Lemma wp_arr_load U F (Q : A → S → Prop) cap a i x s :
  0 ≤ i < cap → a !! i = Some x → Q x s → wp U F Q (arr_load cap a i s).
Proof.
  intros Hi Ha HQ. unfold arr_load.
  by rewrite (proj2 (in_bounds_true cap i) Hi), Ha.
Qed.

Lemma wp_arr_store U F (Q : gmap Z A → S → Prop) cap a i x s :
  0 ≤ i < cap → Q (<[i:=x]> a) s → wp U F Q (arr_store cap a i x s).
Proof. intros Hi HQ. unfold arr_store. by rewrite (proj2 (in_bounds_true cap i) Hi). Qed.

Lemma length_arr_seg d a lo n : 0 ≤ n → Z.of_nat (length (arr_seg d a lo n)) = n.
Proof. intros. unfold arr_seg. rewrite length_fmap, length_seqZ. lia. Qed.

Lemma lookup_arr_seg d a lo n (k : nat) :
  Z.of_nat k < n → arr_seg d a lo n !! k = Some (default d (a !! (lo + Z.of_nat k))).
Proof. intros. unfold arr_seg. by rewrite list_lookup_fmap, lookup_seqZ_lt by lia. Qed.

Lemma arr_seg_ext d a a' lo n :
  (∀ i, lo ≤ i < lo + n → a !! i = a' !! i) → arr_seg d a lo n = arr_seg d a' lo n.
Proof.
  intros Heq. unfold arr_seg. apply list_fmap_ext. intros k i Hi.
  apply lookup_seqZ in Hi as [-> Hk]. by rewrite Heq by lia.
Qed.

Lemma arr_seg_insert_ge d a lo n i x :
  lo + n ≤ i → arr_seg d (<[i:=x]> a) lo n = arr_seg d a lo n.
Proof. intros. apply arr_seg_ext. intros j Hj. apply lookup_insert_ne. lia. Qed.

Lemma arr_seg_snoc d a lo n :
  0 ≤ n → arr_seg d a lo (n + 1) = arr_seg d a lo n ++ [default d (a !! (lo + n))].
Proof.
  intros. unfold arr_seg. rewrite seqZ_app, fmap_app by lia. done.
Qed.

Lemma arr_seg_app d a lo n m :
  0 ≤ n → 0 ≤ m → arr_seg d a lo (n + m) = arr_seg d a lo n ++ arr_seg d a (lo + n) m.
Proof. intros. unfold arr_seg. by rewrite seqZ_app, fmap_app by lia. Qed.

Lemma arr_write_app a lo l1 l2 :
  arr_write a lo (l1 ++ l2) = arr_write (arr_write a lo l1) (lo + Z.of_nat (length l1)) l2.
Proof.
  revert a lo. induction l1 as [|x l1 IH]; intros a lo; simpl.
  - by rewrite Z.add_0_r.
  - rewrite IH. f_equal. lia.
Qed.

Lemma arr_write_snoc a lo l x :
  arr_write a lo (l ++ [x]) = <[lo + Z.of_nat (length l):=x]> (arr_write a lo l).
Proof. by rewrite arr_write_app. Qed.

Lemma arr_write_lookup_lt a lo l i : i < lo → arr_write a lo l !! i = a !! i.
Proof.
  revert a lo. induction l as [|x l IH]; intros a lo Hi; simpl; [done|].
  rewrite IH by lia. apply lookup_insert_ne. lia.
Qed.

Lemma arr_write_lookup_ge a lo l i :
  lo + Z.of_nat (length l) ≤ i → arr_write a lo l !! i = a !! i.
Proof.
  revert a lo. induction l as [|x l IH]; intros a lo Hi; simpl in *; [done|].
  rewrite IH by lia. apply lookup_insert_ne. lia.
Qed.

Lemma arr_write_lookup a lo l (k : nat) x :
  l !! k = Some x → arr_write a lo l !! (lo + Z.of_nat k) = Some x.
Proof.
  revert a lo k. induction l as [|y l IH]; intros a lo k Hk; [done|].
  destruct k as [|k]; simpl in *; simplify_eq.
  - rewrite arr_write_lookup_lt by lia. rewrite Z.add_0_r. apply lookup_insert_eq.
  - rewrite <- (IH (<[lo:=y]> a) (lo + 1) k Hk). f_equal. lia.
Qed.

Lemma arr_seg_write d a lo l :
  arr_seg d (arr_write a lo l) lo (Z.of_nat (length l)) = l.
Proof.
  apply list_eq. intros k. destruct (decide (k < length l)%nat) as [Hk|Hk].
  - rewrite lookup_arr_seg by lia. destruct (lookup_lt_is_Some_2 l k Hk) as [x Hx].
    by rewrite (arr_write_lookup _ _ _ _ _ Hx), Hx.
  - rewrite !lookup_ge_None_2; [done|lia|].
    unfold arr_seg. rewrite length_fmap, length_seqZ. lia.
Qed.
End arrays.

(** ** C strings *)

(** What a [const char *] can read, by index. *)
Definition cptr := Z → option byte.

(** The string literal of bytes [l], with its terminating NUL. *)
Definition c_lit (l : list byte) : cptr := λ i,
  if i <? 0 then None else (l ++ [x00]) !! Z.to_nat i.

(** A pointer into a span at flat address [a]. *)
Definition sp_cptr (s : span) (a : Z) : cptr := λ i, sp_read s (a + i).

(** A pointer to index [o] of a static byte array. *)
Definition arr_cptr0 (cap : Z) (a : gmap Z byte) (o : Z) : cptr := λ i,
  if in_bounds cap (o + i) then Some (default x00 (a !! (o + i))) else None.

(** A pointer to the start of an automatic byte array. *)
Definition arr_cptr (cap : Z) (a : gmap Z byte) : cptr := λ i,
  if in_bounds cap i then a !! i else None.

(** [s[i]] *)
Definition c_at {S} (s : cptr) (i : Z) : M S byte := of_option OobRead (s i).

(** [strlen], from index [i] on. *)
Fixpoint strlen_from {S} (fuel : nat) (s : cptr) (i : Z) : M S Z :=
  match fuel with
  | O => no_fuel
  | Datatypes.S fuel' =>
      let* b := c_at s i in
      if is_nul b then ret i else strlen_from fuel' s (i + 1)
  end.

Definition strlen {S} (fuel : nat) (s : cptr) : M S Z := strlen_from fuel s 0.

(** [s] points to the NUL-terminated string [l]. *)
Definition is_cstr (s : cptr) (l : list byte) : Prop :=
  (∀ (i : nat) b, l !! i = Some b → s (Z.of_nat i) = Some b) ∧
  s (Z.of_nat (length l)) = Some x00 ∧
  Forall (λ b, b ≠ x00) l.

(** The longest prefix without a NUL. *)
Fixpoint until_nul (l : list byte) : list byte :=
  match l with
  | [] => []
  | b :: l' => if is_nul b then [] else b :: until_nul l'
  end.

Lemma until_nul_no_nul l : Forall (λ b, b ≠ x00) (until_nul l).
Proof.
  induction l as [|b l IH]; simpl; [constructor|].
  destruct (is_nul b) eqn:E; constructor; [by apply is_nul_false|done].
Qed.

Lemma until_nul_id l : Forall (λ b, b ≠ x00) l → until_nul l = l.
Proof.
  induction 1 as [|b l Hb Hl IH]; simpl; [done|].
  by rewrite (proj2 (is_nul_false b) Hb), IH.
Qed.

Lemma until_nul_app l r : Forall (λ b, b ≠ x00) l → until_nul (l ++ x00 :: r) = l.
Proof.
  induction 1 as [|b l Hb Hl IH]; simpl; [done|].
  by rewrite (proj2 (is_nul_false b) Hb), IH.
Qed.

Lemma is_cstr_lit l : Forall (λ b, b ≠ x00) l → is_cstr (c_lit l) l.
Proof.
  intros Hl. unfold is_cstr, c_lit. split_and!; [| |done].
  - intros i b Hb. destruct (Z.ltb_spec (Z.of_nat i) 0); [lia|].
    rewrite Nat2Z.id. by apply lookup_app_l_Some.
  - destruct (Z.ltb_spec (Z.of_nat (length l)) 0); [lia|].
    by rewrite Nat2Z.id, lookup_app_r, Nat.sub_diag.
Qed.

Lemma is_cstr_at s l (i : nat) :
  is_cstr s l → (i ≤ length l)%nat → ∃ b, s (Z.of_nat i) = Some b ∧
    (is_nul b = true ↔ i = length l) ∧ (∀ c, l !! i = Some c → c = b).
Proof.
  intros (Hl & Hend & Hnz) Hi. destruct (decide (i = length l)) as [->|Hne].
  - exists x00. split_and!; [done|done|]. intros c Hc.
    apply lookup_lt_Some in Hc. lia.
  - destruct (lookup_lt_is_Some_2 l i) as [b Hb]; [lia|].
    exists b. split_and!; [by apply Hl| |by intros; simplify_eq].
    split; [|lia]. intros E%is_nul_true. rewrite Forall_lookup in Hnz.
    destruct (Hnz _ _ Hb E).
Qed.

Lemma strlen_from_cstr {S} s l (i fuel : nat) (st : S) :
  is_cstr s l → (i ≤ length l)%nat → (length l - i < fuel)%nat →
  strlen_from fuel s (Z.of_nat i) st = Done (Z.of_nat (length l)) st.
Proof.
  intros Hs. revert i. induction fuel as [|fuel IH]; intros i Hi Hf; [lia|].
  simpl. destruct (is_cstr_at s l i Hs Hi) as (b & Hb & Hn & _).
  unfold bind, c_at. rewrite Hb. simpl. destruct (is_nul b) eqn:E.
  - by rewrite (proj1 Hn eq_refl).
  - replace (Z.of_nat i + 1) with (Z.of_nat (Datatypes.S i)) by lia. apply IH; [|lia].
    assert (i ≠ length l) by (intros ->; destruct Hn; intuition congruence). lia.
Qed.

Lemma strlen_cstr {S} s l fuel (st : S) :
  is_cstr s l → (length l < fuel)%nat →
  strlen fuel s st = Done (Z.of_nat (length l)) st.
Proof. intros. apply (strlen_from_cstr s l 0); [done|lia|lia]. Qed.

(** *** Strings inside a span *)

Lemma elem_until_nul l : x00 ∈ l → l !! length (until_nul l) = Some x00.
Proof.
  induction l as [|b l IH]; intros Hin; [by apply not_elem_of_nil in Hin|].
  simpl. destruct (is_nul b) eqn:E; simpl.
  - f_equal. by apply is_nul_true.
  - apply IH. apply elem_of_cons in Hin as [<-|]; [|done].
    by rewrite (proj2 (is_nul_true x00)) in E.
Qed.

Lemma until_nul_lookup l (i : nat) b : until_nul l !! i = Some b → l !! i = Some b.
Proof.
  revert i. induction l as [|c l IH]; intros i; simpl; [done|].
  destruct (is_nul c); [done|]. destruct i; simpl; auto.
Qed.

Lemma is_cstr_span s a :
  sp_base s ≤ a → x00 ∈ drop (Z.to_nat (a - sp_base s)) (sp_bytes s) →
  is_cstr (sp_cptr s a) (until_nul (drop (Z.to_nat (a - sp_base s)) (sp_bytes s))).
Proof.
  intros Ha Hin. set (k := Z.to_nat (a - sp_base s)).
  assert (Hrd : ∀ i : nat, sp_cptr s a (Z.of_nat i) = drop k (sp_bytes s) !! i).
  { intros i. unfold sp_cptr, sp_read. rewrite lookup_drop.
    destruct (Z.ltb_spec (a + Z.of_nat i) (sp_base s)); [lia|]. f_equal. lia. }
  split_and!.
  - intros i b Hb. rewrite Hrd. by apply until_nul_lookup.
  - rewrite Hrd. by apply elem_until_nul.
  - apply until_nul_no_nul.
Qed.

(** The last byte of the section is NUL, so that every string in it ends. *)
Definition nul_terminated (s : span) : Prop := last (sp_bytes s) = Some x00.

Lemma nul_terminated_cstr s a :
  nul_terminated s → sp_base s ≤ a < sp_end s →
  ∃ l, is_cstr (sp_cptr s a) l ∧ a + Z.of_nat (length l) < sp_end s.
Proof.
  intros Hnul Ha. unfold nul_terminated in Hnul.
  assert (Hin : x00 ∈ drop (Z.to_nat (a - sp_base s)) (sp_bytes s)).
  { rewrite last_lookup in Hnul. apply list_elem_of_lookup.
    exists (pred (length (sp_bytes s)) - Z.to_nat (a - sp_base s))%nat.
    rewrite lookup_drop, <- Hnul. f_equal. unfold sp_end, sp_len in Ha. lia. }
  eexists. split; [apply is_cstr_span; [lia|done]|].
  apply elem_until_nul in Hin. apply lookup_lt_Some in Hin.
  rewrite length_drop in Hin. unfold sp_end, sp_len in *. lia.
Qed.

(** Every index up to the terminator is readable. *)
Lemma is_cstr_readable s l (i : Z) :
  is_cstr s l → 0 ≤ i ≤ Z.of_nat (length l) → ∃ b, s i = Some b.
Proof.
  intros Hs Hi. destruct (is_cstr_at s l (Z.to_nat i) Hs) as (b & Hb & _); [lia|].
  exists b. by rewrite Z2Nat.id in Hb by lia.
Qed.

(** ** Bounded copies

    [while (src[j] != '\0' && i + 1 < dst_len) dst[i++] = src[j++];], the loop
    with which the library copies strings into a caller's buffer of [dst_len]
    bytes; the state is the buffer, the result the final [i]. *)

Fixpoint copy_loop (fuel : nat) (dst_len : Z) (src : cptr) (i j : Z) : M (gmap Z byte) Z :=
  match fuel with
  | O => no_fuel
  | Datatypes.S fuel' =>
      let* b := c_at src j in
      if is_nul b then ret i else
      if i + 1 <? dst_len then
        let* dst := get in
        let* dst' := arr_store dst_len dst i b in
        do* put dst' in
        copy_loop fuel' dst_len src (i + 1) (j + 1)
      else ret i
  end.

(** A buffer of [n] bytes needs no more iterations than this. *)
Definition buf_fuel (n : Z) : nat := Datatypes.S (Z.to_nat n).

(** [dst[i] = '\0'] *)
Definition put_nul (dst_len i : Z) : M (gmap Z byte) unit :=
  let* dst := get in
  let* dst' := arr_store dst_len dst i x00 in
  put dst'.

Lemma copy_loop_eq fuel dst_len src l (i : Z) (j : nat) dst :
  is_cstr src l → (j ≤ length l)%nat → 0 ≤ i < dst_len → dst_len - i < Z.of_nat fuel →
  let w := take (Z.to_nat (dst_len - 1 - i)) (drop j l) in
  copy_loop fuel dst_len src i (Z.of_nat j) dst =
  Done (i + Z.of_nat (length w)) (arr_write dst i w).
Proof.
  intros Hs. revert i j dst. induction fuel as [|fuel IH]; intros i j dst Hj Hi Hf w; [lia|].
  unfold w. simpl. destruct (is_cstr_at src l j Hs Hj) as (b & Hb & Hz & Hl).
  unfold bind, c_at. rewrite Hb. cbn [of_option ret]. destruct (is_nul b) eqn:E.
  - rewrite (proj1 Hz eq_refl), drop_all, take_nil. simpl. by rewrite Z.add_0_r.
  - assert (j ≠ length l) by (intros Hjl; by apply Hz in Hjl).
    destruct (lookup_lt_is_Some_2 l j) as [b' Hb']; [lia|].
    assert (b' = b) as -> by auto. rewrite (drop_S l b j Hb').
    destruct (Z.ltb_spec (i + 1) dst_len).
    + unfold get, arr_store, put, ret. rewrite (proj2 (in_bounds_true _ _)) by lia.
      replace (Z.of_nat j + 1) with (Z.of_nat (Datatypes.S j)) by lia.
      rewrite IH by lia. cbv zeta.
      replace (Z.to_nat (dst_len - 1 - i)) with (Datatypes.S (Z.to_nat (dst_len - 1 - (i + 1))))
        by lia.
      simpl. f_equal. lia.
    + replace (Z.to_nat (dst_len - 1 - i)) with 0%nat by lia. simpl.
      by rewrite Z.add_0_r.
Qed.

(** The copy of a whole string, as the callers start it. *)
Lemma copy_loop_start dst_len src l (i : Z) dst :
  is_cstr src l → 0 ≤ i < dst_len →
  let w := take (Z.to_nat (dst_len - 1 - i)) l in
  copy_loop (buf_fuel dst_len) dst_len src i 0 dst =
  Done (i + Z.of_nat (length w)) (arr_write dst i w).
Proof.
  intros Hs Hi. apply (copy_loop_eq _ dst_len src l i 0); [done|lia|done|].
  unfold buf_fuel. lia.
Qed.

(** A buffer written from its start with [l] and a NUL holds the string [l]. *)
Lemma is_cstr_buf cap (a : gmap Z byte) l :
  Z.of_nat (length l) < cap → Forall (λ b, b ≠ x00) l →
  is_cstr (arr_cptr cap (<[Z.of_nat (length l):=x00]> (arr_write a 0 l))) l.
Proof.
  intros Hcap Hl. unfold arr_cptr. split_and!; [|..|done].
  - intros i b Hb. pose proof (lookup_lt_Some _ _ _ Hb).
    rewrite (proj2 (in_bounds_true _ _)) by lia. rewrite lookup_insert_ne by lia.
    by apply (arr_write_lookup a 0 l i).
  - rewrite (proj2 (in_bounds_true _ _)) by lia. apply lookup_insert_eq.
Qed.

(** ** String pools

    The string [l], with its terminator, is in the first [n] bytes of a static
    array, at offset [off]. *)
Definition pool_at (cap : Z) (a : gmap Z byte) (n off : Z) (l : list byte) : Prop :=
  0 ≤ off ∧ off + Z.of_nat (length l) < n ∧ is_cstr (arr_cptr0 cap a off) l.

(** Strings stay when the pool grows behind them. *)
Lemma pool_at_ext cap a a' n n' off l :
  n ≤ n' → (∀ i, i < n → a' !! i = a !! i) → pool_at cap a n off l → pool_at cap a' n' off l.
Proof.
  intros Hn Hs (Ho & Hl & Hc). split_and!; [done|lia|].
  assert (Heq : ∀ i : nat, (i ≤ length l)%nat →
    arr_cptr0 cap a' off (Z.of_nat i) = arr_cptr0 cap a off (Z.of_nat i)).
  { intros i Hi. unfold arr_cptr0. by rewrite Hs by lia. }
  destruct Hc as (H1 & H2 & H3). split_and!; [|by rewrite Heq|done].
  intros i b Hb. rewrite Heq; [by apply H1|]. apply lookup_lt_Some in Hb. lia.
Qed.

Lemma arr_cptr0_write cap (a : gmap Z byte) off l :
  0 ≤ off → off + Z.of_nat (length l) < cap → Forall (λ b, b ≠ x00) l →
  is_cstr (arr_cptr0 cap (arr_write a off (l ++ [x00])) off) l.
Proof.
  intros Ho Hcap Hl.
  assert (Hw : ∀ (i : nat) b, (l ++ [x00]) !! i = Some b →
    arr_cptr0 cap (arr_write a off (l ++ [x00])) off (Z.of_nat i) = Some b).
  { intros i b Hb. unfold arr_cptr0. pose proof (lookup_lt_Some _ _ _ Hb) as Hi.
    rewrite length_app in Hi. simpl in Hi. rewrite (proj2 (in_bounds_true _ _)) by lia.
    by rewrite (arr_write_lookup _ _ _ _ _ Hb). }
  split_and!; [|apply Hw; by rewrite lookup_app_r, Nat.sub_diag|done].
  intros i b Hb. apply Hw. by apply lookup_app_l_Some.
Qed.

(** A string put at the end of a pool. *)
Lemma pool_at_write cap a n l :
  0 ≤ n → n + Z.of_nat (length l) < cap → Forall (λ b, b ≠ x00) l →
  pool_at cap (arr_write a n (l ++ [x00])) (n + Z.of_nat (length l) + 1) n l.
Proof. intros. split_and!; [done|lia|by apply arr_cptr0_write]. Qed.
