(* ===== verification/Cursor.v ===== *)
(** * The byte cursor of the DWARF reader

    [bw_cur_t] and the readers [bw_cur_ok], [bw_u8] .. [bw_u64], [bw_uleb],
    [bw_sleb] and [bw_skip] of src/dwarf_line.c.  A cursor holds flat addresses;
    [sec] is the section its pointers range over.  The readers are first
    translated, then given two kinds of specification: [reader], which says
    that from a cursor inside the section no read leaves the section and the
    cursor only advances, and equations that give the result as a function of
    the bytes left ([rest]). *)

From S2P Require Import Prelude CMonad CMem.

Record bw_cur_t := BwCur { c_p : Z; c_end : Z; c_dwarf64 : Z }.

#[export] Instance bw_cur_eq_dec : EqDecision bw_cur_t.
Proof. solve_decision. Defined.

Definition set_p (p : Z) (c : bw_cur_t) : bw_cur_t := BwCur p (c_end c) (c_dwarf64 c).
Definition set_dwarf64 (d : Z) (c : bw_cur_t) : bw_cur_t := BwCur (c_p c) (c_end c) d.

Section cursor.
Context `{Platform} (sec : span).

Definition bw_cur_ok (c : bw_cur_t) (n : Z) : bool :=
  (negb (c_p c =? 0) && negb (c_end c =? 0) && (n <=? uptr (c_end c - c_p c)))%bool.

(** [c->p += n] *)
Definition advance (n : Z) (c : bw_cur_t) : bw_cur_t := set_p (uptr (c_p c + n)) c.

(** [*c->p] *)
Definition peek : M bw_cur_t byte :=
  let* c := get in of_option OobRead (sp_read sec (c_p c)).

(** [*c->p++], as an [unsigned char] value *)
Definition next_byte : M bw_cur_t Z :=
  let* c := get in
  let* b := peek in
  do* put (advance 1 c) in
  ret (byte_val b).

(** The little-endian integer [memcpy] copies from address [a]. *)
Fixpoint load_le (n : nat) (a : Z) : option Z :=
  match n with
  | O => Some 0
  | S n' =>
      b ← sp_read sec a;
      v ← load_le n' (uptr (a + 1));
      Some (byte_val b + 256 * v)
  end.

Definition bw_u8 : M bw_cur_t Z :=
  let* c := get in
  if negb (bw_cur_ok c 1) then fail else next_byte.

Definition bw_u16 : M bw_cur_t Z :=
  let* c := get in
  if negb (bw_cur_ok c 2) then fail else
  let* v := of_option OobRead (load_le 2 (c_p c)) in
  do* put (advance 2 c) in
  ret v.

Definition bw_u32 : M bw_cur_t Z :=
  let* c := get in
  if negb (bw_cur_ok c 4) then fail else
  let* v := of_option OobRead (load_le 4 (c_p c)) in
  do* put (advance 4 c) in
  ret v.

Definition bw_u64 : M bw_cur_t Z :=
  let* c := get in
  if negb (bw_cur_ok c 8) then fail else
  let* v := of_option OobRead (load_le 8 (c_p c)) in
  do* put (advance 8 c) in
  ret v.

(** The loop of [bw_uleb]: [shift] grows by 7 and the loop stops at 64, so
    ten iterations are enough. *)
Fixpoint bw_uleb_loop (fuel : nat) (r shift : Z) : M bw_cur_t Z :=
  match fuel with
  | O => no_fuel
  | S fuel' =>
      let* c := get in
      if bw_cur_ok c 1 then
        let* b := next_byte in
        let r := Z.lor r (u64 (Z.shiftl (Z.land b 127) shift)) in
        if Z.land b 128 =? 0 then ret r else
        let shift := shift + 7 in
        if 64 <=? shift then fail else bw_uleb_loop fuel' r shift
      else fail
  end.

Definition bw_uleb : M bw_cur_t Z := bw_uleb_loop 10 0 0.

(** The do-while loop of [bw_sleb]; its eleventh iteration fails. *)
Fixpoint bw_sleb_loop (fuel : nat) (r shift : Z) : M bw_cur_t Z :=
  match fuel with
  | O => no_fuel
  | S fuel' =>
      let* c := get in
      if (negb (bw_cur_ok c 1) || (64 <=? shift))%bool then fail else
      let* b := next_byte in
      let r := Z.lor r (u64 (Z.shiftl (Z.land b 127) shift)) in
      let shift := shift + 7 in
      if negb (Z.land b 128 =? 0) then bw_sleb_loop fuel' r shift else
      let r := if ((shift <? 64) && negb (Z.land b 64 =? 0))%bool
               then Z.lor r (u64 (Z.shiftl (2 ^ 64 - 1) shift)) else r in
      ret (sext 64 r)
  end.

Definition bw_sleb : M bw_cur_t Z := bw_sleb_loop 11 0 0.

Definition bw_skip (n : Z) : M bw_cur_t unit :=
  let* c := get in
  if negb (bw_cur_ok c n) then fail else put (advance n c).
End cursor.

(** ** Cursors inside their section *)

(** A section that can exist: not at the null address, and with a
    one-past-the-end address that is representable. *)
Definition span_ok `{Platform} (s : span) : Prop := 0 < sp_base s ∧ sp_end s < ptr_mod.

Section spec.
Context `{Platform} (sec : span) (Hsec : span_ok sec).

Definition cur_in (c : bw_cur_t) : Prop :=
  sp_base sec ≤ c_p c ≤ sp_end sec ∧ c_end c = sp_end sec.

(** [c'] is [c] moved forward by at least [k] bytes inside the section. *)
Definition adv (k : Z) (c c' : bw_cur_t) : Prop :=
  cur_in c' ∧ c_p c + k ≤ c_p c'.

(** A computation on the cursor that stays inside the section, advances by at
    least [k] bytes when it succeeds, and returns values satisfying [P]. *)
Definition reader {A} (k : Z) (P : A → Prop) (m : M bw_cur_t A) : Prop :=
  ∀ c, cur_in c → wp no_ub (adv 0 c) (λ a c', adv k c c' ∧ P a) (m c).

(** The bytes the cursor has not passed yet. *)
Definition rest (c : bw_cur_t) : list byte :=
  drop (Z.to_nat (c_p c - sp_base sec)) (sp_bytes sec).

Lemma adv_refl c : cur_in c → adv 0 c c.
Proof. unfold adv. intuition lia. Qed.

Lemma adv_trans j k c1 c2 c3 : adv j c1 c2 → adv k c2 c3 → adv (j + k) c1 c3.
Proof. unfold adv. intuition (try lia; congruence). Qed.

Lemma adv_weaken j k c c' : adv k c c' → j ≤ k → adv j c c'.
Proof. unfold adv. intuition lia. Qed.

(** Chains of moves, with the weaker bound the callers track. *)
Lemma adv_chain i j k c1 c2 c3 :
  adv j c1 c2 → adv k c2 c3 → i ≤ j + k → adv i c1 c3.
Proof. intros H1 H2 Hi. eapply adv_weaken; [by eapply adv_trans|done]. Qed.

Lemma adv_in k c c' : adv k c c' → cur_in c'.
Proof. by intros []. Qed.

Lemma cur_ok_iff c n : cur_in c → 0 ≤ n → bw_cur_ok c n = true ↔ c_p c + n ≤ sp_end sec.
Proof using Hsec.
  intros [Hp He] Hn. unfold bw_cur_ok. destruct Hsec as [Hb Hm].
  rewrite !andb_true_iff, !negb_true_iff, !Z.eqb_neq, Z.leb_le, He.
  rewrite uptr_small by lia. lia.
Qed.

Lemma cur_ok_false c n : cur_in c → 0 ≤ n → bw_cur_ok c n = false ↔ sp_end sec < c_p c + n.
Proof using Hsec.
  intros Hc Hn. rewrite <- not_true_iff_false, cur_ok_iff by done. lia.
Qed.

Lemma advance_p c n : cur_in c → 0 ≤ n → c_p c + n ≤ sp_end sec →
  advance n c = set_p (c_p c + n) c.
Proof using Hsec.
  intros [Hp He] Hn Hle. unfold advance. destruct Hsec. by rewrite uptr_small by lia.
Qed.

Lemma advance_adv c n : cur_in c → 0 ≤ n → c_p c + n ≤ sp_end sec → adv n c (advance n c).
Proof using Hsec.
  intros Hc Hn Hle. rewrite advance_p by done. destruct Hc as [Hp He].
  unfold adv, cur_in; simpl. lia.
Qed.

(** *** The reader logic *)

Lemma reader_ret {A} (P : A → Prop) a : P a → reader 0 P (ret a).
Proof. intros HP c Hc. simpl. auto using adv_refl. Qed.

Lemma reader_fail {A} k (P : A → Prop) : reader k P fail.
Proof. intros c Hc. simpl. auto using adv_refl. Qed.

Lemma reader_bind {A B} j k (P : A → Prop) (Q : B → Prop) m f :
  0 ≤ j → 0 ≤ k →
  reader j P m → (∀ a, P a → reader k Q (f a)) → reader (j + k) Q (bind m f).
Proof.
  intros Hj Hk Hm Hf c Hc. apply wp_bind. eapply wp_call; [by apply Hm|done|].
  intros a c1 [H1 Ha]. cbn beta. eapply wp_call; [apply Hf; eauto using adv_in| |].
  - intros c2 H2. apply (adv_weaken 0 (j + 0)); [by eapply adv_trans|lia].
  - intros b c2 [H2 Hb]. split; [by eapply adv_trans|done].
Qed.

(** The same rule when the lower bound of the advance is not tracked. *)
Lemma reader_bind0 {A B} (P : A → Prop) (Q : B → Prop) m f :
  reader 0 P m → (∀ a, P a → reader 0 Q (f a)) → reader 0 Q (bind m f).
Proof. intros. by apply (reader_bind 0 0 P). Qed.

Lemma reader_seq {A B} k (P : A → Prop) (Q : B → Prop) m f :
  0 ≤ k → reader k P m → (∀ a, P a → reader 0 Q (f a)) → reader 0 Q (bind m f).
Proof.
  intros Hk Hm Hf c Hc. apply wp_bind. eapply wp_call; [by apply Hm|done|].
  cbn beta. intros a c1 [H1 Ha]. eapply wp_call; [apply Hf; eauto using adv_in| |]; cbn beta.
  - intros c2 H2. apply (adv_chain 0 k 0 c c1); [done|done|lia].
  - intros b c2 [H2 Hb]. split; [apply (adv_chain 0 k 0 c c1); [done|done|lia]|done].
Qed.

Lemma reader_weaken {A} j k (P Q : A → Prop) m :
  reader k P m → j ≤ k → (∀ a, P a → Q a) → reader j Q m.
Proof.
  intros Hm Hjk HPQ c Hc. eapply wp_call; [by apply Hm|done|].
  intros a c' [? ?]. eauto using adv_weaken.
Qed.

Lemma reader_for {A} (I : Z → A → Prop) lo hi body a :
  lo ≤ hi → I lo a →
  (∀ i a, lo ≤ i < hi → I i a → reader 0 (I (i + 1)) (body i a)) →
  reader 0 (I hi) (for_range lo hi body a).
Proof.
  intros Hle HI Hb c Hc.
  apply (wp_for_range _ _ _ (λ i a c', adv 0 c c' ∧ I i a)); [done|by split; [apply adv_refl|]| |done].
  intros i a' c' Hi [Hadv HI']. eapply wp_call; [apply (Hb i a'); [done|done|by eapply adv_in]| |]; cbn beta.
  - intros c2 H2. by eapply adv_chain.
  - intros b c2 [H2 Hb2]. split; [by eapply adv_chain|done].
Qed.

Lemma reader_load {A B} (Q : B → Prop) cap (a : gmap Z A) i x (f : A → M bw_cur_t B) :
  0 ≤ i < cap → a !! i = Some x → reader 0 Q (f x) → reader 0 Q (bind (arr_load cap a i) f).
Proof. intros Hi Hx Hf c Hc. apply wp_bind. eapply wp_arr_load; [done|done|by apply Hf]. Qed.

Lemma reader_store {A B} (Q : B → Prop) cap (a : gmap Z A) i x (f : gmap Z A → M bw_cur_t B) :
  0 ≤ i < cap → reader 0 Q (f (<[i:=x]> a)) → reader 0 Q (bind (arr_store cap a i x) f).
Proof. intros Hi Hf c Hc. apply wp_bind. eapply wp_arr_store; [done|by apply Hf]. Qed.

Lemma reader_if {A} k (P : A → Prop) (b : bool) m1 m2 :
  reader k P m1 → reader k P m2 → reader k P (if b then m1 else m2).
Proof. by destruct b. Qed.

Lemma reader_if' {A} k (P : A → Prop) (b : bool) m1 m2 :
  (b = true → reader k P m1) → (b = false → reader k P m2) →
  reader k P (if b then m1 else m2).
Proof. destruct b; auto. Qed.

Lemma reader_get_if {A} k (P : A → Prop) n (m1 m2 : bw_cur_t → M bw_cur_t A) :
  0 ≤ n →
  (∀ c, cur_in c → c_p c + n ≤ sp_end sec → wp no_ub (adv 0 c) (λ a c', adv k c c' ∧ P a) (m1 c c)) →
  (∀ c, cur_in c → sp_end sec < c_p c + n → wp no_ub (adv 0 c) (λ a c', adv k c c' ∧ P a) (m2 c c)) →
  reader k P (let* c := get in if bw_cur_ok c n then m1 c else m2 c).
Proof using Hsec.
  intros Hn H1 H2 c Hc. apply wp_bind, wp_get. destruct (bw_cur_ok c n) eqn:E.
  - apply H1; [done|]. by apply cur_ok_iff.
  - apply H2; [done|]. by apply cur_ok_false.
Qed.

(** *** The primitive readers *)

Lemma next_byte_wp U F (Q : Z → bw_cur_t → Prop) c :
  cur_in c → c_p c < sp_end sec →
  (∀ b, 0 ≤ b < 256 → adv 1 c (advance 1 c) → Q b (advance 1 c)) →
  wp U F Q (next_byte sec c).
Proof using Hsec.
  intros Hc Hlt HQ. unfold next_byte, peek. wp_steps.
  apply wp_of_option; [intros b _|].
  - wp_steps. apply HQ; [apply byte_val_range|]. apply advance_adv; [done|lia|lia].
  - destruct Hc as [Hp _]. destruct (sp_read_inside sec (c_p c)) as [b ->]; [lia|done].
Qed.

Lemma reader_u8 : reader 1 (λ b, 0 ≤ b < 256) (bw_u8 sec).
Proof using Hsec.
  intros c Hc. unfold bw_u8. wp_steps; zify_bools.
  - by apply adv_refl.
  - apply cur_ok_iff in E; [|done|lia]. apply next_byte_wp; [done|lia|auto].
Qed.

Lemma load_le_inside n a :
  sp_base sec ≤ a → a + Z.of_nat n ≤ sp_end sec →
  ∃ v, load_le sec n a = Some v ∧ 0 ≤ v < 256 ^ Z.of_nat n.
Proof using Hsec.
  revert a. induction n as [|n IH]; intros a Ha Hle; simpl; [by exists 0|].
  destruct (sp_read_inside sec a) as [b ->]; [lia|]. simpl.
  destruct Hsec. rewrite uptr_small by lia.
  destruct (IH (a + 1)) as (v & -> & Hv); [lia..|]. simpl.
  exists (byte_val b + 256 * v). split; [done|].
  replace (Z.of_nat (S n)) with (Z.of_nat n + 1) by lia.
  rewrite Z.pow_add_r by lia. pose proof (byte_val_range b). lia.
Qed.

Lemma load_le_reader (n : nat) (w : Z) :
  256 ^ Z.of_nat n = w →
  reader (Z.of_nat n) (λ v, 0 ≤ v < w)
    (let* c := get in
     if negb (bw_cur_ok c (Z.of_nat n)) then fail else
     let* v := of_option OobRead (load_le sec n (c_p c)) in
     do* put (advance (Z.of_nat n) c) in ret v).
Proof using Hsec.
  intros Hw c Hc. wp_steps; zify_bools; [by apply adv_refl|].
  apply cur_ok_iff in E; [|done|lia].
  destruct (load_le_inside n (c_p c)) as (v & -> & Hv); [destruct Hc; lia|lia|].
  simpl. split; [|lia]. apply advance_adv; [done|lia|lia].
Qed.

Lemma reader_u16 : reader 2 (λ v, 0 ≤ v < 2 ^ 16) (bw_u16 sec).
Proof using Hsec. by apply (load_le_reader 2). Qed.

Lemma reader_u32 : reader 4 (λ v, 0 ≤ v < 2 ^ 32) (bw_u32 sec).
Proof using Hsec. by apply (load_le_reader 4). Qed.

Lemma reader_u64 : reader 8 (λ v, 0 ≤ v < 2 ^ 64) (bw_u64 sec).
Proof using Hsec. by apply (load_le_reader 8). Qed.

Lemma reader_skip n : 0 ≤ n → reader n (λ _, True) (bw_skip n).
Proof using Hsec.
  intros Hn c Hc. unfold bw_skip. wp_steps; zify_bools.
  - by apply adv_refl.
  - apply cur_ok_iff in E; [|done|lia]. split; [|done]. by apply advance_adv.
Qed.

Lemma lor_u64_range r x : 0 ≤ r < 2 ^ 64 → 0 ≤ Z.lor r (u64 x) < 2 ^ 64.
Proof.
  intros Hr. pose proof (u64_range x) as Hx. split; [apply Z.lor_nonneg; lia|].
  destruct (Z.eq_dec (Z.lor r (u64 x)) 0) as [->|Hne]; [lia|].
  apply Z.log2_lt_pow2; [apply Z.le_neq; split; [apply Z.lor_nonneg; lia|done]|].
  rewrite Z.log2_lor by lia. apply Z.max_lub_lt.
  - destruct (Z.eq_dec r 0) as [->|]; [done|]. apply Z.log2_lt_pow2; lia.
  - destruct (Z.eq_dec (u64 x) 0) as [->|]; [done|]. apply Z.log2_lt_pow2; lia.
Qed.

Lemma reader_uleb_loop fuel r shift :
  0 ≤ r < 2 ^ 64 → 64 ≤ shift + 7 * Z.of_nat fuel → shift < 64 →
  reader 1 (λ v, 0 ≤ v < 2 ^ 64) (bw_uleb_loop sec fuel r shift).
Proof using Hsec.
  revert r shift. induction fuel as [|fuel IH]; intros r shift Hr Hf Hs; [lia|].
  simpl. apply (reader_get_if _ _ 1 (λ c, _) (λ c, _)); [lia| |].
  - intros c Hc Hle. apply wp_bind. apply next_byte_wp; [done|lia|].
    intros b Hb Hadv. pose proof (lor_u64_range r (Z.shiftl (Z.land b 127) shift) Hr).
    cbv zeta. wp_steps.
    + done.
    + by eapply adv_weaken.
    + zify_bools. eapply wp_call; [apply IH; [done|lia|lia|]| |].
      * by apply (adv_in 1 c).
      * intros c' Hc'. by eapply adv_chain.
      * intros v c' [Hc' Hv]. split; [|done]. by eapply adv_chain.
  - intros c Hc _. by apply adv_refl.
Qed.

Lemma reader_uleb : reader 1 (λ v, 0 ≤ v < 2 ^ 64) (bw_uleb sec).
Proof using Hsec. apply reader_uleb_loop; lia. Qed.

Lemma reader_sleb_loop fuel r shift :
  0 ≤ r < 2 ^ 64 → 71 ≤ shift + 7 * Z.of_nat fuel → shift ≤ 70 →
  reader 1 (λ v, - 2 ^ 63 ≤ v < 2 ^ 63) (bw_sleb_loop sec fuel r shift).
Proof using Hsec.
  revert r shift. induction fuel as [|fuel IH]; intros r shift Hr Hf Hs; [lia|].
  intros c Hc. simpl. wp_steps; [by apply adv_refl|]. zify_bools.
  apply cur_ok_iff in H0; [|done|lia]. apply next_byte_wp; [done|lia|].
  intros b Hb Hadv. pose proof (lor_u64_range r (Z.shiftl (Z.land b 127) shift) Hr) as Hr'.
  cbv zeta. wp_step.
  - eapply wp_call; [apply IH; [done|lia|lia|]| |].
    + by apply (adv_in 1 c).
    + intros c' Hc'. by eapply adv_chain.
    + intros v c' [Hc' Hv]. split; [|done]. by eapply adv_chain.
  - split; [done|]. apply (sext_range 64); [lia|].
    case_match; [by apply lor_u64_range|done].
Qed.

Lemma reader_sleb : reader 1 (λ v, - 2 ^ 63 ≤ v < 2 ^ 63) (bw_sleb sec).
Proof using Hsec. apply reader_sleb_loop; lia. Qed.
End spec.
