(* ===== verification/Leb128.v ===== *)
(** * The readers as functions of the bytes left, and LEB128

    Equations for the readers of [Cursor]: what [bw_u8], [bw_skip], the
    fixed-width loads, [bw_uleb] and [bw_sleb] return and where they leave the
    cursor, as a function of [rest].  LEB128 numbers get an arithmetic
    reference decoder and an encoder, which the C loops invert. *)

From S2P Require Import Prelude CMonad CMem Cursor.

(** ** Bit arithmetic *)

Lemma lor_shiftl_add r x s :
  0 ≤ r < 2 ^ s → 0 ≤ s → Z.lor r (Z.shiftl x s) = r + x * 2 ^ s.
Proof.
  intros Hr Hs. rewrite <- Z.shiftl_mul_pow2 by done. symmetry. apply Z.add_nocarry_lor.
  apply Z.bits_inj'. intros i Hi. rewrite Z.land_spec, Z.bits_0.
  destruct (Z.ltb_spec i s).
  - rewrite (Z.shiftl_spec_low _ _ i) by done. apply andb_false_r.
  - rewrite <- (Z.mod_small r (2 ^ s)) by done.
    rewrite Z.mod_pow2_bits_high by lia. done.
Qed.

Lemma u64_lor a b : u64 (Z.lor a b) = Z.lor (u64 a) (u64 b).
Proof. unfold u64. rewrite <- !Z.land_ones by lia. apply Z.land_lor_distr_l. Qed.

Lemma lor_u64_add r x s :
  0 ≤ r < 2 ^ s → 0 ≤ s ≤ 64 → Z.lor r (u64 (Z.shiftl x s)) = u64 (r + x * 2 ^ s).
Proof.
  intros Hr Hs. rewrite <- lor_shiftl_add by lia. rewrite u64_lor.
  f_equal. symmetry. apply u64_small.
  pose proof (Z.pow_le_mono_r 2 s 64 ltac:(lia) ltac:(lia)). lia.
Qed.

Lemma land_127 b : Z.land b 127 = b mod 128.
Proof. exact (Z.land_ones b 7 ltac:(lia)). Qed.

Lemma land_bit b k : 0 ≤ k → (Z.land b (2 ^ k) =? 0) = negb (Z.testbit b k).
Proof.
  intros Hk. destruct (Z.testbit b k) eqn:E; simpl.
  - apply Z.eqb_neq. intros H0.
    assert (Z.testbit (Z.land b (2 ^ k)) k = true) as H1.
    { rewrite Z.land_spec, E, Z.pow2_bits_true by done. done. }
    rewrite H0, Z.bits_0 in H1. done.
  - apply Z.eqb_eq. apply Z.bits_inj'. intros i Hi. rewrite Z.land_spec, Z.bits_0.
    destruct (Z.eq_dec i k) as [->|Hne]; [by rewrite E|].
    rewrite Z.pow2_bits_false by done. apply andb_false_r.
Qed.

Lemma land_128 b : 0 ≤ b < 256 → (Z.land b 128 =? 0) = (b <? 128).
Proof.
  intros Hb. change 128 with (2 ^ 7) at 1. rewrite land_bit by lia. rewrite Z.testbit_odd, Z.shiftr_div_pow2 by lia.
  change (2 ^ 7) with 128. destruct (Z.ltb_spec b 128).
  - by rewrite Z.div_small by lia.
  - replace (b / 128) with 1; [done|]. apply Z.div_unique with (b - 128); lia.
Qed.

(** ** The bytes left *)

Section rest.
Context `{Platform} (sec : span) (Hsec : span_ok sec).

Lemma length_rest c : cur_in sec c → Z.of_nat (length (rest sec c)) = sp_end sec - c_p c.
Proof.
  intros [Hp _]. unfold rest. rewrite length_drop. unfold sp_end, sp_len in *. lia.
Qed.

Lemma rest_nil c : cur_in sec c → rest sec c = [] → c_p c = sp_end sec.
Proof. intros Hc E. pose proof (length_rest c Hc) as Hl. rewrite E in Hl. simpl in Hl. lia. Qed.

Lemma rest_lookup c (i : nat) :
  cur_in sec c → rest sec c !! i = sp_read sec (c_p c + Z.of_nat i).
Proof.
  intros [Hp _]. unfold rest, sp_read. rewrite lookup_drop.
  destruct (Z.ltb_spec (c_p c + Z.of_nat i) (sp_base sec)); [lia|].
  f_equal. lia.
Qed.

Lemma rest_advance c n :
  cur_in sec c → 0 ≤ n ≤ Z.of_nat (length (rest sec c)) →
  cur_in sec (advance n c) ∧ rest sec (advance n c) = drop (Z.to_nat n) (rest sec c).
Proof using Hsec.
  intros Hc Hn. rewrite length_rest in Hn by done. split.
  - apply (advance_adv sec Hsec c n); [done|lia|lia].
  - rewrite (advance_p sec Hsec) by (done || lia). unfold rest; simpl.
    rewrite drop_drop. f_equal. destruct Hc. lia.
Qed.

Lemma rest_cons c b l :
  cur_in sec c → rest sec c = b :: l →
  c_p c < sp_end sec ∧ sp_read sec (c_p c) = Some b ∧
  cur_in sec (advance 1 c) ∧ rest sec (advance 1 c) = l.
Proof using Hsec.
  intros Hc E. pose proof (length_rest c Hc) as Hl. rewrite E in Hl. simpl in Hl.
  split; [lia|]. split.
  - rewrite <- (Z.add_0_r (c_p c)). change 0 with (Z.of_nat 0).
    rewrite <- rest_lookup, E by done. done.
  - destruct (rest_advance c 1) as [Hc' ->]; [done|rewrite E; simpl; lia|].
    split; [done|]. rewrite E. done.
Qed.

Lemma cur_ok_rest c n :
  cur_in sec c → 0 ≤ n → bw_cur_ok c n = (n <=? Z.of_nat (length (rest sec c))).
Proof using Hsec.
  intros Hc Hn. rewrite length_rest by done. apply eq_true_iff_eq.
  rewrite (cur_ok_iff sec Hsec), Z.leb_le by done. lia.
Qed.

Lemma advance_advance c m n :
  cur_in sec c → 0 ≤ m → 0 ≤ n → m + n ≤ Z.of_nat (length (rest sec c)) →
  advance n (advance m c) = advance (m + n) c.
Proof using Hsec.
  intros Hc Hm Hn Hle. unfold advance, set_p; simpl. f_equal.
  rewrite uptr_add_idemp. f_equal. lia.
Qed.

Lemma advance_0 c : cur_in sec c → advance 0 c = c.
Proof using Hsec.
  intros Hc. rewrite (advance_p sec Hsec); [|done|lia|destruct Hc; lia].
  unfold set_p. rewrite Z.add_0_r. by destruct c.
Qed.

Lemma next_byte_eq c b l :
  cur_in sec c → rest sec c = b :: l → next_byte sec c = Done (byte_val b) (advance 1 c).
Proof using Hsec.
  intros Hc E. destruct (rest_cons c b l Hc E) as (_ & Hr & _).
  unfold next_byte, peek, bind, get. by rewrite Hr.
Qed.

Lemma bw_u8_eq c :
  cur_in sec c →
  bw_u8 sec c = match rest sec c with
                | [] => Fail c
                | b :: _ => Done (byte_val b) (advance 1 c)
                end.
Proof using Hsec.
  intros Hc. unfold bw_u8, bind at 1, get. rewrite cur_ok_rest by (done || lia).
  destruct (rest sec c) as [|b l] eqn:E; [done|].
  destruct (Z.leb_spec 1 (Z.of_nat (length (b :: l)))); simpl in *; [|lia].
  by eapply next_byte_eq.
Qed.

(** The little-endian value of a byte list. *)
Fixpoint le_val (l : list byte) : Z :=
  match l with [] => 0 | b :: l' => byte_val b + 256 * le_val l' end.

Lemma load_le_eq c n :
  cur_in sec c → (n ≤ length (rest sec c))%nat →
  load_le sec n (c_p c) = Some (le_val (take n (rest sec c))).
Proof using Hsec.
  revert c. induction n as [|n IH]; intros c Hc Hn; [done|].
  destruct (rest sec c) as [|b l] eqn:E; simpl in Hn; [lia|].
  destruct (rest_cons c b l Hc E) as (_ & Hr & Hc' & E').
  simpl. rewrite Hr. simpl. specialize (IH (advance 1 c) Hc').
  rewrite E' in IH. unfold advance, set_p in IH; simpl in IH.
  rewrite IH by lia. done.
Qed.

(** The fixed-width loads, by their common shape. *)
Lemma load_reader_eq c (n : nat) :
  cur_in sec c →
  (let* c := get in
   if negb (bw_cur_ok c (Z.of_nat n)) then fail else
   let* v := of_option OobRead (load_le sec n (c_p c)) in
   do* put (advance (Z.of_nat n) c) in ret v) c =
  if (n <=? length (rest sec c))%nat
  then Done (le_val (take n (rest sec c))) (advance (Z.of_nat n) c)
  else Fail c.
Proof using Hsec.
  intros Hc. unfold bind at 1, get. rewrite cur_ok_rest by (done || lia).
  destruct (Nat.leb_spec n (length (rest sec c))).
  - destruct (Z.leb_spec (Z.of_nat n) (Z.of_nat (length (rest sec c)))); simpl; [|lia].
    unfold bind. by rewrite load_le_eq.
  - destruct (Z.leb_spec (Z.of_nat n) (Z.of_nat (length (rest sec c)))); simpl; [lia|done].
Qed.

Lemma bw_skip_eq c n :
  cur_in sec c → 0 ≤ n →
  bw_skip n c = if n <=? Z.of_nat (length (rest sec c)) then Done tt (advance n c) else Fail c.
Proof using Hsec.
  intros Hc Hn. unfold bw_skip, bind, get. rewrite cur_ok_rest by done.
  by destruct (n <=? _).
Qed.
End rest.

(** ** LEB128: reference decoders and encoders *)

(** The value and the length of the LEB128 number a byte list starts with, if it
    ends within [fuel] bytes: the sum of the low seven bits of each byte. *)
Fixpoint leb_ref (fuel : nat) (l : list byte) : option (Z * Z) :=
  match fuel, l with
  | S fuel', b :: l' =>
      if byte_val b <? 128 then Some (byte_val b, 1) else
      '(v, n) ← leb_ref fuel' l';
      Some (byte_val b - 128 + 128 * v, n + 1)
  | _, _ => None
  end.

(** Unsigned: reduced to 64 bits. *)
Definition uleb_ref (l : list byte) : option (Z * Z) :=
  '(v, n) ← leb_ref 10 l; Some (u64 v, n).

(** Signed: two's complement on the [7n] bits read, or on 64 if that is less. *)
Definition sleb_ref (l : list byte) : option (Z * Z) :=
  '(v, n) ← leb_ref 10 l;
  Some (if n <? 10 then sext (7 * n) v else sext 64 (u64 v), n).

Fixpoint uleb_bytes (fuel : nat) (n : Z) : list byte :=
  match fuel with
  | O => []
  | S fuel' =>
      if n <? 128 then [byte_of n]
      else byte_of (n mod 128 + 128) :: uleb_bytes fuel' (n / 128)
  end.

Fixpoint sleb_bytes (fuel : nat) (n : Z) : list byte :=
  match fuel with
  | O => []
  | S fuel' =>
      if ((-64 <=? n) && (n <? 64))%bool then [byte_of (n mod 128)]
      else byte_of (n mod 128 + 128) :: sleb_bytes fuel' (n / 128)
  end.

(** Ten bytes hold any 64-bit number. *)
Definition uleb_encode (n : Z) : list byte := uleb_bytes 10 n.
Definition sleb_encode (n : Z) : list byte := sleb_bytes 10 n.

Lemma leb_ref_bounds fuel l v n :
  leb_ref fuel l = Some (v, n) →
  0 ≤ v < 2 ^ (7 * n) ∧ 1 ≤ n ≤ Z.of_nat fuel ∧ n ≤ Z.of_nat (length l).
Proof.
  revert l v n. induction fuel as [|fuel IH]; intros [|b l] v n E; simpl in E; try done.
  pose proof (byte_val_range b). destruct (Z.ltb_spec (byte_val b) 128).
  - simplify_eq. simpl length. change (2 ^ (7 * 1)) with 128. lia.
  - destruct (leb_ref fuel l) as [[v' n']|] eqn:E'; simplify_eq/=.
    destruct (IH _ _ _ E') as (Hv & Hn & Hl).
    replace (7 * (n' + 1)) with (7 * n' + 7) by lia. rewrite Z.pow_add_r by lia.
    change (2 ^ 7) with 128. lia.
Qed.

Section leb.
Context `{Platform} (sec : span) (Hsec : span_ok sec).

(** Where a decoder that fails leaves the cursor. *)
Definition leb_fail (fuel : nat) (c : bw_cur_t) : bw_cur_t :=
  advance (Z.min (Z.of_nat fuel) (Z.of_nat (length (rest sec c)))) c.

Lemma leb_fail_cons fuel c b l :
  cur_in sec c → rest sec c = b :: l →
  leb_fail fuel (advance 1 c) = leb_fail (S fuel) c.
Proof using Hsec.
  intros Hc E. destruct (rest_cons sec Hsec c b l Hc E) as (_ & _ & Hc1 & E1).
  unfold leb_fail. rewrite E1, (advance_advance sec Hsec), E by (done || (rewrite ?E; simpl; lia)).
  f_equal. simpl. lia.
Qed.

Lemma uleb_step r x s f :
  7 * Z.of_nat f + s = 70 → 0 ≤ r < 2 ^ s → 0 ≤ s < 64 → 0 ≤ x < 256 →
  Z.lor r (u64 (Z.shiftl (Z.land x 127) s)) = u64 (r + (x mod 128) * 2 ^ s) ∧
  (s + 7 < 64 → 0 ≤ r + (x mod 128) * 2 ^ s < 2 ^ (s + 7) ∧
                2 ^ (s + 7) ≤ 2 ^ 64 ∧ 2 ^ (s + 7) = 2 ^ s * 128).
Proof.
  intros Hf Hr Hs Hx. rewrite land_127. split; [apply lor_u64_add; lia|].
  intros Hs'. pose proof (Z.mod_pos_bound x 128 ltac:(lia)).
  pose proof (Z.pow_le_mono_r 2 (s + 7) 64 ltac:(lia) ltac:(lia)).
  rewrite Z.pow_add_r in * by lia. change (2 ^ 7) with 128 in *. nia.
Qed.

Lemma mod_128_high x : 128 ≤ x < 256 → x mod 128 = x - 128.
Proof. intros. symmetry. apply Z.mod_unique with 1; lia. Qed.

Lemma bw_uleb_loop_eq f r s c :
  cur_in sec c → 7 * Z.of_nat f + s = 70 → 0 ≤ r < 2 ^ s → 0 ≤ s < 64 →
  bw_uleb_loop sec f r s c =
  match leb_ref f (rest sec c) with
  | Some (v, n) => Done (u64 (r + v * 2 ^ s)) (advance n c)
  | None => Fail (leb_fail f c)
  end.
Proof using Hsec.
  revert r s c. induction f as [|f IH]; intros r s c Hc Hf Hr Hs; [lia|].
  simpl. unfold bind at 1, get. rewrite (cur_ok_rest sec Hsec) by (done || lia).
  destruct (rest sec c) as [|b l] eqn:E.
  { simpl. unfold leb_fail, fail. rewrite E. simpl. by rewrite (advance_0 sec Hsec). }
  destruct (Z.leb_spec 1 (Z.of_nat (length (b :: l)))); simpl in *; [|lia].
  unfold bind at 1. rewrite (next_byte_eq sec Hsec c b l Hc E). cbn beta zeta.
  destruct (rest_cons sec Hsec c b l Hc E) as (_ & _ & Hc1 & E1).
  pose proof (byte_val_range b) as Hb.
  destruct (uleb_step r (byte_val b) s (S f) Hf Hr Hs Hb) as [-> Hnext].
  rewrite land_128 by done. destruct (Z.ltb_spec (byte_val b) 128).
  { unfold ret. rewrite Z.mod_small by lia. done. }
  destruct (Z.leb_spec 64 (s + 7)).
  - assert (f = 0%nat) as -> by lia. unfold fail, leb_fail. simpl. rewrite E. simpl.
    do 2 f_equal. lia.
  - destruct Hnext as (Hn1 & Hn2 & Hn3); [lia|]. rewrite u64_small by lia.
    rewrite IH, E1 by (done || lia). rewrite mod_128_high, Hn3 by lia.
    destruct (leb_ref f l) as [[v n]|] eqn:El; simpl.
    + apply leb_ref_bounds in El as (_ & ? & ?).
      rewrite (advance_advance sec Hsec) by (done || (rewrite ?E; simpl; lia)).
      f_equal; [f_equal; ring|f_equal; lia].
    + f_equal. by eapply leb_fail_cons.
Qed.

(** The tail of [bw_sleb] after its last byte. *)
Definition sleb_finish (s r : Z) (neg : bool) : Z :=
  sext 64 (if ((s <? 64) && neg)%bool
           then Z.lor r (u64 (Z.shiftl (2 ^ 64 - 1) s)) else r).

Lemma sleb_finish_eq s v :
  0 < s → 0 ≤ v < 2 ^ s →
  sleb_finish s (u64 v) (2 ^ (s - 1) <=? v) = if s <? 64 then sext s v else sext 64 (u64 v).
Proof.
  intros Hs Hv. unfold sleb_finish. destruct (Z.ltb_spec s 64) as [Hs'|]; simpl; [|done].
  assert (Hp : 2 ^ s = 2 * 2 ^ (s - 1))
    by (rewrite <- Z.pow_succ_r by lia; f_equal; lia).
  pose proof (Z.pow_le_mono_r 2 s 63 ltac:(lia) ltac:(lia)) as Hle.
  rewrite (u64_small v) by lia. unfold sext at 2.
  destruct (Z.leb_spec (2 ^ (s - 1)) v).
  - rewrite lor_u64_add by lia. destruct (Z.ltb_spec v (2 ^ (s - 1))); [lia|].
    rewrite <- (sext_u64 (v - 2 ^ s)) by lia. f_equal. unfold u64.
    replace (v + (2 ^ 64 - 1) * 2 ^ s) with (v - 2 ^ s + 2 ^ s * 2 ^ 64) by ring.
    apply Z_mod_plus_full.
  - destruct (Z.ltb_spec v (2 ^ (s - 1))); [|lia].
    rewrite <- (sext_u64 v) at 2 by lia. by rewrite u64_small by lia.
Qed.

Lemma land_64_high x s r :
  0 ≤ x < 128 → 0 ≤ s → 0 ≤ r < 2 ^ s →
  negb (Z.land x 64 =? 0) = (2 ^ (s + 6) <=? r + x * 2 ^ s).
Proof.
  intros Hx Hs Hr. change 64 with (2 ^ 6) at 1. rewrite land_bit, negb_involutive by lia.
  rewrite Z.testbit_odd, Z.shiftr_div_pow2 by lia. rewrite Z.pow_add_r by lia.
  change (2 ^ 6) with 64. destruct (Z.ltb_spec x 64).
  - rewrite Z.div_small by lia. symmetry. apply Z.leb_gt. nia.
  - replace (x / 64) with 1 by (apply Z.div_unique with (x - 64); lia).
    symmetry. apply Z.leb_le. nia.
Qed.

Lemma bw_sleb_loop_eq f r s c :
  cur_in sec c → 7 * Z.of_nat f + s = 70 → 0 ≤ r < 2 ^ s → 0 ≤ s < 64 →
  bw_sleb_loop sec (S f) r s c =
  match leb_ref f (rest sec c) with
  | Some (v, n) =>
      Done (sleb_finish (s + 7 * n) (u64 (r + v * 2 ^ s))
              (2 ^ (s + 7 * n - 1) <=? r + v * 2 ^ s)) (advance n c)
  | None => Fail (leb_fail f c)
  end.
Proof using Hsec.
  revert r s c. induction f as [|f IH]; intros r s c Hc Hf Hr Hs; [lia|].
  remember (S f) as f' eqn:Hf'. cbn [bw_sleb_loop]. subst f'.
  unfold bind at 1, get. rewrite (cur_ok_rest sec Hsec) by (done || lia).
  destruct (Z.leb_spec 64 s); [lia|]. rewrite orb_false_r.
  destruct (rest sec c) as [|b l] eqn:E.
  { simpl. unfold leb_fail, fail. rewrite E. simpl. by rewrite (advance_0 sec Hsec). }
  destruct (Z.leb_spec 1 (Z.of_nat (length (b :: l)))) as [_|Habs]; [|simpl in Habs; lia].
  cbn [negb leb_ref].
  unfold bind at 1. rewrite (next_byte_eq sec Hsec c b l Hc E). cbn beta zeta.
  destruct (rest_cons sec Hsec c b l Hc E) as (_ & _ & Hc1 & E1).
  pose proof (byte_val_range b) as Hb.
  destruct (uleb_step r (byte_val b) s (S f) Hf Hr Hs Hb) as [-> Hnext].
  rewrite land_128 by done. destruct (Z.ltb_spec (byte_val b) 128); cbn [negb].
  { unfold ret. rewrite (land_64_high _ s r) by lia.
    rewrite Z.mod_small by lia. unfold sleb_finish.
    replace (s + 7 * 1 - 1) with (s + 6) by lia. by replace (s + 7 * 1) with (s + 7) by lia. }
  destruct (Z.leb_spec 64 (s + 7)).
  - assert (f = 0%nat) as -> by lia. simpl. unfold bind, get, fail.
    destruct (Z.leb_spec 64 (s + 7)); [|lia]. rewrite orb_true_r. unfold leb_fail.
    rewrite E. simpl. do 2 f_equal. lia.
  - destruct Hnext as (Hn1 & Hn2 & Hn3); [lia|]. rewrite u64_small by lia.
    specialize (IH (r + byte_val b mod 128 * 2 ^ s) (s + 7) (advance 1 c)).
    rewrite IH, E1 by (done || lia).
    rewrite mod_128_high, Hn3 by lia.
    destruct (leb_ref f l) as [[v n]|] eqn:El; simpl.
    + apply leb_ref_bounds in El as (_ & ? & ?).
      rewrite (advance_advance sec Hsec) by (done || (rewrite ?E; simpl; lia)).
      replace (s + 7 * (n + 1)) with (s + 7 + 7 * n) by lia.
      replace (r + (byte_val b - 128) * 2 ^ s + v * (2 ^ s * 128))
        with (r + (byte_val b - 128 + 128 * v) * 2 ^ s) by ring.
      f_equal. f_equal. lia.
    + f_equal. by eapply leb_fail_cons.
Qed.

Lemma bw_uleb_eq c :
  cur_in sec c →
  bw_uleb sec c = match uleb_ref (rest sec c) with
                  | Some (v, n) => Done v (advance n c)
                  | None => Fail (leb_fail 10 c)
                  end.
Proof using Hsec.
  intros Hc. unfold bw_uleb, uleb_ref. rewrite bw_uleb_loop_eq by (done || lia).
  destruct (leb_ref 10 (rest sec c)) as [[v n]|]; simpl; [|done].
  do 2 f_equal. lia.
Qed.

Lemma bw_sleb_eq c :
  cur_in sec c →
  bw_sleb sec c = match sleb_ref (rest sec c) with
                  | Some (v, n) => Done v (advance n c)
                  | None => Fail (leb_fail 10 c)
                  end.
Proof using Hsec.
  intros Hc. unfold bw_sleb, sleb_ref. rewrite bw_sleb_loop_eq by (done || lia).
  destruct (leb_ref 10 (rest sec c)) as [[v n]|] eqn:E; simpl; [|done].
  apply leb_ref_bounds in E as (Hv & Hn & _).
  rewrite !Z.add_0_l, !Z.mul_1_r, sleb_finish_eq by lia.
  destruct (Z.ltb_spec (7 * n) 64), (Z.ltb_spec n 10); done || lia.
Qed.
End leb.

(** *** The encoders *)

Lemma leb_ref_uleb_bytes f n t :
  (0 < f)%nat → 0 ≤ n < 2 ^ (7 * Z.of_nat f) →
  leb_ref f (uleb_bytes f n ++ t) = Some (n, Z.of_nat (length (uleb_bytes f n))).
Proof.
  revert n. induction f as [|f IH]; intros n Hf Hn; [lia|].
  simpl. destruct (Z.ltb_spec n 128); simpl.
  - rewrite byte_val_of by lia. by destruct (Z.ltb_spec n 128); [|lia].
  - pose proof (Z.mod_pos_bound n 128 ltac:(lia)). rewrite byte_val_of by lia.
    destruct (Z.ltb_spec (n mod 128 + 128) 128); [lia|].
    replace (7 * Z.of_nat (S f)) with (7 * Z.of_nat f + 7) in Hn by lia.
    rewrite Z.pow_add_r in Hn by lia. change (2 ^ 7) with 128 in Hn.
    rewrite IH; simpl.
    + do 2 f_equal; [|lia]. pose proof (Z.div_mod n 128). lia.
    + destruct f; [|lia]. change (2 ^ (7 * Z.of_nat 0)) with 1 in Hn. lia.
    + split; [apply Z.div_pos; lia|apply Z.div_lt_upper_bound; lia].
Qed.

Lemma leb_ref_sleb_bytes f n t :
  (0 < f)%nat → - 2 ^ (7 * Z.of_nat f - 1) ≤ n < 2 ^ (7 * Z.of_nat f - 1) →
  ∃ k, Z.of_nat (length (sleb_bytes f n)) = k ∧ 1 ≤ k ∧
    leb_ref f (sleb_bytes f n ++ t) = Some (n mod 2 ^ (7 * k), k) ∧
    - 2 ^ (7 * k - 1) ≤ n < 2 ^ (7 * k - 1).
Proof.
  revert n. induction f as [|f IH]; intros n Hf Hn; [lia|].
  cbn [sleb_bytes]. pose proof (Z.mod_pos_bound n 128 ltac:(lia)) as Hm.
  destruct ((-64 <=? n) && (n <? 64))%bool eqn:E.
  - zify_bools. exists 1. split_and!; [done|lia| |lia|lia].
    simpl. rewrite byte_val_of by lia. by destruct (Z.ltb_spec (n mod 128) 128); [|lia].
  - assert (0 < f)%nat.
    { destruct f; [|lia]. change (7 * Z.of_nat 1 - 1) with 6 in Hn. change (2 ^ 6) with 64 in Hn.
      apply andb_false_iff in E as [E|E]; zify_bools; lia. }
    assert (Hp : 2 ^ (7 * Z.of_nat (S f) - 1) = 2 ^ (7 * Z.of_nat f - 1) * 128).
    { replace (7 * Z.of_nat (S f) - 1) with (7 * Z.of_nat f - 1 + 7) by lia.
      by rewrite Z.pow_add_r by lia. }
    destruct (IH (n / 128)) as (k & Hk & Hk1 & Hr & Hb); [lia| |].
    { split; [apply Z.div_le_lower_bound; lia|apply Z.div_lt_upper_bound; lia]. }
    exists (k + 1). split_and!; [simpl; lia|lia| |..].
    + simpl. rewrite byte_val_of by lia. destruct (Z.ltb_spec (n mod 128 + 128) 128); [lia|].
      rewrite Hr. simpl. do 2 f_equal.
      replace (7 * (k + 1)) with (7 + 7 * k) by lia. rewrite Z.pow_add_r by lia.
      change (2 ^ 7) with 128. rewrite Z.rem_mul_r by lia. lia.
    + replace (7 * (k + 1) - 1) with (7 * k - 1 + 7) by lia. rewrite Z.pow_add_r by lia.
      change (2 ^ 7) with 128. pose proof (Z.div_mod n 128 ltac:(lia)). lia.
    + replace (7 * (k + 1) - 1) with (7 * k - 1 + 7) by lia. rewrite Z.pow_add_r by lia.
      change (2 ^ 7) with 128. pose proof (Z.div_mod n 128 ltac:(lia)). lia.
Qed.

Lemma sext_mod w n : 0 < w → - 2 ^ (w - 1) ≤ n < 2 ^ (w - 1) → sext w (n mod 2 ^ w) = n.
Proof.
  intros Hw Hn. unfold sext.
  assert (2 ^ w = 2 * 2 ^ (w - 1)) by (rewrite <- Z.pow_succ_r by lia; f_equal; lia).
  destruct (Z.ltb_spec n 0).
  - rewrite <- (Z_mod_plus_full n 1), Z.mod_small by lia.
    destruct (Z.ltb_spec (n + 1 * 2 ^ w) (2 ^ (w - 1))); lia.
  - rewrite Z.mod_small by lia. destruct (Z.ltb_spec n (2 ^ (w - 1))); lia.
Qed.

Lemma uleb_ref_encode n t :
  0 ≤ n < 2 ^ 64 →
  uleb_ref (uleb_encode n ++ t) = Some (n, Z.of_nat (length (uleb_encode n))).
Proof.
  intros Hn. unfold uleb_ref, uleb_encode. rewrite leb_ref_uleb_bytes.
  - simpl. by rewrite u64_small.
  - lia.
  - change (7 * Z.of_nat 10) with 70. lia.
Qed.

Lemma sleb_ref_encode n t :
  - 2 ^ 63 ≤ n < 2 ^ 63 →
  sleb_ref (sleb_encode n ++ t) = Some (n, Z.of_nat (length (sleb_encode n))).
Proof.
  intros Hn. unfold sleb_ref, sleb_encode.
  destruct (leb_ref_sleb_bytes 10 n t) as (k & Hk & Hk1 & -> & Hb); [lia| |].
  { change (7 * Z.of_nat 10 - 1) with 69. lia. }
  rewrite Hk. cbn. do 2 f_equal. destruct (Z.ltb_spec k 10).
  - apply sext_mod; lia.
  - rewrite <- (sext_u64 n) at 2 by done. f_equal. unfold u64.
    apply Z.mod_mod_divide.
    exists (2 ^ (7 * k - 64)). rewrite <- Z.pow_add_r by lia. f_equal. lia.
Qed.

(** ** Properties *)

(** C28. [bw_uleb] computes the reference value on every input: the sum of the
    low seven bits of the bytes up to the first one without its high bit, reduced
    to 64 bits; it fails exactly when no such byte is among the next ten. *)
Theorem bw_uleb_correct `{Platform} sec c :
  span_ok sec → cur_in sec c →
  bw_uleb sec c = match uleb_ref (rest sec c) with
                  | Some (v, n) => Done v (advance n c)
                  | None => Fail (leb_fail sec 10 c)
                  end.
Proof. intros. by apply bw_uleb_eq. Qed.

Lemma bw_uleb_correct_witness :
  bw_uleb (H:=plat64) (Span 4096 [xe5; x8e; x26; x01]) (BwCur 4096 4100 0) =
  Done 624485 (BwCur 4099 4100 0).
Proof.
  rewrite (bw_uleb_correct (H:=plat64)); [vm_compute; reflexivity|concrete|concrete].
Defined.

(** C29. [bw_sleb] computes the reference value on every input: the bits read, in
    two's complement on the width read or on 64 bits if that is less. *)
Theorem bw_sleb_correct `{Platform} sec c :
  span_ok sec → cur_in sec c →
  bw_sleb sec c = match sleb_ref (rest sec c) with
                  | Some (v, n) => Done v (advance n c)
                  | None => Fail (leb_fail sec 10 c)
                  end.
Proof. intros. by apply bw_sleb_eq. Qed.

Lemma bw_sleb_correct_witness :
  bw_sleb (H:=plat64) (Span 4096 [x80; x7f]) (BwCur 4096 4098 0) =
  Done (-128) (BwCur 4098 4098 0).
Proof.
  rewrite (bw_sleb_correct (H:=plat64)); [vm_compute; reflexivity|concrete|concrete].
Defined.

(** The fixed-width readers are little-endian and bounded: with [n] bytes
    left they return their little-endian value and pass them, with fewer they
    fail without moving. *)
Theorem fixed_width_readers `{Platform} sec c :
  span_ok sec → cur_in sec c →
  let spec n := if (n <=? length (rest sec c))%nat
                then Done (le_val (take n (rest sec c))) (advance (Z.of_nat n) c)
                else Fail c in
  bw_u8 sec c = spec 1%nat ∧ bw_u16 sec c = spec 2%nat ∧
  bw_u32 sec c = spec 4%nat ∧ bw_u64 sec c = spec 8%nat.
Proof.
  intros Hsec Hc spec. split_and!; [|by apply (load_reader_eq sec Hsec c 2)
    |by apply (load_reader_eq sec Hsec c 4)|by apply (load_reader_eq sec Hsec c 8)].
  rewrite (bw_u8_eq sec Hsec) by done. unfold spec. destruct (rest sec c) as [|b l]; [done|].
  simpl. f_equal. lia.
Qed.

Lemma fixed_width_readers_witness :
  bw_u32 (H:=plat64) (Span 4096 [x01; x02; x03; x04; x05]) (BwCur 4096 4101 0) =
    Done 0x04030201 (BwCur 4100 4101 0).
Proof.
  destruct (fixed_width_readers (H:=plat64) (Span 4096 [x01; x02; x03; x04; x05])
    (BwCur 4096 4101 0)) as (_ & _ & E & _); [concrete|concrete|].
  rewrite E. vm_compute. reflexivity.
Defined.
