(* ===== verification/Decode.v ===== *)
(** * Decoding encoded values

    [parses sec l a m]: on a cursor whose bytes left start with [l], the reader
    [m] returns [a] and moves the cursor past [l].  The readers of [Cursor]
    decode what the encoders produce; sequencing decodes concatenations. *)

From S2P Require Import Prelude CMonad CMem Cursor Leb128.

(** The [n] little-endian bytes of [z]. *)
Fixpoint le_bytes (n : nat) (z : Z) : list byte :=
  match n with
  | O => []
  | S n' => byte_of (z mod 256) :: le_bytes n' (z / 256)
  end.

Lemma length_le_bytes n z : length (le_bytes n z) = n.
Proof. revert z. induction n as [|n IH]; intros z; simpl; auto. Qed.

Lemma le_val_bytes n z : 0 ≤ z < 256 ^ Z.of_nat n → le_val (le_bytes n z) = z.
Proof.
  revert z. induction n as [|n IH]; intros z Hz; simpl; [change (256 ^ Z.of_nat 0) with 1 in Hz; lia|].
  pose proof (Z.mod_pos_bound z 256 ltac:(lia)). rewrite byte_val_of by lia.
  replace (Z.of_nat (S n)) with (Z.of_nat n + 1) in Hz by lia.
  rewrite Z.pow_add_r in Hz by lia. rewrite IH.
  - pose proof (Z.div_mod z 256). lia.
  - split; [apply Z.div_pos; lia|apply Z.div_lt_upper_bound; lia].
Qed.

Section parses.
Context `{Platform} (sec : span) (Hsec : span_ok sec).

Definition parses {A} (l : list byte) (a : A) (m : M bw_cur_t A) : Prop :=
  ∀ c tl, cur_in sec c → rest sec c = l ++ tl →
    m c = Done a (advance (Z.of_nat (length l)) c).

(** The cursor after [l]. *)
Lemma rest_app c l tl :
  cur_in sec c → rest sec c = l ++ tl →
  cur_in sec (advance (Z.of_nat (length l)) c) ∧
  rest sec (advance (Z.of_nat (length l)) c) = tl ∧
  c_p (advance (Z.of_nat (length l)) c) = c_p c + Z.of_nat (length l) ∧
  c_p c + Z.of_nat (length l) ≤ sp_end sec.
Proof using Hsec.
  intros Hc E. pose proof (length_rest sec c Hc) as Hl. rewrite E, length_app in Hl.
  destruct (rest_advance sec Hsec c (Z.of_nat (length l))) as [Hc' Hr]; [done| |].
  { rewrite E, length_app. lia. }
  rewrite Hr, E, Nat2Z.id, drop_app_length. split_and!; [done|done| |lia].
  rewrite (advance_p sec Hsec) by (done || lia). done.
Qed.

Lemma advance_app c l1 l2 tl :
  cur_in sec c → rest sec c = l1 ++ l2 ++ tl →
  advance (Z.of_nat (length l2)) (advance (Z.of_nat (length l1)) c) =
  advance (Z.of_nat (length (l1 ++ l2))) c.
Proof using Hsec.
  intros Hc E. rewrite (advance_advance sec Hsec), length_app; [f_equal; lia|done|lia|lia|].
  rewrite E, !length_app. lia.
Qed.

Lemma parses_ret {A} (a : A) : parses [] a (ret a).
Proof using Hsec. intros c tl Hc _. simpl. by rewrite (advance_0 sec Hsec). Qed.

Lemma parses_bind {A B} l1 l2 (a : A) (b : B) m f :
  parses l1 a m → parses l2 b (f a) → parses (l1 ++ l2) b (bind m f).
Proof using Hsec.
  intros Hm Hf c tl Hc E. rewrite <- app_assoc in E. unfold bind.
  rewrite (Hm c (l2 ++ tl) Hc E). destruct (rest_app c l1 (l2 ++ tl) Hc E) as (Hc1 & E1 & _).
  rewrite (Hf _ tl Hc1 E1). f_equal. by eapply advance_app.
Qed.

(** A last computation that reads nothing. *)
Lemma parses_map {A B} l (a : A) (b : B) m f :
  parses l a m → parses [] b (f a) → parses l b (bind m f).
Proof using Hsec.
  intros Hm Hf. rewrite <- (app_nil_r l). by eapply parses_bind.
Qed.

Lemma parses_u8 z : 0 ≤ z < 256 → parses [byte_of z] z (bw_u8 sec).
Proof using Hsec.
  intros Hz c tl Hc E. rewrite (bw_u8_eq sec Hsec), E by done. simpl.
  by rewrite byte_val_of.
Qed.

Lemma parses_load (n : nat) z :
  0 ≤ z < 256 ^ Z.of_nat n →
  parses (le_bytes n z) z
    (let* c := get in
     if negb (bw_cur_ok c (Z.of_nat n)) then fail else
     let* v := of_option OobRead (load_le sec n (c_p c)) in
     do* put (advance (Z.of_nat n) c) in ret v).
Proof using Hsec.
  intros Hz c tl Hc E. rewrite (load_reader_eq sec Hsec) by done.
  rewrite E, length_app, length_le_bytes.
  destruct (Nat.leb_spec n (n + length tl)); [|lia].
  rewrite take_app_le, take_ge by (rewrite length_le_bytes; lia).
  by rewrite le_val_bytes.
Qed.

Lemma parses_u16 z : 0 ≤ z < 2 ^ 16 → parses (le_bytes 2 z) z (bw_u16 sec).
Proof using Hsec. apply (parses_load 2). Qed.

Lemma parses_u32 z : 0 ≤ z < 2 ^ 32 → parses (le_bytes 4 z) z (bw_u32 sec).
Proof using Hsec. apply (parses_load 4). Qed.

Lemma parses_u64 z : 0 ≤ z < 2 ^ 64 → parses (le_bytes 8 z) z (bw_u64 sec).
Proof using Hsec. apply (parses_load 8). Qed.

Lemma parses_uleb z : 0 ≤ z < 2 ^ 64 → parses (uleb_encode z) z (bw_uleb sec).
Proof using Hsec.
  intros Hz c tl Hc E. rewrite (bw_uleb_eq sec Hsec), E, uleb_ref_encode by done. done.
Qed.

Lemma parses_sleb z : - 2 ^ 63 ≤ z < 2 ^ 63 → parses (sleb_encode z) z (bw_sleb sec).
Proof using Hsec.
  intros Hz c tl Hc E. rewrite (bw_sleb_eq sec Hsec), E, sleb_ref_encode by done. done.
Qed.

Lemma parses_skip l : parses l tt (bw_skip (Z.of_nat (length l))).
Proof using Hsec.
  intros c tl Hc E. rewrite (bw_skip_eq sec Hsec) by (done || lia).
  rewrite E, length_app. destruct (Z.leb_spec (Z.of_nat (length l))
    (Z.of_nat (length l + length tl))); [done|lia].
Qed.
End parses.

(** ** Properties *)

(** C27. The readers invert the encoders: every unsigned and every signed 64-bit
    number is read back from its LEB128 encoding, whatever follows it, and the
    cursor stops behind the encoding. *)
Theorem leb128_roundtrip `{Platform} sec u s :
  span_ok sec → 0 ≤ u < 2 ^ 64 → - 2 ^ 63 ≤ s < 2 ^ 63 →
  parses sec (uleb_encode u ++ sleb_encode s) (u, s)
    (let* a := bw_uleb sec in let* b := bw_sleb sec in ret (a, b)).
Proof.
  intros Hsec Hu Hs. apply (parses_bind sec Hsec _ _ u); [by apply parses_uleb|].
  apply (parses_map sec Hsec _ s); [by apply parses_sleb|by apply parses_ret].
Qed.

Lemma leb128_roundtrip_witness :
  let sec := Span 4096 ([xac; x02] ++ [x9c; x7f] ++ [x2a]) in
  (let* a := bw_uleb (H:=plat64) sec in let* b := bw_sleb (H:=plat64) sec in ret (a, b))
    (BwCur 4096 4101 0) = Done (300, -100) (BwCur 4100 4101 0).
Proof.
  intros sec.
  exact (leb128_roundtrip (H:=plat64) sec 300 (-100) ltac:(concrete) ltac:(concrete) ltac:(concrete)
    (BwCur 4096 4101 0) [x2a] ltac:(concrete) eq_refl).
Defined.
