(* ===== verification/Forms.v ===== *)
(** * DWARF attribute forms

    The translations of [bw_cstr_off], [bw_form_skip], [bw_form_path] and
    [bw_form_udata] of src/dwarf_line.c: the values of the directory and file
    tables of a version 5 line header. *)

From S2P Require Import Prelude CMonad CMem Cursor.

Definition BW_FORM_ADDR : Z := 0x01.
Definition BW_FORM_BLOCK2 : Z := 0x03.
Definition BW_FORM_BLOCK4 : Z := 0x04.
Definition BW_FORM_DATA2 : Z := 0x05.
Definition BW_FORM_DATA4 : Z := 0x06.
Definition BW_FORM_DATA8 : Z := 0x07.
Definition BW_FORM_STRING : Z := 0x08.
Definition BW_FORM_BLOCK : Z := 0x09.
Definition BW_FORM_BLOCK1 : Z := 0x0a.
Definition BW_FORM_DATA1 : Z := 0x0b.
Definition BW_FORM_FLAG : Z := 0x0c.
Definition BW_FORM_SDATA : Z := 0x0d.
Definition BW_FORM_STRP : Z := 0x0e.
Definition BW_FORM_UDATA : Z := 0x0f.
Definition BW_FORM_REF_ADDR : Z := 0x10.
Definition BW_FORM_SEC_OFFSET : Z := 0x17.
Definition BW_FORM_EXPRLOC : Z := 0x18.
Definition BW_FORM_FLAG_PRESENT : Z := 0x19.
Definition BW_FORM_DATA16 : Z := 0x1e.
Definition BW_FORM_LINE_STRP : Z := 0x1f.
Definition BW_FORM_IMPLICIT_CONST : Z := 0x21.

(** A string section, by its pointer and its length: the offset is inside. *)
Definition bw_cstr_off (sec : span) (off : Z) : bool :=
  negb (sp_null sec || (sp_len sec <=? off))%bool.

Section forms.
Context `{Platform} (sec : span).

(** [while (bw_cur_ok(c, 1)) if ( *c->p++ == 0 ) return 1; return 0;] *)
Fixpoint skip_string_loop (fuel : nat) : M bw_cur_t unit :=
  match fuel with
  | O => no_fuel
  | S fuel' =>
      let* c := get in
      if bw_cur_ok c 1 then
        let* b := next_byte sec in
        if b =? 0 then ret tt else skip_string_loop fuel'
      else fail
  end.

(** A loop over the bytes of the section runs at most once per byte left. *)
Definition sec_fuel : nat := S (length (sp_bytes sec)).

(** [s] is in the switch's case list *)
Definition is_form (form : Z) (cases : list Z) : bool := existsb (Z.eqb form) cases.

Definition bw_form_skip (form offset_size : Z) : M bw_cur_t unit :=
  if form =? BW_FORM_FLAG_PRESENT then ret tt
  else if is_form form [BW_FORM_DATA1; BW_FORM_FLAG] then bw_skip 1
  else if form =? BW_FORM_DATA2 then bw_skip 2
  else if form =? BW_FORM_DATA4 then bw_skip 4
  else if is_form form [BW_FORM_STRP; BW_FORM_LINE_STRP; BW_FORM_SEC_OFFSET]
  then bw_skip (uptr offset_size)
  else if is_form form [BW_FORM_DATA8; BW_FORM_ADDR] then bw_skip 8
  else if form =? BW_FORM_DATA16 then bw_skip 16
  else if form =? BW_FORM_UDATA then do* bw_uleb sec in ret tt
  else if form =? BW_FORM_SDATA then do* bw_sleb sec in ret tt
  else if form =? BW_FORM_STRING then skip_string_loop sec_fuel
  else if form =? BW_FORM_BLOCK1 then let* len := bw_u8 sec in bw_skip len
  else if form =? BW_FORM_BLOCK2 then let* len := bw_u16 sec in bw_skip len
  else if form =? BW_FORM_BLOCK4 then let* len := bw_u32 sec in bw_skip len
  else if is_form form [BW_FORM_BLOCK; BW_FORM_EXPRLOC]
  then let* n := bw_uleb sec in bw_skip (uptr n)
  else if form =? BW_FORM_IMPLICIT_CONST then ret tt
  else if form =? BW_FORM_REF_ADDR then bw_skip (uptr offset_size)
  else fail.

(** [while (bw_cur_ok(c, 1) && *c->p != 0) c->p++;] *)
Fixpoint path_string_loop (fuel : nat) : M bw_cur_t unit :=
  match fuel with
  | O => no_fuel
  | S fuel' =>
      let* c := get in
      if bw_cur_ok c 1 then
        let* b := peek sec in
        if is_nul b then ret tt else
        do* put (advance 1 c) in path_string_loop fuel'
      else ret tt
  end.

(** The two output parameters, [*out] and [*out_len]. *)
Definition path_out : Type := cptr * Z.

Definition bw_form_path (form offset_size : Z) (line_str debug_str : span)
    : M bw_cur_t path_out :=
  if form =? BW_FORM_STRING then
    let* start := get in
    do* path_string_loop sec_fuel in
    let* c := get in
    if negb (bw_cur_ok c 1) then fail else
    let out := (sp_cptr sec (c_p start), uptr (c_p c - c_p start)) in
    do* put (advance 1 c) in
    ret out
  else if ((form =? BW_FORM_LINE_STRP) || (form =? BW_FORM_STRP))%bool then
    let str := if form =? BW_FORM_LINE_STRP then line_str else debug_str in
    let* off := (if offset_size =? 8 then bw_u64 sec else bw_u32 sec) in
    if negb (bw_cstr_off str off) then ret (c_lit [], 0) else
    let out := sp_cptr str (uptr (sp_base str + off)) in
    let* out_len := strlen (S (length (sp_bytes str))) out in
    ret (out, out_len)
  else
    do* bw_form_skip form offset_size in
    ret (c_lit [], 0).

Definition bw_form_udata (form : Z) : M bw_cur_t Z :=
  if form =? BW_FORM_UDATA then bw_uleb sec
  else if form =? BW_FORM_DATA1 then bw_u8 sec
  else if form =? BW_FORM_DATA2 then bw_u16 sec
  else if form =? BW_FORM_DATA4 then bw_u32 sec
  else fail.
End forms.

(** ** Safety: the forms read inside their sections and only move forward *)

(** A string section the caller passes: absent, or mapped with its last byte
    NUL. *)
Definition str_span_ok `{Platform} (s : span) : Prop :=
  s = null_span ∨ (span_ok s ∧ nul_terminated s).

(** What [bw_form_path] hands out: a NUL-terminated string and its length. *)
Definition path_ok (o : path_out) : Prop :=
  ∃ l, is_cstr (fst o) l ∧ snd o = Z.of_nat (length l).

Section safety.
Context `{Platform} (sec : span) (Hsec : span_ok sec).

Lemma path_ok_empty : path_ok (c_lit [], 0).
Proof. exists []. split; [by apply is_cstr_lit|done]. Qed.

Lemma reader_skip_string_loop fuel c :
  cur_in sec c → sp_end sec - c_p c < Z.of_nat fuel →
  wp no_ub (adv sec 0 c) (λ _ c', adv sec 0 c c') (skip_string_loop sec fuel c).
Proof using Hsec.
  revert c. induction fuel as [|fuel IH]; intros c Hc Hf; [destruct Hc; lia|].
  simpl. wp_steps; [|by apply adv_refl]. apply (cur_ok_iff sec Hsec) in E; [|done|lia].
  apply (next_byte_wp sec Hsec); [done|lia|]. intros b Hb Hadv. wp_steps.
  - by eapply adv_weaken.
  - assert (Hadv' := Hadv). destruct Hadv' as (Hc' & Hp).
    eapply wp_call; [apply IH; [done|lia]| |]; cbn beta; intros; by eapply adv_chain.
Qed.

Lemma reader_skip_string : reader sec 0 (λ _, True) (skip_string_loop sec (sec_fuel sec)).
Proof using Hsec.
  intros c Hc. eapply wp_call; [apply reader_skip_string_loop; [done|]|done|done].
  destruct Hc as [[] _]. unfold sec_fuel, sp_end, sp_len in *. lia.
Qed.

Lemma reader_weaken0 {A} k (P : A → Prop) m :
  0 ≤ k → reader sec k P m → reader sec 0 (λ _, True) m.
Proof. intros Hk Hm. by apply (reader_weaken sec 0 k P). Qed.

Lemma reader_len k (m : M bw_cur_t Z) f w :
  0 ≤ k → reader sec k (λ v, 0 ≤ v < w) m → (∀ v, 0 ≤ v → 0 ≤ f v) →
  reader sec 0 (λ _, True) (let* n := m in bw_skip (f n)).
Proof using Hsec.
  intros Hk Hm Hf. eapply reader_bind0.
  - eapply (reader_weaken _ 0); [exact Hm|done|]. intros v Hv. exact Hv.
  - intros v Hv. simpl in Hv. apply (reader_weaken0 (f v) (λ _, True)); [apply Hf; lia|].
    apply (reader_skip sec Hsec). apply Hf. lia.
Qed.

Lemma reader_drop k {A} (P : A → Prop) m :
  0 ≤ k → reader sec k P m → reader sec 0 (λ _, True) (do* m in ret tt).
Proof.
  intros Hk Hm. eapply (reader_bind0 _ (λ _, True)); [by eapply reader_weaken0|].
  intros. by apply reader_ret.
Qed.

Lemma reader_form_skip form offset_size :
  reader sec 0 (λ _, True) (bw_form_skip sec form offset_size).
Proof using Hsec.
  assert (Hskip : ∀ n, 0 ≤ n → reader sec 0 (λ _, True) (bw_skip n)).
  { intros n Hn. apply (reader_weaken0 n (λ _, True)); [exact Hn|]. by apply reader_skip. }
  pose proof (λ z, proj1 (uptr_range z)) as Hu.
  unfold bw_form_skip.
  repeat apply reader_if; try (apply Hskip; (done || lia));
    try (by apply reader_ret); try (apply reader_fail).
  - apply (reader_drop 1 _ _ ltac:(lia) (reader_uleb sec Hsec)).
  - apply (reader_drop 1 _ _ ltac:(lia) (reader_sleb sec Hsec)).
  - apply reader_skip_string.
  - apply (reader_len 1 _ (λ v, v) _ ltac:(lia) (reader_u8 sec Hsec)). done.
  - apply (reader_len 2 _ (λ v, v) _ ltac:(lia) (reader_u16 sec Hsec)). done.
  - apply (reader_len 4 _ (λ v, v) _ ltac:(lia) (reader_u32 sec Hsec)). done.
  - apply (reader_len 1 _ uptr _ ltac:(lia) (reader_uleb sec Hsec)). intros; apply Hu.
Qed.

(** Where the scan for the NUL of an inline string stops: at the end of the
    section or on a NUL, with every byte before it readable and not NUL. *)
Lemma path_string_loop_wp U fuel c :
  cur_in sec c → sp_end sec - c_p c < Z.of_nat fuel →
  wp U (λ _, False)
    (λ _ c', adv sec 0 c c' ∧ (c_p c' < sp_end sec → sp_read sec (c_p c') = Some x00) ∧
             ∀ a, c_p c ≤ a < c_p c' → ∃ b, sp_read sec a = Some b ∧ b ≠ x00)
    (path_string_loop sec fuel c).
Proof using Hsec.
  revert c. induction fuel as [|fuel IH]; intros c Hc Hf; [destruct Hc; lia|].
  simpl. wp_step. wp_step. wp_step.
  - apply (cur_ok_iff sec Hsec) in E; [|done|lia].
    destruct (sp_read_inside sec (c_p c)) as [b Hb]; [destruct Hc; lia|].
    wp_step. unfold peek. wp_steps. rewrite Hb. simpl. wp_steps.
    + split_and!; [by apply adv_refl| |intros; lia]. by apply is_nul_true in E0 as ->.
    + pose proof (advance_adv sec Hsec c 1 Hc ltac:(lia) E) as Hadv.
      pose proof (advance_p sec Hsec c 1 Hc ltac:(lia) E) as Hp.
      eapply wp_call; [apply IH; [by eapply adv_in|rewrite Hp; simpl; lia]|done|].
      intros [] c' (Hadv' & Hend & Hall). rewrite Hp in Hall. simpl in Hall.
      split_and!; [|done|].
      * by eapply adv_chain.
      * intros a Ha. destruct (Z.eq_dec a (c_p c)) as [->|]; [|apply Hall; lia].
        exists b. by apply is_nul_false in E0.
  - apply (cur_ok_false sec Hsec) in E; [|done|lia].
    split_and!; [by apply adv_refl|lia|intros; lia].
Qed.

(** A run of non-NUL bytes followed by a NUL is a C string. *)
Lemma cstr_run s a n :
  0 ≤ n → sp_read s (a + n) = Some x00 →
  (∀ i, a ≤ i < a + n → ∃ b, sp_read s i = Some b ∧ b ≠ x00) →
  ∃ l, is_cstr (sp_cptr s a) l ∧ n = Z.of_nat (length l).
Proof.
  intros Hn Hend Hall.
  exists ((λ i, default x00 (sp_read s (a + i))) <$> seqZ 0 n). split.
  - split_and!.
    + intros i b Hb. rewrite list_lookup_fmap in Hb.
      destruct (seqZ 0 n !! i) as [z|] eqn:Ez; simplify_eq/=.
      apply lookup_seqZ in Ez as [-> Hi]. unfold sp_cptr. rewrite Z.add_0_l.
      destruct (Hall (a + Z.of_nat i)) as (b & -> & _); [lia|done].
    + unfold sp_cptr. rewrite length_fmap, length_seqZ, Z2Nat.id by lia. done.
    + apply Forall_fmap, Forall_seqZ. intros i Hi. simpl.
      destruct (Hall (a + i)) as (b & -> & Hb); [lia|done].
  - rewrite length_fmap, length_seqZ. lia.
Qed.

(** The part of [bw_form_path] that follows an offset into a string section. *)
Lemma form_path_strp (str : span) off :
  str_span_ok str → 0 ≤ off → bw_cstr_off str off = true →
  reader sec 0 path_ok
    (let out := sp_cptr str (uptr (sp_base str + off)) in
     let* out_len := strlen (S (length (sp_bytes str))) out in ret (out, out_len)).
Proof.
  intros Hstr Hoff E c Hc. unfold bw_cstr_off in E.
  apply negb_true_iff, orb_false_iff in E as [En El]. zify_bools.
  destruct Hstr as [->|[[Hb Hm] Hnul]]; [done|].
  unfold sp_end in Hm. rewrite uptr_small by lia. cbv zeta.
  destruct (nul_terminated_cstr str (sp_base str + off) Hnul) as (l & Hl & Hlen).
  { unfold sp_end. lia. }
  wp_step. rewrite (strlen_cstr _ l) by (done || unfold sp_end, sp_len in *; lia).
  simpl. split; [by apply adv_refl|]. by exists l.
Qed.

Lemma reader_form_path form offset_size line_str debug_str :
  str_span_ok line_str → str_span_ok debug_str →
  reader sec 0 path_ok (bw_form_path sec form offset_size line_str debug_str).
Proof using Hsec.
  intros Hls Hds. unfold bw_form_path. apply reader_if; [|apply reader_if].
  - intros c Hc. wp_steps. eapply wp_call; [apply path_string_loop_wp; [done|]|done|].
    { destruct Hc as [[] _]. unfold sec_fuel, sp_end, sp_len in *. lia. }
    intros [] c' (Hadv & Hend & Hall). wp_steps; zify_bools; [done|].
    pose proof (adv_in sec _ _ _ Hadv) as Hc'. destruct Hadv as (_ & Hle).
    apply (cur_ok_iff sec Hsec) in E; [|done|lia].
    split.
    + pose proof (advance_adv sec Hsec c' 1 Hc' ltac:(lia) E) as (? & ?).
      split; [done|lia].
    + destruct Hsec. destruct Hc as [Hcp _], Hc' as [Hcp' _]. unfold path_ok; simpl.
      rewrite uptr_small by lia. apply cstr_run; [lia| |].
      * replace (c_p c + (c_p c' - c_p c)) with (c_p c') by lia. apply Hend. lia.
      * intros i Hi. apply Hall. lia.
  - eapply (reader_bind0 _ (λ off, 0 ≤ off)).
    { apply reader_if; (eapply reader_weaken; [apply reader_u64 || apply reader_u32; done|lia|]);
        simpl; intros; lia. }
    intros off Hoff. apply reader_if'; intros E; [apply reader_ret, path_ok_empty|].
    assert (Hstr : str_span_ok (if form =? BW_FORM_LINE_STRP then line_str else debug_str))
      by (by destruct (form =? BW_FORM_LINE_STRP)).
    revert E Hstr. generalize (if form =? BW_FORM_LINE_STRP then line_str else debug_str).
    intros str E Hstr. apply form_path_strp; [done|done|]. by apply negb_false_iff in E.
  - eapply (reader_bind0 _ (λ _, True)); [apply reader_form_skip|].
    intros. apply reader_ret, path_ok_empty.
Qed.

Lemma reader_form_udata form :
  reader sec 0 (λ v, 0 ≤ v < 2 ^ 64) (bw_form_udata sec form).
Proof using Hsec.
  unfold bw_form_udata. repeat apply reader_if; try apply reader_fail.
  - eapply reader_weaken; [by apply reader_uleb|lia|done].
  - eapply reader_weaken; [by apply reader_u8|lia|simpl; lia].
  - eapply reader_weaken; [by apply reader_u16|lia|simpl; lia].
  - eapply reader_weaken; [by apply reader_u32|lia|simpl; lia].
Qed.
End safety.
