(* ===== verification/FormSpec.v ===== *)
(** * What the attribute forms mean

    An encoder of attribute values in the style of the DWARF standard
    ([form_value]) and the lemmas that [bw_form_skip] passes over exactly one
    encoded value and that [bw_form_path] and [bw_form_udata] return it. *)

From S2P Require Import Prelude CMonad CMem Cursor Leb128 Decode Forms.

(** Forms of a fixed size. *)
Definition fixed_forms (offset_size : Z) : list (Z * Z) :=
  [(BW_FORM_FLAG_PRESENT, 0); (BW_FORM_IMPLICIT_CONST, 0);
   (BW_FORM_DATA1, 1); (BW_FORM_FLAG, 1); (BW_FORM_DATA2, 2); (BW_FORM_DATA4, 4);
   (BW_FORM_DATA8, 8); (BW_FORM_ADDR, 8); (BW_FORM_DATA16, 16);
   (BW_FORM_STRP, offset_size); (BW_FORM_LINE_STRP, offset_size);
   (BW_FORM_SEC_OFFSET, offset_size); (BW_FORM_REF_ADDR, offset_size)].

(** Blocks with a length of a fixed width. *)
Definition block_forms : list (Z * nat) :=
  [(BW_FORM_BLOCK1, 1%nat); (BW_FORM_BLOCK2, 2%nat); (BW_FORM_BLOCK4, 4%nat)].

(** The bytes of a value of a form. *)
Inductive form_value (offset_size : Z) : Z → list byte → Prop :=
| fv_fixed form n l :
    (form, n) ∈ fixed_forms offset_size → Z.of_nat (length l) = n →
    form_value offset_size form l
| fv_udata z : 0 ≤ z < 2 ^ 64 → form_value offset_size BW_FORM_UDATA (uleb_encode z)
| fv_sdata z : - 2 ^ 63 ≤ z < 2 ^ 63 → form_value offset_size BW_FORM_SDATA (sleb_encode z)
| fv_string l : Forall (λ b, b ≠ x00) l → form_value offset_size BW_FORM_STRING (l ++ [x00])
| fv_block form w l :
    (form, w) ∈ block_forms → Z.of_nat (length l) < 256 ^ Z.of_nat w →
    form_value offset_size form (le_bytes w (Z.of_nat (length l)) ++ l)
| fv_uleb_block form l :
    form ∈ [BW_FORM_BLOCK; BW_FORM_EXPRLOC] → Z.of_nat (length l) < 2 ^ 64 →
    form_value offset_size form (uleb_encode (Z.of_nat (length l)) ++ l).

(** The bytes of a value that is a path, and the path: an inline string, or an
    offset into one of the string sections. *)
Inductive path_value (offset_size : Z) (line_str debug_str : span)
    : Z → list byte → list byte → Prop :=
| pv_inline l :
    Forall (λ b, b ≠ x00) l →
    path_value offset_size line_str debug_str BW_FORM_STRING (l ++ [x00]) l
| pv_offset form str off l :
    (form = BW_FORM_LINE_STRP ∧ str = line_str) ∨ (form = BW_FORM_STRP ∧ str = debug_str) →
    (offset_size = 4 ∧ 0 ≤ off < 2 ^ 32) ∨ (offset_size = 8 ∧ 0 ≤ off < 2 ^ 64) →
    0 < sp_base str → off < sp_len str → is_cstr (sp_cptr str (sp_base str + off)) l →
    path_value offset_size line_str debug_str form (le_bytes (Z.to_nat offset_size) off) l.

Section forms.
Context `{Platform} (sec : span) (Hsec : span_ok sec).

Lemma skip_string_loop_eq l fuel c tl :
  Forall (λ b, b ≠ x00) l → cur_in sec c → rest sec c = l ++ x00 :: tl →
  (length l < fuel)%nat →
  skip_string_loop sec fuel c = Done tt (advance (Z.of_nat (length (l ++ [x00]))) c).
Proof using Hsec.
  revert fuel c. induction l as [|b l IH]; intros fuel c Hl Hc E Hf;
    (destruct fuel as [|fuel]; [simpl in Hf; lia|]).
  - cbn [skip_string_loop]. unfold bind at 1, get.
    rewrite (cur_ok_rest sec Hsec), E by (done || lia).
    destruct (Z.leb_spec 1 (Z.of_nat (length ([] ++ x00 :: tl)))); [|simpl in *; lia].
    unfold bind. by rewrite (next_byte_eq sec Hsec c x00 tl).
  - apply Forall_cons in Hl as [Hb Hl]. cbn [skip_string_loop]. unfold bind at 1, get.
    rewrite (cur_ok_rest sec Hsec), E by (done || lia).
    destruct (Z.leb_spec 1 (Z.of_nat (length ((b :: l) ++ x00 :: tl)))); [|simpl in *; lia].
    unfold bind at 1. rewrite (next_byte_eq sec Hsec c b (l ++ x00 :: tl)) by done.
    rewrite <- is_nul_val. destruct (is_nul b) eqn:Eb; [by apply is_nul_true in Eb|].
    destruct (rest_cons sec Hsec c b _ Hc E) as (_ & _ & Hc1 & E1).
    rewrite (IH fuel _ Hl Hc1 E1) by (simpl in Hf; lia). f_equal.
    change ((b :: l) ++ [x00]) with ([b] ++ (l ++ [x00])).
    rewrite <- (advance_app sec Hsec c [b] (l ++ [x00]) tl); [done|done|].
    by rewrite E, <- app_assoc.
Qed.

Lemma rest_length_fuel c : cur_in sec c → (length (rest sec c) < sec_fuel sec)%nat.
Proof.
  intros Hc. pose proof (length_rest sec c Hc). destruct Hc as [Hc _].
  unfold sec_fuel, sp_end, sp_len in *. lia.
Qed.

Lemma parses_skip_string l :
  Forall (λ b, b ≠ x00) l → parses sec (l ++ [x00]) tt (skip_string_loop sec (sec_fuel sec)).
Proof using Hsec.
  intros Hl c tl Hc E. rewrite <- app_assoc in E.
  apply (skip_string_loop_eq l _ c tl); [done|done|done|].
  pose proof (rest_length_fuel c Hc) as Hf. rewrite E, length_app in Hf. lia.
Qed.

(** A length, then as many bytes. *)
Lemma parses_block l l' m f :
  parses sec l (Z.of_nat (length l')) m →
  (Z.of_nat (length l') < ptr_mod → f (Z.of_nat (length l')) = Z.of_nat (length l')) →
  parses sec (l ++ l') tt (let* n := m in bw_skip (f n)).
Proof using Hsec.
  intros Hm Hf c tl Hc E.
  assert (Hl : Z.of_nat (length l') < ptr_mod).
  { pose proof (length_rest sec c Hc) as Hr. rewrite E, !length_app in Hr.
    destruct Hc as [Hc _], Hsec. unfold sp_end in *. lia. }
  revert c tl Hc E. eapply (parses_bind sec Hsec); [exact Hm|]. rewrite Hf by done.
  by apply parses_skip.
Qed.

Lemma parses_skip_n n l : Z.of_nat (length l) = n → parses sec l tt (bw_skip n).
Proof using Hsec. intros <-. by apply parses_skip. Qed.

Lemma parses_drop {A} l (a : A) m : parses sec l a m → parses sec l tt (do* m in ret tt).
Proof using Hsec. intros Hm. eapply (parses_map sec Hsec); [done|]. by apply parses_ret. Qed.

Lemma parses_tt l : l = [] → parses sec l tt (ret tt).
Proof using Hsec. intros ->. by apply parses_ret. Qed.

Lemma form_skip_value offset_size form l :
  offset_size = 4 ∨ offset_size = 8 → form_value offset_size form l →
  parses sec l tt (bw_form_skip sec form offset_size).
Proof using Hsec.
  intros Hosz Hv. assert (Hu : uptr offset_size = offset_size)
    by (apply uptr_small32; lia).
  destruct Hv as [form n l Hin Hl|z Hz|z Hz|l Hl|form w l Hin Hl|form l Hin Hl].
  - unfold fixed_forms in Hin. rewrite !elem_of_cons in Hin.
    unfold bw_form_skip. rewrite Hu.
    repeat (destruct Hin as [Hin|Hin]; [injection Hin as -> ->|]);
      [| | | | | | | | | | | | |by apply elem_of_nil in Hin];
      cbn [Z.eqb Pos.eqb is_form existsb orb BW_FORM_FLAG_PRESENT];
      first [apply parses_skip_n; assumption | apply parses_tt; destruct l; simpl in *; [done|lia]].
  - apply (parses_drop _ z). by apply (parses_uleb sec Hsec).
  - apply (parses_drop _ z). by apply (parses_sleb sec Hsec).
  - by apply parses_skip_string.
  - unfold block_forms in Hin. rewrite !elem_of_cons in Hin.
    destruct Hin as [E|[E|[E|E%elem_of_nil]]]; [injection E as -> ->..|done];
      apply (parses_block _ l _ (λ n, n)); try done.
    + simpl in *. rewrite Z.mod_small by lia. apply (parses_u8 sec Hsec). lia.
    + apply (parses_u16 sec Hsec). simpl in *. lia.
    + apply (parses_u32 sec Hsec). simpl in *. lia.
  - rewrite !elem_of_cons in Hin.
    assert (Hgoal : parses sec (uleb_encode (Z.of_nat (length l)) ++ l) tt
      (let* n := bw_uleb sec in bw_skip (uptr n))).
    { apply (parses_block _ l _ uptr); [apply (parses_uleb sec Hsec); lia|].
      intros. apply uptr_small. lia. }
    by destruct Hin as [->|[->|?%elem_of_nil]].
Qed.

(** *** Values that are used: paths and indices *)

Lemma path_string_loop_eq l fuel c tl :
  Forall (λ b, b ≠ x00) l → cur_in sec c → rest sec c = l ++ x00 :: tl →
  (length l < fuel)%nat →
  path_string_loop sec fuel c = Done tt (advance (Z.of_nat (length l)) c).
Proof using Hsec.
  revert fuel c. induction l as [|b l IH]; intros fuel c Hl Hc E Hf;
    (destruct fuel as [|fuel]; [simpl in Hf; lia|]);
    destruct (rest_cons sec Hsec c _ _ Hc E) as (_ & Hr & Hc1 & E1);
    cbn [path_string_loop]; unfold bind at 1, get;
    rewrite (cur_ok_rest sec Hsec), E by (done || lia);
    rewrite (proj2 (Z.leb_le _ _)) by (simpl; lia);
    unfold peek, bind, get; rewrite Hr; cbn [of_option ret].
  - by rewrite (advance_0 sec Hsec).
  - apply Forall_cons in Hl as [Hb Hl]. destruct (is_nul b) eqn:Eb; [by apply is_nul_true in Eb|].
    unfold put. rewrite (IH fuel _ Hl Hc1 E1) by (simpl in Hf; lia). f_equal.
    change (b :: l) with ([b] ++ l).
    rewrite <- (advance_app sec Hsec c [b] l (x00 :: tl)); done.
Qed.

(** An inline string: the path is the bytes of the section before the NUL. *)
Lemma form_path_inline osz line_str debug_str l c tl :
  Forall (λ b, b ≠ x00) l → cur_in sec c → rest sec c = (l ++ [x00]) ++ tl →
  bw_form_path sec BW_FORM_STRING osz line_str debug_str c =
    Done (sp_cptr sec (c_p c), Z.of_nat (length l)) (advance (Z.of_nat (length (l ++ [x00]))) c) ∧
  is_cstr (sp_cptr sec (c_p c)) l.
Proof using Hsec.
  intros Hl Hc E. rewrite <- app_assoc in E. cbn [app] in E.
  destruct (rest_app sec Hsec c l (x00 :: tl) Hc E) as (Hc1 & E1 & P1 & L1). split.
  - unfold bw_form_path. rewrite Z.eqb_refl. unfold bind at 1 2, get.
    rewrite (path_string_loop_eq l _ c tl Hl Hc E)
      by (pose proof (rest_length_fuel c Hc) as Hf; rewrite E, length_app in Hf; lia).
    unfold bind, put, ret. rewrite (cur_ok_rest sec Hsec), E1 by (done || lia).
    rewrite (proj2 (Z.leb_le _ _)) by (simpl; lia). cbn [negb].
    destruct Hsec as [Hb He], Hc as [Hc ?]. f_equal.
    + f_equal. rewrite P1, uptr_small by lia. lia.
    + rewrite (advance_advance sec Hsec) by (done || (rewrite E, length_app; simpl; lia) || lia).
      rewrite length_app. f_equal. simpl. lia.
  - assert (Hat : ∀ i : nat, sp_cptr sec (c_p c) (Z.of_nat i) = (l ++ x00 :: tl) !! i).
    { intros i. unfold sp_cptr. by rewrite <- rest_lookup, E. }
    split_and!; [| |done].
    + intros i b Hb. rewrite Hat. by apply lookup_app_l_Some.
    + rewrite Hat, lookup_app_r, Nat.sub_diag by lia. done.
Qed.

(** An offset into a string section: the path is the string there. *)
Lemma form_path_offset form osz line_str debug_str str off l c tl :
  (form = BW_FORM_LINE_STRP ∧ str = line_str) ∨ (form = BW_FORM_STRP ∧ str = debug_str) →
  (osz = 4 ∧ 0 ≤ off < 2 ^ 32) ∨ (osz = 8 ∧ 0 ≤ off < 2 ^ 64) →
  span_ok str → off < sp_len str → is_cstr (sp_cptr str (sp_base str + off)) l →
  cur_in sec c → rest sec c = le_bytes (Z.to_nat osz) off ++ tl →
  bw_form_path sec form osz line_str debug_str c =
    Done (sp_cptr str (sp_base str + off), Z.of_nat (length l)) (advance osz c).
Proof using Hsec.
  intros Hform Hosz Hstr Hoff Hl Hc E. destruct Hstr as [Hb He].
  assert (Hread : (if osz =? 8 then bw_u64 sec else bw_u32 sec) c = Done off (advance osz c)).
  { destruct Hosz as [[-> Ho]|[-> Ho]];
      [apply (parses_u32 sec Hsec off Ho c tl)|apply (parses_u64 sec Hsec off Ho c tl)]; done. }
  assert (Hlen : (length l < S (length (sp_bytes str)))%nat).
  { destruct Hl as (_ & Hnul & _). unfold sp_cptr in Hnul.
    destruct (decide (sp_base str + off + Z.of_nat (length l) < sp_end str)) as [Hlt|Hge].
    - unfold sp_end, sp_len in *. lia.
    - rewrite sp_read_outside in Hnul by lia. done. }
  unfold bw_form_path.
  destruct Hform as [[-> ->]|[-> ->]]; cbn [Z.eqb Pos.eqb orb BW_FORM_STRING BW_FORM_LINE_STRP
    BW_FORM_STRP]; unfold bind at 1; rewrite Hread; unfold bw_cstr_off, sp_null;
    rewrite (proj2 (Z.eqb_neq _ _)), (proj2 (Z.leb_gt _ _)) by lia; cbn [orb negb];
    unfold sp_end in He; rewrite uptr_small by lia; unfold bind; by rewrite (strlen_cstr _ l).
Qed.

(** An index. *)
Lemma form_udata_value form z l :
  (form, z, l) ∈ [(BW_FORM_UDATA, z, uleb_encode z); (BW_FORM_DATA1, z, le_bytes 1 z);
                  (BW_FORM_DATA2, z, le_bytes 2 z); (BW_FORM_DATA4, z, le_bytes 4 z)] →
  0 ≤ z < match form with 0x0b => 2 ^ 8 | 0x05 => 2 ^ 16 | 0x06 => 2 ^ 32 | _ => 2 ^ 64 end →
  parses sec l z (bw_form_udata sec form).
Proof using Hsec.
  rewrite !elem_of_cons. intros [E|[E|[E|[E|E%elem_of_nil]]]] Hz; [injection E as -> ->..|done];
    simpl in Hz.
  - by apply (parses_uleb sec Hsec).
  - simpl. rewrite Z.mod_small by lia. apply (parses_u8 sec Hsec). lia.
  - by apply (parses_u16 sec Hsec).
  - by apply (parses_u32 sec Hsec).
Qed.
End forms.

(** ** Properties *)

(** C20. [bw_form_skip] passes over exactly one attribute value: from a cursor on
    the encoding of a value of any form it knows, it succeeds and leaves the
    cursor on the byte after the value. *)
Theorem bw_form_skip_correct `{Platform} sec c offset_size form l tl :
  span_ok sec → cur_in sec c → offset_size = 4 ∨ offset_size = 8 →
  form_value offset_size form l → rest sec c = l ++ tl →
  ∃ c', bw_form_skip sec form offset_size c = Done tt c' ∧
        cur_in sec c' ∧ rest sec c' = tl ∧ c_p c' = c_p c + Z.of_nat (length l).
Proof.
  intros Hsec Hc Hosz Hv E. eexists. split; [by eapply form_skip_value|].
  destruct (rest_app sec Hsec c l tl Hc E) as (? & ? & ? & _). done.
Qed.

Lemma bw_form_skip_correct_witness :
  ∃ c', bw_form_skip (H:=plat64) (Span 4096 [x02; x00; x41; x42; x07]) BW_FORM_BLOCK2 4
          (BwCur 4096 4101 0) = Done tt c' ∧
        cur_in (Span 4096 [x02; x00; x41; x42; x07]) c' ∧
        rest (Span 4096 [x02; x00; x41; x42; x07]) c' = [x07] ∧
        c_p c' = 4096 + Z.of_nat (length [x02; x00; x41; x42]).
Proof.
  apply (bw_form_skip_correct (H:=plat64)); [concrete|concrete|by left| |reflexivity].
  apply (fv_block 4 BW_FORM_BLOCK2 2 [x41; x42]); [|done].
  apply list_elem_of_further, list_elem_of_here.
Defined.

(** C19. [bw_form_path] yields the path an entry holds, as a C string and with its
    length: the inline string, or the string at an offset of [.debug_line_str] or
    [.debug_str]; the value is passed over exactly. *)
Theorem bw_form_path_correct `{Platform} sec c osz line_str debug_str form enc l tl :
  span_ok sec → cur_in sec c → sp_end line_str < ptr_mod → sp_end debug_str < ptr_mod →
  path_value osz line_str debug_str form enc l → rest sec c = enc ++ tl →
  ∃ out, bw_form_path sec form osz line_str debug_str c =
           Done (out, Z.of_nat (length l)) (advance (Z.of_nat (length enc)) c) ∧
         is_cstr out l.
Proof.
  intros Hsec Hc Hls Hds Hv E. destruct Hv as [l Hl|form str off l Hform Hosz Hb Hoff Hl].
  - eexists. by eapply form_path_inline.
  - eexists. split; [|done]. rewrite length_le_bytes, Z2Nat.id by lia.
    eapply (form_path_offset sec Hsec); try done.
    split; [done|]. by destruct Hform as [[_ ->]|[_ ->]].
Qed.

Lemma bw_form_path_correct_witness :
  ∃ out, bw_form_path (H:=plat64) (Span 4096 [x01; x00; x00; x00]) BW_FORM_LINE_STRP 4
           (Span 8192 [x78; x61; x62; x00]) null_span (BwCur 4096 4100 0) =
         Done (out, 2) (BwCur 4100 4100 0) ∧ is_cstr out [x61; x62].
Proof.
  apply (bw_form_path_correct (H:=plat64) (Span 4096 [x01; x00; x00; x00]) (BwCur 4096 4100 0) 4
    (Span 8192 [x78; x61; x62; x00]) null_span BW_FORM_LINE_STRP (le_bytes 4 1) [x61; x62] []);
    [concrete..| |reflexivity].
  apply (pv_offset 4 _ _ _ (Span 8192 [x78; x61; x62; x00]) 1); [by left|left; concrete|concrete..|].
  apply (is_cstr_span (Span 8192 [x78; x61; x62; x00]) 8193); [concrete|].
  apply list_elem_of_In. vm_compute. auto.
Defined.
