(* ===== verification/Search.v ===== *)
(** * Sorting and searching tables

    The two symbol tables of the library (the DWARF rows and the COFF symbols)
    are sorted with [qsort] and searched for the last entry whose address is not
    above a given one.  [QSort] is the interface to the C library's function:
    what the standard promises of it, and nothing about which of several equal
    entries comes first.  [bsearch_le] is the search loop, written once for both
    tables. *)

From S2P Require Import Prelude CMonad CMem.

(** ** The C library's qsort *)

(** A comparison function [qsort] may be called with: a consistent order. *)
Record cmp_ok {A} (cmp : A → A → Z) : Prop := {
  cmp_anti : ∀ a b, Z.sgn (cmp b a) = - Z.sgn (cmp a b);
  cmp_trans : ∀ a b c, cmp a b ≤ 0 → cmp b c ≤ 0 → cmp a c ≤ 0;
}.

Class QSort := {
  qsort : ∀ {A : Type}, (A → A → Z) → list A → list A;
  qsort_perm : ∀ {A} (cmp : A → A → Z) l, qsort cmp l ≡ₚ l;
  qsort_sorted : ∀ {A} (cmp : A → A → Z) l,
    cmp_ok cmp → StronglySorted (λ a b, cmp a b ≤ 0) (qsort cmp l);
}.

(** Insertion sort, to run the model. *)
Fixpoint insert_by {A} (cmp : A → A → Z) (x : A) (l : list A) : list A :=
  match l with
  | [] => [x]
  | y :: l' => if cmp x y <=? 0 then x :: y :: l' else y :: insert_by cmp x l'
  end.

Definition sort_by {A} (cmp : A → A → Z) (l : list A) : list A :=
  foldr (insert_by cmp) [] l.

Lemma insert_by_perm {A} (cmp : A → A → Z) x l : insert_by cmp x l ≡ₚ x :: l.
Proof.
  induction l as [|y l IH]; simpl; [done|]. case_match; [done|].
  rewrite IH. apply Permutation_swap.
Qed.

Lemma sort_by_perm {A} (cmp : A → A → Z) l : sort_by cmp l ≡ₚ l.
Proof. induction l as [|x l IH]; simpl; [done|]. by rewrite insert_by_perm, IH. Qed.

Lemma insert_by_sorted {A} (cmp : A → A → Z) x l :
  cmp_ok cmp → StronglySorted (λ a b, cmp a b ≤ 0) l →
  StronglySorted (λ a b, cmp a b ≤ 0) (insert_by cmp x l).
Proof.
  intros [Hanti Htr]. induction 1 as [|y l Hl IH Hy]; simpl; [by repeat constructor|].
  destruct (Z.leb_spec (cmp x y) 0).
  - constructor; [by constructor|]. constructor; [done|].
    eapply Forall_impl; [exact Hy|]. simpl. eauto.
  - constructor; [done|]. rewrite insert_by_perm. constructor; [|done].
    pose proof (Hanti x y). lia.
Qed.

#[export] Instance insertion_qsort : QSort := {
  qsort := @sort_by;
  qsort_perm := @sort_by_perm;
  qsort_sorted := λ A cmp l Hcmp,
    list_ind (λ l, StronglySorted (λ a b, cmp a b ≤ 0) (sort_by cmp l))
      (SSorted_nil _) (λ x l IH, insert_by_sorted cmp x (sort_by cmp l) Hcmp IH) l;
}.

Lemma length_qsort `{QSort} {A} (cmp : A → A → Z) l : length (qsort cmp l) = length l.
Proof. apply Permutation_length, qsort_perm. Qed.

(** ** Sorted lists *)

Lemma sorted_lookup_le {A} (R : A → A → Prop) l (i j : nat) x y :
  StronglySorted R l → l !! i = Some x → l !! j = Some y → (i < j)%nat → R x y.
Proof.
  intros Hs. revert i j. induction Hs as [|z l Hl IH Hz]; intros i j Hi Hj Hij; [done|].
  destruct i as [|i], j as [|j]; simpl in *; try lia; simplify_eq.
  - by apply (Forall_lookup_1 _ _ _ _ Hz Hj).
  - apply (IH i j); auto with lia.
Qed.

(** The number of keys not above [addr]. *)
Definition count_le (addr : Z) (l : list Z) : nat := length (filter (λ k, k ≤ addr) l).

Lemma count_le_app addr l1 l2 :
  count_le addr (l1 ++ l2) = (count_le addr l1 + count_le addr l2)%nat.
Proof. unfold count_le. by rewrite filter_app, length_app. Qed.

Lemma count_le_all addr l : Forall (λ k, k ≤ addr) l → count_le addr l = length l.
Proof.
  unfold count_le. induction 1 as [|k l Hk _ IH]; [done|].
  rewrite filter_cons_True by done. simpl. by rewrite IH.
Qed.

Lemma count_le_none addr l : Forall (λ k, addr < k) l → count_le addr l = 0%nat.
Proof.
  unfold count_le. induction 1 as [|k l Hk _ IH]; [done|].
  by rewrite filter_cons_False by lia.
Qed.

Lemma count_le_le addr l : (count_le addr l ≤ length l)%nat.
Proof. apply length_filter. Qed.

Lemma count_le_fmap {A} (f : A → Z) addr (l : list A) :
  count_le addr (f <$> l) = length (filter (λ x, f x ≤ addr) l).
Proof.
  unfold count_le. induction l as [|x l IH]; [done|].
  rewrite fmap_cons, !filter_cons. by case_decide; simpl; rewrite IH.
Qed.

(** The entry a search for [addr] is meant to find: the last one whose key is
    not above [addr]. *)
Lemma last_filter_sorted {A} (f : A → Z) (addr : Z) (l : list A) :
  StronglySorted Z.le (f <$> l) →
  last (filter (λ x, f x ≤ addr) l) =
  match count_le addr (f <$> l) with O => None | S n => l !! n end.
Proof.
  rewrite count_le_fmap. induction l as [|x l IH]; intros Hs; [done|].
  simpl in Hs. apply StronglySorted_inv in Hs as [Hs Hx]. rewrite Forall_fmap in Hx.
  specialize (IH Hs). rewrite !filter_cons. destruct (decide (f x ≤ addr)) as [Hd|Hd].
  - destruct (filter (λ x, f x ≤ addr) l) as [|y t]; [done|].
    rewrite last_cons_cons, IH. done.
  - rewrite IH. cut (length (filter (λ x, f x ≤ addr) l) = 0%nat); [by intros ->|].
    rewrite <- count_le_fmap. apply count_le_none. apply Forall_fmap.
    eapply Forall_impl; [exact Hx|]. simpl. lia.
Qed.

(** ** The search loop

    [best] starts at [(size_t)-1]; the loop keeps it one below [lo]. *)
Section bsearch.
Context `{Platform} {S : Type} (key : Z → M S Z) (addr : Z).

Fixpoint bsearch_le_loop (fuel : nat) (lo hi best : Z) : M S Z :=
  match fuel with
  | O => no_fuel
  | Datatypes.S fuel' =>
      if lo <? hi then
        let mid := lo + (hi - lo) / 2 in
        let* k := key mid in
        if k <=? addr then bsearch_le_loop fuel' (mid + 1) hi mid
        else bsearch_le_loop fuel' lo mid best
      else ret best
  end.

Definition size_max : Z := uptr (-1).

Definition bsearch_le (n : Z) : M S Z :=
  bsearch_le_loop (Datatypes.S (Z.to_nat n)) 0 n size_max.

(** On sorted keys the search returns one less than the number of keys not
    above [addr]. *)
Context (ks : list Z) (s : S).
Context (Hkey : ∀ (i : nat) k, ks !! i = Some k → key (Z.of_nat i) s = Done k s).
Context (Hlen : Z.of_nat (length ks) < ptr_mod).

Lemma bsearch_le_loop_sorted fuel lo hi :
  StronglySorted Z.le ks →
  0 ≤ lo ≤ hi → hi ≤ Z.of_nat (length ks) → hi - lo < Z.of_nat fuel →
  Forall (λ k, k ≤ addr) (take (Z.to_nat lo) ks) →
  Forall (λ k, addr < k) (drop (Z.to_nat hi) ks) →
  bsearch_le_loop fuel lo hi (uptr (lo - 1)) s =
  Done (uptr (Z.of_nat (count_le addr ks) - 1)) s.
Proof using Hkey Hlen.
  intros Hs. revert lo hi. induction fuel as [|fuel IH]; intros lo hi Hlo Hhi Hf Hl Hh; [lia|].
  simpl. destruct (Z.ltb_spec lo hi).
  - set (mid := lo + (hi - lo) / 2).
    assert (Hmid : lo ≤ mid < hi).
    { unfold mid. pose proof (Z.div_pos (hi - lo) 2). pose proof (Z.div_lt (hi - lo) 2). lia. }
    destruct (lookup_lt_is_Some_2 ks (Z.to_nat mid)) as [k Hk]; [lia|].
    unfold bind. rewrite <- (Z2Nat.id mid) at 1 by lia. rewrite (Hkey _ _ Hk).
    destruct (Z.leb_spec k addr).
    + replace mid with (mid + 1 - 1) at 2 by lia.
      rewrite <- (uptr_small (mid + 1 - 1)) by lia. apply IH; [lia|lia|lia| |done].
      apply Forall_lookup. intros i x Hx.
      apply lookup_take_Some in Hx as [Hx Hi]. destruct (decide (i = Z.to_nat mid)); simplify_eq.
      * lia.
      * transitivity k; [|done]. apply (sorted_lookup_le _ _ i (Z.to_nat mid) _ _ Hs); auto with lia.
    + apply IH; [lia|lia|lia|done|]. apply Forall_lookup. intros i x Hx.
      rewrite lookup_drop in Hx. destruct i as [|i].
      * rewrite Nat.add_0_r in Hx. simplify_eq. lia.
      * assert (k ≤ x); [|lia]. eapply (sorted_lookup_le _ _ _ _ _ _ Hs Hk Hx). lia.
  - assert (lo = hi) as <- by lia. unfold ret. do 2 f_equal.
    rewrite <- (take_drop (Z.to_nat lo) ks).
    rewrite count_le_app, count_le_all, count_le_none by done.
    rewrite length_take. lia.
Qed.

Lemma bsearch_le_sorted :
  StronglySorted Z.le ks →
  bsearch_le (Z.of_nat (length ks)) s = Done (uptr (Z.of_nat (count_le addr ks) - 1)) s.
Proof using Hkey Hlen.
  intros Hs. unfold bsearch_le, size_max. change (-1) with (0 - 1).
  apply bsearch_le_loop_sorted; [done|lia|lia|lia|by constructor|].
  by rewrite Nat2Z.id, drop_all.
Qed.
End bsearch.

(** The entry found is the one with the greatest key not above [addr]. *)
Lemma last_filter_greatest {A} (f : A → Z) addr (l : list A) x :
  StronglySorted Z.le (f <$> l) → last (filter (λ x, f x ≤ addr) l) = Some x →
  x ∈ l ∧ f x ≤ addr ∧ ∀ y, y ∈ l → f y ≤ addr → f y ≤ f x.
Proof.
  intros Hs E. apply last_filter_Some in E as Hsplit.
  apply last_Some_elem_of, list_elem_of_filter in E as [Hle Hin].
  split_and!; [done|done|]. destruct Hsplit as (l1 & l2 & -> & Hl2).
  rewrite fmap_app in Hs. intros y Hin' Hle'.
  apply elem_of_app in Hin' as [Hin'|[->|Hin']%elem_of_cons].
  - eapply (StronglySorted_app_1_elem_of _ _ _ (f y) (f x)) in Hs;
      [done|by apply list_elem_of_fmap_2|apply list_elem_of_here].
  - done.
  - rewrite Forall_forall in Hl2. by apply Hl2 in Hin'.
Qed.

Lemma last_filter_none {A} (f : A → Z) addr (l : list A) :
  last (filter (λ x, f x ≤ addr) l) = None → ∀ y, y ∈ l → addr < f y.
Proof.
  intros E y Hy. apply last_None in E. destruct (decide (f y ≤ addr)) as [Hle|]; [|lia].
  assert (Hin : y ∈ filter (λ x, f x ≤ addr) l) by (by apply list_elem_of_filter).
  rewrite E in Hin. by apply elem_of_nil in Hin.
Qed.

(** The search over a sorted table. *)
Lemma bsearch_le_table `{Platform} {S A} (key : Z → M S Z) (f : A → Z) addr (l : list A) (s : S) :
  StronglySorted Z.le (f <$> l) → Z.of_nat (length l) < ptr_mod →
  (∀ (i : nat) x, l !! i = Some x → key (Z.of_nat i) s = Done (f x) s) →
  ∃ best, bsearch_le key addr (Z.of_nat (length l)) s = Done best s ∧
    match last (filter (λ x, f x ≤ addr) l) with
    | None => best = size_max
    | Some x => best ≠ size_max ∧ ∃ i : nat, best = Z.of_nat i ∧ l !! i = Some x
    end.
Proof.
  intros Hs Hlen Hkey. eexists. split.
  - rewrite <- (length_fmap f l). apply bsearch_le_sorted; [|by rewrite length_fmap|done].
    intros i k Hk. rewrite list_lookup_fmap in Hk. destruct (l !! i) eqn:E; simplify_eq/=. by apply Hkey.
  - rewrite last_filter_sorted by done. pose proof (count_le_le addr (f <$> l)) as Hc.
    rewrite length_fmap in Hc. pose proof ptr_mod_bounds. unfold size_max.
    destruct (count_le addr (f <$> l)) as [|n]; [done|].
    destruct (lookup_lt_is_Some_2 l n) as [x Hx]; [lia|]. rewrite Hx, (uptr_neg (-1)), uptr_small by lia.
    split; [lia|]. exists n. split; [lia|done].
Qed.

(** ** Properties *)

(** On sorted keys, the keys not above [addr] are the first [count_le] ones. *)
Lemma count_le_prefix addr ks (i : nat) k :
  StronglySorted Z.le ks → ks !! i = Some k → (i < count_le addr ks)%nat ↔ k ≤ addr.
Proof.
  intros Hs. revert i. induction Hs as [|k0 l Hl IH Hk0]; intros i Hi; [done|].
  unfold count_le in *. rewrite filter_cons. destruct i as [|i]; simplify_eq/=.
  - destruct (decide (k ≤ addr)) as [Hle|Hgt]; simpl; [split; [done|lia]|].
    split; [|done]. change (length (filter (λ k0, k0 ≤ addr) l)) with (count_le addr l).
    rewrite count_le_none; [lia|]. eapply Forall_impl; [exact Hk0|]. simpl. lia.
  - pose proof (Forall_lookup_1 _ _ _ _ Hk0 Hi) as Hk. rewrite <- (IH i Hi).
    destruct (decide (k0 ≤ addr)) as [Hle|Hgt]; simpl; [lia|].
    change (length (filter (λ k, k ≤ addr) l)) with (count_le addr l).
    rewrite count_le_none; [lia|]. eapply Forall_impl; [exact Hk0|]. simpl. lia.
Qed.

(** C24. The search loop shared by the two symbol tables, on sorted keys read
    without side effects, terminates with the index of the last key that is not
    above [addr], or with [(size_t)-1] when every key is above it. *)
Theorem bsearch_le_correct `{Platform} {S} (key : Z → M S Z) addr (ks : list Z) (s : S) :
  StronglySorted Z.le ks → Z.of_nat (length ks) < ptr_mod →
  (∀ (i : nat) k, ks !! i = Some k → key (Z.of_nat i) s = Done k s) →
  ∃ best, bsearch_le key addr (Z.of_nat (length ks)) s = Done best s ∧
    ((best = size_max ∧ Forall (λ k, addr < k) ks) ∨
     ∃ (i : nat) k, best = Z.of_nat i ∧ ks !! i = Some k ∧ k ≤ addr ∧
       ∀ (j : nat) k', (i < j)%nat → ks !! j = Some k' → addr < k').
Proof.
  intros Hs Hlen Hkey. eexists. split; [by apply bsearch_le_sorted|].
  pose proof (count_le_le addr ks). destruct (count_le addr ks) as [|n] eqn:E.
  - left. split; [done|]. apply Forall_lookup. intros i k Hk.
    pose proof (count_le_prefix addr ks i k Hs Hk). lia.
  - right. destruct (lookup_lt_is_Some_2 ks n) as [k Hk]; [lia|]. exists n, k.
    rewrite uptr_small by lia. split_and!; [lia|done| |].
    + apply (count_le_prefix addr ks n k Hs Hk). lia.
    + intros j k' Hj Hk'. pose proof (count_le_prefix addr ks j k' Hs Hk'). lia.
Qed.

Lemma bsearch_le_correct_witness :
  ∃ best, bsearch_le (H:=plat64) (λ i, ret (10 * i)) 25 4 tt = Done best tt ∧
    ((best = size_max (H:=plat64) ∧ Forall (λ k, 25 < k) [0; 10; 20; 30]) ∨
     ∃ (i : nat) k, best = Z.of_nat i ∧ [0; 10; 20; 30] !! i = Some k ∧ k ≤ 25 ∧
       ∀ (j : nat) k', (i < j)%nat → [0; 10; 20; 30] !! j = Some k' → 25 < k').
Proof.
  apply (bsearch_le_correct (H:=plat64) _ 25 [0; 10; 20; 30] tt).
  - by repeat constructor.
  - concrete.
  - intros [|[|[|[|i]]]] k Hk; simplify_eq/=; done.
Defined.
