(* ===== verification/DwarfTab.v ===== *)
(** * The line table

    [bw_dwarf_tab_t] of src/dwarf_line.h and the operations on it in
    src/dwarf_line.c: [bw_dwarf_tab_reset], [bw_add_str], [bw_emit],
    [bw_row_cmp], the sort at the end of [bw_dwarf_tab_parse] and
    [bw_dwarf_tab_lookup].  The arrays [rows] and [strs] keep their cells across
    a reset, as the static table of the code does; [tab_rows] and [str_at] are
    the live rows and strings the rest of the development talks about. *)

From S2P Require Import Prelude CMonad CMem Search.

Definition BW_DWARF_ROW_MAX : Z := 65536.
Definition BW_DWARF_STR_MAX : Z := 256 * 1024.

Record bw_dwarf_row_t := Row { row_addr : Z; row_name_off : Z; row_line : Z }.

#[export] Instance row_eq_dec : EqDecision bw_dwarf_row_t.
Proof. solve_decision. Defined.

Record bw_dwarf_tab_t := Tab {
  rows : gmap Z bw_dwarf_row_t;
  nrow : Z;
  strs : gmap Z byte;
  nstr : Z;
}.

(** A zero-initialised cell of [rows]. *)
Definition row0 : bw_dwarf_row_t := Row 0 0 0.

(** The static table before its first use. *)
Definition tab0 : bw_dwarf_tab_t := Tab ∅ 0 ∅ 0.

Definition set_strs (m : gmap Z byte) (t : bw_dwarf_tab_t) : bw_dwarf_tab_t :=
  Tab (rows t) (nrow t) m (nstr t).
Definition set_nstr (n : Z) (t : bw_dwarf_tab_t) : bw_dwarf_tab_t :=
  Tab (rows t) (nrow t) (strs t) n.

Definition bw_dwarf_tab_reset (t : bw_dwarf_tab_t) : bw_dwarf_tab_t :=
  Tab (rows t) 0 (strs t) 0.

Section tab.
Context `{Platform}.

(** [while (i < n && s[i] != '\0') { tab->strs[tab->nstr + i] = s[i]; ++i; }],
    returning the final [i]. *)
Fixpoint add_str_loop (fuel : nat) (s : cptr) (n i : Z) : M bw_dwarf_tab_t Z :=
  match fuel with
  | O => no_fuel
  | S fuel' =>
      if i <? n then
        let* b := c_at s i in
        if is_nul b then ret i else
        let* t := get in
        let* strs' := arr_store BW_DWARF_STR_MAX (strs t) (uptr (nstr t + i)) b in
        do* put (set_strs strs' t) in
        add_str_loop fuel' s n (i + 1)
      else ret i
  end.

Definition bw_add_str (s : option cptr) (n : Z) : M bw_dwarf_tab_t Z :=
  let* t := get in
  match s with
  | None => ret (-1)
  | Some s =>
      if BW_DWARF_STR_MAX <? uptr (nstr t + 1) then ret (-1) else
      let room := uptr (BW_DWARF_STR_MAX - nstr t) in
      let n := if room <=? n then uptr (room - 1) else n in
      let* i := add_str_loop (S (Z.to_nat n)) s n 0 in
      let* t := get in
      let* strs' := arr_store BW_DWARF_STR_MAX (strs t) (uptr (nstr t + i)) x00 in
      let off := sext 32 (u32 (nstr t)) in
      do* put (set_nstr (uptr (nstr t + uptr (i + 1))) (set_strs strs' t)) in
      ret off
  end.

Definition bw_emit (addr file_off line : Z) : M bw_dwarf_tab_t unit :=
  let* t := get in
  if ((BW_DWARF_ROW_MAX <=? nrow t) || (file_off <? 0) || (addr =? 0) || (line =? 0)
      || (0xffffffff <? line))%bool
  then ret tt
  else
    let* rows' := arr_store BW_DWARF_ROW_MAX (rows t) (nrow t)
                    (Row addr (u32 file_off) (u32 line)) in
    put (Tab rows' (uptr (nrow t + 1)) (strs t) (nstr t)).

(** [bw_row_cmp] *)
Definition bw_row_cmp (ra rb : bw_dwarf_row_t) : Z :=
  if row_addr ra <? row_addr rb then -1
  else if row_addr ra >? row_addr rb then 1
  else 0.

(** The live rows, [rows[0] .. rows[nrow - 1]]. *)
Definition tab_rows (t : bw_dwarf_tab_t) : list bw_dwarf_row_t :=
  arr_seg row0 (rows t) 0 (nrow t).

(** [qsort(tab->rows, tab->nrow, sizeof(tab->rows[0]), bw_row_cmp)] *)
Definition sort_rows `{QSort} (t : bw_dwarf_tab_t) : bw_dwarf_tab_t :=
  Tab (arr_write (rows t) 0 (qsort bw_row_cmp (tab_rows t))) (nrow t) (strs t) (nstr t).

(** What the caller's variables [*file] and [*line] are after the call: [None]
    is a null pointer argument, the file name is its offset in [strs]. *)
Definition bw_dwarf_tab_lookup (tab : option bw_dwarf_tab_t) (addr : Z)
    (file : option (option Z)) (line : option Z)
    : M unit (bool * option (option Z) * option Z) :=
  match tab with
  | None => ret (false, file, line)
  | Some t =>
      if nrow t =? 0 then ret (false, file, line) else
      let row_at mid := arr_load0 BW_DWARF_ROW_MAX row0 (rows t) mid in
      let key mid := let* r := row_at mid in ret (row_addr r) in
      let* best := bsearch_le key addr (nrow t) in
      if best =? size_max then ret (false, file, line) else
      let* r := row_at best in
      ret (true,
           match file with None => None | Some _ => Some (Some (row_name_off r)) end,
           match line with None => None | Some _ => Some (row_line r) end)
  end.
End tab.

(** ** The invariant of the table *)

(** The string of bytes [l] is stored at offset [off] of [strs], with its
    terminator, inside the part in use. *)
Definition str_at (t : bw_dwarf_tab_t) (off : Z) (l : list byte) : Prop :=
  pool_at BW_DWARF_STR_MAX (strs t) (nstr t) off l.

Section inv.
Context `{Platform}.

Record row_ok (t : bw_dwarf_tab_t) (r : bw_dwarf_row_t) : Prop := {
  row_addr_ok : 0 < row_addr r < ptr_mod;
  row_line_ok : 0 < row_line r < 2 ^ 32;
  row_name_ok : ∃ l, str_at t (row_name_off r) l;
}.

Record tab_ok (t : bw_dwarf_tab_t) : Prop := {
  tab_nrow_ok : 0 ≤ nrow t ≤ BW_DWARF_ROW_MAX;
  tab_nstr_ok : 0 ≤ nstr t ≤ BW_DWARF_STR_MAX;
  tab_rows_ok : Forall (row_ok t) (tab_rows t);
}.

(** [t'] is [t] with strings and rows added: what every parsing step does. *)
Record tab_ext (t t' : bw_dwarf_tab_t) : Prop := {
  ext_nstr : nstr t ≤ nstr t';
  ext_strs : ∀ i, i < nstr t → strs t' !! i = strs t !! i;
  ext_rows : ∃ rs, tab_rows t' = tab_rows t ++ rs;
}.

#[export] Instance tab_ext_preorder : PreOrder tab_ext.
Proof.
  split.
  - intros t. split; [done|done|]. exists []. by rewrite app_nil_r.
  - intros t1 t2 t3 [H1 H2 [rs1 E1]] [H3 H4 [rs2 E2]]. split; [lia| |].
    + intros i Hi. rewrite H4 by lia. auto.
    + exists (rs1 ++ rs2). by rewrite E2, E1, app_assoc.
Qed.

Lemma str_at_ext t t' off l : tab_ext t t' → str_at t off l → str_at t' off l.
Proof. intros [Hn Hs _]. by apply pool_at_ext. Qed.

Lemma row_ok_ext t t' r : tab_ext t t' → row_ok t r → row_ok t' r.
Proof. intros Hext [? ? [l Hl]]. split; [done..|]. eauto using str_at_ext. Qed.

Lemma tab0_ok : tab_ok tab0.
Proof. split; [unfold BW_DWARF_ROW_MAX; simpl; lia|unfold BW_DWARF_STR_MAX; simpl; lia|constructor]. Qed.

Lemma tab_reset_ok t : tab_ok (bw_dwarf_tab_reset t).
Proof. split; [unfold BW_DWARF_ROW_MAX; simpl; lia|unfold BW_DWARF_STR_MAX; simpl; lia|constructor]. Qed.

(** *** Adding a string *)

(** The bytes [bw_add_str] keeps of a string of bytes [l]: what fits with the
    terminator. *)
Definition kept (t : bw_dwarf_tab_t) (l : list byte) : list byte :=
  take (Z.to_nat (BW_DWARF_STR_MAX - nstr t - 1)) l.

Definition add_str_result (t : bw_dwarf_tab_t) (l : list byte) : bw_dwarf_tab_t :=
  Tab (rows t) (nrow t) (arr_write (strs t) (nstr t) (kept t l ++ [x00]))
    (nstr t + Z.of_nat (length (kept t l)) + 1).

Lemma add_str_loop_eq fuel (s : cptr) l (n i : nat) t :
  is_cstr s l → (i ≤ n ≤ length l)%nat → (n - i < fuel)%nat →
  0 ≤ nstr t → nstr t + Z.of_nat n ≤ BW_DWARF_STR_MAX →
  add_str_loop fuel s (Z.of_nat n) (Z.of_nat i) t =
  Done (Z.of_nat n)
    (set_strs (arr_write (strs t) (nstr t + Z.of_nat i) (take (n - i) (drop i l))) t).
Proof.
  intros Hs. revert i t. induction fuel as [|fuel IH]; intros i t Hi Hf Hn Hmax; [lia|].
  simpl. destruct (Z.ltb_spec (Z.of_nat i) (Z.of_nat n)).
  - destruct (is_cstr_at s l i Hs) as (b & Hb & Hz & Hl); [lia|].
    destruct (lookup_lt_is_Some_2 l i) as [b' Hb']; [lia|].
    assert (b' = b) as -> by auto.
    unfold bind, c_at. rewrite Hb. cbn [of_option ret].
    destruct (is_nul b); [destruct Hz; lia|]. unfold get, arr_store, put, ret.
    rewrite uptr_small32 by (unfold BW_DWARF_STR_MAX in *; lia).
    rewrite (proj2 (in_bounds_true _ _)) by lia.
    replace (Z.of_nat i + 1) with (Z.of_nat (S i)) by lia.
    rewrite IH by (simpl; lia). unfold set_strs; simpl.
    rewrite (drop_S l b i Hb'). replace (n - i)%nat with (S (n - S i)) by lia. simpl.
    do 3 f_equal. lia.
  - assert (i = n) as -> by lia. rewrite Nat.sub_diag. simpl. by destruct t.
Qed.

Lemma bw_add_str_eq t (s : cptr) l :
  0 ≤ nstr t ≤ BW_DWARF_STR_MAX → is_cstr s l →
  bw_add_str (Some s) (Z.of_nat (length l)) t =
  if nstr t =? BW_DWARF_STR_MAX then Done (-1) t
  else Done (nstr t) (add_str_result t l).
Proof.
  intros Hn Hs. unfold bw_add_str, bind at 1, get.
  assert (Hmax : BW_DWARF_STR_MAX = 262144) by done.
  rewrite uptr_small32 by lia.
  destruct (Z.eqb_spec (nstr t) BW_DWARF_STR_MAX) as [E|E].
  { by rewrite (proj2 (Z.ltb_lt _ _)) by lia. }
  rewrite (proj2 (Z.ltb_ge _ _)) by lia. rewrite !uptr_small32 by lia.
  set (n := if _ <=? _ then _ else _).
  assert (Hk : n = Z.of_nat (length (kept t l))).
  { unfold n, kept. rewrite length_take. case_match; zify_bools; lia. }
  assert (Hkl : (length (kept t l) ≤ length l)%nat)
    by (unfold kept; rewrite length_take; lia).
  assert (Hkm : nstr t + Z.of_nat (length (kept t l)) < BW_DWARF_STR_MAX)
    by (unfold kept; rewrite length_take; lia).
  rewrite Hk. unfold bind at 1. change 0 with (Z.of_nat 0).
  rewrite (add_str_loop_eq _ s l) by (done || lia).
  unfold bind, get, arr_store, put, ret. cbn [nstr set_strs strs rows nrow set_nstr].
  rewrite !uptr_small32 by lia. rewrite (proj2 (in_bounds_true _ _)) by lia.
  rewrite u32_small, sext_int by lia.
  f_equal. unfold add_str_result, set_nstr, set_strs; simpl.
  rewrite (uptr_small32 (_ + 1)), uptr_small32 by lia. f_equal; [|lia].
  rewrite arr_write_app; simpl. rewrite Nat.sub_0_r, drop_0, Z.add_0_r.
  do 2 f_equal. apply take_length_take.
Qed.

Lemma kept_no_nul t l : Forall (λ b, b ≠ x00) l → Forall (λ b, b ≠ x00) (kept t l).
Proof. apply Forall_take. Qed.

Lemma add_str_result_spec t l :
  0 ≤ nstr t < BW_DWARF_STR_MAX → Forall (λ b, b ≠ x00) l →
  str_at (add_str_result t l) (nstr t) (kept t l) ∧
  tab_ext t (add_str_result t l) ∧
  nstr (add_str_result t l) ≤ BW_DWARF_STR_MAX.
Proof.
  intros Hn Hl.
  assert (Hkm : nstr t + Z.of_nat (length (kept t l)) < BW_DWARF_STR_MAX)
    by (unfold kept; rewrite length_take; lia).
  split_and!.
  - split_and!; simpl; [lia|lia|]. apply arr_cptr0_write; [lia|lia|by apply kept_no_nul].
  - split; simpl; [lia| |by exists []; rewrite app_nil_r].
    intros i Hi. by apply arr_write_lookup_lt.
  - simpl. lia.
Qed.

(** The specification the parser uses: a table stays well-formed, and the
    result is -1 or the offset of a stored string. *)
Definition off_ok (t : bw_dwarf_tab_t) (off : Z) : Prop :=
  off = -1 ∨ (0 ≤ off < BW_DWARF_STR_MAX ∧ ∃ l, str_at t off l).

Lemma off_ok_ext t t' off : tab_ext t t' → off_ok t off → off_ok t' off.
Proof. intros Hext [->|[? [l ?]]]; [by left|right]. eauto using str_at_ext. Qed.

Lemma tab_ok_same_rows t t' :
  tab_ok t → tab_ext t t' → nrow t' = nrow t → rows t' = rows t →
  nstr t' ≤ BW_DWARF_STR_MAX → tab_ok t'.
Proof.
  intros [Hr Hs Hrows] Hext Hnr Hrw Hmax. split; [by rewrite Hnr|destruct Hext; lia|].
  unfold tab_rows. rewrite Hnr, Hrw. eapply Forall_impl; [exact Hrows|].
  eauto using row_ok_ext.
Qed.

Lemma bw_add_str_wp U F (s : cptr) l t :
  tab_ok t → is_cstr s l →
  wp U F (λ off t', tab_ok t' ∧ tab_ext t t' ∧ off_ok t' off)
    (bw_add_str (Some s) (Z.of_nat (length l)) t).
Proof.
  intros Hok Hs. pose proof (tab_nstr_ok t Hok) as Hn.
  rewrite bw_add_str_eq by done. destruct (Z.eqb_spec (nstr t) BW_DWARF_STR_MAX); simpl.
  - split_and!; [done|done|by left].
  - destruct (add_str_result_spec t l) as (Hat & Hext & Hmax); [lia|apply Hs|].
    split_and!; [by eapply tab_ok_same_rows|done|]. right. split; [lia|eauto].
Qed.

(** *** Emitting a row *)

Definition emit_guard (t : bw_dwarf_tab_t) (addr file_off line : Z) : bool :=
  ((BW_DWARF_ROW_MAX <=? nrow t) || (file_off <? 0) || (addr =? 0) || (line =? 0)
   || (0xffffffff <? line))%bool.

Lemma bw_emit_eq t addr file_off line :
  0 ≤ nrow t ≤ BW_DWARF_ROW_MAX → file_off < 2 ^ 32 → 0 ≤ line →
  ∃ t', bw_emit addr file_off line t = Done tt t' ∧
    tab_rows t' =
      (if emit_guard t addr file_off line then tab_rows t
       else tab_rows t ++ [Row addr file_off line]) ∧
    nrow t' = (if emit_guard t addr file_off line then nrow t else nrow t + 1) ∧
    strs t' = strs t ∧ nstr t' = nstr t.
Proof.
  intros Hn Hf Hl. unfold bw_emit, bind, get.
  fold (emit_guard t addr file_off line).
  destruct (emit_guard t addr file_off line) eqn:E; [by exists t|].
  unfold emit_guard in E. zify_bools. assert (BW_DWARF_ROW_MAX = 65536) by done.
  unfold arr_store. rewrite (proj2 (in_bounds_true _ _)) by lia.
  eexists. split; [reflexivity|]. simpl.
  rewrite !u32_small, uptr_small32 by lia. split_and!; [|done..].
  unfold tab_rows; simpl. rewrite arr_seg_snoc, arr_seg_insert_ge, lookup_insert_eq by lia.
  done.
Qed.

Lemma bw_emit_wp U F addr file_off line t :
  tab_ok t → 0 ≤ addr < ptr_mod → 0 ≤ line → off_ok t file_off →
  wp U F (λ _ t', tab_ok t' ∧ tab_ext t t') (bw_emit addr file_off line t).
Proof.
  intros Hok Ha Hl Hoff. assert (Hmax : BW_DWARF_STR_MAX = 262144) by done.
  destruct (bw_emit_eq t addr file_off line) as (t' & -> & Hrows & Hnr & Hst & Hns).
  - apply Hok.
  - destruct Hoff as [->|[? _]]; lia.
  - done.
  - assert (Hext : tab_ext t t').
    { split; [lia|by intros; rewrite Hst|]. rewrite Hrows.
      case_match; [by exists []; rewrite app_nil_r|eauto]. }
    simpl. split; [|done]. destruct Hok as [Hn Hs Hr]. split.
    + rewrite Hnr. unfold emit_guard in *. case_match; zify_bools; lia.
    + by rewrite Hns.
    + rewrite Hrows. assert (Hr' : Forall (row_ok t') (tab_rows t))
        by (eapply Forall_impl; [exact Hr|]; eauto using row_ok_ext).
      destruct (emit_guard t addr file_off line) eqn:E; [done|].
      apply Forall_app; split; [done|]. constructor; [|constructor].
      unfold emit_guard in E. zify_bools. destruct Hoff as [->|[_ [l Hat]]]; [lia|].
      split; simpl; [lia|lia|]. eauto using str_at_ext.
Qed.
End inv.

(** ** Sorting and looking up *)

Lemma bw_row_cmp_le a b : bw_row_cmp a b ≤ 0 ↔ row_addr a ≤ row_addr b.
Proof.
  unfold bw_row_cmp. rewrite Z.gtb_ltb.
  destruct (Z.ltb_spec (row_addr a) (row_addr b)), (Z.ltb_spec (row_addr b) (row_addr a)); lia.
Qed.

Lemma bw_row_cmp_ok : cmp_ok bw_row_cmp.
Proof.
  split.
  - intros a b. unfold bw_row_cmp. rewrite !Z.gtb_ltb.
    destruct (Z.ltb_spec (row_addr a) (row_addr b)), (Z.ltb_spec (row_addr b) (row_addr a));
      done || lia.
  - intros a b c. rewrite !bw_row_cmp_le. lia.
Qed.

(** The rows are in the order [bw_dwarf_tab_lookup] needs. *)
Definition rows_sorted (t : bw_dwarf_tab_t) : Prop :=
  StronglySorted Z.le (row_addr <$> tab_rows t).

Lemma sorted_fmap {A B} (f : A → B) (R : B → B → Prop) l :
  StronglySorted (λ a b, R (f a) (f b)) l → StronglySorted R (f <$> l).
Proof.
  induction 1 as [|x l Hl IH Hx]; simpl; constructor; [done|]. by apply Forall_fmap.
Qed.

Lemma sorted_impl {A} (R R' : A → A → Prop) l :
  (∀ a b, R a b → R' a b) → StronglySorted R l → StronglySorted R' l.
Proof.
  intros HR. induction 1 as [|x l Hl IH Hx]; constructor; [done|].
  eapply Forall_impl; [exact Hx|auto].
Qed.

Section sorting.
Context `{Platform} `{QSort}.

Lemma sort_rows_rows t : 0 ≤ nrow t → tab_rows (sort_rows t) = qsort bw_row_cmp (tab_rows t).
Proof.
  intros Hn. unfold sort_rows, tab_rows at 1; simpl.
  rewrite <- (arr_seg_write row0 (rows t) 0 (qsort bw_row_cmp (tab_rows t))) at 2.
  f_equal. rewrite length_qsort. unfold tab_rows. by rewrite length_arr_seg.
Qed.

Lemma sort_rows_sorted t : 0 ≤ nrow t → rows_sorted (sort_rows t).
Proof.
  intros Hn. unfold rows_sorted. rewrite sort_rows_rows by done. apply sorted_fmap.
  eapply sorted_impl; [|apply (qsort_sorted bw_row_cmp), bw_row_cmp_ok].
  intros a b. apply bw_row_cmp_le.
Qed.

Lemma sort_rows_perm t : 0 ≤ nrow t → tab_rows (sort_rows t) ≡ₚ tab_rows t.
Proof. intros Hn. rewrite sort_rows_rows by done. apply qsort_perm. Qed.

Lemma row_ok_strs t t' r :
  strs t' = strs t → nstr t' = nstr t → row_ok t r → row_ok t' r.
Proof.
  intros Hs Hn [? ? [l (? & ? & ?)]]. split; [done..|]. exists l.
  unfold str_at. by rewrite Hs, Hn.
Qed.

Lemma sort_rows_ok t : tab_ok t → tab_ok (sort_rows t).
Proof.
  intros [Hn Hs Hr]. split; [done|done|].
  rewrite sort_rows_perm by lia. eapply Forall_impl; [exact Hr|].
  intros r. by apply row_ok_strs.
Qed.

Lemma tab_rows_lookup t (i : nat) r :
  tab_rows t !! i = Some r → default row0 (rows t !! Z.of_nat i) = r ∧ Z.of_nat i < nrow t.
Proof.
  unfold tab_rows, arr_seg. rewrite list_lookup_fmap.
  destruct (seqZ 0 (nrow t) !! i) as [z|] eqn:E; intros; simplify_eq/=.
  apply lookup_seqZ in E as [-> Hi]. by rewrite Z.add_0_l.
Qed.

Lemma length_tab_rows t : 0 ≤ nrow t → Z.of_nat (length (tab_rows t)) = nrow t.
Proof. apply length_arr_seg. Qed.

(** The row a lookup of [addr] should find. *)
Definition row_at (t : bw_dwarf_tab_t) (addr : Z) : option bw_dwarf_row_t :=
  last (filter (λ r, row_addr r ≤ addr) (tab_rows t)).

(** It is the row with the greatest address not above [addr]. *)
Lemma row_at_greatest t addr r :
  rows_sorted t → row_at t addr = Some r →
  r ∈ tab_rows t ∧ row_addr r ≤ addr ∧
  ∀ r', r' ∈ tab_rows t → row_addr r' ≤ addr → row_addr r' ≤ row_addr r.
Proof. apply (last_filter_greatest row_addr). Qed.

Lemma bw_dwarf_tab_lookup_eq t addr file line :
  0 ≤ nrow t ≤ BW_DWARF_ROW_MAX → rows_sorted t →
  bw_dwarf_tab_lookup (Some t) addr file line tt =
  match row_at t addr with
  | None => Done (false, file, line) tt
  | Some r => Done (true, (λ _, Some (row_name_off r)) <$> file, (λ _, row_line r) <$> line) tt
  end.
Proof.
  intros Hn Hs. assert (Hmax : BW_DWARF_ROW_MAX = 65536) by done.
  unfold row_at, bw_dwarf_tab_lookup. destruct (Z.eqb_spec (nrow t) 0) as [E|E].
  { assert (tab_rows t = []) as -> by (apply length_zero_iff_nil;
      pose proof (length_tab_rows t); lia). done. }
  pose proof (length_tab_rows t ltac:(lia)) as Hlen. pose proof ptr_mod_bounds as Hpm.
  assert (Hrow : ∀ (i : nat) r, tab_rows t !! i = Some r →
    arr_load0 (S:=unit) BW_DWARF_ROW_MAX row0 (rows t) (Z.of_nat i) tt = Done r tt).
  { intros i r Hr. apply tab_rows_lookup in Hr as [Hr Hi]. unfold arr_load0.
    rewrite (proj2 (in_bounds_true _ _)) by lia. by rewrite Hr. }
  unfold bind at 1. rewrite <- Hlen.
  destruct (bsearch_le_table (λ mid, let* r := arr_load0 BW_DWARF_ROW_MAX row0 (rows t) mid in
    ret (row_addr r)) row_addr addr (tab_rows t) tt) as (best & -> & Hbest); [done|lia| |].
  { intros i r Hr. unfold bind. by rewrite (Hrow _ _ Hr). }
  destruct (last _) as [r|].
  - destruct Hbest as (Hne & n & -> & Hr). rewrite (proj2 (Z.eqb_neq _ _)) by done.
    unfold bind. rewrite (Hrow _ _ Hr). by destruct file, line.
  - by rewrite Hbest, Z.eqb_refl.
Qed.
End sorting.

(** ** Properties *)

(** C5. [bw_dwarf_tab_lookup] answers with the nearest row: on a sorted table it
    finds a live row whose address is the greatest not above [addr], fills in its
    line and its name, which is a C string stored in the table, for the outputs the
    caller asked for; it answers false, leaving the outputs alone, exactly when
    every row is above [addr].  It never reads outside [rows]. *)
Theorem bw_dwarf_tab_lookup_correct `{Platform} t addr file line :
  tab_ok t → rows_sorted t →
  ∃ res, bw_dwarf_tab_lookup (Some t) addr file line tt = Done res tt ∧
    ((∃ r l, r ∈ tab_rows t ∧ row_addr r ≤ addr ∧
        (∀ r', r' ∈ tab_rows t → row_addr r' ≤ addr → row_addr r' ≤ row_addr r) ∧
        str_at t (row_name_off r) l ∧
        res = (true, (λ _, Some (row_name_off r)) <$> file, (λ _, row_line r) <$> line)) ∨
     ((∀ r', r' ∈ tab_rows t → addr < row_addr r') ∧ res = (false, file, line))).
Proof.
  intros Hok Hs. rewrite bw_dwarf_tab_lookup_eq by apply Hok || done.
  destruct (row_at t addr) as [r|] eqn:E; (eexists; split; [done|]); unfold row_at in E.
  - left. apply row_at_greatest in E as (Hin & Hle & Hmax); [|done].
    destruct (proj1 (Forall_forall _ _) (tab_rows_ok t Hok) r Hin) as [_ _ [l Hl]].
    by exists r, l.
  - right. split; [|done]. by apply (last_filter_none row_addr).
Qed.

(** A table with two rows named "a". *)
Definition tab_ex : bw_dwarf_tab_t :=
  Tab {[0 := Row 16 0 3; 1 := Row 20 0 4]} 2 {[0 := x61; 1 := x00]} 2.

Lemma str_at_ex (t : bw_dwarf_tab_t) : strs t = strs tab_ex → nstr t = 2 → str_at t 0 [x61].
Proof.
  intros E1 E2. unfold str_at. rewrite E1, E2. split_and!; [done|done|].
  split_and!; [|done|by repeat constructor].
  intros [|[|i]] b Hb; simplify_eq/=; done.
Qed.

Lemma tab_ex_ok : tab_ok (H:=plat64) tab_ex.
Proof.
  split; [concrete|concrete|].
  repeat constructor; try concrete; exists [x61]; by apply str_at_ex.
Qed.

Lemma tab_ex_sorted : rows_sorted tab_ex.
Proof. unfold rows_sorted. vm_compute. repeat constructor; discriminate. Qed.

Lemma bw_dwarf_tab_lookup_correct_witness :
  ∃ res, bw_dwarf_tab_lookup (H:=plat64) (Some tab_ex) 19 (Some None) (Some 0) tt = Done res tt ∧
    ((∃ r l, r ∈ tab_rows tab_ex ∧ row_addr r ≤ 19 ∧
        (∀ r', r' ∈ tab_rows tab_ex → row_addr r' ≤ 19 → row_addr r' ≤ row_addr r) ∧
        str_at tab_ex (row_name_off r) l ∧
        res = (true, Some (Some (row_name_off r)), Some (row_line r))) ∨
     ((∀ r', r' ∈ tab_rows tab_ex → 19 < row_addr r') ∧ res = (false, Some None, Some 0))).
Proof.
  exact (bw_dwarf_tab_lookup_correct (H:=plat64) tab_ex 19 (Some None) (Some 0)
           tab_ex_ok tab_ex_sorted).
Defined.

(** C18. [bw_add_str] interns a string: in a full table it answers -1 and changes
    nothing; otherwise it answers the offset of a copy of the string, cut to the
    space left and NUL-terminated, written behind what was stored before, which
    stays as it was.  The table stays well-formed. *)
Theorem bw_add_str_correct `{Platform} t s l :
  tab_ok t → is_cstr s l →
  (nstr t = BW_DWARF_STR_MAX → bw_add_str (Some s) (Z.of_nat (length l)) t = Done (-1) t) ∧
  (nstr t < BW_DWARF_STR_MAX →
   ∃ t', bw_add_str (Some s) (Z.of_nat (length l)) t = Done (nstr t) t' ∧
     str_at t' (nstr t) (take (Z.to_nat (BW_DWARF_STR_MAX - nstr t - 1)) l) ∧
     tab_rows t' = tab_rows t ∧ tab_ext t t' ∧ tab_ok t').
Proof.
  intros Hok Hs. pose proof (tab_nstr_ok t Hok) as Hn. rewrite bw_add_str_eq by done. split.
  - intros ->. by rewrite Z.eqb_refl.
  - intros Hlt. rewrite (proj2 (Z.eqb_neq _ _)) by lia. eexists. split; [done|].
    destruct (add_str_result_spec t l) as (Hat & Hext & Hmax); [lia|apply Hs|].
    split_and!; [done|done|done|by eapply tab_ok_same_rows].
Qed.

Lemma bw_add_str_correct_witness :
  ∃ t', bw_add_str (H:=plat64) (Some (c_lit [x62; x63])) 2 tab_ex = Done 2 t' ∧
    str_at t' 2 (take (Z.to_nat (BW_DWARF_STR_MAX - 2 - 1)) [x62; x63]) ∧
    tab_rows t' = tab_rows tab_ex ∧ tab_ext tab_ex t' ∧ tab_ok (H:=plat64) t'.
Proof.
  apply (proj2 (bw_add_str_correct (H:=plat64) tab_ex (c_lit [x62; x63]) [x62; x63] tab_ex_ok
    (is_cstr_lit [x62; x63] ltac:(by repeat constructor)))). concrete.
Defined.

(** C25. [bw_emit] appends one row, or none: a row is appended exactly when the
    table has room, the file has a name, the address and the line are not 0 and
    the line fits 32 bits; the table stays well-formed either way. *)
Theorem bw_emit_correct `{Platform} t addr file_off line :
  tab_ok t → 0 ≤ addr < ptr_mod → 0 ≤ line → off_ok t file_off →
  ∃ t', bw_emit addr file_off line t = Done tt t' ∧ tab_ok t' ∧ strs t' = strs t ∧
    ((nrow t < BW_DWARF_ROW_MAX ∧ 0 ≤ file_off ∧ addr ≠ 0 ∧ 0 < line < 2 ^ 32 ∧
      tab_rows t' = tab_rows t ++ [Row addr file_off line]) ∨
     (¬ (nrow t < BW_DWARF_ROW_MAX ∧ 0 ≤ file_off ∧ addr ≠ 0 ∧ 0 < line < 2 ^ 32) ∧
      tab_rows t' = tab_rows t)).
Proof.
  intros Hok Ha Hl Hoff. assert (Hmax : BW_DWARF_STR_MAX = 262144) by done.
  destruct (bw_emit_eq t addr file_off line) as (t' & E & Hrows & Hnr & Hst & Hns).
  - apply Hok.
  - destruct Hoff as [->|[? _]]; lia.
  - done.
  - exists t'. split; [done|]. pose proof (bw_emit_wp no_ub (λ _, False) addr file_off line t Hok Ha Hl Hoff) as Hwp.
    rewrite E in Hwp. destruct Hwp as [Hok' _]. split_and!; [done|done|].
    destruct (emit_guard t addr file_off line) eqn:Eg; unfold emit_guard in Eg; [right|left].
    + split; [|done]. intros (? & ? & ? & ?). rewrite !orb_true_iff in Eg.
      destruct Eg as [[[[Eg|Eg]|Eg]|Eg]|Eg]; zify_bools; lia.
    + zify_bools. split_and!; done || lia.
Qed.

Lemma bw_emit_correct_witness :
  ∃ t', bw_emit (H:=plat64) 24 0 7 tab_ex = Done tt t' ∧ tab_ok (H:=plat64) t' ∧
    strs t' = strs tab_ex ∧
    ((nrow tab_ex < BW_DWARF_ROW_MAX ∧ 0 ≤ 0 ∧ 24 ≠ 0 ∧ 0 < 7 < 2 ^ 32 ∧
      tab_rows t' = tab_rows tab_ex ++ [Row 24 0 7]) ∨
     (¬ (nrow tab_ex < BW_DWARF_ROW_MAX ∧ 0 ≤ 0 ∧ 24 ≠ 0 ∧ 0 < 7 < 2 ^ 32) ∧
      tab_rows t' = tab_rows tab_ex)).
Proof.
  apply (bw_emit_correct (H:=plat64)); [apply tab_ex_ok|concrete|concrete|].
  right. split; [concrete|]. exists [x61]. by apply str_at_ex.
Defined.

(** Sorting the table keeps its rows, orders them by address and keeps the
    table well-formed, whatever sorting function the C library provides. *)
Theorem sort_rows_correct `{Platform} `{QSort} t :
  tab_ok t →
  tab_rows (sort_rows t) ≡ₚ tab_rows t ∧ rows_sorted (sort_rows t) ∧ tab_ok (sort_rows t).
Proof.
  intros Hok. pose proof (tab_nrow_ok t Hok).
  split_and!; [apply sort_rows_perm; lia|apply sort_rows_sorted; lia|by apply sort_rows_ok].
Qed.

Lemma sort_rows_correct_witness :
  tab_rows (sort_rows tab_ex) ≡ₚ tab_rows tab_ex ∧ rows_sorted (sort_rows tab_ex) ∧
  tab_ok (H:=plat64) (sort_rows tab_ex).
Proof. exact (sort_rows_correct (H:=plat64) tab_ex tab_ex_ok). Defined.
