(* ===== verification/PathJoin.v ===== *)
(** * Joining a directory and a file name

    [bw_join_path] of src/dwarf_line.c, which fills the buffers [joined] of
    [bw_parse_unit].  The state is the destination buffer. *)

From S2P Require Import Prelude CMonad CMem.

Definition is_sep (b : byte) : bool := (Byte.eqb b x2f || Byte.eqb b x5c)%bool.

(** [(c >= 'A' && c <= 'Z') || (c >= 'a' && c <= 'z')] *)
Definition is_drive_letter (b : byte) : bool :=
  (((65 <=? byte_val b) && (byte_val b <=? 90))
   || ((97 <=? byte_val b) && (byte_val b <=? 122)))%bool.

(** The test that sets [abs_file]. *)
Definition abs_file (file : cptr) : M (gmap Z byte) bool :=
  let* c0 := c_at file 0 in
  if is_sep c0 then ret true else
  if is_drive_letter c0 then
    let* c1 := c_at file 1 in ret (Byte.eqb c1 x3a)
  else ret false.

(** The directory part, and the separator after it; the result is [i]. *)
Definition join_dir (dst_len : Z) (dir : cptr) : M (gmap Z byte) Z :=
  let* i := copy_loop (buf_fuel dst_len) dst_len dir 0 0 in
  if 0 <? i then
    let* dst := get in
    let* c := arr_load dst_len dst (i - 1) in
    if (negb (is_sep c) && (i + 1 <? dst_len))%bool then
      let* dst' := arr_store dst_len dst i x2f in
      do* put dst' in
      ret (i + 1)
    else ret i
  else ret i.

(** [if (!abs_file && dir != NULL && dir[0] != '\0')] and its body; [i] is 0
    where it is skipped. *)
Definition join_prefix (dst_len : Z) (abs : bool) (dir : option cptr) : M (gmap Z byte) Z :=
  match abs, dir with
  | false, Some d =>
      let* c := c_at d 0 in
      if negb (is_nul c) then join_dir dst_len d else ret 0
  | _, _ => ret 0
  end.

Definition bw_join_path (dst_len : Z) (dir file : option cptr) : M (gmap Z byte) bool :=
  if dst_len =? 0 then ret false else
  let file := default (c_lit []) file in
  let* abs := abs_file file in
  let* i := join_prefix dst_len abs dir in
  let* i := copy_loop (buf_fuel dst_len) dst_len file i 0 in
  do* put_nul dst_len i in
  ret (0 <? i).

(** ** The specification *)

Definition is_abs (f : list byte) : bool :=
  match f with
  | [] => false
  | c0 :: f' =>
      (is_sep c0 || (is_drive_letter c0 && match f' with c1 :: _ => Byte.eqb c1 x3a | [] => false end))%bool
  end.

(** The directory with a separator, when it does not end with one. *)
Definition dir_part (d : list byte) : list byte :=
  match last d with
  | None => []
  | Some c => if is_sep c then d else d ++ [x2f]
  end.

Definition join_ref (d f : list byte) : list byte :=
  if is_abs f then f else dir_part d ++ f.

Lemma is_nul_drive b : is_drive_letter b = true → is_nul b = false.
Proof.
  intros H. destruct (is_nul b) eqn:E; [|done]. by apply is_nul_true in E as ->.
Qed.

Lemma is_cstr_head s l :
  is_cstr s l → s 0 = Some (match l with b :: _ => b | [] => x00 end).
Proof.
  intros (H1 & H2 & _). destruct l as [|b l]; [exact H2|]. by apply (H1 0%nat).
Qed.

Lemma is_cstr_second s b l :
  is_cstr s (b :: l) → s 1 = Some (match l with c :: _ => c | [] => x00 end).
Proof.
  intros (H1 & H2 & _). destruct l as [|c l]; [exact H2|]. by apply (H1 1%nat).
Qed.

Lemma abs_file_eq file f dst : is_cstr file f → abs_file file dst = Done (is_abs f) dst.
Proof.
  intros Hf. unfold abs_file, bind, c_at. rewrite (is_cstr_head _ _ Hf). cbn [of_option ret].
  destruct f as [|c0 f]; [done|]. unfold is_abs. destruct (is_sep c0); [done|].
  destruct (is_drive_letter c0); simpl; [|done].
  rewrite (is_cstr_second _ _ _ Hf). by destruct f.
Qed.

Lemma length_dir_part d : d ≠ [] → (length d ≤ length (dir_part d))%nat.
Proof.
  intros Hd. unfold dir_part. destruct (last d) eqn:E; [|by apply last_None in E].
  case_match; rewrite ?length_app; lia.
Qed.

Lemma join_dir_eq dst_len dir d dst :
  0 < dst_len → is_cstr dir d → d ≠ [] →
  let w := take (Z.to_nat (dst_len - 1)) (dir_part d) in
  join_dir dst_len dir dst = Done (Z.of_nat (length w)) (arr_write dst 0 w).
Proof.
  intros Hd Hs Hne w. unfold join_dir, bind at 1. change 0 with (Z.of_nat 0) at 2.
  rewrite (copy_loop_eq _ dst_len dir d 0 0) by (done || unfold buf_fuel; lia).
  rewrite drop_0, Z.sub_0_r, Z.add_0_l. cbv zeta.
  set (v := take (Z.to_nat (dst_len - 1)) d). unfold w, dir_part. clear w.
  destruct (last d) as [c|] eqn:Elast; [|by apply last_None in Elast].
  destruct (Z.ltb_spec 0 (Z.of_nat (length v))) as [Hv|Hv].
  2:{ assert (Hz : Z.to_nat (dst_len - 1) = 0%nat).
      { destruct d; [done|]. unfold v in Hv. destruct (Z.to_nat (dst_len - 1)); simpl in *; lia. }
      unfold v. by rewrite Hz, !take_0. }
  destruct (lookup_lt_is_Some_2 v (pred (length v))) as [cv Hcv]; [lia|].
  unfold bind, get, arr_load. rewrite (proj2 (in_bounds_true _ _)).
  2:{ unfold v in *. rewrite length_take in *. lia. }
  replace (Z.of_nat (length v) - 1) with (0 + Z.of_nat (pred (length v))) by lia.
  rewrite (arr_write_lookup _ _ _ _ _ Hcv). cbn [of_option ret].
  destruct (decide (length d < Z.to_nat (dst_len - 1))%nat) as [Hfit|Hfit].
  - assert (Hvd : v = d) by (unfold v; apply take_ge; lia).
    rewrite Hvd in *. rewrite last_lookup in Elast. assert (cv = c) as -> by congruence.
    destruct (Z.ltb_spec (Z.of_nat (length d) + 1) dst_len); [|lia].
    rewrite andb_true_r. destruct (is_sep c); simpl.
    + by rewrite take_ge by lia.
    + unfold arr_store. rewrite (proj2 (in_bounds_true _ _)) by lia. simpl.
      rewrite take_ge by (rewrite length_app; simpl; lia). rewrite arr_write_snoc, Z.add_0_l, length_app.
      by rewrite Nat2Z.inj_add.
  - assert (Hlv : length v = Z.to_nat (dst_len - 1)) by (unfold v; rewrite length_take; lia).
    destruct (Z.ltb_spec (Z.of_nat (length v) + 1) dst_len); [lia|].
    rewrite andb_false_r. case_match; [done|]. by rewrite take_app_le by lia.
Qed.

Lemma join_prefix_eq dst_len (abs : bool) dir (d : list byte) dst :
  0 < dst_len → is_cstr dir d →
  let w := if abs then [] else take (Z.to_nat (dst_len - 1)) (dir_part d) in
  join_prefix dst_len abs (Some dir) dst = Done (Z.of_nat (length w)) (arr_write dst 0 w).
Proof.
  intros Hlen Hd w. unfold w. destruct abs; [done|]. unfold join_prefix, bind, c_at.
  rewrite (is_cstr_head _ _ Hd). cbn [of_option ret].
  destruct d as [|c d]; [cbn; by rewrite take_nil|].
  assert (is_nul c = false) as ->.
  { apply is_nul_false. by destruct Hd as (_ & _ & [? ?]%Forall_cons). }
  cbn [negb]. by rewrite (join_dir_eq _ _ (c :: d)).
Qed.

(** The joined path is the reference join, cut at the size of the buffer. *)
Lemma bw_join_path_eq dst_len dir file d f dst :
  0 < dst_len → is_cstr dir d → is_cstr file f →
  let r := take (Z.to_nat (dst_len - 1)) (join_ref d f) in
  ∃ dst', bw_join_path dst_len (Some dir) (Some file) dst = Done (0 <? Z.of_nat (length r)) dst' ∧
    is_cstr (arr_cptr dst_len dst') r.
Proof.
  intros Hlen Hd Hf r. unfold bw_join_path.
  destruct (Z.eqb_spec dst_len 0); [lia|]. cbn [default].
  unfold bind at 1. rewrite (abs_file_eq _ _ _ Hf).
  set (w := if is_abs f then [] else take (Z.to_nat (dst_len - 1)) (dir_part d)).
  unfold bind at 1. rewrite (join_prefix_eq _ _ dir d) by done. fold w.
  assert (Hwl : Z.of_nat (length w) ≤ dst_len - 1).
  { unfold w. case_match; simpl; [lia|]. rewrite length_take. lia. }
  unfold bind at 1. rewrite (copy_loop_start dst_len file f) by (done || lia).
  cbv zeta. set (v := take _ f).
  assert (Hr : r = w ++ v).
  { unfold r, w, v, join_ref. replace (Z.to_nat (dst_len - 1 - Z.of_nat (length w)))
      with (Z.to_nat (dst_len - 1) - length w)%nat by lia.
    unfold w. destruct (is_abs f); simpl; [by rewrite Nat.sub_0_r|].
    rewrite take_app. f_equal. f_equal. rewrite length_take. lia. }
  assert (Hrl : (length r ≤ Z.to_nat (dst_len - 1))%nat) by (unfold r; rewrite length_take; lia).
  assert (Hlwv : Z.of_nat (length w) + Z.of_nat (length v) = Z.of_nat (length r))
    by (rewrite Hr, length_app; lia).
  rewrite Hlwv. unfold put_nul, bind, get, arr_store, put, ret.
  rewrite (proj2 (in_bounds_true _ _)) by lia. eexists. split; [done|].
  rewrite <- (Z.add_0_l (Z.of_nat (length w))), <- arr_write_app, <- Hr.
  apply is_cstr_buf; [lia|]. unfold r. apply Forall_take. unfold join_ref, dir_part.
  destruct Hd as (_ & _ & Hdn), Hf as (_ & _ & Hfn).
  destruct (is_abs f); [done|]. apply Forall_app. split; [|done].
  repeat case_match; [done| |done]. by apply Forall_app_2; [|repeat constructor].
Qed.

(** ** Properties *)

(** C17. [bw_join_path] builds the path of a file: an absolute file name is taken
    as it is, a relative one is put behind its directory with exactly one
    separator between them; the result is cut to the buffer and NUL-terminated,
    the buffer is never left, and the call succeeds unless the result is empty. *)
Theorem bw_join_path_correct dst_len dir file d f dst :
  0 < dst_len → is_cstr dir d → is_cstr file f →
  let r := take (Z.to_nat (dst_len - 1)) (join_ref d f) in
  ∃ dst', bw_join_path dst_len (Some dir) (Some file) dst =
            Done (bool_decide (r ≠ [])) dst' ∧
    is_cstr (arr_cptr dst_len dst') r.
Proof.
  intros Hlen Hd Hf r.
  destruct (bw_join_path_eq dst_len dir file d f dst Hlen Hd Hf) as (dst' & E & Hc).
  exists dst'. split; [|done]. rewrite E. fold r. f_equal. apply eq_true_iff_eq.
  rewrite Z.ltb_lt, bool_decide_eq_true. destruct r; simpl; [|split; [done|lia]].
  split; [lia|done].
Qed.

Lemma bw_join_path_correct_witness :
  ∃ dst', bw_join_path 8 (Some (c_lit [x64])) (Some (c_lit [x66; x2e; x63])) ∅ = Done true dst' ∧
    is_cstr (arr_cptr 8 dst') [x64; x2f; x66; x2e; x63].
Proof.
  apply (bw_join_path_correct 8 (c_lit [x64]) (c_lit [x66; x2e; x63]) [x64] [x66; x2e; x63] ∅);
    [done|apply is_cstr_lit; by repeat constructor..].
Defined.
