(* ===== verification/LineProgram.v ===== *)
(** * The line-number program

    The opcode loop of [bw_parse_unit] (src/dwarf_line.c): the registers of the
    DWARF line machine, one step per opcode, and the loop that runs the program
    to the end of its unit, emitting rows into the table. *)

From S2P Require Import Prelude CMonad CMem Cursor Forms DwarfTab.

Definition BW_LNS_COPY : Z := 1.
Definition BW_LNS_ADVANCE_PC : Z := 2.
Definition BW_LNS_ADVANCE_LINE : Z := 3.
Definition BW_LNS_SET_FILE : Z := 4.
Definition BW_LNS_CONST_ADD_PC : Z := 8.
Definition BW_LNS_FIXED_ADVANCE_PC : Z := 9.
Definition BW_LNE_END_SEQUENCE : Z := 1.
Definition BW_LNE_SET_ADDRESS : Z := 2.

Definition BW_DWARF_FILES_MAX : Z := 512.

(** What [bw_parse_unit] mutates: the table and the cursor its caller owns. *)
Record unit_st := UnitSt { us_tab : bw_dwarf_tab_t; us_cur : bw_cur_t }.

Definition on_cur {A} (m : M bw_cur_t A) : M unit_st A :=
  zoom us_cur (λ c s, UnitSt (us_tab s) c) m.
Definition on_tab {A} (m : M bw_dwarf_tab_t A) : M unit_st A :=
  zoom us_tab (λ t s, UnitSt t (us_cur s)) m.

(** [c->p = a] *)
Definition move_to (a : Z) : M unit_st unit :=
  on_cur (let* c := get in put (set_p a c)).

(** The header fields the program depends on. *)
Record line_hdr := LineHdr {
  h_min_inst : Z;
  h_max_ops : Z;
  h_def_stmt : Z;
  h_line_base : Z;      (** a [signed char] *)
  h_line_range : Z;
  h_opcode_base : Z;
  h_std_len : gmap Z Z; (** [std_len[256]], zero-initialised *)
  h_addr_size : Z;
}.

(** The file table: [nfile] and [file_off], initialised to -1. *)
Record file_tab := FileTab { f_count : Z; f_off : gmap Z Z }.

(** The registers of the line machine. *)
Record line_regs := Regs {
  r_address : Z;
  r_op_index : Z;
  r_file_idx : Z;
  r_line : Z;
  r_is_stmt : Z;
}.

#[export] Instance line_regs_eq_dec : EqDecision line_regs.
Proof. solve_decision. Defined.

Definition regs_init (h : line_hdr) : line_regs := Regs 0 0 1 1 (h_def_stmt h).

Definition set_address (a : Z) (r : line_regs) : line_regs :=
  Regs a 0 (r_file_idx r) (r_line r) (r_is_stmt r).
Definition set_file (f : Z) (r : line_regs) : line_regs :=
  Regs (r_address r) (r_op_index r) f (r_line r) (r_is_stmt r).
Definition set_line (l : Z) (r : line_regs) : line_regs :=
  Regs (r_address r) (r_op_index r) (r_file_idx r) l (r_is_stmt r).

Section program.
Context `{Platform} (sec : span) (h : line_hdr) (files : file_tab).

(** [address += min_inst * ((op_index + op_advance) / max_ops);
    op_index = (op_index + op_advance) % max_ops] *)
Definition advance_ops (op_advance : Z) (r : line_regs) : line_regs :=
  let ops := u64 (r_op_index r + op_advance) in
  Regs (uptr (r_address r + uptr (h_min_inst h * uptr (ops / h_max_ops h))))
    (ops mod h_max_ops h) (r_file_idx r) (r_line r) (r_is_stmt r).

(** [if (file_idx < nfile) bw_emit(tab, address, file_off[file_idx], line)] *)
Definition emit_row (r : line_regs) : M unit_st unit :=
  if r_file_idx r <? f_count files then
    let* off := arr_load0 BW_DWARF_FILES_MAX (-1) (f_off files) (r_file_idx r) in
    on_tab (bw_emit (r_address r) off (r_line r))
  else ret tt.

(** The operation advance of a special opcode [op], or of
    [DW_LNS_const_add_pc] for 255. *)
Definition op_advance_of (op : Z) : Z := (op - h_opcode_base h) / h_line_range h.

Definition special_op (op : Z) (r : line_regs) : M unit_st line_regs :=
  let adjusted := op - h_opcode_base h in
  let* l := add_s64 (sext 64 (r_line r)) (h_line_base h) in
  let* l := add_s64 l (adjusted mod h_line_range h) in
  let r := advance_ops (op_advance_of op) (set_line (u64 l) r) in
  do* emit_row r in
  ret r.

(** The arguments of an unknown standard opcode; a bad one ends the skipping
    but not the program. *)
Fixpoint skip_args (n : nat) : M unit_st unit :=
  match n with
  | O => ret tt
  | S n' =>
      let* v := try (on_cur (bw_uleb sec)) in
      match v with
      | None => ret tt
      | Some _ => skip_args n'
      end
  end.

(** [break] is [None]; going round the loop again is [Some]. *)
Definition or_break {A} (m : M bw_cur_t A) (k : A → M unit_st (option line_regs))
    : M unit_st (option line_regs) :=
  let* v := try (on_cur m) in
  match v with
  | None => ret None
  | Some a => k a
  end.

(** An extended opcode, after its zero byte. *)
Definition extended_op (r : line_regs) : M unit_st (option line_regs) :=
  or_break (bw_uleb sec) (λ insn_len,
  let* s := get in
  if ((insn_len =? 0) || negb (bw_cur_ok (us_cur s) (uptr insn_len)))%bool then ret None else
  let insn_end := uptr (c_p (us_cur s) + uptr insn_len) in
  or_break (bw_u8 sec) (λ ext,
  if ext =? BW_LNE_END_SEQUENCE then
    do* move_to insn_end in ret (Some (regs_init h))
  else if ext =? BW_LNE_SET_ADDRESS then
    if h_addr_size h =? 8 then
      or_break (bw_u64 sec) (λ addr,
      do* move_to insn_end in ret (Some (set_address (uptr addr) r)))
    else if h_addr_size h =? 4 then
      or_break (bw_u32 sec) (λ addr,
      do* move_to insn_end in ret (Some (set_address (uptr addr) r)))
    else ret None
  else
    do* move_to insn_end in ret (Some r))).

(** One opcode, past its first byte. *)
Definition line_opcode (op : Z) (r : line_regs) : M unit_st (option line_regs) :=
  if op =? 0 then extended_op r
  else if h_opcode_base h <=? op then
    let* r := special_op op r in ret (Some r)
  else if op =? BW_LNS_COPY then
    do* emit_row r in ret (Some r)
  else if op =? BW_LNS_ADVANCE_PC then
    or_break (bw_uleb sec) (λ op_advance, ret (Some (advance_ops op_advance r)))
  else if op =? BW_LNS_ADVANCE_LINE then
    or_break (bw_sleb sec) (λ d,
    let* l := add_s64 (sext 64 (r_line r)) d in
    ret (Some (set_line (u64 l) r)))
  else if op =? BW_LNS_SET_FILE then
    or_break (bw_uleb sec) (λ f, ret (Some (set_file f r)))
  else if op =? BW_LNS_CONST_ADD_PC then
    ret (Some (advance_ops (op_advance_of 255) r))
  else if op =? BW_LNS_FIXED_ADVANCE_PC then
    or_break (bw_u16 sec) (λ d, ret (Some (set_address (uptr (r_address r + d)) r)))
  else
    let* n := arr_load0 256 0 (h_std_len h) op in
    do* skip_args (Z.to_nat n) in
    ret (Some r).

(** One round of the loop. *)
Definition line_step (r : line_regs) : M unit_st (option line_regs) :=
  or_break (bw_u8 sec) (λ op, line_opcode op r).

(** [while (c->p < unit_end)]; every step takes at least one byte. *)
Fixpoint program_loop (fuel : nat) (unit_end : Z) (r : line_regs) : M unit_st unit :=
  match fuel with
  | O => no_fuel
  | S fuel' =>
      let* s := get in
      if c_p (us_cur s) <? unit_end then
        let* r' := line_step r in
        match r' with
        | None => ret tt
        | Some r' => program_loop fuel' unit_end r'
        end
      else ret tt
  end.

Definition run_program (unit_end : Z) : M unit_st unit :=
  program_loop (sec_fuel sec) unit_end (regs_init h).
End program.

(** ** Safety of the program

    Running a program reads only the section and writes only inside the table,
    keeps the table well-formed and terminates; the one undefined behaviour left
    is the signed addition on the line register. *)

Section safety.
Context `{Platform} (sec : span) (Hsec : span_ok sec).

(** What parsing steps preserve, from [s] to [s']: the cursor moves forward
    inside the section by at least [k], the table only grows. *)
Definition step_ok (k : Z) (s s' : unit_st) : Prop :=
  adv sec k (us_cur s) (us_cur s') ∧ tab_ok (us_tab s') ∧ tab_ext (us_tab s) (us_tab s').

Definition st_ok (s : unit_st) : Prop := cur_in sec (us_cur s) ∧ tab_ok (us_tab s).

Lemma step_ok_refl s : st_ok s → step_ok 0 s s.
Proof. intros [? ?]. split_and!; [by apply adv_refl|done|done]. Qed.

Lemma step_ok_chain i j k s1 s2 s3 :
  step_ok j s1 s2 → step_ok k s2 s3 → i ≤ j + k → step_ok i s1 s3.
Proof.
  intros (A1 & T1 & E1) (A2 & T2 & E2) Hi.
  split_and!; [by eapply adv_chain|done|by etransitivity].
Qed.

Lemma step_ok_st k s s' : step_ok k s s' → st_ok s'.
Proof. intros ([? _] & ? & _). by split. Qed.

Lemma wp_on_cur {A} U k (P : A → Prop) m s :
  st_ok s → reader sec k P m →
  wp U (step_ok 0 s) (λ a s', step_ok k s s' ∧ P a ∧ us_tab s' = us_tab s) (on_cur m s).
Proof.
  intros [Hc Ht] Hm. apply wp_zoom. apply wp_no_ub.
  eapply wp_call; [by apply Hm| |]; cbn beta; simpl.
  - intros c Hadv. by split_and!.
  - intros a c [Hadv HP]. by split_and!.
Qed.

Lemma wp_on_cur_eq {A} U k (P : A → Prop) m s :
  st_ok s → reader sec k P m →
  wp U (step_ok 0 s) (λ a s', step_ok k s s' ∧ P a ∧ us_tab s' = us_tab s ∧
    m (us_cur s) = Done a (us_cur s')) (on_cur m s).
Proof.
  intros Hs Hm. pose proof (wp_on_cur U k P m s Hs Hm) as H1. revert H1.
  unfold wp, on_cur, zoom. destruct (m (us_cur s)); simpl; [|done..].
  intros (? & ? & ?). by split_and!.
Qed.

(** The header and file table a program runs with. *)
Record hdr_ok (h : line_hdr) : Prop := {
  hdr_max_ops : 0 < h_max_ops h < 256;
  hdr_opcode_base : 0 < h_opcode_base h < 256;
}.

Definition files_ok (files : file_tab) (t : bw_dwarf_tab_t) : Prop :=
  0 ≤ f_count files ≤ BW_DWARF_FILES_MAX ∧
  ∀ i, off_ok t (default (-1) (f_off files !! i)).

Definition regs_ok (r : line_regs) : Prop :=
  0 ≤ r_address r < ptr_mod ∧ 0 ≤ r_file_idx r ∧ 0 ≤ r_line r.

Lemma files_ok_ext files t t' : tab_ext t t' → files_ok files t → files_ok files t'.
Proof. intros Hext [? Ho]. split; [done|]. eauto using off_ok_ext. Qed.

Context (h : line_hdr) (files : file_tab) (Hh : hdr_ok h).

Lemma regs_init_ok : regs_ok (regs_init h).
Proof. pose proof ptr_mod_bounds. unfold regs_ok; simpl. lia. Qed.

Lemma advance_ops_ok n r : regs_ok r → regs_ok (advance_ops h n r).
Proof. intros (? & ? & ?). split_and!; simpl; [apply uptr_range..|done|done]. Qed.

Lemma set_address_ok a r : regs_ok r → regs_ok (set_address (uptr a) r).
Proof. intros (? & ? & ?). split_and!; simpl; [apply uptr_range..|done|done]. Qed.

Lemma set_line_ok l r : regs_ok r → regs_ok (set_line (u64 l) r).
Proof. intros (? & ? & ?). split_and!; simpl; [lia|lia|done|apply u64_range]. Qed.

Lemma set_file_ok f r : regs_ok r → 0 ≤ f → regs_ok (set_file f r).
Proof. intros (? & ? & ?) Hf. split_and!; simpl; done || lia. Qed.

Lemma emit_row_wp U F r s :
  st_ok s → files_ok files (us_tab s) → regs_ok r →
  wp U F (λ _ s', step_ok 0 s s') (emit_row files r s).
Proof.
  intros [Hc Ht] [Hf Ho] (Ha & Hi & Hl). unfold emit_row. wp_step.
  - zify_bools. wp_step. apply wp_arr_load0; [lia|]. apply wp_zoom.
    eapply wp_call; [apply (bw_emit_wp U (λ _, False)); done| |]; cbn beta; [intros ? []|].
    intros _ t' [Ht' Hext]. split_and!; simpl; [by apply adv_refl|done|done].
  - by apply wp_ret, step_ok_refl.
Qed.

(** The outcome of a step: the machine goes on from well-formed registers,
    at least one byte further, or stops. *)
Definition step_post (k : Z) (s : unit_st) (o : option line_regs) (s' : unit_st) : Prop :=
  match o with
  | None => step_ok 0 s s'
  | Some r => step_ok k s s' ∧ regs_ok r
  end.

Lemma step_post_chain i j k s1 s2 o s3 :
  step_ok j s1 s2 → step_post k s2 o s3 → 0 ≤ j → i ≤ j + k → step_post i s1 o s3.
Proof.
  intros H1 H2 Hj Hi. destruct o as [r|]; simpl in *.
  - destruct H2. split; [by eapply step_ok_chain|done].
  - eapply step_ok_chain; [done|done|lia].
Qed.

Lemma or_break_post {A} U j (P : A → Prop) (Φ : option line_regs → unit_st → Prop) m f s :
  st_ok s → reader sec j P m →
  (∀ s', step_ok 0 s s' → Φ None s') →
  (∀ a s', P a → step_ok j s s' → us_tab s' = us_tab s → m (us_cur s) = Done a (us_cur s') →
     wp U (λ _, False) Φ (f a s')) →
  wp U (λ _, False) Φ (or_break m f s).
Proof.
  intros Hs Hm Hnone Hf. unfold or_break. wp_step. wp_step.
  eapply wp_call; [by apply (wp_on_cur_eq _ j P)| |]; cbn beta.
  - intros s' Hs'. apply wp_ret. auto.
  - intros a s' (Hs' & Ha & Ht & E). auto.
Qed.

Lemma or_break_wp {A} U i j k (P : A → Prop) m f s :
  st_ok s → reader sec j P m → 0 ≤ j → i ≤ j + k →
  (∀ a s', P a → step_ok j s s' → us_tab s' = us_tab s → m (us_cur s) = Done a (us_cur s') →
     wp U (λ _, False) (step_post k s') (f a s')) →
  wp U (λ _, False) (step_post i s) (or_break m f s).
Proof.
  intros Hs Hm Hj Hi Hf. apply (or_break_post U j P); [done|done|done|].
  intros a s' Ha Hs' Ht E. eapply wp_call; [by apply Hf|done|].
  cbn beta. intros o s'' Ho. by eapply step_post_chain.
Qed.

Lemma skip_args_wp U n s :
  st_ok s → wp U (λ _, False) (λ _ s', step_ok 0 s s') (skip_args sec n s).
Proof using Hsec.
  revert s. induction n as [|n IH]; intros s Hs; simpl; [by apply step_ok_refl|].
  wp_step. wp_step.
  eapply wp_call; [by apply (wp_on_cur _ 1 _ _ _ Hs (reader_uleb sec Hsec))| |]; cbn beta.
  - intros s' Hs'. by apply wp_ret.
  - intros _ s' (Hs' & _ & _). eapply wp_call; [by apply IH, (step_ok_st 1 s)|done|].
    cbn beta. intros _ s'' Hs''. by eapply step_ok_chain.
Qed.

(** [c->p = insn_end] goes back to where the instruction ends. *)
Lemma move_to_wp U (Φ : unit → unit_st → Prop) k s s' a :
  st_ok s → step_ok 0 s s' → c_p (us_cur s) + k ≤ a ≤ sp_end sec → 0 ≤ k →
  (∀ s'', step_ok k s s'' → us_tab s'' = us_tab s' → Φ tt s'') →
  wp U (λ _, False) Φ (move_to a s').
Proof.
  intros [[Hc0 _] _] (([Hc He] & Hp) & Ht & Hx) Ha Hk HΦ. unfold move_to, on_cur.
  wp_steps. apply HΦ; [|done]. unfold step_ok, adv, cur_in; simpl.
  split_and!; done || lia.
Qed.

(** The end of an extended opcode: back to [insn_end], on with [r]. *)
Lemma end_insn_wp U s s' a r :
  st_ok s → step_ok 0 s s' → c_p (us_cur s) ≤ a ≤ sp_end sec → regs_ok r →
  wp U (λ _, False) (step_post 0 s) ((do* move_to a in ret (Some r)) s').
Proof.
  intros Hs Hs' Ha Hr. wp_step. apply (move_to_wp _ _ 0 s s'); [done|done|lia|done|].
  intros s'' Hs'' _. by apply wp_ret.
Qed.

Lemma extended_op_wp U r s :
  st_ok s → regs_ok r →
  wp U (λ _, False) (step_post 1 s) (extended_op sec h r s).
Proof using Hsec.
  intros Hs Hr. unfold extended_op.
  apply (or_break_wp U 1 1 0 _ _ _ _ Hs (reader_uleb sec Hsec)); [lia|lia|].
  intros n s1 Hn H1 _ _. pose proof (step_ok_st _ _ _ H1) as Hs1. wp_step. wp_step.
  wp_step; [by apply step_ok_refl|].
  apply orb_false_iff in E as [En Eok]. zify_bools.
  pose proof (uptr_range n). destruct (proj1 Hs1) as [Hc1 _].
  apply (cur_ok_iff sec Hsec) in Eok; [|apply Hs1|lia].
  cbv zeta. rewrite (uptr_small (_ + _)) by (destruct Hsec; lia).
  assert (Hend : ∀ s' r', step_ok 0 s1 s' → regs_ok r' → wp U (λ _, False)
    (step_post 0 s1) ((do* move_to (c_p (us_cur s1) + uptr n) in ret (Some r')) s')).
  { intros. apply end_insn_wp; [done|done|lia|done]. }
  assert (Hz : ∀ k s', 0 ≤ k → step_ok k s1 s' → step_ok 0 s1 s').
  { intros k s' ? ?. apply (step_ok_chain 0 0 k s1 s1); [by apply step_ok_refl|done|lia]. }
  apply (or_break_post U 1 _ _ _ _ _ Hs1 (reader_u8 sec Hsec)); [done|].
  intros ext s2 _ H2 _ _. pose proof (step_ok_st _ _ _ H2) as Hs2.
  assert (H20 : step_ok 0 s1 s2) by (by apply (Hz 1)).
  assert (Haddr : ∀ k P m, 0 ≤ k → reader sec k P m → wp U (λ _, False)
    (step_post 0 s1) (or_break m (λ addr, do* move_to (c_p (us_cur s1) + uptr n) in
                                 ret (Some (set_address (uptr addr) r))) s2)).
  { intros k P m Hk Hm. apply (or_break_post U k P); [done|done| |].
    - intros s' Hs'. by eapply step_ok_chain.
    - intros addr s' _ Hs' _ _. apply Hend; [by eapply step_ok_chain|].
      by apply set_address_ok. }
  wp_step; [apply Hend; [done|apply regs_init_ok]|].
  wp_step; [|by apply Hend].
  wp_step; [by apply (Haddr 8 _ _ ltac:(lia) (reader_u64 sec Hsec))|].
  wp_step; [by apply (Haddr 4 _ _ ltac:(lia) (reader_u32 sec Hsec))|].
  by apply wp_ret.
Qed.

(** The signed additions on the line register a round at [c] computes from the
    registers [r]: the operand of [DW_LNS_advance_line], or [line_base] and then
    the line advance of a special opcode. *)
Definition adds_to_line (r : line_regs) (c : bw_cur_t) (a b : Z) : Prop :=
  ∃ op c', bw_u8 sec c = Done op c' ∧
    (op < h_opcode_base h ∧ op = BW_LNS_ADVANCE_LINE ∧ a = sext 64 (r_line r) ∧
       (∃ c'', bw_sleb sec c' = Done b c'') ∨
     h_opcode_base h ≤ op ∧
       (a = sext 64 (r_line r) ∧ b = h_line_base h ∨
        a = sext 64 (r_line r) + h_line_base h ∧
        b = (op - h_opcode_base h) mod h_line_range h)).

Definition line_overflow (r : line_regs) (c : bw_cur_t) (u : ub) : Prop :=
  ∃ a b, u = SignedOverflow a b ∧ ¬ - 2 ^ 63 ≤ a + b < 2 ^ 63 ∧ adds_to_line r c a b.

Lemma special_op_wp r s1 op :
  st_ok s1 → regs_ok r → files_ok files (us_tab s1) →
  wp (λ u, ∃ a b, u = SignedOverflow a b ∧ ¬ - 2 ^ 63 ≤ a + b < 2 ^ 63 ∧
        (a = sext 64 (r_line r) ∧ b = h_line_base h ∨
         a = sext 64 (r_line r) + h_line_base h ∧
         b = (op - h_opcode_base h) mod h_line_range h))
    (λ _, False) (λ r' s2, step_ok 0 s1 s2 ∧ regs_ok r') (special_op h files op r s1).
Proof using Hh.
  intros Hs1 Hr Hf1. unfold special_op. cbv zeta. wp_step.
  apply wp_add_s64; [intros _|intros Hov; do 2 eexists; split_and!; eauto].
  wp_step. apply wp_add_s64; [intros _|intros Hov; do 2 eexists; split_and!; eauto].
  cbv beta zeta. wp_step.
  match goal with |- wp _ _ _ (emit_row _ ?r' _) => assert (Hr' : regs_ok r')
    by (by apply advance_ops_ok, set_line_ok) end.
  eapply wp_call; [by apply (emit_row_wp _ (λ _, False))|done|].
  cbn beta. intros _ s2 H2. by wp_steps.
Qed.

Lemma line_step_wp r s :
  st_ok s → regs_ok r → files_ok files (us_tab s) →
  wp (line_overflow r (us_cur s)) (λ _, False) (step_post 1 s) (line_step sec h files r s).
Proof using Hsec Hh.
  intros Hs Hr Hf. unfold line_step, line_opcode.
  set (U := line_overflow r (us_cur s)).
  apply (or_break_wp U 1 1 0 _ _ _ _ Hs (reader_u8 sec Hsec)); [lia|lia|].
  intros op s1 Hop H1 Ht1 Eop. pose proof (step_ok_st _ _ _ H1) as Hs1.
  assert (Hf1 : files_ok files (us_tab s1)) by (by rewrite Ht1).
  assert (Hgo : ∀ r' s', step_ok 0 s1 s' → regs_ok r' →
    wp U (λ _, False) (step_post 0 s1) (ret (Some r') s'))
    by (intros; by apply wp_ret).
  assert (Hread : ∀ k P m (f : Z → line_regs), 0 ≤ k → reader sec k P m → (∀ a, P a → regs_ok (f a)) →
    wp U (λ _, False) (step_post 0 s1) (or_break m (λ a, ret (Some (f a))) s1)).
  { intros k P m f Hk Hm Hrf. apply (or_break_wp U 0 k 0 P); [done|done|done|lia|].
    intros a s' Ha Hs' _ _. apply wp_ret. split; [|by apply Hrf].
    by apply step_ok_refl, (step_ok_st k s1). }
  wp_step. { eapply wp_call; [by apply extended_op_wp|done|].
             cbn beta. intros. by eapply step_post_chain; [apply step_ok_refl|..]. }
  wp_step.
  { wp_step. eapply wp_mono; [by apply (special_op_wp r s1 op)| |done|].
    - intros u (a & b & -> & Hov & Hab). do 2 eexists. split_and!; [done|done|].
      exists op, (us_cur s1). split; [done|]. right. zify_bools. split; [lia|done].
    - cbn beta. intros r' s2 [H2 Hr']. by apply Hgo. }
  wp_step.
  { wp_step. eapply wp_call; [by apply (emit_row_wp U (λ _, False))|done|].
    cbn beta. intros _ s2 H2. by apply Hgo. }
  wp_step. { apply (Hread 1 _ _ _ ltac:(lia) (reader_uleb sec Hsec)).
             intros. by apply advance_ops_ok. }
  wp_step. { apply (or_break_wp U 0 1 0 _ _ _ _ Hs1 (reader_sleb sec Hsec)); [lia|lia|].
             intros d s2 _ H2 _ Ed. wp_step. apply wp_add_s64.
             - intros _. apply wp_ret.
               split; [by apply step_ok_refl, (step_ok_st 1 s1)|by apply set_line_ok].
             - intros Hov. do 2 eexists. split_and!; [done|done|].
               exists op, (us_cur s1). split; [done|]. left. zify_bools. by split_and!; eauto with lia. }
  wp_step. { apply (Hread 1 _ _ _ ltac:(lia) (reader_uleb sec Hsec)).
             intros f Hfi. apply set_file_ok; [done|lia]. }
  wp_step. { apply Hgo; [by apply step_ok_refl|by apply advance_ops_ok]. }
  wp_step. { apply (Hread 2 _ _ _ ltac:(lia) (reader_u16 sec Hsec)).
             intros. by apply set_address_ok. }
  wp_step. apply wp_arr_load0; [lia|]. wp_step.
  eapply wp_call; [by apply (skip_args_wp U)|done|].
  cbn beta. intros _ s2 H2. by apply Hgo.
Qed.

End safety.

Section loop_safety.
Context `{Platform} (sec : span) (Hsec : span_ok sec).

(** The one undefined behaviour of the parser: at some place of the section a
    round of the opcode loop computes a line outside [int64_t]. *)
Definition overflow_in (u : ub) : Prop :=
  ∃ h r c a b, u = SignedOverflow a b ∧ ¬ - 2 ^ 63 ≤ a + b < 2 ^ 63 ∧
    cur_in sec c ∧ regs_ok r ∧ adds_to_line sec h r c a b.

Lemma overflow_in_only u : overflow_in u → overflow_only u.
Proof. intros (_ & _ & _ & a & b & ? & ? & _). by exists a, b. Qed.

Context (h : line_hdr) (files : file_tab) (Hh : hdr_ok h).

Lemma program_loop_wp fuel unit_end r s :
  st_ok sec s → regs_ok r → files_ok files (us_tab s) → unit_end ≤ sp_end sec →
  sp_end sec - c_p (us_cur s) < Z.of_nat fuel →
  wp overflow_in (λ _, False) (λ _ s', step_ok sec 0 s s')
    (program_loop sec h files fuel unit_end r s).
Proof using Hsec Hh.
  revert r s. induction fuel as [|fuel IH]; intros r s Hs Hr Hf He Hfuel.
  { destruct Hs as [[[] _] _]. lia. }
  simpl. wp_step. wp_step. wp_step; [|by apply wp_ret, step_ok_refl].
  wp_step. eapply wp_mono; [by apply line_step_wp| |done|]; cbn beta.
  { intros u (a & b & -> & Hov & Hab). do 5 eexists. split_and!; [done|done| |done|done].
    apply Hs. }
  intros [r'|] s' Ho; simpl in Ho; [|by apply wp_ret].
  destruct Ho as [Hs' Hr']. pose proof (step_ok_st _ _ _ _ Hs') as Hs1.
  eapply wp_call; [apply IH; [done|done| |done|]|done|].
  - destruct Hs' as (_ & _ & Hext). by eapply files_ok_ext.
  - destruct Hs' as ((_ & Hp) & _). lia.
  - cbn beta. intros _ s'' Hs''. by eapply step_ok_chain.
Qed.

Lemma run_program_wp unit_end s :
  st_ok sec s → files_ok files (us_tab s) → unit_end ≤ sp_end sec →
  wp overflow_in (λ _, False) (λ _ s', step_ok sec 0 s s')
    (run_program sec h files unit_end s).
Proof using Hsec Hh.
  intros Hs Hf He. apply program_loop_wp; [done|apply regs_init_ok|done|done|].
  destruct Hs as [[[] _] _]. unfold sec_fuel, sp_end, sp_len in *. lia.
Qed.
End loop_safety.

(** ** Properties *)

(** A header, a file table and registers to run steps with. *)
Definition hdr_ex : line_hdr := LineHdr 1 1 1 (-5) 14 13 ∅ 8.
Definition files_ex : file_tab := FileTab 2 {[0 := -1; 1 := 0]}.

Lemma hdr_ex_ok : hdr_ok hdr_ex.
Proof. split; concrete. Qed.

Lemma files_ex_ok : files_ok files_ex tab_ex.
Proof.
  split; [concrete|]. intros i. unfold files_ex; cbn [f_off].
  destruct (decide (i = 0)) as [->|]; [by left|].
  destruct (decide (i = 1)) as [->|].
  - right. split; [concrete|]. exists [x61]. by apply str_at_ex.
  - left. rewrite lookup_insert_ne, lookup_singleton_ne by done. done.
Qed.


