(* ===== verification/LineUnit.v ===== *)
(** * One unit of the line section

    [bw_parse_unit] of src/dwarf_line.c: the unit header, the directory and
    file tables of versions 2 to 4 and of version 5, and the program.  The
    function is cut where its blocks are; [bw_parse_unit] puts them together. *)

From S2P Require Import Prelude CMonad CMem Cursor Decode Forms DwarfTab PathJoin LineProgram.

Definition BW_DWARF_DIRS_MAX : Z := 256.
Definition BW_DWARF_FMT_MAX : Z := 16.
Definition BW_LNCT_PATH : Z := 1.
Definition BW_LNCT_DIRECTORY_INDEX : Z := 2.

(** The size of the buffers [joined]. *)
Definition JOINED_LEN : Z := 512.

(** The header fields read before the program's parameters. *)
Record unit_pro := UnitPro {
  up_offset_size : Z;
  up_version : Z;
  up_addr_size : Z;
  up_header_len : Z;
}.

Section header.
Context `{Platform} (sec : span).

(** The unit length: [offset_size] and [unit_end]. *)
Definition unit_length : M bw_cur_t (Z * Z) :=
  let* unit32 := bw_u32 sec in
  let* '(unit_len, offset_size) :=
    (if unit32 =? 0xffffffff then
       let* unit_len := bw_u64 sec in
       let* c := get in
       do* put (set_dwarf64 1 c) in
       ret (unit_len, 8)
     else
       let* c := get in
       do* put (set_dwarf64 0 c) in
       ret (unit32, 4)) in
  let* c := get in
  if ((unit_len <? 2) || negb (bw_cur_ok c (uptr unit_len)))%bool then fail else
  ret (offset_size, uptr (c_p c + uptr unit_len)).

(** The version, and the address size of a version 5 header; [None] for a
    segmented unit, which is skipped. *)
Definition unit_version : M bw_cur_t (option (Z * Z)) :=
  let* version := bw_u16 sec in
  if version =? 5 then
    let* addr_size := bw_u8 sec in
    let* seg_size := bw_u8 sec in
    if negb (seg_size =? 0) then ret None else ret (Some (version, addr_size))
  else ret (Some (version, 8)).

Definition unit_header_len : M bw_cur_t Z :=
  let* c := get in
  if negb (c_dwarf64 c =? 0) then bw_u64 sec else bw_u32 sec.

(** Everything up to [header_len]: [unit_end], and the fields unless the unit
    is to be skipped. *)
Definition unit_prologue : M bw_cur_t (Z * option unit_pro) :=
  let* '(offset_size, unit_end) := unit_length in
  let* v := unit_version in
  match v with
  | None => ret (unit_end, None)
  | Some (version, addr_size) =>
      let* header_len := unit_header_len in
      ret (unit_end, Some (UnitPro offset_size version addr_size header_len))
  end.

(** [for (i = 1; i < opcode_base; ++i) bw_u8(c, &std_len[i])] *)
Definition read_std_len (opcode_base : Z) : M bw_cur_t (gmap Z Z) :=
  for_range 1 opcode_base (λ i std_len,
    let* v := bw_u8 sec in arr_store 256 std_len i v) ∅.

(** The parameters of the program; [None] for a unit with a zero
    [min_inst] or [max_ops], which is skipped. *)
Definition unit_params (pro : unit_pro) : M bw_cur_t (option line_hdr) :=
  let* min_inst := bw_u8 sec in
  let* max_ops := (if 4 <=? up_version pro then bw_u8 sec else ret 1) in
  if ((min_inst =? 0) || (max_ops =? 0))%bool then ret None else
  let* def_stmt := bw_u8 sec in
  let* lb := bw_u8 sec in
  let line_base := sext 8 lb in
  let* line_range := bw_u8 sec in
  if line_range =? 0 then fail else
  let* opcode_base := bw_u8 sec in
  if opcode_base =? 0 then fail else
  let* std_len := read_std_len opcode_base in
  ret (Some (LineHdr min_inst max_ops def_stmt line_base line_range opcode_base
               std_len (up_addr_size pro))).

(** An entry format description: [fmt_count] and the arrays [lnct] and [form],
    which keep their other cells from one table to the next. *)
Record entry_fmt := EntryFmt { ef_count : Z; ef_lnct : gmap Z Z; ef_form : gmap Z Z }.

Definition read_format (old : entry_fmt) : M bw_cur_t entry_fmt :=
  let* fmt_count := bw_u8 sec in
  if BW_DWARF_FMT_MAX <? fmt_count then fail else
  for_range 0 fmt_count (λ i e,
    let* l := bw_uleb sec in
    let* lnct := arr_store BW_DWARF_FMT_MAX (ef_lnct e) i l in
    let* f := bw_uleb sec in
    let* form := arr_store BW_DWARF_FMT_MAX (ef_form e) i f in
    ret (EntryFmt fmt_count lnct form)) (EntryFmt fmt_count (ef_lnct old) (ef_form old)).

Context (line_str debug_str : span).

(** One directory entry: its [path] and [path_len]. *)
Definition dir_entry (offset_size : Z) (e : entry_fmt) : M bw_cur_t path_out :=
  for_range 0 (ef_count e) (λ f path,
    let* lnct := arr_load BW_DWARF_FMT_MAX (ef_lnct e) f in
    let* form := arr_load BW_DWARF_FMT_MAX (ef_form e) f in
    if lnct =? BW_LNCT_PATH then bw_form_path sec form offset_size line_str debug_str
    else do* bw_form_skip sec form offset_size in ret path) (c_lit [], 0).

(** One file entry: its path, [have_dir] and [dir_idx]. *)
Definition file_entry (offset_size : Z) (e : entry_fmt)
    : M bw_cur_t (path_out * (bool * Z)) :=
  for_range 0 (ef_count e) (λ f '(path, (have_dir, dir_idx)),
    let* lnct := arr_load BW_DWARF_FMT_MAX (ef_lnct e) f in
    let* form := arr_load BW_DWARF_FMT_MAX (ef_form e) f in
    if lnct =? BW_LNCT_PATH then
      let* path := bw_form_path sec form offset_size line_str debug_str in
      ret (path, (have_dir, dir_idx))
    else if lnct =? BW_LNCT_DIRECTORY_INDEX then
      let* dir_idx := bw_form_udata sec form in
      ret (path, (true, dir_idx))
    else
      do* bw_form_skip sec form offset_size in
      ret (path, (have_dir, dir_idx))) ((c_lit [], 0), (false, 0)).
End header.

(** The directory table: [ndir] and [dir_off], initialised to -1. *)
Record dir_tab := DirTab { d_count : Z; d_off : gmap Z Z }.

Section tables.
Context `{Platform} (sec line_str debug_str : span).

Definition add_path (p : path_out) : M unit_st Z := on_tab (bw_add_str (Some (fst p)) (snd p)).

(** The name of a file: joined with its directory when that one is known. *)
Definition add_file (dirs : dir_tab) (have_dir : bool) (dir_idx : Z) (path : path_out)
    : M unit_st Z :=
  if (have_dir && (dir_idx <? d_count dirs))%bool then
    let* off := arr_load0 BW_DWARF_DIRS_MAX (-1) (d_off dirs) dir_idx in
    if 0 <=? off then
      let* s := get in
      let dir := arr_cptr0 BW_DWARF_STR_MAX (strs (us_tab s)) (uptr off) in
      let* '(ok, joined) :=
        with_local (bw_join_path JOINED_LEN (Some dir) (Some (fst path))) {[ 0 := x00 ]} in
      if negb ok then fail else
      let* n := strlen (buf_fuel JOINED_LEN) (arr_cptr JOINED_LEN joined) in
      add_path (arr_cptr JOINED_LEN joined, n)
    else add_path path
  else add_path path.

(** *** Version 5 *)

Definition dirs_v5 (offset_size : Z) (e : entry_fmt) : M unit_st dir_tab :=
  let* count := on_cur (bw_uleb sec) in
  if BW_DWARF_DIRS_MAX <? count then fail else
  for_range 0 count (λ i dirs,
    let* path := on_cur (dir_entry sec line_str debug_str offset_size e) in
    let* off := add_path path in
    let* offs := arr_store BW_DWARF_DIRS_MAX (d_off dirs) i off in
    ret (DirTab (d_count dirs + 1) offs)) (DirTab 0 ∅).

Definition files_v5 (offset_size : Z) (e : entry_fmt) (dirs : dir_tab) : M unit_st file_tab :=
  let* count := on_cur (bw_uleb sec) in
  if BW_DWARF_FILES_MAX <? count then fail else
  for_range 0 count (λ i files,
    let* '(path, (have_dir, dir_idx)) :=
      on_cur (file_entry sec line_str debug_str offset_size e) in
    let* off := add_file dirs have_dir dir_idx path in
    let* offs := arr_store BW_DWARF_FILES_MAX (f_off files) i off in
    ret (FileTab (f_count files + 1) offs)) (FileTab 0 ∅).

Definition tables_v5 (offset_size : Z) : M unit_st file_tab :=
  let* e := on_cur (read_format sec (EntryFmt 0 ∅ ∅)) in
  let* dirs := dirs_v5 offset_size e in
  let* e := on_cur (read_format sec e) in
  files_v5 offset_size e dirs.

(** *** Versions before 5 *)

(** [bw_cur_ok(c, 1) && *c->p != 0 && n < max] *)
Definition more_entries (n max : Z) : M bw_cur_t bool :=
  let* c := get in
  if bw_cur_ok c 1 then
    let* b := peek sec in ret (negb (is_nul b) && (n <? max))%bool
  else ret false.

(** [p = c->p; n = strlen(p); c->p += n + 1], the string at the cursor *)
Definition take_cstr : M bw_cur_t path_out :=
  let* c := get in
  let p := sp_cptr sec (c_p c) in
  let* n := strlen (sec_fuel sec) p in
  do* put (advance (n + 1) c) in
  ret (p, n).

Fixpoint dirs_v4_loop (fuel : nat) (dirs : dir_tab) : M unit_st dir_tab :=
  match fuel with
  | O => no_fuel
  | S fuel' =>
      let* more := on_cur (more_entries (d_count dirs) BW_DWARF_DIRS_MAX) in
      if more then
        let* path := on_cur take_cstr in
        let* off := add_path path in
        let* offs := arr_store BW_DWARF_DIRS_MAX (d_off dirs) (d_count dirs) off in
        dirs_v4_loop fuel' (DirTab (d_count dirs + 1) offs)
      else ret dirs
  end.

Fixpoint files_v4_loop (fuel : nat) (dirs : dir_tab) (files : file_tab) : M unit_st file_tab :=
  match fuel with
  | O => no_fuel
  | S fuel' =>
      let* more := on_cur (more_entries (f_count files) BW_DWARF_FILES_MAX) in
      if more then
        let* path := on_cur take_cstr in
        let* dir_idx := on_cur (bw_uleb sec) in
        do* on_cur (bw_uleb sec) in
        do* on_cur (bw_uleb sec) in
        let* off := add_file dirs true dir_idx path in
        let* offs := arr_store BW_DWARF_FILES_MAX (f_off files) (f_count files) off in
        files_v4_loop fuel' dirs (FileTab (f_count files + 1) offs)
      else ret files
  end.

Definition tables_v4 : M unit_st file_tab :=
  let* off := add_path (c_lit [], 0) in
  let* offs := arr_store BW_DWARF_DIRS_MAX ∅ 0 off in
  let* dirs := dirs_v4_loop (Z.to_nat BW_DWARF_DIRS_MAX) (DirTab 1 offs) in
  do* on_cur (bw_skip 1) in
  let* offs := arr_store BW_DWARF_FILES_MAX ∅ 0 (-1) in
  let* files := files_v4_loop (Z.to_nat BW_DWARF_FILES_MAX) dirs (FileTab 1 offs) in
  do* on_cur (bw_skip 1) in
  ret files.

(** *** The unit *)

(** The block from the version 5 tables on: [prog] is where the program is. *)
Definition unit_body (pro : unit_pro) (unit_end prog : Z) : M unit_st unit :=
  let* params := on_cur (unit_params sec pro) in
  match params with
  | None => move_to unit_end
  | Some h =>
      let* files := (if 5 <=? up_version pro then tables_v5 (up_offset_size pro)
                     else tables_v4) in
      do* move_to prog in
      do* run_program sec h files unit_end in
      move_to unit_end
  end.

Definition bw_parse_unit : M unit_st unit :=
  let* '(unit_end, pro) := on_cur (unit_prologue sec) in
  match pro with
  | None => move_to unit_end
  | Some pro =>
      let* s := get in
      let prog := uptr (c_p (us_cur s) + uptr (up_header_len pro)) in
      if unit_end <? prog then fail else unit_body pro unit_end prog
  end.
End tables.

(** ** The safety of a unit *)

Section header_safety.
Context `{Platform} (sec : span) (Hsec : span_ok sec).

Lemma reader_put_dwarf64 {A} (P : A → Prop) d a :
  P a → reader sec 0 P (let* c := get in do* put (set_dwarf64 d c) in ret a).
Proof. intros Ha c [Hc He]. simpl. unfold adv, cur_in; simpl. split_and!; done || lia. Qed.

(** The unit ends inside the section, after its length field. *)
Lemma unit_length_wp U c :
  cur_in sec c →
  wp U (adv sec 0 c) (λ '(_, unit_end) c', adv sec 4 c c' ∧ c_p c' ≤ unit_end ≤ sp_end sec)
    (unit_length sec c).
Proof using Hsec.
  intros Hc. apply wp_no_ub. unfold unit_length. wp_step.
  eapply wp_call; [by apply (reader_u32 sec Hsec)|done|]. cbn beta.
  intros unit32 c1 [H1 Hu]. wp_step.
  assert (Hlen : reader sec 0 (λ v : Z * Z, 0 ≤ fst v)
    (if unit32 =? 0xffffffff then
       let* unit_len := bw_u64 sec in
       let* c := get in do* put (set_dwarf64 1 c) in ret (unit_len, 8)
     else let* c := get in do* put (set_dwarf64 0 c) in ret (unit32, 4))).
  { apply reader_if; [|apply reader_put_dwarf64; simpl; lia].
    eapply (reader_bind0 sec (λ v, 0 ≤ v)).
    - eapply reader_weaken; [by apply reader_u64|lia|simpl; lia].
    - intros v Hv. by apply reader_put_dwarf64. }
  eapply wp_call; [apply Hlen; by eapply adv_in| |]; cbn beta.
  { intros c2 H2. by eapply adv_chain. }
  intros [unit_len osz] c2 [H2 Hul]. simpl in Hul. cbn beta iota. wp_steps.
  { by eapply adv_chain. }
  apply orb_false_iff in E as [_ Eok]. zify_bools. pose proof (uptr_range unit_len).
  pose proof (adv_in _ _ _ _ H2) as Hc2.
  apply (cur_ok_iff sec Hsec) in Eok; [|done|lia].
  destruct Hsec. destruct Hc2 as [Hp2 _].
  rewrite (uptr_small (_ + _)) by lia. split; [by eapply adv_chain|lia].
Qed.

Lemma reader_unit_version : reader sec 0 (λ _, True) (unit_version sec).
Proof using Hsec.
  unfold unit_version. apply (reader_seq sec 2 _ _ _ _ ltac:(lia) (reader_u16 sec Hsec)).
  intros version _. apply reader_if; [|by apply reader_ret].
  apply (reader_seq sec 1 _ _ _ _ ltac:(lia) (reader_u8 sec Hsec)). intros addr_size _.
  apply (reader_seq sec 1 _ _ _ _ ltac:(lia) (reader_u8 sec Hsec)). intros seg_size _.
  by apply reader_if; apply reader_ret.
Qed.

Lemma reader_unit_header_len : reader sec 0 (λ v, 0 ≤ v) (unit_header_len sec).
Proof using Hsec.
  intros c Hc. unfold unit_header_len. wp_steps.
  - eapply wp_call; [by apply (reader_u64 sec Hsec)|done|]. cbn beta.
    intros v c' [Hadv Hv]. split; [by eapply adv_weaken|lia].
  - eapply wp_call; [by apply (reader_u32 sec Hsec)|done|]. cbn beta.
    intros v c' [Hadv Hv]. split; [by eapply adv_weaken|lia].
Qed.
(** The prologue ends where the unit does, and never goes back. *)
Lemma unit_prologue_wp U c :
  cur_in sec c →
  wp U (adv sec 0 c)
    (λ '(unit_end, pro) c', adv sec 4 c c' ∧ c_p c + 4 ≤ unit_end ≤ sp_end sec ∧
       (∀ pro', pro = Some pro' → 0 ≤ up_header_len pro'))
    (unit_prologue sec c).
Proof using Hsec.
  intros Hc. apply wp_no_ub. unfold unit_prologue. wp_step.
  eapply wp_call; [by apply unit_length_wp|done|]. cbn beta.
  intros [osz ue] c1 [H1 Hue]. assert (c_p c + 4 ≤ c_p c1) by apply H1.
  cbn beta iota. wp_step.
  eapply wp_call; [apply reader_unit_version; by eapply adv_in| |]; cbn beta.
  { intros c2 H2. by eapply adv_chain. }
  intros [[version asz]|] c2 [H2 _].
  - cbn beta iota. wp_step.
    eapply wp_call; [apply reader_unit_header_len; by eapply adv_in| |]; cbn beta.
    { intros c3 H3. eapply adv_chain; [by eapply (adv_chain sec 0)|done|lia]. }
    intros hl c3 [H3 Hhl]. apply wp_ret. split_and!; [|lia|lia|by intros; simplify_eq].
    eapply (adv_chain sec 4 4 0); [|done|lia]. by eapply adv_chain.
  - apply wp_ret. split_and!; [by eapply adv_chain|lia|lia|done].
Qed.

Lemma reader_read_std_len n : 0 < n < 256 → reader sec 0 (λ _, True) (read_std_len sec n).
Proof using Hsec.
  intros Hn. apply (reader_for sec (λ _ _, True)); [lia|done|]. intros i a Hi _.
  apply (reader_seq sec 1 _ _ _ _ ltac:(lia) (reader_u8 sec Hsec)). intros v _ c Hc.
  apply wp_arr_store; [lia|]. split; [by apply adv_refl|done].
Qed.

Lemma reader_unit_params pro :
  reader sec 0 (λ o, ∀ h, o = Some h → hdr_ok h) (unit_params sec pro).
Proof using Hsec.
  pose proof (reader_u8 sec Hsec) as Hu8. assert (H01 : 0 ≤ 1) by lia. unfold unit_params.
  apply (reader_seq sec 1 _ _ _ _ H01 Hu8). intros min_inst _.
  apply (reader_seq sec 0 (λ b, 0 ≤ b < 256)); [lia| |].
  { apply reader_if; [by eapply reader_weaken|apply reader_ret; lia]. }
  intros max_ops Hmo. apply reader_if'; intros Ez; [by apply reader_ret|].
  apply orb_false_iff in Ez as [_ Ez]. zify_bools.
  apply (reader_seq sec 1 _ _ _ _ H01 Hu8). intros def_stmt _.
  apply (reader_seq sec 1 _ _ _ _ H01 Hu8). intros lb _. cbv zeta.
  apply (reader_seq sec 1 _ _ _ _ H01 Hu8). intros line_range _.
  apply reader_if; [apply reader_fail|].
  apply (reader_seq sec 1 _ _ _ _ H01 Hu8). intros opcode_base Hob.
  apply reader_if'; intros Eo; [apply reader_fail|]. zify_bools.
  apply (reader_seq sec 0 (λ _, True)); [lia|by apply reader_read_std_len; lia|].
  intros std_len _. apply reader_ret. intros h Heq. simplify_eq. split; simpl; lia.
Qed.

Definition fmt_ok (e : entry_fmt) : Prop :=
  0 ≤ ef_count e ≤ BW_DWARF_FMT_MAX ∧
  ∀ i, 0 ≤ i < ef_count e → is_Some (ef_lnct e !! i) ∧ is_Some (ef_form e !! i).

Lemma reader_read_format old : reader sec 0 fmt_ok (read_format sec old).
Proof using Hsec.
  unfold read_format. apply (reader_seq sec 1 _ _ _ _ ltac:(lia) (reader_u8 sec Hsec)).
  intros n Hn. apply reader_if'; intros En; [apply reader_fail|]. zify_bools.
  assert (Hmax : BW_DWARF_FMT_MAX = 16) by done.
  eapply (reader_weaken sec 0 0); [|done|]; [apply (reader_for sec (λ k e,
    ef_count e = n ∧ ∀ i, 0 ≤ i < k → is_Some (ef_lnct e !! i) ∧ is_Some (ef_form e !! i)))
    |intros e [He Hi]; split; [lia|by rewrite He]].
  - lia.
  - split; [done|]. intros; lia.
  - intros i e Hi [He Hf].
    apply (reader_seq sec 1 _ _ _ _ ltac:(lia) (reader_uleb sec Hsec)). intros l _.
    apply reader_store; [lia|].
    apply (reader_seq sec 1 _ _ _ _ ltac:(lia) (reader_uleb sec Hsec)). intros f _.
    apply reader_store; [lia|]. apply reader_ret. split; [done|]. simpl.
    intros k Hk. destruct (Z.eq_dec k i) as [->|].
    + by rewrite !lookup_insert_eq.
    + rewrite !lookup_insert_ne by done. apply Hf. lia.
Qed.

Context (line_str debug_str : span).
Context (Hls : str_span_ok line_str) (Hds : str_span_ok debug_str).

Lemma reader_dir_entry osz e :
  fmt_ok e → reader sec 0 path_ok (dir_entry sec line_str debug_str osz e).
Proof using Hsec Hls Hds.
  intros [Hn He]. apply (reader_for sec (λ _, path_ok)); [lia|apply path_ok_empty|].
  intros i path Hi Hp. destruct (He i Hi) as [[l Hl] [f Hf]].
  eapply reader_load; [lia|done|]. eapply reader_load; [lia|done|].
  apply reader_if; [by apply reader_form_path|].
  apply (reader_seq sec 0 (λ _, True)); [lia|by apply reader_form_skip|].
  intros _ _. by apply reader_ret.
Qed.

Lemma reader_file_entry osz e :
  fmt_ok e →
  reader sec 0 (λ '(path, (_, idx)), path_ok path ∧ 0 ≤ idx)
    (file_entry sec line_str debug_str osz e).
Proof using Hsec Hls Hds.
  intros [Hn He].
  apply (reader_for sec (λ _ '(path, (_, idx)), path_ok path ∧ 0 ≤ idx)); [lia| |].
  { split; [apply path_ok_empty|lia]. }
  intros i [path [hd idx]] Hi [Hp Hidx]. destruct (He i Hi) as [[l Hl] [f Hf]].
  eapply reader_load; [lia|done|]. eapply reader_load; [lia|done|].
  apply reader_if; [|apply reader_if].
  - apply (reader_seq sec 0 path_ok); [lia|by apply reader_form_path|].
    intros p' Hp'. by apply reader_ret.
  - apply (reader_seq sec 0 _ _ _ _ ltac:(lia) (reader_form_udata sec Hsec f)).
    intros v Hv. apply reader_ret. split; [done|lia].
  - apply (reader_seq sec 0 (λ _, True)); [lia|by apply reader_form_skip|].
    intros _ _. by apply reader_ret.
Qed.
End header_safety.

Section table_safety.
Context `{Platform} (sec : span) (Hsec : span_ok sec).
Context (line_str debug_str : span).
Context (Hls : str_span_ok line_str) (Hds : str_span_ok debug_str).

Implicit Types (s : unit_st).

(** A step of the tables' construction, with what it returns. *)
Definition yields {A} (s : unit_st) (P : A → bw_dwarf_tab_t → Prop) (o : outcome unit_st A) : Prop :=
  wp no_ub (step_ok sec 0 s) (λ a s', step_ok sec 0 s s' ∧ P a (us_tab s')) o.

Lemma yields_bind {A B} s (P : A → bw_dwarf_tab_t → Prop) (Q : B → bw_dwarf_tab_t → Prop) m f :
  yields s P (m s) →
  (∀ a s', step_ok sec 0 s s' → P a (us_tab s') → yields s' Q (f a s')) →
  yields s Q (bind m f s).
Proof.
  intros Hm Hf. apply wp_bind. eapply wp_call; [exact Hm|done|]. cbn beta.
  intros a s1 [H1 Ha]. eapply wp_call; [by apply Hf| |]; cbn beta.
  - intros s2 H2. by eapply step_ok_chain.
  - intros b s2 [H2 Hb]. split; [by eapply step_ok_chain|done].
Qed.

Lemma yields_ret {A} s (P : A → bw_dwarf_tab_t → Prop) a :
  st_ok sec s → P a (us_tab s) → yields s P (ret a s).
Proof. intros. split; [by apply step_ok_refl|done]. Qed.

Lemma yields_fail {A} s (P : A → bw_dwarf_tab_t → Prop) : st_ok sec s → yields s P (fail s).
Proof. apply step_ok_refl. Qed.

Lemma yields_weaken {A} s (P Q : A → bw_dwarf_tab_t → Prop) o :
  yields s P o → (∀ a t, P a t → Q a t) → yields s Q o.
Proof.
  intros HP HPQ. eapply wp_call; [exact HP|done|]. cbn beta.
  intros a s' [? ?]. split; auto.
Qed.

Lemma yields_store {A B} s (Q : B → bw_dwarf_tab_t → Prop) cap (a : gmap Z A) i x
    (f : gmap Z A → M unit_st B) :
  0 ≤ i < cap → yields s Q (f (<[i:=x]> a) s) → yields s Q (bind (arr_store cap a i x) f s).
Proof. intros Hi Hf. apply wp_bind. by apply wp_arr_store. Qed.

Lemma yields_for {A} s (I : Z → A → bw_dwarf_tab_t → Prop) lo hi body a :
  lo ≤ hi → st_ok sec s → I lo a (us_tab s) →
  (∀ i a s, lo ≤ i < hi → st_ok sec s → I i a (us_tab s) → yields s (I (i + 1)) (body i a s)) →
  yields s (I hi) (for_range lo hi body a s).
Proof.
  intros Hle Hs HI Hb.
  apply (wp_for_range _ _ _ (λ i a s', step_ok sec 0 s s' ∧ I i a (us_tab s')));
    [done|by split; [apply step_ok_refl|]| |done].
  intros i a' s1 Hi [H1 HI1]. eapply wp_call; [apply (Hb i a'); [done|by eapply step_ok_st|done]| |];
    cbn beta.
  - intros s2 H2. by eapply step_ok_chain.
  - intros b s2 [H2 Hb2]. split; [by eapply step_ok_chain|done].
Qed.

(** A reader keeps the table, so what is known of it stays known. *)
Lemma yields_on_cur {A} s k (P : A → Prop) (R : bw_dwarf_tab_t → Prop) m :
  0 ≤ k → st_ok sec s → reader sec k P m → R (us_tab s) →
  yields s (λ a t, P a ∧ R t) (on_cur m s).
Proof.
  intros Hk Hs Hm HR. eapply wp_call; [by apply (wp_on_cur sec _ k P)|done|]. cbn beta.
  intros a s' (Hs' & Ha & Ht). split_and!; [|done|by rewrite Ht].
  destruct Hs' as (? & ? & ?). split_and!; [by eapply adv_weaken|done..].
Qed.

(** The directory table points at strings of the line table. *)
Definition dirs_ok (dirs : dir_tab) (t : bw_dwarf_tab_t) : Prop :=
  0 ≤ d_count dirs ≤ BW_DWARF_DIRS_MAX ∧ ∀ i, off_ok t (default (-1) (d_off dirs !! i)).

Lemma dirs_ok_ext dirs t t' : tab_ext t t' → dirs_ok dirs t → dirs_ok dirs t'.
Proof. intros Hext [? Ho]. split; [done|]. eauto using off_ok_ext. Qed.

Lemma offs_insert (t : bw_dwarf_tab_t) (offs : gmap Z Z) i off :
  off_ok t off → (∀ k, off_ok t (default (-1) (offs !! k))) →
  ∀ k, off_ok t (default (-1) (<[i:=off]> offs !! k)).
Proof. intros Ho Hall k. rewrite lookup_insert. by case_decide. Qed.

Lemma offs_ext t t' (offs : gmap Z Z) :
  tab_ext t t' → (∀ k, off_ok t (default (-1) (offs !! k))) →
  ∀ k, off_ok t' (default (-1) (offs !! k)).
Proof. eauto using off_ok_ext. Qed.

Lemma add_path_yields s p :
  st_ok sec s → path_ok p →
  yields s (λ off t, off_ok t off ∧ tab_ext (us_tab s) t) (add_path p s).
Proof.
  intros [Hc Ht] (l & Hl & Hn). unfold add_path. apply wp_zoom. rewrite Hn.
  eapply wp_call; [apply (bw_add_str_wp no_ub (λ _, False) _ l); done|done|]. cbn beta.
  intros off t' (Ht' & Hext & Hoff). split; [|done].
  split_and!; simpl; [by apply adv_refl|done..].
Qed.

Lemma add_file_yields s dirs hd idx p :
  st_ok sec s → dirs_ok dirs (us_tab s) → 0 ≤ idx → path_ok p →
  yields s (λ off t, off_ok t off ∧ tab_ext (us_tab s) t) (add_file dirs hd idx p s).
Proof.
  intros Hs [Hcnt Hoffs] Hidx Hp. pose proof (add_path_yields s p Hs Hp) as Hplain.
  unfold add_file. destruct (hd && (idx <? d_count dirs))%bool eqn:E; [|done]. zify_bools.
  apply wp_bind, wp_arr_load0; [lia|]. specialize (Hoffs idx).
  destruct (Z.leb_spec 0 (default (-1) (d_off dirs !! idx))) as [Hpos|]; [|done].
  destruct Hoffs as [Hneg|[Hrange [d Hd]]]; [lia|]. destruct Hd as (_ & _ & Hd).
  destruct Hp as (f & Hf & _). apply wp_bind, wp_get. cbv zeta.
  apply wp_bind, wp_with_local. assert (BW_DWARF_STR_MAX = 262144) by done.
  rewrite uptr_small32 by lia.
  destruct (bw_join_path_eq JOINED_LEN _ _ d f {[0 := x00]} ltac:(done) Hd Hf)
    as (joined & -> & Hj). cbn beta iota. set (r := take _ (join_ref d f)) in *.
  simpl. destruct (Z.ltb_spec 0 (Z.of_nat (length r))); cbn [negb]; [|by apply step_ok_refl].
  apply wp_bind. rewrite (strlen_cstr _ r); [|done|].
  - apply add_path_yields; [done|]. by exists r.
  - unfold r, buf_fuel. rewrite length_take. change (Z.to_nat JOINED_LEN) with 512%nat.
    change (Z.to_nat (JOINED_LEN - 1)) with 511%nat. lia.
Qed.

Lemma dirs_v5_yields s osz e :
  st_ok sec s → fmt_ok e → yields s dirs_ok (dirs_v5 sec line_str debug_str osz e s).
Proof using Hsec Hls Hds.
  intros Hs He. unfold dirs_v5.
  eapply yields_bind; [apply (yields_on_cur _ 1 _ (λ _, True) _ ltac:(lia) Hs (reader_uleb sec Hsec)); done|].
  intros n s1 H1 [Hn _]. pose proof (step_ok_st _ _ _ _ H1) as Hs1.
  destruct (Z.ltb_spec BW_DWARF_DIRS_MAX n); [by apply yields_fail|].
  eapply yields_weaken; [apply (yields_for _ (λ i dirs t, dirs_ok dirs t ∧ d_count dirs = i))|].
  - lia.
  - done.
  - split; [|done]. split; [done|]. intros k. simpl. by left.
  - intros i dirs s2 Hi Hs2 [Hd Hcnt].
    eapply yields_bind; [apply (yields_on_cur _ 0 path_ok (dirs_ok dirs)); try done; by apply reader_dir_entry|].
    intros p s3 H3 [Hp Hd3]. pose proof (step_ok_st _ _ _ _ H3) as Hs3.
    eapply yields_bind; [by apply add_path_yields|].
    intros off s4 H4 [Hoff Hext]. pose proof (step_ok_st _ _ _ _ H4) as Hs4.
    apply yields_store; [lia|]. apply yields_ret; [done|]. destruct Hd3 as [Hc3 Ho3].
    split; [split; simpl; [lia|]|simpl; lia]. apply offs_insert; [done|]. by eapply offs_ext.
  - by intros dirs t [? _].
Qed.

Lemma files_v5_yields s osz e dirs :
  st_ok sec s → fmt_ok e → dirs_ok dirs (us_tab s) →
  yields s files_ok (files_v5 sec line_str debug_str osz e dirs s).
Proof using Hsec Hls Hds.
  intros Hs He Hd. unfold files_v5.
  eapply yields_bind; [apply (yields_on_cur _ 1 _ (dirs_ok dirs) _ ltac:(lia) Hs (reader_uleb sec Hsec)); done|].
  intros n s1 H1 [Hn Hd1]. pose proof (step_ok_st _ _ _ _ H1) as Hs1.
  destruct (Z.ltb_spec BW_DWARF_FILES_MAX n); [by apply yields_fail|].
  eapply yields_weaken; [apply (yields_for _ (λ i files t,
    (files_ok files t ∧ f_count files = i) ∧ dirs_ok dirs t))|].
  - lia.
  - done.
  - split; [|done]. split; [|done]. split; [done|]. intros k. simpl. by left.
  - intros i files s2 Hi Hs2 [[Hf Hcnt] Hd2].
    eapply yields_bind; [apply (yields_on_cur _ 0 _ (λ t, files_ok files t ∧ dirs_ok dirs t) _
      ltac:(done) Hs2 (reader_file_entry sec Hsec _ _ Hls Hds osz e He)); done|].
    intros [p [hd idx]] s3 H3 [[Hp Hidx] [Hf3 Hd3]]. cbn beta iota.
    pose proof (step_ok_st _ _ _ _ H3) as Hs3.
    eapply yields_bind; [by apply add_file_yields|].
    intros off s4 H4 [Hoff Hext]. pose proof (step_ok_st _ _ _ _ H4) as Hs4.
    apply yields_store; [lia|]. apply yields_ret; [done|]. destruct Hf3 as [Hc3 Ho3].
    split; [|by eapply dirs_ok_ext]. split; [split; simpl; [lia|]|simpl; lia].
    apply offs_insert; [done|]. by eapply offs_ext.
  - by intros files t [[? _] _].
Qed.

Lemma tables_v5_yields s osz :
  st_ok sec s → yields s files_ok (tables_v5 sec line_str debug_str osz s).
Proof using Hsec Hls Hds.
  intros Hs. unfold tables_v5.
  eapply yields_bind; [apply (yields_on_cur _ 0 fmt_ok (λ _, True)); try done; by apply reader_read_format|].
  intros e s1 H1 [He _]. pose proof (step_ok_st _ _ _ _ H1) as Hs1.
  eapply yields_bind; [by apply dirs_v5_yields|]. intros dirs s2 H2 Hd.
  pose proof (step_ok_st _ _ _ _ H2) as Hs2.
  eapply yields_bind; [apply (yields_on_cur _ 0 fmt_ok (dirs_ok dirs)); try done; by apply reader_read_format|].
  intros e' s3 H3 [He' Hd3]. pose proof (step_ok_st _ _ _ _ H3) as Hs3.
  by apply files_v5_yields.
Qed.

(** *** Versions before 5: the strings of the section must end inside it *)

Context (Hnul : nul_terminated sec).

Lemma more_entries_wp U F (Q : bool → bw_cur_t → Prop) n max c :
  cur_in sec c →
  (∀ b, (b = true → c_p c < sp_end sec ∧ n < max) → Q b c) →
  wp U F Q (more_entries sec n max c).
Proof using Hsec.
  intros Hc HQ. unfold more_entries. wp_step. wp_step. wp_step; [|by apply wp_ret, HQ].
  apply (cur_ok_iff sec Hsec) in E; [|done|lia].
  destruct (sp_read_inside sec (c_p c)) as [b Hb]; [destruct Hc; lia|].
  unfold peek. wp_steps. rewrite Hb. apply wp_ret, HQ. intros. zify_bools. lia.
Qed.

Lemma take_cstr_wp U F (Q : path_out → bw_cur_t → Prop) c :
  cur_in sec c → c_p c < sp_end sec →
  (∀ p c', path_ok p → adv sec 1 c c' → Q p c') →
  wp U F Q (take_cstr sec c).
Proof using Hsec Hnul.
  intros Hc Hlt HQ. unfold take_cstr. wp_step. wp_step. wp_step.
  destruct (nul_terminated_cstr sec (c_p c) Hnul) as (l & Hl & Hend); [destruct Hc; lia|].
  rewrite (strlen_cstr _ l); [|done|].
  - wp_steps. simpl. wp_steps. apply HQ; [by exists l|].
    eapply adv_weaken; [apply (advance_adv sec Hsec); [done|lia|lia]|lia].
  - destruct Hc as [? _]. unfold sec_fuel, sp_end, sp_len in *. lia.
Qed.

Lemma yields_more {B} (Q : B → bw_dwarf_tab_t → Prop) n max f s :
  st_ok sec s →
  (c_p (us_cur s) < sp_end sec → n < max → yields s Q (f true s)) →
  yields s Q (f false s) →
  yields s Q (bind (on_cur (more_entries sec n max)) f s).
Proof using Hsec.
  intros Hs Ht Hf. apply wp_bind, wp_zoom, more_entries_wp; [apply Hs|].
  destruct s as [t c]. intros [] Hm; [|exact Hf]. by destruct (Hm eq_refl); apply Ht.
Qed.

Lemma yields_take {B} (Q : B → bw_dwarf_tab_t → Prop) f s :
  st_ok sec s → c_p (us_cur s) < sp_end sec →
  (∀ p s', path_ok p → st_ok sec s' → us_tab s' = us_tab s → yields s' Q (f p s')) →
  yields s Q (bind (on_cur (take_cstr sec)) f s).
Proof using Hsec Hnul.
  intros [Hc Ht] Hlt Hf. apply wp_bind, wp_zoom, take_cstr_wp; [done|done|].
  intros p c' Hp Hadv. set (s' := UnitSt (us_tab s) c').
  assert (H1 : step_ok sec 0 s s') by (split_and!; [by eapply adv_weaken|done|done]).
  eapply wp_call; [apply (Hf p s'); [done|by eapply step_ok_st|done]| |]; cbn beta.
  - intros s2 H2. by eapply step_ok_chain.
  - intros b s2 [H2 Hb]. split; [by eapply step_ok_chain|done].
Qed.

Lemma dirs_v4_loop_yields fuel dirs s :
  st_ok sec s → dirs_ok dirs (us_tab s) → BW_DWARF_DIRS_MAX - d_count dirs < Z.of_nat fuel →
  yields s dirs_ok (dirs_v4_loop sec fuel dirs s).
Proof using Hsec Hnul.
  revert dirs s. induction fuel as [|fuel IH]; intros dirs s Hs Hd Hf; [destruct Hd; lia|].
  simpl. apply yields_more; [done| |by apply yields_ret]. intros Hlt Hmax.
  apply yields_take; [done|done|]. intros p s1 Hp Hs1 Ht1.
  eapply yields_bind; [by apply add_path_yields|]. intros off s2 H2 [Hoff Hext].
  pose proof (step_ok_st _ _ _ _ H2) as Hs2. rewrite Ht1 in Hext. destruct Hd as [Hc Ho].
  apply yields_store; [lia|]. apply IH; [done| |simpl; lia].
  split; simpl; [lia|]. apply offs_insert; [done|]. by eapply offs_ext.
Qed.

Lemma files_v4_loop_yields fuel dirs files s :
  st_ok sec s → dirs_ok dirs (us_tab s) → files_ok files (us_tab s) →
  BW_DWARF_FILES_MAX - f_count files < Z.of_nat fuel →
  yields s files_ok (files_v4_loop sec fuel dirs files s).
Proof using Hsec Hnul.
  revert files s. induction fuel as [|fuel IH]; intros files s Hs Hd Hfs Hf; [destruct Hfs; lia|].
  simpl. apply yields_more; [done| |by apply yields_ret]. intros Hlt Hmax.
  apply yields_take; [done|done|]. intros p s1 Hp Hs1 Ht1. rewrite <- Ht1 in Hd, Hfs.
  pose (R t := dirs_ok dirs t ∧ files_ok files t).
  assert (Huleb : ∀ s, st_ok sec s → R (us_tab s) →
    yields s (λ v t, 0 ≤ v < 2 ^ 64 ∧ R t) (on_cur (bw_uleb sec) s)).
  { intros. by apply (yields_on_cur _ 1 _ R _ ltac:(lia) ltac:(done) (reader_uleb sec Hsec)). }
  eapply yields_bind; [by apply Huleb|]. intros idx s2 H2 [Hidx HR2].
  eapply yields_bind; [apply Huleb; [by eapply step_ok_st|done]|]. intros _ s3 H3 [_ HR3].
  eapply yields_bind; [apply Huleb; [by eapply step_ok_st|done]|]. intros _ s4 H4 [_ [Hd4 Hf4]].
  pose proof (step_ok_st _ _ _ _ H4) as Hs4.
  eapply yields_bind; [apply add_file_yields; (done || lia)|]. intros off s5 H5 [Hoff Hext].
  pose proof (step_ok_st _ _ _ _ H5) as Hs5. destruct Hf4 as [Hc4 Ho4].
  apply yields_store; [lia|]. apply IH; [done|by eapply dirs_ok_ext| |simpl; lia].
  split; simpl; [lia|]. apply offs_insert; [done|]. by eapply offs_ext.
Qed.

Lemma yields_skip1 (R : bw_dwarf_tab_t → Prop) s :
  st_ok sec s → R (us_tab s) → yields s (λ _ t, True ∧ R t) (on_cur (bw_skip 1) s).
Proof using Hsec.
  intros Hs HR. apply (yields_on_cur _ 1 (λ _, True)); [lia|done| |done].
  by apply (reader_skip sec Hsec).
Qed.

Lemma tables_v4_yields s : st_ok sec s → yields s files_ok (tables_v4 sec s).
Proof using Hsec Hnul.
  intros Hs. unfold tables_v4.
  eapply yields_bind; [apply add_path_yields; [done|apply path_ok_empty]|].
  intros off s1 H1 [Hoff _]. pose proof (step_ok_st _ _ _ _ H1) as Hs1.
  apply yields_store; [done|].
  eapply yields_bind; [apply dirs_v4_loop_yields; [done| |done]|].
  { split; [done|]. apply offs_insert; [done|]. intros k. simpl. by left. }
  intros dirs s2 H2 Hd2. pose proof (step_ok_st _ _ _ _ H2) as Hs2.
  eapply yields_bind; [by apply (yields_skip1 (dirs_ok dirs))|]. intros _ s3 H3 [_ Hd3].
  pose proof (step_ok_st _ _ _ _ H3) as Hs3. apply yields_store; [done|].
  eapply yields_bind; [apply files_v4_loop_yields; [done|done| |done]|].
  { split; [done|]. apply offs_insert; [by left|]. intros k. simpl. by left. }
  intros files s4 H4 Hf4. pose proof (step_ok_st _ _ _ _ H4) as Hs4.
  eapply yields_bind; [by apply (yields_skip1 (files_ok files))|]. intros _ s5 H5 [_ Hf5].
  apply yields_ret; [by eapply step_ok_st|done].
Qed.
End table_safety.

(** ** The whole unit *)

Section unit_safety.
Context `{Platform} (sec : span) (Hsec : span_ok sec).
Context (line_str debug_str : span).
Context (Hls : str_span_ok line_str) (Hds : str_span_ok debug_str).

(** The condition under which the header of a unit stays in the section: adding
    its [header_len] does not wrap around the address space, and the strings of
    a table before version 5 end inside the section.  [c] is where the prologue
    ends. *)
Definition pro_fits (pro : unit_pro) (c : bw_cur_t) : Prop :=
  c_p c + uptr (up_header_len pro) < ptr_mod ∧
  (5 ≤ up_version pro ∨ nul_terminated sec).

(** The unit whose header starts at the cursor meets it. *)
Definition unit_fits (c : bw_cur_t) : Prop :=
  match unit_prologue sec c with
  | Done (_, Some pro) c' => pro_fits pro c'
  | _ => True
  end.

Lemma unit_body_wp pro unit_end prog s :
  st_ok sec s → (5 ≤ up_version pro ∨ nul_terminated sec) →
  sp_base sec ≤ prog ≤ unit_end → unit_end ≤ sp_end sec →
  wp (overflow_in sec) (λ s', tab_ok (us_tab s') ∧ tab_ext (us_tab s) (us_tab s'))
    (λ _ s', st_ok sec s' ∧ tab_ext (us_tab s) (us_tab s') ∧ c_p (us_cur s') = unit_end)
    (unit_body sec line_str debug_str pro unit_end prog s).
Proof using Hsec Hls Hds.
  intros Hs Hv Hprog Hend.
  assert (Hmove : ∀ a s', st_ok sec s' → sp_base sec ≤ a ≤ sp_end sec →
    tab_ext (us_tab s) (us_tab s') →
    wp (overflow_in sec) (λ s', tab_ok (us_tab s') ∧ tab_ext (us_tab s) (us_tab s'))
      (λ _ s'', (st_ok sec s'' ∧ tab_ext (us_tab s) (us_tab s'')) ∧
                us_tab s'' = us_tab s' ∧ c_p (us_cur s'') = a) (move_to a s')).
  { intros a s' [[_ He] Ht] Ha Hext. unfold move_to, on_cur. wp_steps.
    by split_and!. }
  assert (Hext : ∀ k s', step_ok sec k s s' → tab_ok (us_tab s') ∧ tab_ext (us_tab s) (us_tab s'))
    by (intros k s' (_ & ? & ?); done).
  unfold unit_body. wp_step.
  eapply wp_call; [apply wp_on_cur; [done|by apply reader_unit_params]|by apply Hext|].
  cbn beta. intros [h|] s1 (H1 & Hh & _).
  2:{ eapply wp_call; [apply (Hmove unit_end s1); [by eapply step_ok_st|lia|apply H1]|done|].
      cbn beta. intros _ s2 ([? ?] & _ & ?). done. }
  specialize (Hh h eq_refl). wp_step.
  assert (Htab : yields sec s1 files_ok
    ((if 5 <=? up_version pro then tables_v5 sec line_str debug_str (up_offset_size pro)
      else tables_v4 sec) s1)).
  { pose proof (step_ok_st _ _ _ _ H1). destruct (Z.leb_spec 5 (up_version pro)).
    - by apply tables_v5_yields.
    - apply tables_v4_yields; [done| |done]. destruct Hv; [lia|done]. }
  eapply wp_call; [apply wp_no_ub, Htab| |]; cbn beta.
  { intros s2 H2. eapply Hext. by eapply (step_ok_chain sec 0). }
  intros files s2 [H2 Hf]. assert (H2' : step_ok sec 0 s s2) by (by eapply step_ok_chain).
  wp_step. eapply wp_call; [apply (Hmove prog s2); [by eapply step_ok_st|lia|apply H2']|done|].
  cbn beta. intros _ s3 ([Hs3 Hext3] & Ht3 & _).
  wp_step. eapply wp_call; [apply (run_program_wp sec Hsec h files Hh); [done|by rewrite Ht3|done]|done|].
  cbn beta. intros _ s4 H4.
  eapply wp_call; [apply (Hmove unit_end s4); [by eapply step_ok_st|lia|]|done|].
  - etransitivity; [done|apply H4].
  - cbn beta. intros _ s5 ([? ?] & _ & ?). done.
Qed.

(** A unit that fits is parsed without leaving the section, moves the cursor to
    the end it declares, and only adds to the table. *)
Lemma bw_parse_unit_wp s :
  st_ok sec s → unit_fits (us_cur s) →
  wp (overflow_in sec) (λ s', tab_ok (us_tab s') ∧ tab_ext (us_tab s) (us_tab s'))
    (λ _ s', st_ok sec s' ∧ tab_ext (us_tab s) (us_tab s') ∧
       c_p (us_cur s) + 4 ≤ c_p (us_cur s') ∧
       ∃ pro c, unit_prologue sec (us_cur s) = Done (c_p (us_cur s'), pro) c)
    (bw_parse_unit sec line_str debug_str s).
Proof using Hsec Hls Hds.
  intros [Hc Ht] Hfits. unfold bw_parse_unit, unit_fits in *. wp_step. apply wp_zoom.
  pose proof (unit_prologue_wp sec Hsec no_ub (us_cur s) Hc) as Hpro.
  destruct (unit_prologue sec (us_cur s)) as [[ue pro] c1|c1| |] eqn:Epro;
    simpl in Hpro; try done.
  destruct Hpro as (Hadv & Hue & Hhl). simpl.
  assert (Hs1 : st_ok sec (UnitSt (us_tab s) c1)) by (split; [by eapply adv_in|done]).
  destruct pro as [pro|].
  - destruct Hfits as [Hw Hv]. specialize (Hhl pro eq_refl).
    wp_step. wp_step. cbv zeta. simpl. pose proof (uptr_range (up_header_len pro)).
    destruct Hc as [Hcp _]. assert (c_p (us_cur s) + 4 ≤ c_p c1) by apply Hadv.
    destruct Hsec. rewrite (uptr_small (_ + _)) by lia.
    wp_step; [by apply wp_fail|]. zify_bools.
    eapply wp_call; [apply unit_body_wp; [done|done|simpl; lia|lia]|done|].
    cbn beta. intros _ s' (Hs' & Hext & Hp). rewrite Hp. split_and!; [done|done|lia|eauto].
  - unfold move_to, on_cur. wp_steps. destruct Hs1 as [[Hc1 He1] _]. destruct Hc as [Hcp _].
    split_and!; [split; [split; simpl; [lia|done]|done]|done|simpl; lia|eauto].
Qed.
End unit_safety.

(** ** Properties *)

(** *** Concrete units *)

Definition bytes_of (l : list Z) : list byte := byte_of <$> l.

(** A 32-bit unit of a version before 5. *)
Definition unit_v4 (hdr prog : list byte) : list byte :=
  let body := le_bytes 2 4 ++ le_bytes 4 (Z.of_nat (length hdr)) ++ hdr ++ prog in
  le_bytes 4 (Z.of_nat (length body)) ++ body.

(** [min_inst] 1, [max_ops] 1, [line_base] -5, [line_range] 14, [opcode_base] 13. *)
Definition params_ex : list byte :=
  bytes_of [1; 1; 1; 251; 14; 13; 0; 1; 1; 1; 1; 0; 0; 0; 1; 0; 0; 1].

(** The file "a.c" in directory 1. *)
Definition name_ex : list byte := [x61; x2e; x63; x00; x01; x00; x00].

(** The directory "src" and the file. *)
Definition tables_ex : list byte := [x73; x72; x63; x00; x00] ++ name_ex ++ [x00].

(** Rows 4096, 4100 and 4104 with the lines 10, 11 and 10. *)
Definition prog_bytes_ex : list byte :=
  bytes_of [0; 9; 2; 0; 16; 0; 0; 0; 0; 0; 0; 3; 9; 1; 75; 2; 4; 3; 127; 1; 0; 1; 1].

Definition unit_ex : list byte := unit_v4 (params_ex ++ tables_ex) prog_bytes_ex.


