(* ===== verification/DwarfParse.v ===== *)
(** * Parsing the line section

    [bw_dwarf_tab_parse] of src/dwarf_line.c: the units one after the other,
    then the sort; with the theorems about the whole parser. *)

From S2P Require Import Prelude CMonad CMem Cursor Forms Search DwarfTab LineProgram LineUnit.

Section parse.
Context `{Platform} `{QSort} (line line_str debug_str : span).

(** [while (c.p < c.end) if (!bw_parse_unit(..)) break;] *)
Fixpoint parse_loop (fuel : nat) : M unit_st unit :=
  match fuel with
  | O => no_fuel
  | S fuel' =>
      let* s := get in
      if c_p (us_cur s) <? c_end (us_cur s) then
        let* ok := try (bw_parse_unit line line_str debug_str) in
        match ok with
        | None => ret tt
        | Some _ => parse_loop fuel'
        end
      else ret tt
  end.

Definition parse_cursor : bw_cur_t :=
  BwCur (sp_base line) (uptr (sp_base line + sp_len line)) 0.

Definition bw_dwarf_tab_parse (tab : option bw_dwarf_tab_t)
    : M unit (bool * option bw_dwarf_tab_t) :=
  match tab with
  | None => ret (false, None)
  | Some t =>
      if (sp_null line || (sp_len line =? 0))%bool then ret (false, Some t) else
      let* '(_, s) := with_local (parse_loop (sec_fuel line)) (UnitSt t parse_cursor) in
      let t := us_tab s in
      if nrow t =? 0 then ret (false, Some t) else ret (true, Some (sort_rows t))
  end.
End parse.

(** ** Safety and termination *)

Section safety.
Context `{Platform} `{QSort} (line line_str debug_str : span).

(** The addresses at which the parser finds a unit. *)
Inductive unit_at : Z → Prop :=
| unit_first : unit_at (sp_base line)
| unit_next a d e pro c :
    unit_at a →
    unit_prologue line (BwCur a (sp_end line) d) = Done (e, pro) c →
    unit_at e.

(** Every unit's header fits the section ([unit_fits]). *)
Definition section_fits : Prop :=
  ∀ a d, unit_at a → unit_fits line (BwCur a (sp_end line) d).

Context (Hline : span_ok line) (Hls : str_span_ok line_str) (Hds : str_span_ok debug_str).
Context (Hfits : section_fits).

Lemma parse_loop_wp fuel s :
  st_ok line s → unit_at (c_p (us_cur s)) →
  sp_end line - c_p (us_cur s) < Z.of_nat fuel →
  wp (overflow_in line) (λ _, False)
    (λ _ s', tab_ok (us_tab s') ∧ tab_ext (us_tab s) (us_tab s'))
    (parse_loop line line_str debug_str fuel s).
Proof using Hline Hls Hds Hfits.
  revert s. induction fuel as [|fuel IH]; intros s Hs Hu Hf.
  { destruct Hs as [[[] _] _]. lia. }
  simpl. wp_step. wp_step. wp_step; [|apply wp_ret; split; [apply Hs|done]].
  wp_step. wp_step.
  assert (Hcur : us_cur s = BwCur (c_p (us_cur s)) (sp_end line) (c_dwarf64 (us_cur s))).
  { destruct Hs as [[_ <-] _]. by destruct (us_cur s). }
  eapply wp_call; [apply (bw_parse_unit_wp line Hline _ _ Hls Hds)| |]; cbn beta.
  - done.
  - rewrite Hcur. by apply Hfits.
  - intros s' Hs'. by apply wp_ret.
  - intros _ s' (Hs' & Hext & Hadv & pro & c & Hpro).
    eapply wp_call; [apply IH; [done| |lia]|done|].
    + rewrite Hcur in Hpro. eapply unit_next; [exact Hu|exact Hpro].
    + cbn beta. intros _ s'' [? ?]. split; [done|by etransitivity].
Qed.

Lemma parse_cursor_in : cur_in line (parse_cursor line).
Proof using Hline.
  destruct Hline. pose proof (sp_len_nonneg line). unfold cur_in, parse_cursor; simpl.
  fold (sp_end line). rewrite uptr_small by (unfold sp_end in *; lia).
  unfold sp_end in *. lia.
Qed.

Lemma bw_dwarf_tab_parse_wp t :
  tab_ok t →
  wp (overflow_in line) (λ _, False)
    (λ '(ok, t') _, ∃ t'', t' = Some t'' ∧ tab_ok t'' ∧
       if ok : bool then rows_sorted t'' ∧ 0 < nrow t''
       else nrow t'' = 0 ∨ t'' = t)
    (bw_dwarf_tab_parse line line_str debug_str (Some t) tt).
Proof using Hline Hls Hds Hfits.
  intros Ht. unfold bw_dwarf_tab_parse. wp_step; [by apply wp_ret; eauto|].
  wp_step. apply wp_with_local.
  eapply wp_call; [apply parse_loop_wp| |]; cbn beta.
  - split; [apply parse_cursor_in|done].
  - constructor.
  - unfold sec_fuel, parse_cursor, sp_end, sp_len; simpl. lia.
  - intros s' [].
  - intros _ s' [Ht' _]. cbn beta iota. wp_steps; zify_bools; apply wp_ret || idtac.
    + eexists. split_and!; [done|done|by left].
    + destruct (tab_nrow_ok _ Ht') as [Hn _]. eexists. split_and!; [done|by apply sort_rows_ok| |].
      * by apply sort_rows_sorted.
      * simpl. lia.
Qed.
End safety.

(** ** Properties *)


(** The section of one unit. *)
Definition section_ex : span := Span 4096 (unit_ex ++ [x00]).

Lemma section_ex_units a : unit_at (H:=plat64) section_ex a → a = 4096 ∨ a = 4160.
Proof.
  induction 1 as [|a d e pro c _ IH Hpro]; [by left|].
  destruct IH as [-> | ->]; vm_compute in Hpro; [|discriminate].
  right. congruence.
Qed.

Lemma section_ex_fits : section_fits (H:=plat64) section_ex.
Proof.
  intros a d [-> | ->]%section_ex_units; vm_compute; [|done].
  split; [reflexivity|by right].
Qed.

