(* ===== verification/LineSpec.v ===== *)
(** * The abstract line machine

    The line-number state machine of the DWARF standard, over unbounded
    integers and a list of decoded instructions, and the refinement that the
    opcode loop of [bw_parse_unit] implements it: on the encoding of a program
    whose registers stay in range, [program_loop] appends to the table exactly
    the rows the abstract machine produces, as far as the table admits them. *)

From S2P Require Import Prelude CMonad CMem Cursor Leb128 Decode Forms DwarfTab LineProgram.

(** ** Instructions and their meaning *)

Inductive insn :=
| ISpecial (op : Z)
| ICopy
| IAdvancePc (n : Z)
| IAdvanceLine (d : Z)
| ISetFile (f : Z)
| IConstAddPc
| IFixedAdvancePc (d : Z)
| IStandard (op : Z) (args : list Z)       (** a standard opcode the machine skips *)
| IEndSequence
| ISetAddress (a : Z)
| IExtended (ext : Z) (body : list byte).  (** an extended opcode the machine skips *)

(** The registers of the machine that matter to the table. *)
Record lm_state := Lm { l_addr : Z; l_opidx : Z; l_file : Z; l_line : Z }.

(** A row the machine appends; [true] marks the end of a sequence. *)
Record lm_row := LmRow { lr_addr : Z; lr_file : Z; lr_line : Z; lr_end : bool }.

Definition lm_init : lm_state := Lm 0 0 1 1.

Definition row_of (e : bool) (s : lm_state) : lm_row := LmRow (l_addr s) (l_file s) (l_line s) e.

(** The operation advance of the standard, for a machine with [h_max_ops]
    operations per instruction. *)
Definition lm_advance (h : line_hdr) (n : Z) (s : lm_state) : lm_state :=
  Lm (l_addr s + h_min_inst h * ((l_opidx s + n) / h_max_ops h))
     ((l_opidx s + n) mod h_max_ops h) (l_file s) (l_line s).

Definition lm_add_line (d : Z) (s : lm_state) : lm_state :=
  Lm (l_addr s) (l_opidx s) (l_file s) (l_line s + d).

(** One instruction: the next registers and the rows appended. *)
Definition lm_step (h : line_hdr) (i : insn) (s : lm_state) : lm_state * list lm_row :=
  match i with
  | ISpecial op =>
      let adj := op - h_opcode_base h in
      let s' := lm_advance h (adj / h_line_range h)
                  (lm_add_line (h_line_base h + adj mod h_line_range h) s) in
      (s', [row_of false s'])
  | ICopy => (s, [row_of false s])
  | IAdvancePc n => (lm_advance h n s, [])
  | IAdvanceLine d => (lm_add_line d s, [])
  | ISetFile f => (Lm (l_addr s) (l_opidx s) f (l_line s), [])
  | IConstAddPc => (lm_advance h ((255 - h_opcode_base h) / h_line_range h) s, [])
  | IFixedAdvancePc d => (Lm (l_addr s + d) 0 (l_file s) (l_line s), [])
  | IStandard _ _ => (s, [])
  | IEndSequence => (lm_init, [row_of true s])
  | ISetAddress a => (Lm a 0 (l_file s) (l_line s), [])
  | IExtended _ _ => (s, [])
  end.

Fixpoint lm_run (h : line_hdr) (p : list insn) (s : lm_state) : list lm_row :=
  match p with
  | [] => []
  | i :: p => (lm_step h i s).2 ++ lm_run h p (lm_step h i s).1
  end.

(** ** Encoding *)

Definition ext_encode (ext : Z) (body : list byte) : list byte :=
  [byte_of 0] ++ uleb_encode (Z.of_nat (S (length body))) ++ [byte_of ext] ++ body.

Definition insn_encode (h : line_hdr) (i : insn) : list byte :=
  match i with
  | ISpecial op => [byte_of op]
  | ICopy => [byte_of BW_LNS_COPY]
  | IAdvancePc n => [byte_of BW_LNS_ADVANCE_PC] ++ uleb_encode n
  | IAdvanceLine d => [byte_of BW_LNS_ADVANCE_LINE] ++ sleb_encode d
  | ISetFile f => [byte_of BW_LNS_SET_FILE] ++ uleb_encode f
  | IConstAddPc => [byte_of BW_LNS_CONST_ADD_PC]
  | IFixedAdvancePc d => [byte_of BW_LNS_FIXED_ADVANCE_PC] ++ le_bytes 2 d
  | IStandard op args => [byte_of op] ++ concat (uleb_encode <$> args)
  | IEndSequence => ext_encode BW_LNE_END_SEQUENCE []
  | ISetAddress a => ext_encode BW_LNE_SET_ADDRESS (le_bytes (Z.to_nat (h_addr_size h)) a)
  | IExtended ext body => ext_encode ext body
  end.

Definition prog_encode (h : line_hdr) (p : list insn) : list byte :=
  concat (insn_encode h <$> p).

(** ** Programs whose registers stay in range *)

Record hdr_wf (h : line_hdr) : Prop := {
  wf_min_inst : 0 < h_min_inst h < 256;
  wf_max_ops : 0 < h_max_ops h < 256;
  wf_line_base : -128 ≤ h_line_base h < 128;
  wf_line_range : 0 < h_line_range h < 256;
  wf_opcode_base : 0 < h_opcode_base h < 256;
}.

(** A standard opcode the loop does not interpret. *)
Definition other_standard (op : Z) : Prop :=
  op ≠ BW_LNS_COPY ∧ op ≠ BW_LNS_ADVANCE_PC ∧ op ≠ BW_LNS_ADVANCE_LINE ∧
  op ≠ BW_LNS_SET_FILE ∧ op ≠ BW_LNS_CONST_ADD_PC ∧ op ≠ BW_LNS_FIXED_ADVANCE_PC.

(** The operands have encodings, and the opcode is a standard one in this
    header. *)
Definition insn_wf (h : line_hdr) (i : insn) : Prop :=
  match i with
  | ISpecial op => h_opcode_base h ≤ op < 256
  | ICopy => BW_LNS_COPY < h_opcode_base h
  | IAdvancePc n => BW_LNS_ADVANCE_PC < h_opcode_base h ∧ 0 ≤ n < 2 ^ 64 - 256
  | IAdvanceLine d => BW_LNS_ADVANCE_LINE < h_opcode_base h ∧ - 2 ^ 63 ≤ d < 2 ^ 63
  | ISetFile f => BW_LNS_SET_FILE < h_opcode_base h ∧ 0 ≤ f < 2 ^ 64
  | IConstAddPc => BW_LNS_CONST_ADD_PC < h_opcode_base h
  | IFixedAdvancePc d => BW_LNS_FIXED_ADVANCE_PC < h_opcode_base h ∧ 0 ≤ d < 2 ^ 16
  | IStandard op args =>
      0 < op < h_opcode_base h ∧ other_standard op ∧
      default 0 (h_std_len h !! op) = Z.of_nat (length args) ∧
      Forall (λ a, 0 ≤ a < 2 ^ 64) args
  | IEndSequence => True
  | ISetAddress a =>
      (h_addr_size h = 4 ∧ 0 ≤ a < 2 ^ 32) ∨ (h_addr_size h = 8 ∧ 0 ≤ a < 2 ^ 64)
  | IExtended ext _ => 0 ≤ ext < 256 ∧ ext ≠ BW_LNE_END_SEQUENCE ∧ ext ≠ BW_LNE_SET_ADDRESS
  end.

Section refinement.
Context `{Platform} (sec : span) (Hsec : span_ok sec).

(** Registers the code's machine words can hold. *)
Definition lm_fits (h : line_hdr) (s : lm_state) : Prop :=
  0 ≤ l_addr s < ptr_mod ∧ 0 ≤ l_opidx s < h_max_ops h ∧ 0 ≤ l_file s ∧
  0 ≤ l_line s < 2 ^ 63.

Fixpoint prog_fits (h : line_hdr) (p : list insn) (s : lm_state) : Prop :=
  lm_fits h s ∧
  match p with
  | [] => True
  | i :: p => insn_wf h i ∧ prog_fits h p (lm_step h i s).1
  end.

(** The abstraction: the code's registers for an abstract state. *)
Definition regs_of (h : line_hdr) (s : lm_state) : line_regs :=
  Regs (l_addr s) (l_opidx s) (l_file s) (l_line s) (h_def_stmt h).

(** ** What the table makes of the machine's rows

    A row of an end of sequence, of a file outside the file table or without
    a name, of address 0, of line 0 or of a line beyond 32 bits is dropped;
    so is everything beyond the capacity of the table. *)
Definition table_row (files : file_tab) (r : lm_row) : option bw_dwarf_row_t :=
  let off := default (-1) (f_off files !! lr_file r) in
  if (negb (lr_end r) && (lr_file r <? f_count files) && (0 <=? off) &&
      negb (lr_addr r =? 0) && negb (lr_line r =? 0) && (lr_line r <=? 0xffffffff))%bool
  then Some (Row (lr_addr r) off (lr_line r))
  else None.

Definition table_rows (files : file_tab) (l : list lm_row) : list bw_dwarf_row_t :=
  omap (table_row files) l.

(** [t'] is [t] with as many of [rs] as fit. *)
Definition appends (t : bw_dwarf_tab_t) (rs : list bw_dwarf_row_t) (t' : bw_dwarf_tab_t) : Prop :=
  tab_rows t' = tab_rows t ++ take (Z.to_nat (BW_DWARF_ROW_MAX - nrow t)) rs ∧
  0 ≤ nrow t' ≤ BW_DWARF_ROW_MAX ∧ strs t' = strs t ∧ nstr t' = nstr t.

Lemma appends_nil t : 0 ≤ nrow t ≤ BW_DWARF_ROW_MAX → appends t [] t.
Proof. intros. split_and!; [by rewrite take_nil, app_nil_r|lia|lia|done|done]. Qed.

Lemma appends_nrow t rs t' :
  0 ≤ nrow t → appends t rs t' →
  nrow t' = nrow t + Z.of_nat (length (take (Z.to_nat (BW_DWARF_ROW_MAX - nrow t)) rs)).
Proof.
  intros Hn (E & Hn' & _). rewrite <- (length_tab_rows t'), E, length_app by lia.
  rewrite <- (length_tab_rows t) at 2 by lia. lia.
Qed.

Lemma appends_trans t1 rs1 t2 rs2 t3 :
  0 ≤ nrow t1 → appends t1 rs1 t2 → appends t2 rs2 t3 → appends t1 (rs1 ++ rs2) t3.
Proof.
  intros Hn H1 H2. pose proof (appends_nrow _ _ _ Hn H1) as Hn2.
  destruct H1 as (E1 & Hb2 & S1 & N1), H2 as (E2 & Hb3 & S2 & N2).
  split_and!; [|lia|lia|congruence|congruence].
  rewrite E2, E1, <- app_assoc, take_app. do 3 f_equal.
  rewrite Hn2, length_take. lia.
Qed.

(** ** The simulation *)

(** From a cursor on [l], [m] moves past [l], returns [o] and appends [rs]. *)
Definition lsteps (l : list byte) (o : option line_regs) (rs : list bw_dwarf_row_t)
    (t : bw_dwarf_tab_t) (m : M unit_st (option line_regs)) : Prop :=
  ∀ c tl, cur_in sec c → rest sec c = l ++ tl →
    ∃ t', m (UnitSt t c) = Done o (UnitSt t' (advance (Z.of_nat (length l)) c)) ∧
          appends t rs t'.

Lemma lsteps_ret o t :
  0 ≤ nrow t ≤ BW_DWARF_ROW_MAX → lsteps [] o [] t (ret o).
Proof using Hsec.
  intros Hn c tl Hc _. exists t. simpl. rewrite (advance_0 sec Hsec) by done.
  split; [done|by apply appends_nil].
Qed.

Lemma or_break_parses {A} l (a : A) m k t c tl :
  parses sec l a m → cur_in sec c → rest sec c = l ++ tl →
  or_break m k (UnitSt t c) = k a (UnitSt t (advance (Z.of_nat (length l)) c)).
Proof. intros Hm Hc E. unfold or_break, bind, try, on_cur, zoom. simpl. by rewrite (Hm c tl). Qed.

Lemma lsteps_break {A} l1 l2 (a : A) o rs t m k :
  parses sec l1 a m → lsteps l2 o rs t (k a) → lsteps (l1 ++ l2) o rs t (or_break m k).
Proof using Hsec.
  intros Hm Hk c tl Hc E. rewrite <- app_assoc in E.
  rewrite (or_break_parses l1 a m k t c (l2 ++ tl)) by done.
  destruct (rest_app sec Hsec c l1 (l2 ++ tl) Hc E) as (Hc1 & E1 & _).
  destruct (Hk _ tl Hc1 E1) as (t' & -> & Ha). exists t'. split; [|done].
  do 2 f_equal. by eapply (advance_app sec Hsec).
Qed.

(** A last read, whose result only goes into the registers. *)
Lemma lsteps_read {A} l (a : A) (f : A → line_regs) t m :
  0 ≤ nrow t ≤ BW_DWARF_ROW_MAX → parses sec l a m →
  lsteps l (Some (f a)) [] t (or_break m (λ a, ret (Some (f a)))).
Proof using Hsec.
  intros Hn Hm. rewrite <- (app_nil_r l).
  apply (lsteps_break _ _ a); [done|by apply lsteps_ret].
Qed.

Context (h : line_hdr) (Hh : hdr_wf h).

Lemma advance_ops_of n s :
  0 ≤ n < 2 ^ 64 - 256 → 0 ≤ l_addr s → 0 ≤ l_opidx s < h_max_ops h →
  l_addr (lm_advance h n s) < ptr_mod →
  advance_ops h n (regs_of h s) = regs_of h (lm_advance h n s).
Proof using Hh.
  intros Hn Ha Hi Ha'. destruct Hh as [Hmi Hmo _ _ _]. unfold advance_ops, regs_of; simpl in *.
  rewrite u64_small by lia.
  assert (0 ≤ (l_opidx s + n) / h_max_ops h) by (apply Z.div_pos; lia).
  assert ((l_opidx s + n) / h_max_ops h ≤
          h_min_inst h * ((l_opidx s + n) / h_max_ops h)) by nia.
  rewrite (uptr_small (_ / _)) by lia. rewrite (uptr_small (_ * _)), uptr_small by lia. done.
Qed.

Lemma op_advance_range op :
  h_opcode_base h ≤ op < 256 → 0 ≤ op_advance_of h op < 2 ^ 64 - 256.
Proof using Hh.
  intros Hop. destruct Hh as [_ _ _ Hlr Hob]. unfold op_advance_of. split; [apply Z.div_pos; lia|].
  apply Z.div_lt_upper_bound; nia.
Qed.

Lemma add_s64_ok {S} a b (s : S) :
  - 2 ^ 63 ≤ a + b < 2 ^ 63 → add_s64 a b s = Done (a + b) s.
Proof.
  intros Hab. unfold add_s64. case_if; [done|]. apply andb_false_iff in E as [E|E]; zify_bools; lia.
Qed.

Context (files : file_tab) (t : bw_dwarf_tab_t) (Hn : 0 ≤ nrow t ≤ BW_DWARF_ROW_MAX).
Context (Hfiles : files_ok files t).

(** Emitting the current row. *)
Lemma emit_row_eq s c :
  lm_fits h s →
  ∃ t', emit_row files (regs_of h s) (UnitSt t c) = Done tt (UnitSt t' c) ∧
        appends t (table_rows files [row_of false s]) t'.
Proof using Hn Hfiles.
  intros (Ha & _ & Hf & Hl). destruct Hfiles as [Hc Ho].
  assert (Hsm : BW_DWARF_STR_MAX = 262144) by done.
  unfold emit_row, table_rows, regs_of; simpl. unfold table_row; cbn [row_of lr_addr lr_file lr_line lr_end].
  destruct (Z.ltb_spec (l_file s) (f_count files)); cbn [negb andb].
  2:{ exists t. split; [done|by apply appends_nil]. }
  unfold bind, arr_load0. rewrite (proj2 (in_bounds_true _ _)) by lia. cbn [ret].
  set (off := default (-1) (f_off files !! l_file s)).
  assert (Hoff : off = -1 ∨ 0 ≤ off < BW_DWARF_STR_MAX)
    by (destruct (Ho (l_file s)) as [?|[? _]]; auto).
  unfold on_tab, zoom; cbn [us_tab].
  destruct (bw_emit_eq t (l_addr s) off (l_line s)) as (t' & -> & Hr & Hnr & Hs & Hns);
    [done|lia|lia|].
  exists t'. split; [done|].
  assert (Hdrop : tab_rows t' = tab_rows t → nrow t' = nrow t → appends t [] t').
  { intros. split_and!; [by rewrite take_nil, app_nil_r|lia|lia|done|done]. }
  revert Hr Hnr. unfold emit_guard.
  destruct (Z.leb_spec BW_DWARF_ROW_MAX (nrow t)) as [Hfull|Hfull]; cbn [orb].
  { intros Hr Hnr. split_and!; [|lia|lia|done|done].
    replace (Z.to_nat (BW_DWARF_ROW_MAX - nrow t)) with 0%nat by lia.
    by rewrite take_0, app_nil_r. }
  rewrite (Z.ltb_antisym 0 off), (Z.ltb_antisym (l_line s) 0xffffffff).
  destruct (Z.leb_spec 0 off), (Z.leb_spec (l_line s) 0xffffffff), (Z.eqb_spec (l_addr s) 0),
    (Z.eqb_spec (l_line s) 0); cbn [orb andb negb]; try by apply Hdrop.
  intros Hr Hnr. split_and!; [|lia|lia|done|done]. rewrite Hr. f_equal.
  rewrite take_ge; [done|simpl; lia].
Qed.

(** What an extended opcode with operands [body] does to the registers. *)
Definition ext_effect (ext : Z) (body : list byte) (r r' : line_regs) : Prop :=
  (ext = BW_LNE_END_SEQUENCE ∧ r' = regs_init h) ∨
  (ext = BW_LNE_SET_ADDRESS ∧
     ∃ a, (h_addr_size h = 4 ∧ 0 ≤ a < 2 ^ 32 ∧ body = le_bytes 4 a ∨
           h_addr_size h = 8 ∧ 0 ≤ a < 2 ^ 64 ∧ body = le_bytes 8 a) ∧
          r' = set_address (uptr a) r) ∨
  (ext ≠ BW_LNE_END_SEQUENCE ∧ ext ≠ BW_LNE_SET_ADDRESS ∧ r' = r).

(** The common shape of the extended opcodes: whatever the operands' reader
    consumes, the loop goes on at [insn_end]. *)
Lemma ext_encode_eq r r' ext body c tl :
  cur_in sec c → rest sec c = (uleb_encode (Z.of_nat (S (length body))) ++ [byte_of ext] ++ body) ++ tl →
  0 ≤ ext < 256 →
  ext_effect ext body r r' →
  extended_op sec h r (UnitSt t c) =
  Done (Some r') (UnitSt t (advance (Z.of_nat (length
    (uleb_encode (Z.of_nat (S (length body))) ++ [byte_of ext] ++ body))) c)).
Proof using Hsec.
  intros Hc E Hext Hr. rewrite <- !app_assoc in E. unfold extended_op.
  destruct (rest_app sec Hsec c _ _ Hc E) as (Hc1 & E1 & P1 & L1).
  pose proof (length_rest sec _ Hc1) as Hl1. rewrite E1, !length_app in Hl1. cbn [length] in Hl1.
  pose proof ptr_mod_bounds as Hpm. destruct Hsec as [Hb He].
  assert (Hlen : Z.of_nat (S (length body)) < ptr_mod) by (destruct Hc1; lia).
  assert (Hlen64 : 0 ≤ Z.of_nat (S (length body)) < 2 ^ 64) by lia.
  rewrite (or_break_parses _ _ _ _ _ c _ (parses_uleb sec Hsec _ Hlen64) Hc E).
  set (c1 := advance _ c) in *. unfold bind at 1, get. cbn [us_cur].
  rewrite (uptr_small (Z.of_nat _)) by lia.
  assert (Hok : bw_cur_ok c1 (Z.of_nat (S (length body))) = true)
    by (apply (cur_ok_iff sec Hsec); [done|lia|lia]).
  rewrite Hok. rewrite (proj2 (Z.eqb_neq _ _)) by lia. cbn [negb orb].
  rewrite uptr_small by (destruct Hc1; lia).
  destruct (rest_app sec Hsec c1 [byte_of ext] _ Hc1 E1) as (Hc2 & E2 & P2 & L2).
  rewrite (or_break_parses _ _ _ _ _ c1 _ (parses_u8 sec Hsec _ Hext) Hc1 E1).
  set (c2 := advance (Z.of_nat (length [byte_of ext])) c1) in *.
  assert (Hce : c_end c2 = c_end c ∧ c_dwarf64 c2 = c_dwarf64 c) by done.
  clearbody c1 c2. destruct Hce as [Hce Hcd].
  assert (Hmove : ∀ n (r'' : line_regs), (do* move_to (c_p c1 + Z.of_nat (S (length body))) in ret (Some r''))
    (UnitSt t (advance n c2)) = Done (Some r'') (UnitSt t (advance (Z.of_nat (length
    (uleb_encode (Z.of_nat (S (length body))) ++ [byte_of ext] ++ body))) c))).
  { intros n r''. unfold move_to, on_cur, zoom, bind, get, put, ret; simpl. do 2 f_equal.
    unfold advance, set_p; simpl. rewrite Hce, Hcd. f_equal. rewrite P1, !length_app.
    destruct Hc. cbn [length]. rewrite uptr_small by lia. lia. }
  assert (Hmove0 : ∀ r'' : line_regs, (do* move_to (c_p c1 + Z.of_nat (S (length body))) in ret (Some r''))
    (UnitSt t c2) = Done (Some r'') (UnitSt t (advance (Z.of_nat (length
    (uleb_encode (Z.of_nat (S (length body))) ++ [byte_of ext] ++ body))) c))).
  { intros r''. rewrite <- (advance_0 sec Hsec c2) by done. apply Hmove. }
  destruct Hr as [[-> ->]|[(-> & a & Ha & ->)|(H1 & H2 & ->)]].
  - apply Hmove0.
  - change (BW_LNE_SET_ADDRESS =? BW_LNE_END_SEQUENCE) with false. rewrite Z.eqb_refl.
    destruct Ha as [(-> & Ha & ->)|(-> & Ha & ->)].
    + change (4 =? 8) with false. change (4 =? 4) with true. cbv iota.
      rewrite (or_break_parses _ _ _ _ _ c2 _ (parses_u32 sec Hsec _ Ha) Hc2 E2). apply Hmove.
    + change (8 =? 8) with true. cbv iota.
      rewrite (or_break_parses _ _ _ _ _ c2 _ (parses_u64 sec Hsec _ Ha) Hc2 E2). apply Hmove.
  - rewrite (proj2 (Z.eqb_neq _ _) H1), (proj2 (Z.eqb_neq _ _) H2). apply Hmove0.
Qed.

Lemma skip_args_eq args c tl t0 :
  Forall (λ a, 0 ≤ a < 2 ^ 64) args → cur_in sec c →
  rest sec c = concat (uleb_encode <$> args) ++ tl →
  skip_args sec (length args) (UnitSt t0 c) =
  Done tt (UnitSt t0 (advance (Z.of_nat (length (concat (uleb_encode <$> args)))) c)).
Proof using Hsec.
  revert c. induction args as [|a args IH]; intros c Ha Hc E.
  { cbn [length skip_args concat fmap list_fmap]. by rewrite (advance_0 sec Hsec). }
  apply Forall_cons in Ha as [Ha Hargs]. cbn [fmap list_fmap concat length] in *.
  rewrite <- app_assoc in E. cbn [skip_args].
  unfold bind, try, on_cur, zoom; cbn [us_cur us_tab].
  rewrite (parses_uleb sec Hsec a Ha c _ Hc E).
  destruct (rest_app sec Hsec c _ _ Hc E) as (Hc1 & E1 & _).
  rewrite (IH _ Hargs Hc1 E1). do 2 f_equal. by eapply (advance_app sec Hsec).
Qed.


Lemma lsteps_pure l (m : M unit_st (option line_regs)) r :
  (∀ c tl, cur_in sec c → rest sec c = l ++ tl →
     m (UnitSt t c) = Done (Some r) (UnitSt t (advance (Z.of_nat (length l)) c))) →
  lsteps l (Some r) [] t m.
Proof using Hn.
  intros Hm c tl Hc E. exists t. split; [by eapply Hm|by apply appends_nil].
Qed.

Lemma extended_step ext body r r' :
  0 ≤ ext < 256 → ext_effect ext body r r' →
  lsteps (ext_encode ext body) (Some r') [] t (line_step sec h files r).
Proof using Hsec Hn.
  intros Hext Hr. unfold ext_encode, line_step.
  apply (lsteps_break _ _ 0); [by apply (parses_u8 sec Hsec 0)|].
  apply lsteps_pure. intros c tl Hc E. by apply (ext_encode_eq _ _ _ _ _ tl).
Qed.

(** An interpreted standard opcode with an operand. *)
Lemma operand_step {A} op l (a : A) (f : A → line_regs) r m :
  0 < op < h_opcode_base h → parses sec l a m →
  line_opcode sec h files op r = or_break m (λ a, ret (Some (f a))) →
  lsteps ([byte_of op] ++ l) (Some (f a)) [] t (line_step sec h files r).
Proof using Hsec Hh Hn.
  intros Hop Hm E. pose proof (wf_opcode_base h Hh). unfold line_step.
  apply (lsteps_break _ _ op); [apply (parses_u8 sec Hsec); lia|].
  rewrite E. by apply lsteps_read.
Qed.

(** An opcode that emits the row of [s]. *)
Lemma emit_step op r s :
  0 ≤ op < 256 → lm_fits h s →
  (∀ st, line_opcode sec h files op r st =
         (do* emit_row files (regs_of h s) in ret (Some (regs_of h s))) st) →
  lsteps [byte_of op] (Some (regs_of h s)) (table_rows files [row_of false s]) t
    (line_step sec h files r).
Proof using Hsec Hn Hfiles.
  intros Hop Hs E. unfold line_step. change [byte_of op] with ([byte_of op] ++ []).
  apply (lsteps_break _ _ op); [by apply (parses_u8 sec Hsec)|].
  intros c tl Hc _. rewrite E. unfold bind. simpl.
  destruct (emit_row_eq s c Hs) as (t' & -> & Ht'). exists t'.
  split; [|done]. by rewrite (advance_0 sec Hsec).
Qed.

Ltac lns_consts :=
  unfold other_standard, BW_LNS_COPY, BW_LNS_ADVANCE_PC, BW_LNS_ADVANCE_LINE, BW_LNS_SET_FILE,
    BW_LNS_CONST_ADD_PC, BW_LNS_FIXED_ADVANCE_PC in *.

(** Resolve the tests of [line_opcode] on a known opcode. *)
Ltac opcode_is :=
  unfold line_opcode; lns_consts;
  repeat match goal with
  | |- context [?a =? ?b] =>
      first [rewrite (proj2 (Z.eqb_neq a b)) by lia | rewrite (proj2 (Z.eqb_eq a b)) by lia]
  | |- context [?a <=? ?b] =>
      first [rewrite (proj2 (Z.leb_gt a b)) by lia | rewrite (proj2 (Z.leb_le a b)) by lia]
  end.

Lemma special_step op s :
  lm_fits h s → lm_fits h (lm_step h (ISpecial op) s).1 → h_opcode_base h ≤ op < 256 →
  lsteps [byte_of op] (Some (regs_of h (lm_step h (ISpecial op) s).1))
    (table_rows files (lm_step h (ISpecial op) s).2) t (line_step sec h files (regs_of h s)).
Proof using Hsec Hh Hn Hfiles.
  intros Hs Hs' Hop. destruct (id Hs) as (Ha & Hi & Hf & Hl). pose proof Hh as [Hmi Hmo Hlb Hlr Hob].
  apply emit_step; [lia|done|]. intros st. opcode_is.
  pose proof (Z.mod_pos_bound (op - h_opcode_base h) (h_line_range h) ltac:(lia)) as Hm.
  destruct Hs' as (Ha' & _ & _ & Hl'). simpl in Ha', Hl'.
  unfold special_op, bind at 1 2 3. rewrite sext_nonneg by (simpl; lia).
  cbn [regs_of r_line]. rewrite add_s64_ok by lia. rewrite add_s64_ok by lia. cbv zeta.
  rewrite u64_small by lia.
  assert (E : advance_ops h (op_advance_of h op)
    (set_line (l_line s + h_line_base h + (op - h_opcode_base h) mod h_line_range h)
       (regs_of h s)) = regs_of h (lm_step h (ISpecial op) s).1).
  { change (lm_step h (ISpecial op) s).1 with (lm_advance h (op_advance_of h op)
      (lm_add_line (h_line_base h + (op - h_opcode_base h) mod h_line_range h) s)).
    rewrite <- (advance_ops_of (op_advance_of h op)); [|by apply op_advance_range|simpl; lia|simpl; lia|exact (proj2 Ha')].
    f_equal. unfold set_line, regs_of; simpl. f_equal. lia. }
  rewrite E. unfold bind. by destruct (emit_row _ _ st).
Qed.

Lemma standard_step op args s :
  insn_wf h (IStandard op args) →
  lsteps (insn_encode h (IStandard op args)) (Some (regs_of h s)) [] t
    (line_step sec h files (regs_of h s)).
Proof using Hsec Hh Hn.
  intros (Hop & Hother & Hlen & Hargs). pose proof Hh as [_ _ _ _ Hob].
  simpl. unfold line_step.
  apply (lsteps_break [byte_of op] _ op); [apply (parses_u8 sec Hsec); lia|].
  apply lsteps_pure. intros c tl Hc E.
  destruct Hother as (H1 & H2 & H3 & H4 & H5 & H6). opcode_is.
  unfold bind, arr_load0. rewrite (proj2 (in_bounds_true _ _)) by lia. cbn [ret].
  rewrite Hlen, Nat2Z.id, (skip_args_eq args c tl) by done. done.
Qed.

(** Each branch of the loop body implements its instruction. *)
Lemma insn_step_eq i s :
  lm_fits h s → lm_fits h (lm_step h i s).1 → insn_wf h i →
  lsteps (insn_encode h i) (Some (regs_of h (lm_step h i s).1))
    (table_rows files (lm_step h i s).2) t (line_step sec h files (regs_of h s)).
Proof using Hsec Hh Hn Hfiles.
  intros Hs Hs' Hw. pose proof (wf_opcode_base h Hh) as Hob.
  pose proof (wf_line_range h Hh) as Hlr.
  destruct (id Hs) as (Ha & Hi & Hf & Hl). destruct (id Hs') as (Ha' & Hi' & Hf' & Hl').
  destruct i as [op| |n|d|f| |d|op args| |a|ext body]; cbn [insn_wf] in Hw; lns_consts.
  - by apply special_step.
  - apply emit_step; [done|done|]. intros st. opcode_is. done.
  - destruct Hw as [Hb Hw]. cbn [lm_step fst snd] in *.
    rewrite <- advance_ops_of by (done || lia).
    eapply (operand_step 2 _ n (λ n, advance_ops h n (regs_of h s)));
      [lia|apply (parses_uleb sec Hsec); lia|opcode_is; done].
  - destruct Hw as [Hb Hw]. cbn [lm_step fst snd] in *. unfold line_step.
    apply (lsteps_break [byte_of 3] _ 3); [by apply (parses_u8 sec Hsec)|]. opcode_is.
    rewrite <- (app_nil_r (sleb_encode d)).
    apply (lsteps_break _ _ d); [by apply (parses_sleb sec Hsec)|].
    cbn [regs_of r_line]. rewrite sext_nonneg by (simpl; lia). simpl in Hl'.
    intros c tl Hc E. unfold bind. rewrite add_s64_ok, u64_small by lia.
    by apply (lsteps_ret (Some (regs_of h (lm_add_line d s))) t Hn c tl).
  - destruct Hw as [Hb Hw].
    eapply (operand_step 4 _ f (λ f, set_file f (regs_of h s)));
      [lia|by apply (parses_uleb sec Hsec)|opcode_is; done].
  - cbn [lm_step fst snd] in *.
    assert (h_opcode_base h ≤ 255 < 256) by lia.
    rewrite <- advance_ops_of by (by apply (op_advance_range 255) || lia). unfold line_step.
    apply (lsteps_break [byte_of 8] [] 8); [by apply (parses_u8 sec Hsec)|]. opcode_is.
    by apply lsteps_ret.
  - destruct Hw as [Hb Hw]. cbn [lm_step fst snd] in *. simpl in Ha'.
    replace (regs_of h (Lm (l_addr s + d) 0 (l_file s) (l_line s)))
      with (set_address (uptr (r_address (regs_of h s) + d)) (regs_of h s))
      by (unfold set_address, regs_of; simpl; by rewrite uptr_small).
    eapply (operand_step 9 _ d (λ d, set_address (uptr (r_address (regs_of h s) + d)) (regs_of h s)));
      [lia|by apply (parses_u16 sec Hsec)|opcode_is; done].
  - by apply standard_step.
  - by apply extended_step; [done|left].
  - apply extended_step; [done|right; left]. split; [done|]. exists a. simpl in *.
    rewrite uptr_small by done. split; [|done].
    destruct Hw as [[E ?]|[E ?]]; rewrite E; auto.
  - destruct Hw as (He & H1 & H2). by apply extended_step; [done|right; right].
Qed.
End refinement.

(** ** Whole programs *)

Section program_refinement.
Context `{Platform} (sec : span) (Hsec : span_ok sec).
Context (h : line_hdr) (Hh : hdr_wf h) (files : file_tab).

Lemma length_insn_encode i : (0 < length (insn_encode h i))%nat.
Proof. destruct i; cbn [insn_encode ext_encode app length]; lia. Qed.

Lemma length_prog_encode p : (length p ≤ length (prog_encode h p))%nat.
Proof.
  unfold prog_encode. induction p as [|i p IH]; cbn [fmap list_fmap concat length] in *; [lia|].
  rewrite length_app. pose proof (length_insn_encode i). lia.
Qed.

Lemma appends_files t rs t' : appends t rs t' → files_ok files t → files_ok files t'.
Proof.
  intros (_ & _ & Hs & Hn) [Hc Ho]. split; [done|]. intros i. specialize (Ho i).
  unfold off_ok, str_at in *. by rewrite Hs, Hn.
Qed.

Lemma table_rows_app l1 l2 : table_rows files (l1 ++ l2) = table_rows files l1 ++ table_rows files l2.
Proof. apply omap_app. Qed.

Lemma program_loop_eq p fuel s t c tl :
  0 ≤ nrow t ≤ BW_DWARF_ROW_MAX → files_ok files t → prog_fits h p s →
  cur_in sec c → rest sec c = prog_encode h p ++ tl → (length p < fuel)%nat →
  ∃ t', program_loop sec h files fuel (c_p c + Z.of_nat (length (prog_encode h p)))
          (regs_of h s) (UnitSt t c) =
        Done tt (UnitSt t' (advance (Z.of_nat (length (prog_encode h p))) c)) ∧
        appends t (table_rows files (lm_run h p s)) t'.
Proof using Hsec Hh.
  revert fuel s t c. induction p as [|i p IH]; intros fuel s t c Hn Hf Hp Hc E Hfuel.
  { destruct fuel as [|fuel]; [lia|]. exists t. split; [|by apply appends_nil].
    cbn [prog_encode concat fmap list_fmap length program_loop]. unfold bind, get; simpl.
    rewrite Z.add_0_r, Z.ltb_irrefl. by rewrite (advance_0 sec Hsec). }
  destruct fuel as [|fuel]; [simpl in Hfuel; lia|].
  change (prog_encode h (i :: p)) with (insn_encode h i ++ prog_encode h p) in *.
  destruct Hp as (Hs & Hw & Hp).
  assert (Hs' : lm_fits h (lm_step h i s).1) by (destruct p; apply Hp).
  rewrite <- app_assoc in E.
  destruct (insn_step_eq sec Hsec h Hh files t Hn Hf i s Hs Hs' Hw c _ Hc E) as (t1 & E1 & A1).
  destruct (rest_app sec Hsec c _ _ Hc E) as (Hc1 & R1 & P1 & _).
  destruct (IH fuel (lm_step h i s).1 t1 _ (proj1 (proj2 A1)) (appends_files _ _ _ A1 Hf)
    Hp Hc1 R1) as (t2 & E2 & A2); [simpl in Hfuel; lia|].
  exists t2. split.
  - cbn [program_loop]. unfold bind at 1, get. cbn [us_cur].
    pose proof (length_insn_encode i) as Hpos. rewrite length_app.
    rewrite (proj2 (Z.ltb_lt _ _)) by lia. unfold bind. rewrite E1.
    replace (c_p c + Z.of_nat (length (insn_encode h i) + length (prog_encode h p)))
      with (c_p (advance (Z.of_nat (length (insn_encode h i))) c) +
            Z.of_nat (length (prog_encode h p))) by (rewrite P1; lia).
    rewrite E2. do 2 f_equal. rewrite <- length_app. by eapply (advance_app sec Hsec).
  - simpl. rewrite table_rows_app. eapply appends_trans; [|done|done]. lia.
Qed.

Lemma run_program_eq p t c tl :
  0 ≤ nrow t ≤ BW_DWARF_ROW_MAX → files_ok files t → prog_fits h p lm_init →
  cur_in sec c → rest sec c = prog_encode h p ++ tl →
  ∃ t', run_program sec h files (c_p c + Z.of_nat (length (prog_encode h p))) (UnitSt t c) =
        Done tt (UnitSt t' (advance (Z.of_nat (length (prog_encode h p))) c)) ∧
        appends t (table_rows files (lm_run h p lm_init)) t'.
Proof using Hsec Hh.
  intros Hn Hf Hp Hc E. apply (program_loop_eq p _ lm_init t c tl); try done.
  pose proof (length_prog_encode p). pose proof (length_rest sec c Hc) as Hl.
  rewrite E, length_app in Hl. destruct Hc as [Hc _].
  unfold sec_fuel, sp_end, sp_len in *. lia.
Qed.
End program_refinement.

(** ** Properties *)

(** C1. The opcode loop implements the DWARF line machine: on the encoding of any
    program whose registers stay in range, it consumes exactly the program and
    appends to the table the rows the abstract machine produces, without those a
    row of the table cannot represent and up to the capacity of the table; the
    strings stay as they were. *)
Theorem line_program_refines `{Platform} sec h files p t c tl :
  span_ok sec → hdr_wf h → tab_ok t → files_ok files t → prog_fits h p lm_init →
  cur_in sec c → rest sec c = prog_encode h p ++ tl →
  ∃ t', run_program sec h files (c_p c + Z.of_nat (length (prog_encode h p))) (UnitSt t c) =
        Done tt (UnitSt t' (advance (Z.of_nat (length (prog_encode h p))) c)) ∧
        tab_rows t' = tab_rows t ++ take (Z.to_nat (BW_DWARF_ROW_MAX - nrow t))
                                      (table_rows files (lm_run h p lm_init)) ∧
        strs t' = strs t ∧ nstr t' = nstr t.
Proof.
  intros Hsec Hh Ht Hf Hp Hc E.
  destruct (run_program_eq sec Hsec h Hh files p t c tl) as (t' & Erun & Hr & _ & ? & ?);
    [apply Ht|done|done|done|done|]. by exists t'.
Qed.

(** A program that sets the address, advances and emits three rows. *)
Definition prog_ex : list insn :=
  [ISetAddress 4096; IAdvanceLine 9; ICopy; ISpecial 75; IAdvancePc 4; IAdvanceLine (-1);
   ICopy; IEndSequence].

Lemma prog_ex_fits : prog_fits (H:=plat64) hdr_ex prog_ex lm_init.
Proof.
  repeat match goal with
  | |- prog_fits _ _ _ => split
  | |- _ ∧ _ => split
  | |- _ ∨ _ => right
  | |- lm_fits _ _ => split_and!
  end; concrete.
Qed.

Lemma line_program_refines_witness :
  ∃ t', run_program (H:=plat64) (Span 8192 (prog_encode hdr_ex prog_ex)) hdr_ex files_ex 8215
          (UnitSt tab_ex (BwCur 8192 8215 0)) = Done tt (UnitSt t' (BwCur 8215 8215 0)) ∧
        tab_rows t' = tab_rows tab_ex ++ [Row 4096 0 10; Row 4100 0 11; Row 4104 0 10] ∧
        strs t' = strs tab_ex ∧ nstr t' = nstr tab_ex.
Proof.
  apply (line_program_refines (H:=plat64) (Span 8192 (prog_encode hdr_ex prog_ex)) hdr_ex files_ex
    prog_ex tab_ex (BwCur 8192 8215 0) []).
  - concrete.
  - split; concrete.
  - apply tab_ex_ok.
  - apply files_ex_ok.
  - apply prog_ex_fits.
  - concrete.
  - vm_compute. reflexivity.
Defined.
