(* ===== verification/Findings.v ===== *)
(** * Inputs on which the parser goes wrong

    Why the safety theorems have their hypotheses: a string that runs past its
    section and a header length that wraps the program's address, each for every
    input of its kind; then line sections run through the whole parser, among
    them one on which the line register overflows and one with a directory table
    longer than the parser's. *)

From S2P Require Import Prelude CMonad CMem Cursor Leb128 Decode Forms Search DwarfTab LineProgram LineUnit DwarfParse.

(** What a caller sees of a parse into the empty table. *)
Definition parse_result (p : Platform) (line line_str : span)
    : outcome unit (bool * list bw_dwarf_row_t) :=
  match bw_dwarf_tab_parse (H:=p) line line_str null_span (Some tab0) tt with
  | Done (ok, t) _ => Done (ok, default [] (tab_rows <$> t)) tt
  | Fail _ => Fail tt
  | Fault u => Fault u
  | NoFuel => NoFuel
  end.

(** A unit whose [header_len] is [hl], with 32-bit and with 64-bit lengths. *)
Definition wrap32 (hl : Z) : span :=
  let body := le_bytes 2 4 ++ le_bytes 4 hl ++ params_ex ++ tables_ex ++ prog_bytes_ex in
  Span 4096 (le_bytes 4 (Z.of_nat (length body)) ++ body).

Definition wrap64 (hl : Z) : span :=
  let body := le_bytes 2 4 ++ le_bytes 8 hl ++ params_ex ++ tables_ex ++ prog_bytes_ex in
  Span 4096 (le_bytes 4 0xffffffff ++ le_bytes 8 (Z.of_nat (length body)) ++ body).

(** A unit whose tables end with the section, in the middle of a name. *)
Definition unterminated_v4 : span := Span 4096 (unit_v4 (params_ex ++ [x73; x72; x63]) []).

(** A version 5 unit whose names are in [.debug_line_str]. *)
Definition unit_v5 : span :=
  let tables := bytes_of [1; 1; 31; 1; 0; 0; 0; 0; 2; 1; 31; 2; 11; 2; 4; 0; 0; 0; 0; 4; 0; 0; 0; 0] in
  let hdr := params_ex ++ tables in
  let body := le_bytes 2 5 ++ [x08; x00] ++ le_bytes 4 (Z.of_nat (length hdr)) ++ hdr
                ++ prog_bytes_ex in
  Span 4096 (le_bytes 4 (Z.of_nat (length body)) ++ body).

Definition names_v5 : list byte := [x73; x72; x63; x00; x61; x2e; x63].

(** A program that advances the line by [2 ^ 63 - 1]. *)
Definition line_overflow : span :=
  Span 4096 (unit_v4 (params_ex ++ tables_ex) ([x03] ++ sleb_encode (2 ^ 63 - 1) ++ [x03; x01])).

(** A unit with [n] include directories "d". *)
Definition many_dirs (n : nat) : span :=
  Span 4096 (unit_v4 (params_ex ++ concat (replicate n [x64; x00]) ++ [x00] ++ name_ex ++ [x00])
               prog_bytes_ex).

(** The rows of [prog_bytes_ex], with the name at [off]. *)
Definition rows_ex (off : Z) : list bw_dwarf_row_t :=
  [Row 4096 off 10; Row 4100 off 11; Row 4104 off 10].

(** ** Strings without an end *)

(** From offset [off] on a section has no NUL. *)
Definition no_nul_from (sp : span) (off : Z) : Prop := x00 ∉ drop (Z.to_nat off) (sp_bytes sp).

(** [strlen] of a string that runs to the end of its section. *)
Lemma strlen_overrun {S} sp a (i fuel : nat) (st : S) :
  sp_base sp ≤ a → no_nul_from sp (a - sp_base sp) →
  (length (sp_bytes sp) < i + fuel)%nat → (fuel ≠ 0)%nat →
  strlen_from fuel (sp_cptr sp a) (Z.of_nat i) st = Fault OobRead.
Proof.
  intros Ha Hnul. revert i. induction fuel as [|fuel IH]; intros i Hf Hf0; [done|].
  cbn [strlen_from]. unfold bind at 1, c_at, sp_cptr at 1, sp_read.
  rewrite (proj2 (Z.ltb_ge _ _)) by lia.
  replace (Z.to_nat (a + Z.of_nat i - sp_base sp)) with (Z.to_nat (a - sp_base sp) + i)%nat by lia.
  rewrite <- lookup_drop. destruct (_ !! i) as [b|] eqn:Eb; [|done]. cbn [of_option ret].
  assert (Hb : is_nul b = false).
  { apply is_nul_false. intros ->. by apply Hnul, (list_elem_of_lookup_2 _ i). }
  rewrite Hb. replace (Z.of_nat i + 1) with (Z.of_nat (Datatypes.S i)) by lia.
  assert (Hi : (i < length (sp_bytes sp))%nat).
  { apply lookup_lt_Some in Eb. rewrite length_drop in Eb. lia. }
  destruct fuel as [|fuel].
  - lia.
  - apply IH; lia.
Qed.

Section overrun.
Context `{Platform} (sec : span) (Hsec : span_ok sec) (c : bw_cur_t) (Hc : cur_in sec c).
Context (Hlt : c_p c < sp_end sec) (Hnul : no_nul_from sec (c_p c - sp_base sec)).

(** Such a string is not empty, so a table goes on with it. *)
Lemma more_unterminated n max : n < max → more_entries sec n max c = Done true c.
Proof using Hsec Hc Hlt Hnul.
  intros Hn. unfold more_entries, bind, get, peek.
  rewrite (proj2 (cur_ok_iff sec Hsec c 1 Hc ltac:(lia))) by lia.
  destruct (sp_read_inside sec (c_p c)) as [b Hb]; [destruct Hc; lia|].
  unfold bind, get. rewrite Hb. cbn. unfold sp_read in Hb. destruct (_ <? _); [done|].
  rewrite (proj2 (is_nul_false b)); [by rewrite (proj2 (Z.ltb_lt n max))|].
  intros ->. apply Hnul, (list_elem_of_lookup_2 _ 0). by rewrite lookup_drop, Nat.add_0_r.
Qed.

Lemma take_cstr_overrun : take_cstr sec c = Fault OobRead.
Proof using Hc Hnul.
  unfold take_cstr, bind, get, strlen. destruct Hc as [Hp _].
  by rewrite (strlen_overrun sec (c_p c) 0) by (done || lia || (unfold sec_fuel; lia)).
Qed.
End overrun.

(** C33. A string without a NUL between its start and the end of its section is read
    past the section, for its end is searched with [strlen].  With the cursor on
    such a string, the loops over the directories and over the files of a table
    before version 5 read outside the section, whatever was parsed before.  So does
    [bw_form_path] for an offset of [.debug_line_str] or [.debug_str] behind which
    the section has no NUL. *)
Theorem unterminated_string_overread `{Platform} sec c :
  span_ok sec → cur_in sec c →
  (c_p c < sp_end sec → no_nul_from sec (c_p c - sp_base sec) →
     (∀ fuel dirs t, d_count dirs < BW_DWARF_DIRS_MAX →
        dirs_v4_loop sec (S fuel) dirs (UnitSt t c) = Fault OobRead) ∧
     (∀ fuel dirs files t, f_count files < BW_DWARF_FILES_MAX →
        files_v4_loop sec (S fuel) dirs files (UnitSt t c) = Fault OobRead)) ∧
  (∀ form offset_size line_str debug_str off c',
     let str := if form =? BW_FORM_LINE_STRP then line_str else debug_str in
     form = BW_FORM_LINE_STRP ∨ form = BW_FORM_STRP →
     (if offset_size =? 8 then bw_u64 sec c else bw_u32 sec c) = Done off c' →
     span_ok str → 0 ≤ off < sp_len str → no_nul_from str off →
     bw_form_path sec form offset_size line_str debug_str c = Fault OobRead).
Proof.
  intros Hsec Hc. split; [intros Hlt Hnul; split|].
  - intros fuel dirs t Hd. cbn [dirs_v4_loop]. unfold bind at 1, on_cur at 1, zoom. cbn [us_cur].
    rewrite (more_unterminated sec Hsec c Hc Hlt Hnul) by done.
    unfold bind, on_cur, zoom. cbn [us_cur]. by rewrite (take_cstr_overrun sec c Hc Hnul).
  - intros fuel dirs files t Hd. cbn [files_v4_loop]. unfold bind at 1, on_cur at 1, zoom. cbn [us_cur].
    rewrite (more_unterminated sec Hsec c Hc Hlt Hnul) by done.
    unfold bind, on_cur, zoom. cbn [us_cur]. by rewrite (take_cstr_overrun sec c Hc Hnul).
  - intros form osz line_str debug_str off c' str Hform Hoff [Hb He] Ho Hnul.
    assert (Hf : (form =? BW_FORM_STRING) = false ∧
                 ((form =? BW_FORM_LINE_STRP) || (form =? BW_FORM_STRP))%bool = true)
      by (by destruct Hform as [-> | ->]).
    destruct Hf as [Hf1 Hf2]. unfold bw_form_path. rewrite Hf1, Hf2. fold str. unfold bind at 1.
    replace ((if osz =? 8 then bw_u64 sec else bw_u32 sec) c) with (Done off c')
      by (rewrite <- Hoff; by case_match).
    unfold bw_cstr_off, sp_null. rewrite (proj2 (Z.eqb_neq (sp_base str) 0)), (proj2 (Z.leb_gt _ _)) by lia.
    cbn [orb negb]. unfold sp_end in He. rewrite uptr_small by lia. unfold bind, strlen.
    rewrite (strlen_overrun str (sp_base str + off) 0); [done|lia| |lia|lia].
    by replace (sp_base str + off - sp_base str) with off by lia.
Qed.

(** A directory list that is the last bytes of the section, and a name that is the
    last of [.debug_line_str]. *)
Lemma unterminated_string_overread_witness :
  let sec := Span 4096 [x73; x72; x63] in
  let c := BwCur 4096 4099 0 in
  let sec5 := Span 4096 [x04; x00; x00; x00] in
  let c5 := BwCur 4096 4100 0 in
  dirs_v4_loop (H:=plat64) sec 1 (DirTab 1 ∅) (UnitSt tab_ex c) = Fault OobRead ∧
  files_v4_loop (H:=plat64) sec 1 (DirTab 1 ∅) (FileTab 1 ∅) (UnitSt tab_ex c) = Fault OobRead ∧
  bw_form_path (H:=plat64) sec5 BW_FORM_LINE_STRP 4 (Span 65536 names_v5) null_span c5 = Fault OobRead.
Proof.
  intros sec c sec5 c5.
  assert (Hn : no_nul_from sec (c_p c - sp_base sec)).
  { change (x00 ∉ [x73; x72; x63]). intros Hin. repeat (apply elem_of_cons in Hin as [E|Hin]; [done|]).
    by apply elem_of_nil in Hin. }
  destruct (unterminated_string_overread (H:=plat64) sec c) as [Hv4 _]; [concrete|concrete|].
  destruct (Hv4 ltac:(done) Hn) as [Hd Hf].
  split_and!; [by apply Hd|by apply Hf|].
  apply (unterminated_string_overread (H:=plat64) sec5 c5) with (off := 4) (c' := BwCur 4100 4100 0).
  - concrete.
  - concrete.
  - by left.
  - vm_compute. reflexivity.
  - concrete.
  - concrete.
  - change (x00 ∉ [x61; x2e; x63]). intros Hin. repeat (apply elem_of_cons in Hin as [E|Hin]; [done|]).
    by apply elem_of_nil in Hin.
Defined.

(** The whole parser on such sections; with the NUL in place the unit is parsed. *)
Theorem unterminated_sections :
  parse_result plat64 unterminated_v4 null_span = Fault OobRead ∧
  parse_result plat64 unit_v5 (Span 65536 names_v5) = Fault OobRead ∧
  parse_result plat64 unit_v5 (Span 65536 (names_v5 ++ [x00])) = Done (true, rows_ex 12) tt.
Proof. split_and!; vm_compute; reflexivity. Qed.

(** ** Header lengths that wrap *)

(** Where the opcode loop starts: the end of the prologue plus [header_len]. *)
Definition program_at `{Platform} (pro : unit_pro) (c : bw_cur_t) : Z :=
  uptr (c_p c + uptr (up_header_len pro)).

(** The opcode loop in front of the section. *)
Lemma run_program_before `{Platform} sec h files unit_end s :
  span_ok sec → 0 < c_p (us_cur s) < sp_base sec → c_end (us_cur s) = sp_end sec →
  sp_base sec ≤ unit_end →
  run_program sec h files unit_end s = Fault OobRead.
Proof.
  intros [Hb He] Hp Hce Hue. pose proof (sp_len_nonneg sec). unfold sp_end in *.
  unfold run_program, sec_fuel. cbn [program_loop]. unfold bind at 1, get.
  rewrite (proj2 (Z.ltb_lt _ _)) by lia. unfold bind, line_step, or_break, bind, try, on_cur, zoom, bw_u8, bind, get.
  unfold bw_cur_ok. rewrite Hce, uptr_small by lia.
  rewrite (proj2 (Z.eqb_neq (c_p _) 0)), (proj2 (Z.eqb_neq (_ + _) 0)), (proj2 (Z.leb_le 1 _)) by lia.
  cbn [negb andb]. unfold next_byte, peek, bind, get. by rewrite sp_read_outside by lia.
Qed.

(** C32. The check of the header length can be passed by wrapping around: the test
    [prog > unit_end] is on the wrapped sum of the end of the prologue and
    [header_len].  Whenever that sum lies in front of the section (and is not 0),
    a unit with readable parameters and tables makes the opcode loop read there,
    outside the section, although the three sections are otherwise as the safety
    theorem wants them. *)
Theorem header_len_wraps `{Platform} sec line_str debug_str s ue pro c h c1 files s2 :
  span_ok sec → str_span_ok line_str → str_span_ok debug_str → st_ok sec s →
  5 ≤ up_version pro ∨ nul_terminated sec →
  unit_prologue sec (us_cur s) = Done (ue, Some pro) c →
  0 < program_at pro c < sp_base sec →
  unit_params sec pro c = Done (Some h) c1 →
  (if 5 <=? up_version pro then tables_v5 sec line_str debug_str (up_offset_size pro)
   else tables_v4 sec) (UnitSt (us_tab s) c1) = Done files s2 →
  bw_parse_unit sec line_str debug_str s = Fault OobRead.
Proof.
  intros Hsec Hls Hds [Hc Ht] Hv Hpro Hprog Hpar Htab. unfold program_at in Hprog.
  pose proof (unit_prologue_wp sec Hsec no_ub (us_cur s) Hc) as Hwp. rewrite Hpro in Hwp.
  destruct Hwp as (Hadv & Hue & _).
  pose proof (reader_unit_params sec Hsec pro c (adv_in sec _ _ _ Hadv)) as Hwp. rewrite Hpar in Hwp.
  destruct Hwp as [Hadv1 _].
  assert (Hs1 : st_ok sec (UnitSt (us_tab s) c1)) by (split; [by eapply adv_in|done]).
  assert (Hend : c_end (us_cur s2) = sp_end sec).
  { assert (Hy : yields sec (UnitSt (us_tab s) c1) files_ok (Done files s2)).
    { rewrite <- Htab. destruct (Z.leb_spec 5 (up_version pro)); [by apply tables_v5_yields|].
      apply tables_v4_yields; [done| |done]. destruct Hv; [lia|done]. }
    destruct Hy as [[[[_ Hce] _] _] _]. exact Hce. }
  destruct Hc as [Hcp _]. unfold bw_parse_unit, bind at 1, on_cur, zoom. rewrite Hpro.
  unfold bind at 1, get. cbn [us_cur]. rewrite (proj2 (Z.ltb_ge ue _)) by lia.
  unfold unit_body, bind at 1, on_cur, zoom. cbn [us_cur us_tab]. rewrite Hpar. unfold bind at 1.
  cbn [us_tab]. rewrite Htab. unfold bind at 1, move_to, on_cur, zoom, bind at 1, get, put. unfold bind.
  rewrite run_program_before; [done|done|exact Hprog|exact Hend|lia].
Qed.

(** A 64-bit unit at the start of its section whose [header_len] is 2^64 - 1024. *)
Lemma header_len_wraps_witness :
  let sec := Span (sp_base (wrap64 (2 ^ 64 - 1024))) (sp_bytes (wrap64 (2 ^ 64 - 1024)) ++ [x00]) in
  bw_parse_unit (H:=plat64) sec null_span null_span (UnitSt tab_ex (BwCur 4096 (sp_end sec) 0)) = Fault OobRead.
Proof.
  intros sec.
  set (s := UnitSt tab_ex (BwCur 4096 (sp_end sec) 0)).
  destruct (unit_prologue (H:=plat64) sec (us_cur s)) as [[ue [pro|]] c| | |] eqn:Epro;
    vm_compute in Epro; try discriminate Epro.
  injection Epro as <- <- <-.
  eapply (header_len_wraps (H:=plat64) sec null_span null_span s).
  - concrete.
  - by left.
  - by left.
  - split; [concrete|apply tab_ex_ok].
  - right. vm_compute. reflexivity.
  - vm_compute. reflexivity.
  - concrete.
  - vm_compute. reflexivity.
  - vm_compute. reflexivity.
Defined.

(** The whole parser on such a unit, with 32-bit and with 64-bit pointers. *)
Theorem wrapped_header_len :
  parse_result plat32 (wrap32 (2 ^ 32 - 1024)) null_span = Fault OobRead ∧
  parse_result plat64 (wrap64 (2 ^ 64 - 1024)) null_span = Fault OobRead.
Proof. split; vm_compute; reflexivity. Qed.

(** ** Other limits *)

(** Advancing the line register can overflow signed arithmetic: the operand
    of [DW_LNS_advance_line] is added as it was read. *)
Theorem line_register_overflows :
  parse_result plat64 line_overflow null_span = Fault (SignedOverflow 1 (2 ^ 63 - 1)).
Proof. vm_compute. reflexivity. Qed.

(** A version 4 unit with 255 include directories is parsed; with one more
    its file table is lost and none of its rows get into the table, because the
    directory loop stops at its limit and the rest of the directories are read as
    the file table. *)
Theorem directory_limit_loses_unit :
  parse_result plat64 (many_dirs 255) null_span = Done (true, rows_ex 511) tt ∧
  parse_result plat64 (many_dirs 256) null_span = Done (false, []) tt.
Proof. split; vm_compute; reflexivity. Qed.
