(* ===== verification/Context.v ===== *)
(** * The frame-pointer walk

    [context_step] and [context_get_ip] of src/context.c and [context_init] of
    src/context.h, on the three Unix architectures.  The memory of the process is
    a parameter of the model, a map from addresses to words; the registers
    [context_init_arch] reads are its argument.  The walk is then related to the
    chain of frames it follows. *)

From S2P Require Import Prelude CMonad CMem.

Inductive arch := X86_64 | AArch64 | Arm.

#[export] Instance arch_eq_dec : EqDecision arch.
Proof. solve_decision. Defined.

Definition arch_platform (a : arch) : Platform :=
  match a with X86_64 | AArch64 => plat64 | Arm => plat32 end.

(** [FP_OFFSET], in words. *)
Definition FP_OFFSET (a : arch) : Z := match a with Arm => -1 | _ => 0 end.

Definition BW_MIN_MMAP_ADDR : Z := Z.shiftl 64 10.

Definition BW_MAX_USER_ADDR (a : arch) : option Z :=
  match a with
  | X86_64 => Some 0x00007FFFFFFFFFFF
  | AArch64 => Some 0x000FFFFFFFFFFFFF
  | Arm => None
  end.

Definition CONTEXT_DATA_LEN : Z := 8.

(** [data] is uninitialised until [context_init] stores its first word. *)
Record context_t := Context { data : gmap Z Z }.

(** [sizeof(uintptr_t)] *)
Definition word_size (a : arch) : Z := match a with Arm => 4 | _ => 8 end.

Section context.
Context (a : arch).
Local Abbreviation uptr := (uptr (H:=arch_platform a)).

(** The word at an address, when it is mapped; and the instruction that strips
    the authentication code from a return address. *)
Context (mem : Z → option Z) (strip_pac : Z → Z).

(** [context_init]: the assembly stores the frame pointer in [data[0]]. *)
Definition context_init_arch (fp : Z) (ctx : context_t) : context_t :=
  Context (<[0 := fp]> (data ctx)).

Definition context_init (fp : Z) (ctx : context_t) : context_t := context_init_arch fp ctx.

(** [addr > BW_MAX_USER_ADDR], where the architecture has that bound *)
Definition above_user (addr : Z) : bool :=
  match BW_MAX_USER_ADDR a with None => false | Some max => max <? addr end.

Definition load_word (addr : Z) : M context_t Z := of_option OobRead (mem addr).

(** [context_step] on a context that is not null. *)
Definition step_frame : M context_t unit :=
  let* ctx := get in
  let* fp := arr_load CONTEXT_DATA_LEN (data ctx) 0 in
  if fp <? BW_MIN_MMAP_ADDR then fail else
  if above_user fp then fail else
  if negb (Z.land fp (word_size a - 1) =? 0) then fail else
  let base := uptr (fp + FP_OFFSET a * word_size a) in
  let* next_fp := load_word base in
  if next_fp =? fp then fail else
  if next_fp <? BW_MIN_MMAP_ADDR then fail else
  if above_user next_fp then fail else
  let* next_ip := load_word (uptr (base + word_size a)) in
  let next_ip := if decide (a = AArch64) then strip_pac next_ip else next_ip in
  if next_ip <? BW_MIN_MMAP_ADDR then fail else
  if above_user next_ip then fail else
  let* d := arr_store CONTEXT_DATA_LEN (data ctx) 0 next_fp in
  let* d := arr_store CONTEXT_DATA_LEN d 1 next_ip in
  put (Context d).

(** A null [ctx] is the state [None]. *)
Definition context_step : M (option context_t) unit :=
  let* ctx := get in
  match ctx with
  | None => fail
  | Some ctx => zoom (λ _, ctx) (λ c _, Some c) step_frame
  end.

Definition context_get_ip : M (option context_t) Z :=
  let* ctx := get in
  match ctx with
  | None => ret 0
  | Some ctx => arr_load CONTEXT_DATA_LEN (data ctx) 1
  end.
End context.

(** ** The chain of frames *)

Section user.
Context (a : arch).

(** An address a frame or a return address may have. *)
Definition user_addr (addr : Z) : Prop :=
  BW_MIN_MMAP_ADDR ≤ addr ∧ ∀ max, BW_MAX_USER_ADDR a = Some max → addr ≤ max.

Lemma user_addr_iff addr :
  user_addr addr ↔ ((addr <? BW_MIN_MMAP_ADDR) || above_user a addr)%bool = false.
Proof.
  unfold user_addr, above_user. rewrite orb_false_iff, Z.ltb_ge.
  destruct (BW_MAX_USER_ADDR a) as [max|]; [rewrite Z.ltb_ge|].
  - split; [intros [? Hm]; split; auto|intros [? ?]; split; [done|by intros ? [= <-]]].
  - split; intros [? _]; split; done.
Qed.

#[export] Instance user_addr_dec addr : Decision (user_addr addr).
Proof.
  destruct (((addr <? BW_MIN_MMAP_ADDR) || above_user a addr)%bool) eqn:E.
  - right. rewrite user_addr_iff, E. done.
  - left. by apply user_addr_iff.
Defined.

(** The two tests on an address, as one on [user_addr]. *)
Lemma test_user {A} addr (m : M context_t A) ctx :
  (if addr <? BW_MIN_MMAP_ADDR then fail else if above_user a addr then fail else m) ctx =
  if decide (user_addr addr) then m ctx else Fail ctx.
Proof.
  destruct (decide (user_addr addr)) as [Hu|Hu]; rewrite user_addr_iff in Hu.
  - by apply orb_false_iff in Hu as [-> ->].
  - destruct (addr <? BW_MIN_MMAP_ADDR); [done|]. by destruct (above_user a addr).
Qed.
End user.

Section chain.
Context (a : arch) (mem : Z → option Z) (strip_pac : Z → Z).
Local Abbreviation uptr := (uptr (H:=arch_platform a)).

(** Where the frame at [fp] keeps the caller's frame pointer; the return address
    is in the next word. *)
Definition saved_fp (fp : Z) : Z := uptr (fp + FP_OFFSET a * word_size a).
Definition saved_ip (fp : Z) : Z := uptr (saved_fp fp + word_size a).

Definition strip (ip : Z) : Z := if decide (a = AArch64) then strip_pac ip else ip.

(** The frame at [fp] links to the frame at [fp'] and returns to [ip]. *)
Record frame_link (fp fp' ip : Z) : Prop := {
  link_fp : user_addr a fp;
  link_aligned : Z.land fp (word_size a - 1) = 0;
  link_saved_fp : mem (saved_fp fp) = Some fp';
  link_not_self : fp' ≠ fp;
  link_fp' : user_addr a fp';
  link_saved_ip : ∃ w, mem (saved_ip fp) = Some w ∧ ip = strip w;
  link_ip : user_addr a ip;
}.

(** The frame at [fp] is the last one: it is no frame, or it links to itself, to
    no frame, or returns nowhere. *)
Inductive frame_end (fp : Z) : Prop :=
| end_fp : ¬ user_addr a fp ∨ Z.land fp (word_size a - 1) ≠ 0 → frame_end fp
| end_next fp' :
    mem (saved_fp fp) = Some fp' → fp' = fp ∨ ¬ user_addr a fp' → frame_end fp
| end_ip fp' w :
    mem (saved_fp fp) = Some fp' → mem (saved_ip fp) = Some w → ¬ user_addr a (strip w) →
    frame_end fp.

(** The return addresses from the frame at [fp] up. *)
Inductive chain : Z → list Z → Prop :=
| chain_end fp : frame_end fp → chain fp []
| chain_link fp fp' ip l : frame_link fp fp' ip → chain fp' l → chain fp (ip :: l).

(** The context at frame [fp] with return address [ip]. *)
Definition set_frame (fp ip : Z) (ctx : context_t) : context_t :=
  Context (<[1 := ip]> (<[0 := fp]> (data ctx))).

(** [context_step] as a function of what is in memory. *)
Lemma step_frame_eq ctx fp :
  data ctx !! 0 = Some fp →
  step_frame a mem strip_pac ctx =
  if negb (bool_decide (user_addr a fp ∧ Z.land fp (word_size a - 1) = 0)) then Fail ctx else
  match mem (saved_fp fp) with
  | None => Fault OobRead
  | Some fp' =>
      if negb (bool_decide (fp' ≠ fp ∧ user_addr a fp')) then Fail ctx else
      match mem (saved_ip fp) with
      | None => Fault OobRead
      | Some w => if negb (bool_decide (user_addr a (strip w))) then Fail ctx
                  else Done tt (set_frame fp' (strip w) ctx)
      end
  end.
Proof.
  intros Hfp. unfold step_frame, bind at 1 2, get, arr_load. rewrite Hfp.
  cbn [in_bounds CONTEXT_DATA_LEN Z.leb Z.ltb Z.compare andb of_option ret].
  rewrite test_user. case_decide; [|by rewrite bool_decide_false by tauto].
  destruct (Z.eqb_spec (Z.land fp (word_size a - 1)) 0);
    [rewrite bool_decide_true by done|by rewrite bool_decide_false by tauto].
  cbn [negb]. unfold load_word, bind at 1. fold (saved_fp fp).
  destruct (mem (saved_fp fp)) as [fp'|]; [|done]. cbn [of_option ret].
  destruct (Z.eqb_spec fp' fp); [by rewrite bool_decide_false by tauto|].
  rewrite test_user. case_decide; [|by rewrite bool_decide_false by tauto].
  rewrite bool_decide_true by done. cbn [negb]. unfold bind at 1. fold (saved_ip fp).
  destruct (mem (saved_ip fp)) as [w|]; [|done]. cbn [of_option ret]. fold (strip w).
  rewrite test_user. case_decide; [by rewrite bool_decide_true|by rewrite bool_decide_false].
Qed.

Lemma step_frame_link ctx fp fp' ip :
  data ctx !! 0 = Some fp → frame_link fp fp' ip →
  step_frame a mem strip_pac ctx = Done tt (set_frame fp' ip ctx).
Proof.
  intros Hfp [Hu Ha Hm Hself Hu' (w & Hw & ->) Hip]. rewrite (step_frame_eq _ fp) by done.
  rewrite Hm, Hw, !bool_decide_true by done. done.
Qed.

Lemma step_frame_end ctx fp :
  data ctx !! 0 = Some fp → frame_end fp → step_frame a mem strip_pac ctx = Fail ctx.
Proof.
  intros Hfp Hend. rewrite (step_frame_eq _ fp) by done.
  destruct Hend as [H|fp' Hm H|fp' w Hm Hw H].
  - by rewrite bool_decide_false by tauto.
  - rewrite Hm, (bool_decide_false (fp' ≠ fp ∧ _)) by tauto. by destruct (bool_decide _).
  - rewrite Hm, Hw, (bool_decide_false (user_addr a (strip w))) by done.
    by destruct (bool_decide _), (bool_decide _).
Qed.

(** A successful step followed a link. *)
Lemma step_frame_inv ctx ctx' fp :
  data ctx !! 0 = Some fp → step_frame a mem strip_pac ctx = Done tt ctx' →
  ∃ fp' ip, frame_link fp fp' ip ∧ ctx' = set_frame fp' ip ctx.
Proof.
  intros Hfp. rewrite (step_frame_eq _ fp) by done. case_bool_decide as Hu; [|done]. cbn [negb].
  destruct (mem (saved_fp fp)) as [fp'|] eqn:Hm; [|done]. case_bool_decide as Hu'; [|done].
  cbn [negb]. destruct (mem (saved_ip fp)) as [w|] eqn:Hw; [|done].
  case_bool_decide as Hi; [|done]. intros [= <-]. exists fp', (strip w).
  split; [|done]. destruct Hu, Hu'. split; eauto.
Qed.

(** The chain from a frame is unique. *)
Lemma chain_fun fp l1 l2 : chain fp l1 → chain fp l2 → l1 = l2.
Proof.
  intros H1. revert l2. induction H1 as [fp He|fp fp' ip l Hl _ IH]; intros l2 H2.
  - destruct H2 as [|fp fp' ip l Hl H2]; [done|].
    pose proof (step_frame_end (Context {[0 := fp]}) fp (lookup_singleton_eq 0 fp) He) as E.
    by rewrite (step_frame_link _ fp fp' ip (lookup_singleton_eq 0 fp) Hl) in E.
  - destruct H2 as [fp He|fp fp'' ip'' l' Hl' H2].
    + pose proof (step_frame_end (Context {[0 := fp]}) fp (lookup_singleton_eq 0 fp) He) as E.
      by rewrite (step_frame_link _ fp fp' ip (lookup_singleton_eq 0 fp) Hl) in E.
    + destruct Hl as [_ _ E1 _ _ (w1 & E2 & ->) _], Hl' as [_ _ E3 _ _ (w2 & E4 & ->) _].
      simplify_eq. f_equal. by apply IH.
Qed.
End chain.

(** ** Properties *)

(** C13. [context_step] follows frame links and nothing else: it succeeds exactly
    when the frame at [data[0]] links to a caller, then moving the context to the
    caller's frame and return address; on a last frame it answers false and leaves
    the context alone; the only other outcome is the fault of an aligned user
    address that is not mapped. *)
Theorem context_step_correct (a : arch) mem strip_pac ctx fp :
  data ctx !! 0 = Some fp →
  (∃ fp' ip, frame_link a mem strip_pac fp fp' ip ∧
     context_step a mem strip_pac (Some ctx) = Done tt (Some (set_frame fp' ip ctx))) ∨
  (frame_end a mem strip_pac fp ∧ context_step a mem strip_pac (Some ctx) = Fail (Some ctx)) ∨
  (user_addr a fp ∧ Z.land fp (word_size a - 1) = 0 ∧
   (mem (saved_fp a fp) = None ∨ mem (saved_ip a fp) = None) ∧
   context_step a mem strip_pac (Some ctx) = Fault OobRead).
Proof.
  intros Hfp. unfold context_step, bind, get, zoom.
  pose proof (step_frame_eq a mem strip_pac ctx fp Hfp) as E.
  case_bool_decide as Hu; cbn [negb] in E.
  2:{ right; left. rewrite E. split; [|done]. constructor 1.
      destruct (decide (user_addr a fp)), (decide (Z.land fp (word_size a - 1) = 0)); tauto. }
  destruct Hu as [Hu Ha]. destruct (mem (saved_fp a fp)) as [fp'|] eqn:Hm.
  2:{ right; right. rewrite E. auto. }
  case_bool_decide as Hu'; cbn [negb] in E.
  2:{ right; left. rewrite E. split; [|done]. econstructor 2; [exact Hm|].
      destruct (decide (fp' = fp)), (decide (user_addr a fp')); tauto. }
  destruct Hu' as [Hne Hu']. destruct (mem (saved_ip a fp)) as [w|] eqn:Hw.
  2:{ right; right. rewrite E. auto. }
  case_bool_decide as Hi; cbn [negb] in E; rewrite E.
  - left. exists fp', (strip a strip_pac w). split; [|done]. split; eauto.
  - right; left. split; [|done]. by econstructor 3.
Qed.

(** A stack of two frames on x86_64: the first returns to 0x400010, the second is
    the last. *)
Definition stack_ex (addr : Z) : option Z :=
  if addr =? 0x7ffd0000 then Some 0x7ffd0040
  else if addr =? 0x7ffd0008 then Some 0x400010
  else if addr =? 0x7ffd0040 then Some 0
  else None.

Lemma stack_ex_link : frame_link X86_64 stack_ex id 0x7ffd0000 0x7ffd0040 0x400010.
Proof.
  split; try (vm_compute; reflexivity); try discriminate.
  - by apply (bool_decide_unpack _); vm_compute.
  - by apply (bool_decide_unpack _); vm_compute.
  - by exists 0x400010.
  - by apply (bool_decide_unpack _); vm_compute.
Qed.

Lemma stack_ex_end : frame_end X86_64 stack_ex id 0x7ffd0040.
Proof.
  apply (end_next _ _ _ _ 0); [done|]. right. apply (bool_decide_unpack _). by vm_compute.
Qed.

Lemma stack_ex_chain : chain X86_64 stack_ex id 0x7ffd0000 [0x400010].
Proof. eapply chain_link; [apply stack_ex_link|]. apply chain_end, stack_ex_end. Qed.

Lemma context_step_correct_witness :
  let ctx := Context {[0 := 0x7ffd0040]} in
  (∃ fp' ip, frame_link X86_64 stack_ex id 0x7ffd0040 fp' ip ∧
     context_step X86_64 stack_ex id (Some ctx) = Done tt (Some (set_frame fp' ip ctx))) ∨
  (frame_end X86_64 stack_ex id 0x7ffd0040 ∧
   context_step X86_64 stack_ex id (Some ctx) = Fail (Some ctx)) ∨
  (user_addr X86_64 0x7ffd0040 ∧ Z.land 0x7ffd0040 (word_size X86_64 - 1) = 0 ∧
   (stack_ex (saved_fp X86_64 0x7ffd0040) = None ∨ stack_ex (saved_ip X86_64 0x7ffd0040) = None) ∧
   context_step X86_64 stack_ex id (Some ctx) = Fault OobRead).
Proof.
  intros ctx. apply (context_step_correct X86_64 stack_ex id ctx 0x7ffd0040). reflexivity.
Defined.
