(* ===== verification/ElfSym.v ===== *)
(** * Symbol names from an ELF file

    [bw_elf_sname] of src/backwalk.c: it maps the file of a module, looks for the
    function symbol that contains an address and copies its name.  The mapped file
    is a span; the calls to the system are parameters, and what they are given and
    return is logged, so that the theorems can speak of descriptors and mappings.
    The layout of the ELF structures is that of <elf.h>. *)

From S2P Require Import Prelude CMonad CMem Cursor Decode.

(** ** The ELF structures *)

(** Sizes and offsets of the fields [bw_elf_sname] reads. *)
Record elf_layout := ElfLayout {
  word_bytes : nat;        (** of addresses, offsets and sizes *)
  ehdr_size : Z; e_shoff_at : Z; e_shentsize_at : Z; e_shnum_at : Z;
  shdr_size : Z; sh_type_at : Z; sh_offset_at : Z; sh_size_at : Z; sh_link_at : Z; sh_entsize_at : Z;
  sym_size : Z; st_name_at : Z; st_info_at : Z; st_shndx_at : Z; st_value_at : Z; st_size_at : Z;
}.

Definition elf64 : elf_layout := ElfLayout 8 64 40 58 60 64 4 24 32 40 56 24 0 4 6 8 16.
Definition elf32 : elf_layout := ElfLayout 4 52 32 46 48 40 4 16 20 24 36 16 0 12 14 4 8.

(** [ElfW]: the layout of the platform's word size. *)
Definition elfw `{Platform} : elf_layout := if ptr_bits =? 64 then elf64 else elf32.

Definition SHT_SYMTAB : Z := 2.
Definition SHN_UNDEF : Z := 0.
Definition STT_FUNC : Z := 2.

(** ** The system *)

(** [open], [fstat] and [mmap]; [None] is failure. *)
Record elf_os := ElfOs {
  os_open : list byte → option Z;
  os_fstat : Z → option Z;
  os_mmap : Z → Z → option span;
}.

Inductive os_event :=
| EvOpen (fd : Z)
| EvClose (fd : Z)
| EvMmap (addr len : Z)
| EvMunmap (addr len : Z).

(** The caller's buffer [out], and the log. *)
Record elf_st := ElfSt { el_out : gmap Z byte; el_log : list os_event }.

Definition log_event (e : os_event) : M elf_st unit :=
  let* s := get in put (ElfSt (el_out s) (el_log s ++ [e])).

Section elf.
Context `{Platform}.

(** *** Reading the map *)

Section file.
Context (map : span) (file_sz : Z).

(** The field of [n] bytes at an address. *)
Definition field (n : nat) (addr : Z) : M elf_st Z := of_option OobRead (load_le map n (uptr addr)).

Definition word_field (addr : Z) : M elf_st Z := field (word_bytes elfw) addr.

(** [base[EI_MAG0] != ELFMAG0 || ..], after the size test *)
Definition elf_magic : M elf_st bool :=
  let* m0 := field 1 (sp_base map) in
  if negb (m0 =? 0x7f) then ret false else
  let* m1 := field 1 (sp_base map + 1) in
  if negb (m1 =? 0x45) then ret false else
  let* m2 := field 1 (sp_base map + 2) in
  if negb (m2 =? 0x4c) then ret false else
  let* m3 := field 1 (sp_base map + 3) in
  ret (m3 =? 0x46).

(** [off > file_sz || sz > file_sz - off] *)
Definition outside (off sz : Z) : bool := ((file_sz <? off) || (file_sz - off <? sz))%bool.

(** The symbol at [addr] is a function that contains [ip]. *)
Definition sym_matches (strtab_sz bias ip addr : Z) : M elf_st (option Z) :=
  let* info := field 1 (addr + st_info_at elfw) in
  let type := Z.land info 0xf in
  let* shndx := field 2 (addr + st_shndx_at elfw) in
  let* size := word_field (addr + st_size_at elfw) in
  let* name := field 4 (addr + st_name_at elfw) in
  if (negb (type =? STT_FUNC) || (shndx =? SHN_UNDEF) || (size =? 0) || (name =? 0)
      || (strtab_sz <=? name))%bool then ret None else
  let* value := word_field (addr + st_value_at elfw) in
  let start := uptr (bias + uptr value) in
  if ((ip <? start) || (uptr (start + uptr size) <=? ip))%bool then ret None else
  ret (Some start).

(** [best == NULL || start >= bias + best->st_value] *)
Definition better (bias start : Z) (best : option Z) : M elf_st bool :=
  match best with
  | None => ret true
  | Some b =>
      let* value := word_field (b + st_value_at elfw) in
      ret (uptr (bias + uptr value) <=? start)
  end.

(** [for (size_t s = 0; s < nsym; ++s)], threading [best] *)
Definition scan_symbols (syms nsym strtab_sz bias ip : Z) (best : option Z)
    : M elf_st (option Z) :=
  for_range 0 nsym (λ s best,
    let addr := uptr (syms + s * sym_size elfw) in
    let* start := sym_matches strtab_sz bias ip addr in
    match start with
    | None => ret best
    | Some start =>
        let* b := better bias start best in
        ret (if b then Some addr else best)
    end) best.

(** The variables of the section loop. *)
Record scan_st := ScanSt { sc_best : option Z; sc_strtab : option Z; sc_strtab_sz : Z }.

(** One round of [for (ElfW(Half) i = 0; i < eh->e_shnum; ++i)]. *)
Definition scan_section (sh e_shnum bias ip i : Z) (st : scan_st) : M elf_st scan_st :=
  let hdr := uptr (sh + i * shdr_size elfw) in
  let* type := field 4 (hdr + sh_type_at elfw) in
  let* entsize := word_field (hdr + sh_entsize_at elfw) in
  let* link := field 4 (hdr + sh_link_at elfw) in
  if (negb (type =? SHT_SYMTAB) || negb (entsize =? sym_size elfw) || (e_shnum <=? link))%bool
  then ret st else
  let str_sh := uptr (sh + link * shdr_size elfw) in
  let* off := word_field (hdr + sh_offset_at elfw) in
  let* size := word_field (hdr + sh_size_at elfw) in
  let* str_off := word_field (str_sh + sh_offset_at elfw) in
  let* str_size := word_field (str_sh + sh_size_at elfw) in
  if (outside off size || outside str_off str_size)%bool then ret st else
  let syms := uptr (sp_base map + off) in
  let nsym := size / sym_size elfw in
  let strtab := uptr (sp_base map + str_off) in
  let* best := scan_symbols syms nsym str_size bias ip (sc_best st) in
  ret (ScanSt best (Some strtab) str_size).

(** [while (len < strtab_sz - best->st_name && name[len] != '\0') ++len;] *)
Fixpoint name_len (fuel : nat) (name max len : Z) : M elf_st Z :=
  match fuel with
  | O => no_fuel
  | S fuel' =>
      if len <? max then
        let* b := of_option OobRead (sp_read map (uptr (name + len))) in
        if is_nul b then ret len else name_len fuel' name max (len + 1)
      else ret len
  end.

(** [memcpy(out, name, len)] *)
Definition copy_byte (out_sz name i : Z) : M elf_st unit :=
  let* b := of_option OobRead (sp_read map (uptr (name + i))) in
  let* s := get in
  let* out := arr_store out_sz (el_out s) i b in
  put (ElfSt out (el_log s)).

Definition copy_name (out_sz name len : Z) : M elf_st unit :=
  for_range 0 len (λ i _, copy_byte out_sz name i) tt.

(** The last part: from the symbol found to [out]. *)
Definition emit_name (out_sz : Z) (st : scan_st) : M elf_st bool :=
  match sc_best st, sc_strtab st with
  | Some best, Some strtab =>
      let* st_name := field 4 (best + st_name_at elfw) in
      if sc_strtab_sz st <=? st_name then ret false else
      let name := uptr (strtab + st_name) in
      let max := sc_strtab_sz st - st_name in
      let* len := name_len (S (Z.to_nat max)) name max 0 in
      if 0 <? len then
        let len := if out_sz <=? len then out_sz - 1 else len in
        do* copy_name out_sz name len in
        let* s := get in
        let* out := arr_store out_sz (el_out s) len x00 in
        do* put (ElfSt out (el_log s)) in
        ret true
      else ret false
  | _, _ => ret false
  end.

(** The [do { .. } while (0)]; [break] is [ret false]. *)
Definition elf_search (bias ip out_sz : Z) : M elf_st bool :=
  if file_sz <? ehdr_size elfw then ret false else
  let* magic := elf_magic in
  if negb magic then ret false else
  let eh := sp_base map in
  let* e_shentsize := field 2 (eh + e_shentsize_at elfw) in
  let* e_shoff := word_field (eh + e_shoff_at elfw) in
  if (negb (e_shentsize =? shdr_size elfw) || (e_shoff =? 0))%bool then ret false else
  let* e_shnum := field 2 (eh + e_shnum_at elfw) in
  let sh_bytes := uptr (e_shnum * shdr_size elfw) in
  if ((file_sz <? e_shoff) || (file_sz - e_shoff <? sh_bytes))%bool then ret false else
  let sh := uptr (sp_base map + e_shoff) in
  let* st := for_range 0 e_shnum (scan_section sh e_shnum bias ip) (ScanSt None None 0) in
  emit_name out_sz st.
End file.

Definition bw_elf_sname (os : elf_os) (path : option (list byte)) (bias ip out_sz : Z)
    : M elf_st bool :=
  match path with
  | None | Some [] => ret false
  | Some path =>
      if out_sz =? 0 then ret false else
      match os_open os path with
      | None => ret false
      | Some fd =>
          do* log_event (EvOpen fd) in
          match os_fstat os fd with
          | None => do* log_event (EvClose fd) in ret false
          | Some st_size =>
              if st_size <=? 0 then do* log_event (EvClose fd) in ret false else
              let file_sz := uptr st_size in
              match os_mmap os fd file_sz with
              | None => do* log_event (EvClose fd) in ret false
              | Some map =>
                  do* log_event (EvMmap (sp_base map) file_sz) in
                  do* log_event (EvClose fd) in
                  let* ok := elf_search map file_sz bias ip out_sz in
                  do* log_event (EvMunmap (sp_base map) file_sz) in
                  ret ok
              end
          end
      end
  end.
End elf.

(** ** The search as a function of the file

    On a file mapped as a whole every read of the search is inside the map, so
    that each part of it equals a function of the file's fields. *)

Section elf_spec.
Context `{Platform} (map : span) (Hmap : span_ok map).

(** Of [n] bytes at [addr], inside the map. *)
Definition readable (addr n : Z) : Prop := sp_base map ≤ addr ∧ addr + n ≤ sp_end map.

Definition fieldz (n : nat) (addr : Z) : Z := default 0 (load_le map n (uptr addr)).
Definition wordz (addr : Z) : Z := fieldz (word_bytes elfw) addr.

Lemma field_eq n addr s :
  readable addr (Z.of_nat n) →
  field map n addr s = Done (fieldz n addr) s ∧ 0 ≤ fieldz n addr < 256 ^ Z.of_nat n.
Proof using Hmap.
  intros [Ha Hn]. unfold field, fieldz. destruct Hmap.
  rewrite uptr_small by lia.
  destruct (load_le_inside map Hmap n addr Ha Hn) as (v & -> & Hv). done.
Qed.

(** The fields are inside their structures. *)
Lemma elfw_cases :
  (ptr_mod = 2 ^ 64 ∧ elfw = elf64) ∨ (ptr_mod = 2 ^ 32 ∧ elfw = elf32).
Proof.
  unfold elfw, ptr_mod. destruct ptr_bits_cases as [E|E]; rewrite E; [by right|by left].
Qed.

Lemma word_field_eq addr s :
  readable addr (Z.of_nat (word_bytes elfw)) →
  word_field map addr s = Done (wordz addr) s ∧ 0 ≤ wordz addr < ptr_mod.
Proof using Hmap.
  intros Ha. destruct (field_eq _ addr s Ha) as [E Hv]. split; [done|]. unfold wordz.
  destruct elfw_cases as [[Em El]|[Em El]]; rewrite El, Em in *; exact Hv.
Qed.

(** A read of a field of a structure of [size] bytes at [addr]. *)
Lemma readable_field addr size at_ n :
  readable addr size → 0 ≤ at_ → at_ + n ≤ size → readable (addr + at_) n.
Proof. unfold readable. lia. Qed.

(** *** Symbols *)

Context (bias ip : Z).

Definition sym_start (addr : Z) : Z := uptr (bias + wordz (addr + st_value_at elfw)).

(** The symbol at [addr] is a named, defined function of nonzero size around
    [ip]. *)
Definition sym_around (strtab_sz addr : Z) : bool :=
  ((Z.land (fieldz 1 (addr + st_info_at elfw)) 0xf =? STT_FUNC) &&
   negb (fieldz 2 (addr + st_shndx_at elfw) =? SHN_UNDEF) &&
   negb (wordz (addr + st_size_at elfw) =? 0) &&
   negb (fieldz 4 (addr + st_name_at elfw) =? 0) &&
   (fieldz 4 (addr + st_name_at elfw) <? strtab_sz) &&
   (sym_start addr <=? ip) &&
   (ip <? uptr (sym_start addr + wordz (addr + st_size_at elfw))))%bool.

Ltac elf_layout_cases :=
  let El := fresh "El" in
  destruct elfw_cases as [[_ El]|[_ El]]; rewrite El in *; cbn in *.

Lemma sym_fields addr s :
  readable addr (sym_size elfw) →
  field map 1 (addr + st_info_at elfw) s = Done (fieldz 1 (addr + st_info_at elfw)) s ∧
  field map 2 (addr + st_shndx_at elfw) s = Done (fieldz 2 (addr + st_shndx_at elfw)) s ∧
  field map 4 (addr + st_name_at elfw) s = Done (fieldz 4 (addr + st_name_at elfw)) s ∧
  word_field map (addr + st_size_at elfw) s = Done (wordz (addr + st_size_at elfw)) s ∧
  word_field map (addr + st_value_at elfw) s = Done (wordz (addr + st_value_at elfw)) s.
Proof using Hmap.
  intros Ha. split_and!; (eapply field_eq || eapply word_field_eq);
    (eapply readable_field; [exact Ha|elf_layout_cases; lia|elf_layout_cases; lia]).
Qed.

Lemma sym_matches_eq strtab_sz addr s :
  readable addr (sym_size elfw) →
  sym_matches map strtab_sz bias ip addr s =
  Done (if sym_around strtab_sz addr then Some (sym_start addr) else None) s.
Proof using Hmap.
  intros Ha. destruct (sym_fields addr s Ha) as (E1 & E2 & E3 & E4 & E5).
  pose proof (readable_field addr _ (st_value_at elfw) (Z.of_nat (word_bytes elfw)) Ha) as Hv.
  pose proof (readable_field addr _ (st_size_at elfw) (Z.of_nat (word_bytes elfw)) Ha) as Hz.
  assert (Hw1 : 0 ≤ wordz (addr + st_value_at elfw) < ptr_mod)
    by (eapply (word_field_eq _ s), Hv; elf_layout_cases; lia).
  assert (Hw2 : 0 ≤ wordz (addr + st_size_at elfw) < ptr_mod)
    by (eapply (word_field_eq _ s), Hz; elf_layout_cases; lia).
  unfold sym_matches, bind. rewrite E1, E2, E4, E3.
  unfold sym_around, sym_start.
  destruct (_ =? STT_FUNC), (_ =? SHN_UNDEF), (wordz (addr + st_size_at elfw) =? 0),
    (fieldz 4 (addr + st_name_at elfw) =? 0); cbn [negb orb andb]; try done.
  rewrite (Z.leb_antisym (fieldz 4 (addr + st_name_at elfw)) strtab_sz).
  destruct (fieldz 4 (addr + st_name_at elfw) <? strtab_sz); [|done]. cbn [negb].
  rewrite E5, (uptr_small (wordz (addr + st_value_at elfw))) by done.
  rewrite (uptr_small (wordz (addr + st_size_at elfw))) by done.
  set (start := uptr (bias + _)). set (end_ := uptr (start + _)).
  rewrite (Z.ltb_antisym start ip), (Z.leb_antisym ip end_).
  by destruct (start <=? ip), (ip <? end_).
Qed.

(** The symbol to keep of the best so far and the one at [addr]. *)
Definition pick (strtab_sz : Z) (best : option Z) (addr : Z) : option Z :=
  if sym_around strtab_sz addr then
    match best with
    | None => Some addr
    | Some b => if sym_start b <=? sym_start addr then Some addr else best
    end
  else best.

(** The symbols of a table. *)
Definition symbols (syms nsym : Z) : list Z :=
  (λ s, uptr (syms + s * sym_size elfw)) <$> seqZ 0 nsym.

Definition best_ok (best : option Z) : Prop :=
  ∀ b, best = Some b → readable b (sym_size elfw).

Lemma sym_size_pos : 0 < sym_size elfw.
Proof. elf_layout_cases; lia. Qed.

Lemma symbol_readable syms nsym i :
  readable syms (nsym * sym_size elfw) → 0 ≤ i < nsym →
  readable (uptr (syms + i * sym_size elfw)) (sym_size elfw).
Proof using Hmap.
  intros [Hs He] Hi. pose proof sym_size_pos. destruct Hmap.
  assert (0 ≤ i * sym_size elfw ∧ (i + 1) * sym_size elfw ≤ nsym * sym_size elfw) by nia.
  unfold readable. rewrite uptr_small by lia. lia.
Qed.

Lemma better_eq start best s :
  best_ok best →
  better map bias start best s =
  Done (match best with None => true | Some b => sym_start b <=? start end) s.
Proof using Hmap.
  intros Hb. destruct best as [b|]; [|done]. specialize (Hb b eq_refl). unfold better, bind.
  destruct (sym_fields b s Hb) as (_ & _ & _ & _ & ->).
  pose proof (readable_field b _ (st_value_at elfw) (Z.of_nat (word_bytes elfw)) Hb) as Hv.
  assert (Hw : 0 ≤ wordz (b + st_value_at elfw) < ptr_mod)
    by (eapply (word_field_eq _ s), Hv; elf_layout_cases; lia).
  unfold sym_start. by rewrite (uptr_small (wordz _)).
Qed.

Lemma scan_symbols_eq syms nsym strtab_sz best s :
  readable syms (nsym * sym_size elfw) → best_ok best →
  scan_symbols map syms nsym strtab_sz bias ip best s =
  Done (foldl (pick strtab_sz) best (symbols syms nsym)) s ∧
  best_ok (foldl (pick strtab_sz) best (symbols syms nsym)).
Proof using Hmap.
  intros Hs Hb. unfold scan_symbols, symbols. rewrite foldl_fmap.
  replace (seqZ 0 nsym) with (seqZ 0 (nsym - 0)) by (f_equal; lia).
  apply for_range_pure; [done|]. intros i b Hi Hbi.
  pose proof (symbol_readable syms nsym i Hs Hi) as Ha. set (addr := uptr _) in *.
  unfold bind at 1. rewrite sym_matches_eq by done. unfold pick.
  destruct (sym_around strtab_sz addr); [|done]. unfold bind. rewrite better_eq by done.
  split.
  - destruct b as [b|]; [|done]. by destruct (sym_start b <=? sym_start addr).
  - intros b' Hb'. destruct b as [b|]; [|by simplify_eq].
    destruct (sym_start b <=? sym_start addr); simplify_eq; [done|by apply Hbi].
Qed.

(** *** Sections *)

Context (file_sz : Z) (Hsz : sp_len map = file_sz).

(** The section header at [hdr] is that of a symbol table whose contents and
    whose string table, at [str_sh], are inside the file. *)
Definition symtab_usable (sh e_shnum hdr : Z) : bool :=
  let str_sh := uptr (sh + fieldz 4 (hdr + sh_link_at elfw) * shdr_size elfw) in
  ((fieldz 4 (hdr + sh_type_at elfw) =? SHT_SYMTAB) &&
   (wordz (hdr + sh_entsize_at elfw) =? sym_size elfw) &&
   (fieldz 4 (hdr + sh_link_at elfw) <? e_shnum) &&
   negb (outside file_sz (wordz (hdr + sh_offset_at elfw)) (wordz (hdr + sh_size_at elfw))) &&
   negb (outside file_sz (wordz (str_sh + sh_offset_at elfw)) (wordz (str_sh + sh_size_at elfw))))%bool.

(** The symbols of the table at [hdr], its string table and the size of that. *)
Definition table_symbols (hdr : Z) : list Z :=
  symbols (uptr (sp_base map + wordz (hdr + sh_offset_at elfw)))
    (wordz (hdr + sh_size_at elfw) / sym_size elfw).
Definition table_strtab (sh hdr : Z) : Z :=
  uptr (sp_base map +
    wordz (uptr (sh + fieldz 4 (hdr + sh_link_at elfw) * shdr_size elfw) + sh_offset_at elfw)).
Definition table_strtab_sz (sh hdr : Z) : Z :=
  wordz (uptr (sh + fieldz 4 (hdr + sh_link_at elfw) * shdr_size elfw) + sh_size_at elfw).

Definition scan_step (sh e_shnum : Z) (st : scan_st) (i : Z) : scan_st :=
  let hdr := uptr (sh + i * shdr_size elfw) in
  if symtab_usable sh e_shnum hdr then
    ScanSt (foldl (pick (table_strtab_sz sh hdr)) (sc_best st) (table_symbols hdr))
      (Some (table_strtab sh hdr)) (table_strtab_sz sh hdr)
  else st.

(** What the scan keeps: a symbol inside the map, and a string table inside it. *)
Definition scan_ok (st : scan_st) : Prop :=
  best_ok (sc_best st) ∧ 0 ≤ sc_strtab_sz st ∧
  ∀ t, sc_strtab st = Some t → readable t (sc_strtab_sz st).

Lemma shdr_readable sh e_shnum i :
  readable sh (e_shnum * shdr_size elfw) → 0 ≤ i < e_shnum →
  readable (uptr (sh + i * shdr_size elfw)) (shdr_size elfw).
Proof using Hmap.
  intros [Hs He] Hi. destruct Hmap.
  assert (0 < shdr_size elfw) by (elf_layout_cases; lia).
  assert (0 ≤ i * shdr_size elfw ∧ (i + 1) * shdr_size elfw ≤ e_shnum * shdr_size elfw) by nia.
  unfold readable. rewrite uptr_small by lia. lia.
Qed.

Lemma shdr_fields hdr s :
  readable hdr (shdr_size elfw) →
  (field map 4 (hdr + sh_type_at elfw) s = Done (fieldz 4 (hdr + sh_type_at elfw)) s ∧
   field map 4 (hdr + sh_link_at elfw) s = Done (fieldz 4 (hdr + sh_link_at elfw)) s ∧
   0 ≤ fieldz 4 (hdr + sh_link_at elfw)) ∧
  (word_field map (hdr + sh_entsize_at elfw) s = Done (wordz (hdr + sh_entsize_at elfw)) s ∧
   word_field map (hdr + sh_offset_at elfw) s = Done (wordz (hdr + sh_offset_at elfw)) s ∧
   word_field map (hdr + sh_size_at elfw) s = Done (wordz (hdr + sh_size_at elfw)) s) ∧
  0 ≤ wordz (hdr + sh_offset_at elfw) ∧ 0 ≤ wordz (hdr + sh_size_at elfw).
Proof using Hmap.
  intros Ha.
  assert (Hf : ∀ at_, 0 ≤ at_ → at_ + 4 ≤ shdr_size elfw →
    field map 4 (hdr + at_) s = Done (fieldz 4 (hdr + at_)) s ∧ 0 ≤ fieldz 4 (hdr + at_)).
  { intros at_ H0 H1. destruct (field_eq 4 (hdr + at_) s) as [? [? _]];
      [by eapply readable_field|done]. }
  assert (Hw : ∀ at_, 0 ≤ at_ → at_ + Z.of_nat (word_bytes elfw) ≤ shdr_size elfw →
    word_field map (hdr + at_) s = Done (wordz (hdr + at_)) s ∧ 0 ≤ wordz (hdr + at_)).
  { intros at_ H0 H1. destruct (word_field_eq (hdr + at_) s) as [? [? _]];
      [by eapply readable_field|done]. }
  split_and!; (eapply Hf || eapply Hw); elf_layout_cases; lia.
Qed.

Lemma inside_readable off sz :
  0 ≤ off → 0 ≤ sz → outside file_sz off sz = false →
  uptr (sp_base map + off) = sp_base map + off ∧ readable (sp_base map + off) sz.
Proof using Hmap Hsz.
  intros Ho Hs E. unfold outside in E. zify_bools. destruct Hmap. unfold readable, sp_end in *.
  rewrite uptr_small by lia. lia.
Qed.

Lemma scan_section_eq sh e_shnum i st s :
  readable sh (e_shnum * shdr_size elfw) → 0 ≤ i < e_shnum → scan_ok st →
  scan_section map file_sz sh e_shnum bias ip i st s = Done (scan_step sh e_shnum st i) s ∧
  scan_ok (scan_step sh e_shnum st i).
Proof using Hmap Hsz.
  intros Hsh Hi Hst. pose proof (shdr_readable _ _ _ Hsh Hi) as Hh.
  unfold scan_section, scan_step. set (hdr := uptr (sh + i * shdr_size elfw)) in *.
  destruct (shdr_fields hdr s Hh) as ((E1 & E2 & Hl) & (E3 & E4 & E5) & Ho & Hz).
  cbv zeta. unfold bind at 1 2 3. rewrite E1, E3, E2. unfold symtab_usable.
  destruct (_ =? SHT_SYMTAB); [|done]. destruct (_ =? sym_size elfw); [|done]. cbn [negb orb andb].
  rewrite (Z.leb_antisym (fieldz 4 (hdr + sh_link_at elfw)) e_shnum).
  destruct (Z.ltb_spec (fieldz 4 (hdr + sh_link_at elfw)) e_shnum) as [Hlt|]; [|done].
  cbn [negb andb].
  pose proof (shdr_readable sh e_shnum _ Hsh (conj Hl Hlt)) as Hstr.
  fold (table_strtab_sz sh hdr). unfold table_strtab, table_strtab_sz.
  set (str_sh := uptr (sh + fieldz 4 (hdr + sh_link_at elfw) * shdr_size elfw)) in *.
  destruct (shdr_fields str_sh s Hstr) as (_ & (_ & E6 & E7) & Ho' & Hz').
  unfold bind at 1 2 3 4. rewrite E4, E5, E6, E7.
  destruct (outside file_sz (wordz (hdr + sh_offset_at elfw)) _) eqn:Eo; [done|].
  destruct (outside file_sz (wordz (str_sh + sh_offset_at elfw)) _) eqn:Eo'; [done|].
  destruct (inside_readable _ _ Ho Hz Eo) as [Eu Hr], (inside_readable _ _ Ho' Hz' Eo') as [Eu' Hr'].
  cbn [negb orb andb]. unfold bind. unfold table_symbols. rewrite Eu, Eu'. pose proof sym_size_pos.
  destruct (scan_symbols_eq (sp_base map + wordz (hdr + sh_offset_at elfw))
    (wordz (hdr + sh_size_at elfw) / sym_size elfw) (wordz (str_sh + sh_size_at elfw))
    (sc_best st) s) as [-> Hb].
  - destruct Hr as [? ?]. split; [done|].
    pose proof (Z.mul_div_le (wordz (hdr + sh_size_at elfw)) (sym_size elfw)). lia.
  - apply Hst.
  - split; [done|]. split_and!; [done|done|]. by intros t [= <-].
Qed.

(** *** The name *)

(** The string of at most [max] bytes at [name]. *)
Definition name_at (name max : Z) : list byte :=
  until_nul (take (Z.to_nat max) (drop (Z.to_nat (name - sp_base map)) (sp_bytes map))).

(** The bytes of a readable range. *)
Lemma read_range name max (i : nat) b :
  readable name max →
  take (Z.to_nat max) (drop (Z.to_nat (name - sp_base map)) (sp_bytes map)) !! i = Some b →
  sp_read map (uptr (name + Z.of_nat i)) = Some b.
Proof using Hmap.
  intros [Hn Hm] Hi. apply lookup_take_Some in Hi as [Hi Hlt]. rewrite lookup_drop in Hi.
  destruct Hmap. rewrite uptr_small by lia. unfold sp_read.
  rewrite (proj2 (Z.ltb_ge _ _)) by lia. rewrite <- Hi. f_equal. lia.
Qed.

Lemma length_range name max :
  readable name max → 0 ≤ max →
  length (take (Z.to_nat max) (drop (Z.to_nat (name - sp_base map)) (sp_bytes map))) = Z.to_nat max.
Proof.
  intros [Hn Hm] H0. rewrite length_take, length_drop. unfold sp_end, sp_len in *. lia.
Qed.

Lemma name_len_from fuel name max l (i : nat) s :
  (∀ (k : nat) b, l !! k = Some b → sp_read map (uptr (name + Z.of_nat k)) = Some b) →
  Z.of_nat (length l) = max → (i ≤ length l)%nat → (length l - i < fuel)%nat →
  name_len map fuel name max (Z.of_nat i) s =
  Done (Z.of_nat i + Z.of_nat (length (until_nul (drop i l)))) s.
Proof.
  intros Hl Hmax. revert i. induction fuel as [|fuel IH]; intros i Hi Hf; [lia|].
  cbn [name_len]. destruct (Z.ltb_spec (Z.of_nat i) max).
  - destruct (lookup_lt_is_Some_2 l i) as [b Hb]; [lia|].
    rewrite (drop_S l b i Hb). unfold bind. rewrite (Hl i b Hb). cbn [of_option ret until_nul].
    destruct (is_nul b); [cbn [length]; by rewrite Z.add_0_r|].
    replace (Z.of_nat i + 1) with (Z.of_nat (Datatypes.S i)) by lia.
    rewrite IH by lia. f_equal. cbn [length]. lia.
  - rewrite drop_ge by lia. cbn [until_nul length]. by rewrite Z.add_0_r.
Qed.

Lemma name_len_eq name max s :
  readable name max → 0 ≤ max →
  name_len map (Datatypes.S (Z.to_nat max)) name max 0 s =
  Done (Z.of_nat (length (name_at name max))) s.
Proof using Hmap.
  intros Hr H0. pose proof (length_range name max Hr H0) as Hlen.
  rewrite (name_len_from _ name max _ 0 s (λ k b, read_range name max k b Hr));
    [done|rewrite Hlen; lia|lia|rewrite Hlen; lia].
Qed.

Lemma copy_name_eq out_sz name l s :
  (∀ (k : nat) b, l !! k = Some b → sp_read map (uptr (name + Z.of_nat k)) = Some b) →
  Z.of_nat (length l) ≤ out_sz →
  copy_name map out_sz name (Z.of_nat (length l)) s =
  Done tt (ElfSt (arr_write (el_out s) 0 l) (el_log s)).
Proof.
  intros Hl Hsize. unfold copy_name, for_range. rewrite Z.sub_0_r, Nat2Z.id.
  assert (Hbyte : ∀ (i : nat) b s, l !! i = Some b →
    copy_byte map out_sz name (Z.of_nat i) s =
    Done tt (ElfSt (<[Z.of_nat i := b]> (el_out s)) (el_log s))).
  { intros i b s' Hb. unfold copy_byte, bind. rewrite (Hl i b Hb). simpl.
    unfold arr_store. rewrite (proj2 (in_bounds_true _ _)); [done|].
    apply lookup_lt_Some in Hb. lia. }
  cut (∀ n (i : nat) s, (i + n = length l)%nat →
    for_steps n (Z.of_nat i) (λ i _, copy_byte map out_sz name i) tt s =
    Done tt (ElfSt (arr_write (el_out s) (Z.of_nat i) (drop i l)) (el_log s))).
  { intros Hsteps. by apply (Hsteps (length l) 0%nat). }
  induction n as [|n IH]; intros i s' Hn.
  - rewrite drop_ge by lia. by destruct s'.
  - destruct (lookup_lt_is_Some_2 l i) as [b Hb]; [lia|].
    rewrite (drop_S l b i Hb). cbn [for_steps]. unfold bind. rewrite (Hbyte i b) by done.
    replace (Z.of_nat i + 1) with (Z.of_nat (Datatypes.S i)) by lia.
    rewrite IH by lia. cbn [arr_write el_out el_log]. do 3 f_equal. lia.
Qed.

(** The name of the symbol kept, in the string table kept. *)
Definition scan_name (st : scan_st) : list byte :=
  match sc_best st, sc_strtab st with
  | Some b, Some t =>
      let st_name := fieldz 4 (b + st_name_at elfw) in
      if sc_strtab_sz st <=? st_name then [] else name_at (t + st_name) (sc_strtab_sz st - st_name)
  | _, _ => []
  end.

(** The buffer with a string written to it. *)
Definition with_name (w : list byte) (s : elf_st) : elf_st :=
  ElfSt (<[Z.of_nat (length w) := x00]> (arr_write (el_out s) 0 w)) (el_log s).

Lemma emit_name_eq out_sz st s :
  0 < out_sz → scan_ok st →
  emit_name map out_sz st s =
  match scan_name st with
  | [] => Done false s
  | name => Done true (with_name (take (Z.to_nat (out_sz - 1)) name) s)
  end.
Proof using Hmap.
  intros Hout (Hb & H0 & Ht). unfold emit_name, scan_name.
  destruct (sc_best st) as [b|]; [|done]. destruct (sc_strtab st) as [t|]; [|done].
  specialize (Hb b eq_refl). specialize (Ht t eq_refl).
  destruct (sym_fields b s Hb) as (_ & _ & E & _). unfold bind at 1. rewrite E.
  assert (Hn : 0 ≤ fieldz 4 (b + st_name_at elfw)).
  { destruct (field_eq 4 (b + st_name_at elfw) s) as [_ [? _]]; [|done].
    eapply readable_field; [exact Hb|elf_layout_cases; lia|elf_layout_cases; lia]. }
  set (st_name := fieldz 4 (b + st_name_at elfw)) in *.
  destruct (Z.leb_spec (sc_strtab_sz st) st_name); [done|]. cbv zeta.
  assert (Hr : readable (t + st_name) (sc_strtab_sz st - st_name))
    by (destruct Ht; unfold readable; lia).
  destruct Hmap as [Hm1 Hm2]. rewrite (uptr_small (t + st_name)) by (destruct Hr; lia).
  unfold bind at 1. rewrite name_len_eq by (done || lia).
  pose proof (read_range (t + st_name) (sc_strtab_sz st - st_name)) as Hread.
  set (name := name_at _ _).
  assert (Hname : ∀ (k : nat) c, name !! k = Some c →
    sp_read map (uptr (t + st_name + Z.of_nat k)) = Some c).
  { intros k c Hk. by apply Hread, until_nul_lookup. }
  destruct name as [|c0 name'] eqn:En; [done|]. rewrite <- En in *.
  assert (0 < Z.of_nat (length name)) by (rewrite En; simpl; lia).
  rewrite (proj2 (Z.ltb_lt _ _)) by done.
  set (w := take (Z.to_nat (out_sz - 1)) name).
  assert (Hw : (if out_sz <=? Z.of_nat (length name) then out_sz - 1 else Z.of_nat (length name))
               = Z.of_nat (length w)).
  { unfold w. rewrite length_take. destruct (Z.leb_spec out_sz (Z.of_nat (length name))); lia. }
  rewrite Hw. unfold bind at 1. rewrite copy_name_eq.
  - unfold bind, get, arr_store, put, ret. cbn [el_out el_log].
    rewrite (proj2 (in_bounds_true _ _)); [done|]. unfold w. rewrite length_take. lia.
  - intros k c Hk. apply Hname. unfold w in Hk. by apply lookup_take_Some in Hk as [Hk _].
  - unfold w. rewrite length_take. lia.
Qed.

(** *** The whole search *)

Definition elf_magic_ok : bool :=
  ((fieldz 1 (sp_base map) =? 0x7f) && (fieldz 1 (sp_base map + 1) =? 0x45) &&
   (fieldz 1 (sp_base map + 2) =? 0x4c) && (fieldz 1 (sp_base map + 3) =? 0x46))%bool.

Definition elf_shoff : Z := wordz (sp_base map + e_shoff_at elfw).
Definition elf_shnum : Z := fieldz 2 (sp_base map + e_shnum_at elfw).

(** The file has an ELF header, and its section headers are inside it. *)
Definition elf_header_ok : bool :=
  ((ehdr_size elfw <=? file_sz) && elf_magic_ok &&
   (fieldz 2 (sp_base map + e_shentsize_at elfw) =? shdr_size elfw) &&
   negb (elf_shoff =? 0) && negb (outside file_sz elf_shoff (elf_shnum * shdr_size elfw)))%bool.

(** The scan of all the sections. *)
Definition elf_scan : scan_st :=
  foldl (scan_step (sp_base map + elf_shoff) elf_shnum) (ScanSt None None 0) (seqZ 0 elf_shnum).

Lemma elf_magic_eq s : ehdr_size elfw ≤ file_sz → elf_magic map s = Done elf_magic_ok s.
Proof using Hmap Hsz.
  intros Hsize.
  assert (Hf : ∀ k, 0 ≤ k < 4 → field map 1 (sp_base map + k) s = Done (fieldz 1 (sp_base map + k)) s).
  { intros k Hk. apply field_eq. unfold readable, sp_end. elf_layout_cases; lia. }
  pose proof (Hf 0 ltac:(lia)) as Hf0. rewrite Z.add_0_r in Hf0.
  unfold elf_magic, elf_magic_ok. unfold bind at 1. rewrite Hf0.
  destruct (_ =? 0x7f); [|done]. cbn [negb andb]. unfold bind at 1. rewrite Hf by lia.
  destruct (_ =? 0x45); [|done]. cbn [negb andb]. unfold bind at 1. rewrite Hf by lia.
  destruct (_ =? 0x4c); [|done]. cbn [negb andb]. unfold bind at 1. by rewrite Hf by lia.
Qed.

Lemma elf_search_eq out_sz s :
  0 < out_sz →
  elf_search map file_sz bias ip out_sz s =
  if elf_header_ok then
    match scan_name elf_scan with
    | [] => Done false s
    | name => Done true (with_name (take (Z.to_nat (out_sz - 1)) name) s)
    end
  else Done false s.
Proof using Hmap Hsz.
  intros Hout. unfold elf_search, elf_header_ok.
  rewrite (Z.ltb_antisym (ehdr_size elfw) file_sz).
  destruct (Z.leb_spec (ehdr_size elfw) file_sz) as [Hsize|]; [|done]. cbn [negb andb].
  unfold bind at 1. rewrite elf_magic_eq by done. destruct elf_magic_ok; [|done]. cbn [negb andb].
  assert (Hr : readable (sp_base map) (ehdr_size elfw)) by (unfold readable, sp_end; lia).
  assert (Hf : ∀ at_, 0 ≤ at_ → at_ + 2 ≤ ehdr_size elfw →
    field map 2 (sp_base map + at_) s = Done (fieldz 2 (sp_base map + at_)) s ∧
    0 ≤ fieldz 2 (sp_base map + at_) < 2 ^ 16).
  { intros. apply (field_eq 2). by eapply readable_field. }
  destruct (Hf (e_shentsize_at elfw)) as [E1 _]; [elf_layout_cases; lia..|].
  destruct (Hf (e_shnum_at elfw)) as [E2 Hnum]; [elf_layout_cases; lia..|].
  destruct (word_field_eq (sp_base map + e_shoff_at elfw) s) as [E3 Hoff].
  { eapply readable_field; [exact Hr|elf_layout_cases; lia|elf_layout_cases; lia]. }
  unfold bind at 1 2. rewrite E1, E3. fold elf_shoff in *. fold elf_shnum in *.
  destruct (fieldz 2 _ =? shdr_size elfw); [|done]. destruct (elf_shoff =? 0); [done|].
  cbn [negb orb andb]. unfold bind at 1. rewrite E2.
  assert (Hb : uptr (elf_shnum * shdr_size elfw) = elf_shnum * shdr_size elfw).
  { apply uptr_small32. elf_layout_cases; lia. }
  rewrite Hb. fold (outside file_sz elf_shoff (elf_shnum * shdr_size elfw)).
  destruct (outside file_sz elf_shoff (elf_shnum * shdr_size elfw)) eqn:Eo; [done|]. cbn [negb].
  destruct (inside_readable elf_shoff (elf_shnum * shdr_size elfw)) as [Eu Hsh];
    [lia|elf_layout_cases; lia|done|]. rewrite Eu.
  unfold bind at 1, elf_scan.
  destruct (for_range_pure scan_ok (scan_step (sp_base map + elf_shoff) elf_shnum) 0 elf_shnum
    (scan_section map file_sz (sp_base map + elf_shoff) elf_shnum bias ip) (ScanSt None None 0) s)
    as [E4 Hok].
  - by split_and!.
  - intros i st Hi Hst. by apply scan_section_eq.
  - rewrite E4. rewrite Z.sub_0_r in *. by apply emit_name_eq.
Qed.
End elf_spec.

(** ** The symbol that is chosen *)

Section choice.
Context `{Platform} (map : span) (bias ip : Z).

(** The fold keeps a symbol around the address with the greatest start. *)
Lemma foldl_pick sz l best :
  let r := foldl (pick map bias ip sz) best l in
  (∀ b, r = Some b → best = Some b ∨ (b ∈ l ∧ sym_around map bias ip sz b = true)) ∧
  (∀ a, best = Some a ∨ (a ∈ l ∧ sym_around map bias ip sz a = true) →
        ∃ b, r = Some b ∧ sym_start map bias a ≤ sym_start map bias b).
Proof.
  revert best. induction l as [|x l IH]; intros best r.
  - split; [by left|]. intros a [->|[Hin _]]; [by exists a|by apply elem_of_nil in Hin].
  - destruct (IH (pick map bias ip sz best x)) as [IH1 IH2]. fold r in IH1, IH2.
    assert (Hx : ∀ a, best = Some a ∨ (a = x ∧ sym_around map bias ip sz a = true) →
      ∃ b, pick map bias ip sz best x = Some b ∧ sym_start map bias a ≤ sym_start map bias b).
    { intros a Ha. unfold pick. destruct (sym_around map bias ip sz x) eqn:Ex.
      - destruct best as [b|]; [|destruct Ha as [?|[-> _]]; [done|by exists x]].
        destruct (Z.leb_spec (sym_start map bias b) (sym_start map bias x)).
        + exists x. split; [done|]. destruct Ha as [[= ->]|[-> _]]; [done|lia].
        + exists b. split; [done|]. destruct Ha as [[= ->]|[-> _]]; lia.
      - destruct Ha as [->|[-> ?]]; [by exists a|congruence]. }
    split.
    + intros b Hb. destruct (IH1 b Hb) as [Hp|[Hin ?]].
      * unfold pick in Hp. destruct (sym_around map bias ip sz x) eqn:Ex; [|by left].
        destruct best as [b'|]; [case_match|]; simplify_eq;
          (by left) || (right; split; [apply list_elem_of_here|done]).
      * right. split; [by apply list_elem_of_further|done].
    + intros a Ha.
      assert (Ha' : (best = Some a ∨ (a = x ∧ sym_around map bias ip sz a = true)) ∨
                    (a ∈ l ∧ sym_around map bias ip sz a = true)).
      { destruct Ha as [?|[[->|?]%elem_of_cons ?]]; auto. }
      destruct Ha' as [Ha'|Ha']; [|by apply IH2; right].
      destruct (Hx a Ha') as (b & Eb & Hle). destruct (IH2 b (or_introl Eb)) as (b' & ? & ?).
      exists b'. split; [done|lia].
Qed.

Lemma foldl_pick_none sz l best :
  (∀ a, a ∈ l → sym_around map bias ip sz a = false) → foldl (pick map bias ip sz) best l = best.
Proof.
  revert best. induction l as [|x l IH]; intros best Hl; [done|]. cbn [foldl].
  rewrite IH by (intros; apply Hl; by apply list_elem_of_further).
  unfold pick. by rewrite Hl by apply list_elem_of_here.
Qed.

Section tables.
Context (file_sz sh e_shnum : Z).
Local Abbreviation usable i := (symtab_usable map file_sz sh e_shnum (uptr (sh + i * shdr_size elfw))).
Local Abbreviation scan := (foldl (scan_step map bias ip file_sz sh e_shnum)).

(** Sections that are no usable symbol tables are passed over. *)
Lemma scan_skip st lo n :
  (∀ i, lo ≤ i < lo + n → usable i = false) → scan st (seqZ lo n) = st.
Proof.
  intros Hl. assert (Hin : ∀ i, i ∈ seqZ lo n → usable i = false)
    by (intros i [? ?]%elem_of_seqZ; apply Hl; lia). clear Hl. revert st.
  induction (seqZ lo n) as [|i l IH]; intros st; [done|]. cbn [foldl].
  rewrite IH by (intros; apply Hin; by apply list_elem_of_further).
  unfold scan_step. by rewrite Hin by apply list_elem_of_here.
Qed.

(** Up to the next usable one. *)
Lemma scan_next st lo k n :
  lo ≤ k < n → (∀ i, lo ≤ i < k → usable i = false) →
  scan st (seqZ lo (n - lo)) =
  scan (scan_step map bias ip file_sz sh e_shnum st k) (seqZ (k + 1) (n - (k + 1))).
Proof.
  intros Hk Hl. replace (n - lo) with ((k - lo) + (1 + (n - (k + 1)))) by lia.
  rewrite seqZ_app, foldl_app by lia. rewrite (scan_skip st lo (k - lo)) by (intros; apply Hl; lia).
  replace (lo + (k - lo)) with k by lia. by rewrite (seqZ_app k 1) by lia.
Qed.

(** With one usable symbol table, the scan is that of this table. *)
Lemma scan_one k st :
  0 ≤ k < e_shnum → (∀ i, 0 ≤ i < e_shnum → usable i = true → i = k) →
  scan st (seqZ 0 e_shnum) = scan_step map bias ip file_sz sh e_shnum st k.
Proof.
  intros Hk Hone.
  assert (Hskip : ∀ i, 0 ≤ i < e_shnum → i ≠ k → usable i = false)
    by (intros i Hi Hne; destruct (usable i) eqn:E; [by apply Hone in E|done]).
  pose proof (scan_next st 0 k e_shnum Hk) as Hnext. rewrite Z.sub_0_r in Hnext.
  rewrite Hnext by (intros; apply Hskip; lia). apply scan_skip. intros. apply Hskip; lia.
Qed.

(** With two, it is that of the one and then of the other. *)
Lemma scan_two k1 k2 st :
  0 ≤ k1 < k2 → k2 < e_shnum → (∀ i, 0 ≤ i < e_shnum → usable i = true → i = k1 ∨ i = k2) →
  scan st (seqZ 0 e_shnum) =
  scan_step map bias ip file_sz sh e_shnum (scan_step map bias ip file_sz sh e_shnum st k1) k2.
Proof.
  intros Hk1 Hk2 Htwo.
  assert (Hskip : ∀ i, 0 ≤ i < e_shnum → i ≠ k1 → i ≠ k2 → usable i = false)
    by (intros i Hi ??; destruct (usable i) eqn:E; [by apply Htwo in E as [-> | ->]|done]).
  pose proof (scan_next st 0 k1 e_shnum ltac:(lia)) as Hnext. rewrite Z.sub_0_r in Hnext.
  rewrite Hnext by (intros; apply Hskip; lia). rewrite (scan_next _ _ k2) by (lia || (intros; apply Hskip; lia)).
  apply scan_skip. intros. apply Hskip; lia.
Qed.
End tables.
End choice.

(** ** Properties *)

(** What [mmap] promises: the mapping is in the address space and has the size
    asked for. *)
Definition mmap_ok `{Platform} (os : elf_os) : Prop :=
  ∀ fd sz map, os_mmap os fd sz = Some map → span_ok map ∧ sp_len map = sz.

(** Every descriptor opened is closed and every mapping unmapped. *)
Definition released (l : list os_event) : Prop :=
  omap (λ e, match e with EvOpen fd => Some fd | _ => None end) l =
  omap (λ e, match e with EvClose fd => Some fd | _ => None end) l ∧
  omap (λ e, match e with EvMmap a n => Some (a, n) | _ => None end) l =
  omap (λ e, match e with EvMunmap a n => Some (a, n) | _ => None end) l.

(** The outcome of a lookup: the buffer is untouched, or holds a C string of at
    least one byte that fits. *)
Definition sname_result (out_sz : Z) (ok : bool) (s s' : elf_st) : Prop :=
  if ok then ∃ w, is_cstr (arr_cptr out_sz (el_out s')) w ∧ Z.of_nat (length w) < out_sz
  else el_out s' = el_out s.

(** Reading the buffer back. *)
Lemma until_nul_buf cap (out : gmap Z byte) w :
  is_cstr (arr_cptr cap out) w → Z.of_nat (length w) < cap →
  until_nul (arr_seg x00 out 0 cap) = w.
Proof.
  intros (Hw & Hnul & Hno) Hlen.
  assert (Hcell : ∀ (i : nat) b, arr_cptr cap out (Z.of_nat i) = Some b → out !! Z.of_nat i = Some b).
  { intros i b. unfold arr_cptr. by case_match. }
  assert (E : take (S (length w)) (arr_seg x00 out 0 cap) = w ++ [x00]).
  { apply list_eq. intros i. destruct (decide (i < S (length w))%nat) as [Hi|Hi].
    - rewrite lookup_take_lt by done. rewrite lookup_arr_seg, Z.add_0_l by lia.
      destruct (decide (i = length w)) as [->|Hne].
      + rewrite lookup_app_r, Nat.sub_diag by lia. by rewrite (Hcell _ _ Hnul).
      + destruct (lookup_lt_is_Some_2 w i) as [b Hb]; [lia|].
        rewrite lookup_app_l by lia. by rewrite Hb, (Hcell _ _ (Hw _ _ Hb)).
    - rewrite !lookup_ge_None_2; [done|rewrite length_app; simpl; lia|].
      rewrite length_take. lia. }
  rewrite <- (take_drop (S (length w)) (arr_seg x00 out 0 cap)), E, <- app_assoc.
  by apply until_nul_app.
Qed.

(** The name a file has for an address; empty when it has none. *)
Definition elf_name `{Platform} (map : span) (bias ip : Z) : list byte :=
  if elf_header_ok map (sp_len map) then scan_name map (elf_scan map bias ip (sp_len map)) else [].

(** The file that is mapped for a path, if the code gets that far. *)
Definition mapped_elf `{Platform} (os : elf_os) (path : option (list byte)) : option span :=
  match path with
  | None | Some [] => None
  | Some path =>
      fd ← os_open os path;
      st_size ← os_fstat os fd;
      if st_size <=? 0 then None else os_mmap os fd (uptr st_size)
  end.

Definition file_name `{Platform} (os : elf_os) (path : option (list byte)) (bias ip : Z) : list byte :=
  match mapped_elf os path with Some map => elf_name map bias ip | None => [] end.

(** The outcome of a lookup of something that has the name [name]. *)
Definition sname_named (name : list byte) (out_sz : Z) (ok : bool) (s s' : elf_st) : Prop :=
  match name with
  | [] => ok = false ∧ el_out s' = el_out s
  | _ => ok = true ∧ is_cstr (arr_cptr out_sz (el_out s')) (take (Z.to_nat (out_sz - 1)) name)
  end.

Lemma sname_named_result name out_sz ok s s' : 0 < out_sz →
  sname_named name out_sz ok s s' → sname_result out_sz ok s s'.
Proof.
  intros Hout. destruct name as [|c name]; intros [-> Hn]; [done|].
  eexists. split; [exact Hn|]. rewrite length_take. lia.
Qed.

Lemma elf_search_named `{Platform} map bias ip out_sz s :
  span_ok map → 0 < out_sz →
  ∃ ok s', elf_search map (sp_len map) bias ip out_sz s = Done ok s' ∧
    sname_named (elf_name map bias ip) out_sz ok s s' ∧ el_log s' = el_log s.
Proof.
  intros Hmap Hout. rewrite (elf_search_eq map Hmap bias ip _ eq_refl out_sz s Hout). unfold elf_name.
  destruct (elf_header_ok map (sp_len map)); [|by exists false, s].
  destruct (scan_name map (elf_scan map bias ip (sp_len map))) as [|c name] eqn:E; [by exists false, s|].
  eexists true, _. split; [done|]. split; [|done]. split; [done|].
  set (w := take (Z.to_nat (out_sz - 1)) (c :: name)).
  assert (Hlen : Z.of_nat (length w) < out_sz) by (unfold w; rewrite length_take; lia).
  apply is_cstr_buf; [done|]. unfold w. apply Forall_take.
  rewrite <- E. unfold scan_name. repeat case_match; try constructor. apply until_nul_no_nul.
Qed.

Lemma bw_elf_sname_named `{Platform} os path bias ip out_sz s :
  mmap_ok os → 0 < out_sz →
  ∃ ok s' l, bw_elf_sname os path bias ip out_sz s = Done ok s' ∧
    sname_named (file_name os path bias ip) out_sz ok s s' ∧ el_log s' = el_log s ++ l ∧ released l.
Proof.
  intros Hos Hsz. unfold bw_elf_sname, file_name, mapped_elf.
  assert (Hnone : ∃ ok s' l, Done (S:=elf_st) false s = Done ok s' ∧
    sname_named [] out_sz ok s s' ∧ el_log s' = el_log s ++ l ∧ released l).
  { exists false, s, []. by rewrite app_nil_r. }
  destruct path as [[|c path]|]; [done| |done]. rewrite (proj2 (Z.eqb_neq out_sz 0)) by lia.
  destruct (os_open os (c :: path)) as [fd|]; [|done]. unfold log_event, bind, get, put, ret; simpl.
  assert (Hclose : ∃ ok s' l, Done (S:=elf_st) false (ElfSt (el_out s) ((el_log s ++ [EvOpen fd]) ++ [EvClose fd])) = Done ok s' ∧
    sname_named [] out_sz ok s s' ∧ el_log s' = el_log s ++ l ∧ released l).
  { eexists false, _, [EvOpen fd; EvClose fd]. split_and!; [done|done|by rewrite <- app_assoc|by split]. }
  destruct (os_fstat os fd) as [st_size|]; [|exact Hclose]. cbn [mbind option_bind].
  destruct (st_size <=? 0); [exact Hclose|].
  destruct (os_mmap os fd (uptr st_size)) as [map|] eqn:Em; [|exact Hclose].
  destruct (Hos _ _ _ Em) as [Hmap Hlen]. rewrite <- Hlen.
  set (s1 := ElfSt _ _).
  destruct (elf_search_named map bias ip out_sz s1 Hmap Hsz) as (ok & s' & -> & Hres & Hlog).
  eexists ok, _, [EvOpen fd; EvMmap (sp_base map) (sp_len map); EvClose fd;
                  EvMunmap (sp_base map) (sp_len map)].
  split_and!; [done|exact Hres|simpl; rewrite Hlog; unfold s1; cbn [el_log]; by rewrite <- !app_assoc|by split].
Qed.

Lemma bw_elf_sname_result `{Platform} os path bias ip out_sz s :
  mmap_ok os → 0 ≤ out_sz →
  ∃ ok s' l, bw_elf_sname os path bias ip out_sz s = Done ok s' ∧
    sname_result out_sz ok s s' ∧ el_log s' = el_log s ++ l ∧ released l.
Proof.
  intros Hos Hsz. destruct (decide (out_sz = 0)) as [->|Hne].
  - exists false, s, []. rewrite app_nil_r. split_and!; [|done|done|done].
    unfold bw_elf_sname. by destruct path as [[|c path]|].
  - destruct (bw_elf_sname_named os path bias ip out_sz s Hos ltac:(lia)) as (ok & s' & l & ? & Hn & ? & ?).
    exists ok, s', l. split_and!; [done| |done|done]. eapply sname_named_result, Hn. lia.
Qed.

(** C6. [bw_elf_sname] is safe on every file: whatever the bytes of the file, it
    terminates and reads only the mapping it made and writes only the caller's
    buffer; it answers true with a NUL-terminated name in the buffer, or false
    with the buffer untouched; and on every path it has closed the file and
    removed the mapping. *)
Theorem bw_elf_sname_safe `{Platform} os path bias ip out_sz s :
  mmap_ok os → 0 ≤ out_sz →
  ∃ ok s' l, bw_elf_sname os path bias ip out_sz s = Done ok s' ∧
    sname_result out_sz ok s s' ∧ el_log s' = el_log s ++ l ∧ released l.
Proof. apply bw_elf_sname_result. Qed.

(** *** Concrete files *)

Definition elf_ehdr (e_shoff e_shnum : Z) : list byte :=
  [x7f; x45; x4c; x46] ++ replicate 36 x00 ++ le_bytes 8 e_shoff ++ replicate 10 x00
    ++ le_bytes 2 64 ++ le_bytes 2 e_shnum ++ le_bytes 2 0.
Definition elf_shdr (type offset size link entsize : Z) : list byte :=
  le_bytes 4 0 ++ le_bytes 4 type ++ replicate 16 x00 ++ le_bytes 8 offset ++ le_bytes 8 size
    ++ le_bytes 4 link ++ replicate 12 x00 ++ le_bytes 8 entsize.
Definition elf_sym (name info shndx value size : Z) : list byte :=
  le_bytes 4 name ++ le_bytes 1 info ++ [x00] ++ le_bytes 2 shndx ++ le_bytes 8 value
    ++ le_bytes 8 size.

(** One function, [0x1000, 0x1010), named "f". *)
Definition elf_ex : span :=
  Span 0x10000 (elf_ehdr 64 3 ++ elf_shdr 0 0 0 0 0 ++ elf_shdr 2 256 48 2 24
    ++ elf_shdr 3 304 3 0 0 ++ elf_sym 0 0 0 0 0 ++ elf_sym 1 0x12 1 0x1000 0x10
    ++ [x00; x66; x00]).

(** Two symbol tables: the function is in the first and named "f" there; the
    string table of the second holds "g" at the same offset. *)
Definition elf_two : span :=
  Span 0x10000 (elf_ehdr 64 5 ++ elf_shdr 0 0 0 0 0 ++ elf_shdr 2 384 48 2 24
    ++ elf_shdr 3 456 3 0 0 ++ elf_shdr 2 432 24 4 24 ++ elf_shdr 3 459 3 0 0
    ++ elf_sym 0 0 0 0 0 ++ elf_sym 1 0x12 1 0x1000 0x10 ++ elf_sym 0 0 0 0 0
    ++ [x00; x66; x00] ++ [x00; x67; x00]).

(** A system with one file. *)
Definition os_of (map : span) : elf_os :=
  ElfOs (λ _, Some 3) (λ _, Some (sp_len map))
    (λ _ sz, if sz =? sp_len map then Some map else None).

Lemma os_of_ok map : span_ok (H:=plat64) map → mmap_ok (H:=plat64) (os_of map).
Proof.
  intros Hmap fd sz map'. simpl. destruct (Z.eqb_spec sz (sp_len map)); [|done]. by intros [= <-].
Qed.

Lemma bw_elf_sname_safe_witness :
  ∃ ok s' l, bw_elf_sname (H:=plat64) (os_of elf_ex) (Some [x61]) 0 0x1004 16 (ElfSt ∅ []) =
      Done ok s' ∧
    sname_result 16 ok (ElfSt ∅ []) s' ∧ el_log s' = [] ++ l ∧ released l.
Proof.
  apply (bw_elf_sname_safe (H:=plat64)); [|concrete]. apply os_of_ok. concrete.
Defined.

(** C14. In a file with one symbol table, [bw_elf_sname]'s search chooses the named
    function symbol around [ip] with the greatest start address and copies its
    name, cut to the buffer, and it answers false when no such symbol is in the
    table. *)
Theorem elf_search_finds `{Platform} map bias ip out_sz s k :
  let sh := sp_base map + elf_shoff map in
  let hdr i := uptr (sh + i * shdr_size elfw) in
  let usable i := symtab_usable map (sp_len map) sh (elf_shnum map) (hdr i) in
  let around := sym_around map bias ip (table_strtab_sz map sh (hdr k)) in
  span_ok map → 0 < out_sz → elf_header_ok map (sp_len map) = true →
  0 ≤ k < elf_shnum map → usable k = true →
  (∀ i, 0 ≤ i < elf_shnum map → usable i = true → i = k) →
  (∃ b, b ∈ table_symbols map (hdr k) ∧ around b = true ∧
     (∀ a, a ∈ table_symbols map (hdr k) → around a = true →
        sym_start map bias a ≤ sym_start map bias b) ∧
     elf_search map (sp_len map) bias ip out_sz s =
       let st_name := fieldz map 4 (b + st_name_at elfw) in
       match name_at map (table_strtab map sh (hdr k) + st_name)
               (table_strtab_sz map sh (hdr k) - st_name) with
       | [] => Done false s
       | name => Done true (with_name (take (Z.to_nat (out_sz - 1)) name) s)
       end) ∨
  ((∀ a, a ∈ table_symbols map (hdr k) → around a = false) ∧
   elf_search map (sp_len map) bias ip out_sz s = Done false s).
Proof.
  intros sh hdr usable around Hmap Hout Hok Hk Hu Hone.
  rewrite (elf_search_eq map Hmap bias ip _ eq_refl out_sz s Hout), Hok. unfold elf_scan.
  rewrite (scan_one map bias ip _ _ _ k) by done. unfold scan_step. fold sh. fold (hdr k).
  fold (usable k). rewrite Hu. cbn [sc_best].
  set (sz := table_strtab_sz map sh (hdr k)) in *.
  destruct (foldl_pick map bias ip sz (table_symbols map (hdr k)) None) as [Hr Hmax].
  unfold scan_name. cbn [sc_best sc_strtab sc_strtab_sz].
  destruct (foldl (pick map bias ip sz) None (table_symbols map (hdr k))) as [b|].
  - left. exists b. destruct (Hr b eq_refl) as [?|[Hin Hb]]; [done|]. split_and!; [done|done| |].
    + intros a Ha Haa. destruct (Hmax a (or_intror (conj Ha Haa))) as (b' & [= <-] & ?). done.
    + unfold sym_around in Hb. zify_bools. cbv zeta.
      rewrite (proj2 (Z.leb_gt _ _)) by lia. done.
  - right. split; [|done]. intros a Ha. destruct (around a) eqn:Ea; [|done].
    destruct (Hmax a (or_intror (conj Ha Ea))) as (b & ? & _). done.
Qed.

Lemma elf_search_finds_witness :
  let sh := sp_base elf_ex + elf_shoff (H:=plat64) elf_ex in
  let hdr := uptr (H:=plat64) (sh + 1 * shdr_size (elfw (H:=plat64))) in
  let around := sym_around (H:=plat64) elf_ex 0 0x1004 (table_strtab_sz (H:=plat64) elf_ex sh hdr) in
  (∃ b, b ∈ table_symbols (H:=plat64) elf_ex hdr ∧ around b = true ∧
     (∀ a, a ∈ table_symbols (H:=plat64) elf_ex hdr → around a = true →
        sym_start (H:=plat64) elf_ex 0 a ≤ sym_start (H:=plat64) elf_ex 0 b) ∧
     elf_search (H:=plat64) elf_ex (sp_len elf_ex) 0 0x1004 16 (ElfSt ∅ []) =
       let st_name := fieldz (H:=plat64) elf_ex 4 (b + st_name_at (elfw (H:=plat64))) in
       match name_at elf_ex (table_strtab (H:=plat64) elf_ex sh hdr + st_name)
               (table_strtab_sz (H:=plat64) elf_ex sh hdr - st_name) with
       | [] => Done false (ElfSt ∅ [])
       | name => Done true (with_name (take (Z.to_nat (16 - 1)) name) (ElfSt ∅ []))
       end) ∨
  ((∀ a, a ∈ table_symbols (H:=plat64) elf_ex hdr → around a = false) ∧
   elf_search (H:=plat64) elf_ex (sp_len elf_ex) 0 0x1004 16 (ElfSt ∅ []) = Done false (ElfSt ∅ [])).
Proof.
  apply (elf_search_finds (H:=plat64) elf_ex 0 0x1004 16 (ElfSt ∅ []) 1); [concrete..|].
  intros i Hi. assert (E : elf_shnum (H:=plat64) elf_ex = 3) by concrete. rewrite E in Hi.
  assert (i = 0 ∨ i = 1 ∨ i = 2) as [-> | [-> | ->]] by lia; vm_compute; done.
Defined.

(** C38. With two symbol tables the name can come from the wrong string table.  The
    best symbol is kept across tables, but the string table is that of the table
    read last: when the symbol chosen, the one around [ip] with the greatest start,
    is in the first of two tables and none of the second is around [ip], the name
    that is copied is what the string table of the second has at the offset the
    symbol has in that of the first. *)
Theorem elf_second_table_wrong_name `{Platform} map bias ip out_sz s k1 k2 b :
  let sh := sp_base map + elf_shoff map in
  let hdr i := uptr (sh + i * shdr_size elfw) in
  let usable i := symtab_usable map (sp_len map) sh (elf_shnum map) (hdr i) in
  let around i := sym_around map bias ip (table_strtab_sz map sh (hdr i)) in
  span_ok map → 0 < out_sz → elf_header_ok map (sp_len map) = true →
  0 ≤ k1 < k2 → k2 < elf_shnum map → usable k1 = true → usable k2 = true →
  (∀ i, 0 ≤ i < elf_shnum map → usable i = true → i = k1 ∨ i = k2) →
  b ∈ table_symbols map (hdr k1) → around k1 b = true →
  (∀ a, a ∈ table_symbols map (hdr k1) → around k1 a = true → a = b ∨
     sym_start map bias a < sym_start map bias b) →
  (∀ a, a ∈ table_symbols map (hdr k2) → around k2 a = false) →
  elf_search map (sp_len map) bias ip out_sz s =
    let st_name := fieldz map 4 (b + st_name_at elfw) in
    let size := table_strtab_sz map sh (hdr k2) in
    match (if size <=? st_name then []
           else name_at map (table_strtab map sh (hdr k2) + st_name) (size - st_name)) with
    | [] => Done false s
    | name => Done true (with_name (take (Z.to_nat (out_sz - 1)) name) s)
    end.
Proof.
  intros sh hdr usable around Hmap Hout Hok Hk1 Hk2 Hu1 Hu2 Htwo Hb Hab Hmax Hnone.
  rewrite (elf_search_eq map Hmap bias ip _ eq_refl out_sz s Hout), Hok. unfold elf_scan.
  rewrite (scan_two map bias ip _ _ _ k1 k2) by done. unfold scan_step. fold sh. fold (hdr k1) (hdr k2).
  fold (usable k1) (usable k2). rewrite Hu1, Hu2. cbn [sc_best].
  rewrite (foldl_pick_none map bias ip _ (table_symbols map (hdr k2))) by apply Hnone.
  destruct (foldl_pick map bias ip (table_strtab_sz map sh (hdr k1)) (table_symbols map (hdr k1)) None)
    as [Hr Hge].
  destruct (Hge b (or_intror (conj Hb Hab))) as (b' & Eb & Hle). rewrite Eb.
  assert (b' = b) as ->.
  { destruct (Hr b' Eb) as [?|[Hin Ha]]; [done|]. destruct (Hmax b' Hin Ha); [done|lia]. }
  unfold scan_name. cbn [sc_best sc_strtab sc_strtab_sz]. reflexivity.
Qed.

(** Two symbol tables: the function "f" is in the first; the string table of the
    second holds "g" at the same offset, and "g" is the name that is copied. *)
Lemma elf_second_table_wrong_name_witness :
  elf_search (H:=plat64) elf_two (sp_len elf_two) 0 0x1004 16 (ElfSt ∅ []) =
  Done true (with_name [x67] (ElfSt ∅ [])).
Proof.
  rewrite (elf_second_table_wrong_name (H:=plat64) elf_two 0 0x1004 16 (ElfSt ∅ []) 1 3 (0x10000 + 384 + 24)).
  - vm_compute. reflexivity.
  - concrete.
  - concrete.
  - concrete.
  - concrete.
  - concrete.
  - concrete.
  - concrete.
  - intros i Hi. assert (E : elf_shnum (H:=plat64) elf_two = 5) by concrete. rewrite E in Hi.
    assert (i = 0 ∨ i = 1 ∨ i = 2 ∨ i = 3 ∨ i = 4) as Hc by lia.
    destruct Hc as [-> | [-> | [-> | [-> | ->]]]]; vm_compute; auto; done.
  - apply list_elem_of_further, list_elem_of_here.
  - concrete.
  - intros a Ha. assert (E : a = 0x10000 + 384 ∨ a = 0x10000 + 384 + 24).
    { vm_compute in Ha. apply elem_of_cons in Ha as [->|Ha]; [by left|].
      apply elem_of_cons in Ha as [->|Ha]; [by right|by apply elem_of_nil in Ha]. }
    destruct E as [-> | ->]; [vm_compute; done|by left].
  - intros a Ha. assert (a = 0x10000 + 432) as ->.
    { vm_compute in Ha. apply elem_of_cons in Ha as [->|Ha]; [done|by apply elem_of_nil in Ha]. }
    vm_compute. reflexivity.
Defined.
