(* ===== verification/Backtrace.v ===== *)
(** * Backtraces

    src/backwalk.c on Unix: [bw_frame_process], [bw_backtrace], and the collected
    form [mkbw_context], [bw_context_fini], [bw_backtrace_collect] and
    [bw_backtrace_process].  The dynamic linker's [dladdr] and [dladdr1], the
    memory of the process and the user's callback are parameters. *)

From S2P Require Import Prelude CMonad CMem ElfSym Context.

(** ** What a callback is given *)

Record frame_info := FrameInfo {
  fi_addr : Z;
  fi_fname : list byte;
  fi_sname : list byte;
  fi_src : list byte;
  fi_line : Z;
}.

(** ["?"] *)
Definition qmark : list byte := [x3f].

(** [Dl_info] *)
Record dl_info := DlInfo {
  dli_fbase : Z;
  dli_fname : option (list byte);
  dli_sname : option (list byte);
}.

(** The Unix targets [bw_frame_process] distinguishes. *)
Inductive unix_target := Linux | OtherUnix.

(** The size of [sname_buf]. *)
Definition SNAME_BUF : Z := 256.

(** What a backtrace changes: the user's [arg], of type [W], and the system's log. *)
Record bt_st (W : Type) := BtSt { bt_arg : W; bt_log : list os_event }.
Arguments BtSt {W}.
Arguments bt_arg {W}.
Arguments bt_log {W}.

Section frame.
Context (a : arch) (target : unix_target) (os : elf_os).

(** [dladdr1] with [RTLD_DL_LINKMAP] also gives the [l_addr] of the link map;
    [dladdr] does not. *)
Context (dladdr1 : Z → option (dl_info * option Z)) (dladdr : Z → option dl_info).
Context {W : Type}.
Local Abbreviation uptr := (uptr (H:=arch_platform a)).

(** The symbol [dladdr1] did not have: from the file's symbol table. *)
Definition elf_lookup (path : option (list byte)) (bias ip : Z) : M (bt_st W) (list byte) := λ s,
  match bw_elf_sname (H:=arch_platform a) os path bias ip SNAME_BUF (ElfSt ∅ (bt_log s)) with
  | Done ok e =>
      Done (if ok : bool then until_nul (arr_seg x00 (el_out e) 0 SNAME_BUF) else qmark)
        (BtSt (bt_arg s) (el_log e))
  | Fail e => Fail (BtSt (bt_arg s) (el_log e))
  | Fault u => Fault u
  | NoFuel => NoFuel
  end.

(** The part of [bw_frame_process] before the callback. *)
Definition frame_lookup (ip : Z) : M (bt_st W) frame_info :=
  let probe := uptr (ip - 1) in
  match target with
  | Linux =>
      match dladdr1 probe with
      | None => ret (FrameInfo 0 qmark qmark qmark 0)
      | Some (info, extra) =>
          let mod_addr := uptr (ip - dli_fbase info) in
          let fname := default qmark (dli_fname info) in
          let* sname :=
            match dli_sname info with
            | Some sname => ret sname
            | None =>
                let bias := match extra with Some l_addr => l_addr | None => dli_fbase info end in
                elf_lookup (dli_fname info) bias (uptr (ip - 1))
            end in
          ret (FrameInfo mod_addr fname sname qmark 0)
      end
  | OtherUnix =>
      match dladdr probe with
      | None => ret (FrameInfo 0 qmark qmark qmark 0)
      | Some info =>
          ret (FrameInfo (uptr (ip - dli_fbase info)) (default qmark (dli_fname info))
                 (default qmark (dli_sname info)) qmark 0)
      end
  end.

(** The callback; [None] is a null pointer. *)
Context (cb : option (frame_info → W → bool * W)).

Definition bw_frame_process (ip : Z) : M (bt_st W) bool :=
  let* info := frame_lookup ip in
  match cb with
  | None => ret true
  | Some cb =>
      let* s := get in
      let '(go, arg) := cb info (bt_arg s) in
      do* put (BtSt arg (bt_log s)) in
      ret go
  end.

(** ** The direct walk *)

Context (mem : Z → option Z) (strip_pac : Z → Z).

(** [while (context_step(&ctx))]; the loop is unbounded in the code. *)
Fixpoint backtrace_loop (fuel : nat) (ctx : option context_t) : M (bt_st W) bool :=
  match fuel with
  | O => no_fuel
  | S fuel' =>
      let* '(more, ctx) := with_local (try (context_step a mem strip_pac)) ctx in
      match more with
      | None => ret true
      | Some _ =>
          let* '(ip, ctx) := with_local context_get_ip ctx in
          let* go := bw_frame_process ip in
          if negb go then ret false else backtrace_loop fuel' ctx
      end
  end.

(** [fp] is the frame pointer [context_init] reads. *)
Definition bw_backtrace (fuel : nat) (fp : Z) : M (bt_st W) bool :=
  backtrace_loop fuel (Some (context_init fp (Context ∅))).
End frame.

(** ** Collected backtraces *)

(** The live blocks of the C heap, and the number of the next call of [malloc],
    which also names the block it hands out. *)
Record heap := Heap { hp_next : Z; hp_live : gset Z }.

(** [struct bw_context], with the words of the array [ip] points to and the number
    of them that were allocated. *)
Record bw_context := BwContext {
  bc_self : Z;
  bc_ip : option Z;
  bc_cells : gmap Z Z;
  bc_cap : Z;
  ip_cnt : Z;
  ip_max_cnt : Z;
}.

Section collect.
Context (a : arch).
Local Abbreviation uptr := (uptr (H:=arch_platform a)).

(** Whether a call of [malloc], of that number and for so many bytes, succeeds. *)
Context (malloc_ok : Z → Z → bool).

Definition malloc (size : Z) : M heap (option Z) :=
  let* h := get in
  if malloc_ok (hp_next h) size then
    do* put (Heap (hp_next h + 1) ({[hp_next h]} ∪ hp_live h)) in
    ret (Some (hp_next h))
  else
    do* put (Heap (hp_next h + 1) (hp_live h)) in
    ret None.

Definition free (block : Z) : M heap unit :=
  let* h := get in
  if decide (block ∈ hp_live h) then put (Heap (hp_next h) (hp_live h ∖ {[block]}))
  else fault BadFree.

(** [sizeof(bw_context_t)]: a pointer and two sizes. *)
Definition sizeof_bw_context : Z := 3 * word_size a.

Definition mkbw_context (depth : Z) : M heap (option bw_context) :=
  let* self := malloc sizeof_bw_context in
  match self with
  | None => ret None
  | Some self =>
      let bytes := uptr (word_size a * depth) in
      let* ip := malloc bytes in
      match ip with
      | None => do* free self in ret None
      | Some ip => ret (Some (BwContext self (Some ip) ∅ (bytes / word_size a) 0 depth))
      end
  end.

Definition bw_context_fini (ctx : option bw_context) : M heap unit :=
  match ctx with
  | None => ret tt
  | Some ctx =>
      do* (match bc_ip ctx with Some ip => free ip | None => ret tt end) in
      free (bc_self ctx)
  end.

Context (mem : Z → option Z) (strip_pac : Z → Z).

Definition set_cells (cells : gmap Z Z) (cnt : Z) (c : bw_context) : bw_context :=
  BwContext (bc_self c) (bc_ip c) cells (bc_cap c) cnt (ip_max_cnt c).

(** The loop of [bw_backtrace_collect]; [cnt] is its local [ip_cnt]. *)
Fixpoint collect_loop (fuel : nat) (ctx : option context_t) (cnt : Z) : M bw_context bool :=
  match fuel with
  | O => no_fuel
  | S fuel' =>
      let* '(more, ctx) := with_local (try (context_step a mem strip_pac)) ctx in
      match more with
      | None => ret true
      | Some _ =>
          let* c := get in
          if ip_max_cnt c <=? cnt then ret false else
          let* '(ip, ctx) := with_local context_get_ip ctx in
          let* cells := arr_store (bc_cap c) (bc_cells c) cnt ip in
          do* put (set_cells cells (uptr (cnt + 1)) c) in
          collect_loop fuel' ctx (uptr (cnt + 1))
      end
  end.

Definition bw_backtrace_collect (fuel : nat) (fp : Z) : M bw_context bool :=
  collect_loop fuel (Some (context_init fp (Context ∅))) 0.

Context (target : unix_target) (os : elf_os).
Context (dladdr1 : Z → option (dl_info * option Z)) (dladdr : Z → option dl_info).
Context {W : Type} (cb : option (frame_info → W → bool * W)).

(** [for (size_t i = 0; i < bw_ctx->ip_cnt; ++i)] *)
Fixpoint process_loop (fuel : nat) (c : bw_context) (i : Z) : M (bt_st W) bool :=
  match fuel with
  | O => no_fuel
  | S fuel' =>
      if i <? ip_cnt c then
        let* ip := arr_load (bc_cap c) (bc_cells c) i in
        let* go := bw_frame_process a target os dladdr1 dladdr cb ip in
        if negb go then ret false else process_loop fuel' c (i + 1)
      else ret true
  end.

Definition bw_backtrace_process (c : bw_context) : M (bt_st W) bool :=
  process_loop (S (Z.to_nat (ip_cnt c))) c 0.
End collect.

(** ** The lookup of a frame *)

(** The name a file gives, as it is shown. *)
Definition shown_name (name : list byte) : list byte :=
  match name with [] => qmark | name => take 255 name end.

Lemma elf_lookup_done (a : arch) os {W} path bias ip (s : bt_st W) :
  mmap_ok (H:=arch_platform a) os →
  ∃ s' l, elf_lookup a os path bias ip s =
      Done (shown_name (file_name (H:=arch_platform a) os path bias ip)) s' ∧
    bt_arg s' = bt_arg s ∧ bt_log s' = bt_log s ++ l ∧ released l.
Proof.
  intros Hos. unfold elf_lookup.
  destruct (bw_elf_sname_named (H:=arch_platform a) os path bias ip SNAME_BUF (ElfSt ∅ (bt_log s))
    Hos ltac:(done)) as (ok & e & l & -> & Hres & Hlog & Hrel).
  exists (BtSt (bt_arg s) (el_log e)), l. split; [|by split_and!]. f_equal.
  destruct (file_name _ _ _ _) as [|c name]; destruct Hres as [-> Hres]; [done|].
  apply (until_nul_buf SNAME_BUF (el_out e) (take 255 (c :: name))); [exact Hres|]. rewrite length_take. unfold SNAME_BUF. lia.
Qed.

(** The lookup always succeeds. *)
Lemma frame_lookup_done (a : arch) target os dladdr1 dladdr {W} ip (s : bt_st W) :
  let H := arch_platform a in
  mmap_ok os →
  ∃ info s' l, frame_lookup a target os dladdr1 dladdr ip s = Done info s' ∧
    bt_arg s' = bt_arg s ∧ bt_log s' = bt_log s ++ l ∧ released l ∧
    (target = Linux →
     match dladdr1 (uptr (ip - 1)) with
     | None => info = FrameInfo 0 qmark qmark qmark 0
     | Some (dl, extra) =>
         info = FrameInfo (uptr (ip - dli_fbase dl)) (default qmark (dli_fname dl))
           (match dli_sname dl with
            | Some sname => sname
            | None => shown_name (file_name os (dli_fname dl) (default (dli_fbase dl) extra) (uptr (ip - 1)))
            end) qmark 0 ∧
         (dli_sname dl ≠ None → l = [])
     end).
Proof.
  intros H Hos. unfold frame_lookup. destruct target.
  2:{ destruct (dladdr _); (eexists _, s, []; rewrite app_nil_r; by split_and!). }
  destruct (dladdr1 _) as [[dl extra]|].
  2:{ eexists _, s, []. rewrite app_nil_r. by split_and!. }
  destruct (dli_sname dl) as [sname|].
  { eexists _, s, []. rewrite app_nil_r. by split_and!. }
  unfold bind. replace (match extra with Some _ => _ | None => _ end) with (default (dli_fbase dl) extra)
    by (by destruct extra).
  destruct (elf_lookup_done a os (dli_fname dl) (default (dli_fbase dl) extra)
    (Prelude.uptr (H:=arch_platform a) (ip - 1)) s Hos)
    as (s' & l & -> & ? & ? & ?).
  eexists _, s', l. split_and!; [done..|]. intros _. by split.
Qed.

(** A callback that never answers false goes on. *)
Lemma frame_process_done (a : arch) target os dladdr1 dladdr {W}
    (cb : option (frame_info → W → bool * W)) ip (s : bt_st W) :
  mmap_ok (H:=arch_platform a) os → (∀ f info arg, cb = Some f → (f info arg).1 = true) →
  ∃ s', bw_frame_process a target os dladdr1 dladdr cb ip s = Done true s'.
Proof.
  intros Hos Hcb. unfold bw_frame_process, bind, get, put, ret.
  destruct (frame_lookup_done a target os dladdr1 dladdr ip s Hos) as (info & s' & l & -> & _).
  destruct cb as [f|]; [|by eexists]. specialize (Hcb f info (bt_arg s') eq_refl).
  destruct (f info (bt_arg s')) as [go arg]. cbn in Hcb. subst go. by eexists.
Qed.

(** ** Walks along a chain *)

Section visit.
Context (a : arch) (target : unix_target) (os : elf_os).
Context (dladdr1 : Z → option (dl_info * option Z)) (dladdr : Z → option dl_info).
Context {W : Type} (cb : option (frame_info → W → bool * W)).

(** The callback on each return address in turn, until it says stop. *)
Fixpoint visit (ips : list Z) : M (bt_st W) bool :=
  match ips with
  | [] => ret true
  | ip :: ips =>
      let* go := bw_frame_process a target os dladdr1 dladdr cb ip in
      if negb go then ret false else visit ips
  end.

Context (mem : Z → option Z) (strip_pac : Z → Z).

Lemma step_local_link {S} ctx fp fp' ip (s : S) :
  data ctx !! 0 = Some fp → frame_link a mem strip_pac fp fp' ip →
  with_local (try (context_step a mem strip_pac)) (Some ctx) s =
  Done (Some tt, Some (set_frame fp' ip ctx)) s.
Proof.
  intros Hfp Hl. unfold with_local, try, context_step, bind, get, zoom.
  by rewrite (step_frame_link a mem strip_pac ctx fp fp' ip).
Qed.

Lemma step_local_end {S} ctx fp (s : S) :
  data ctx !! 0 = Some fp → frame_end a mem strip_pac fp →
  with_local (try (context_step a mem strip_pac)) (Some ctx) s = Done (None, Some ctx) s.
Proof.
  intros Hfp He. unfold with_local, try, context_step, bind, get, zoom.
  by rewrite (step_frame_end a mem strip_pac ctx fp).
Qed.

Lemma get_ip_local {S} fp ip ctx (s : S) :
  with_local context_get_ip (Some (set_frame fp ip ctx)) s =
  Done (ip, Some (set_frame fp ip ctx)) s.
Proof.
  unfold with_local, context_get_ip, bind, get, arr_load, set_frame. cbn [data].
  by rewrite lookup_insert_eq.
Qed.

Lemma set_frame_fp fp ip ctx : data (set_frame fp ip ctx) !! 0 = Some fp.
Proof. unfold set_frame; cbn [data]. by rewrite lookup_insert_ne, lookup_insert_eq. Qed.

Lemma backtrace_loop_eq fp ips ctx fuel s :
  chain a mem strip_pac fp ips → data ctx !! 0 = Some fp → (length ips < fuel)%nat →
  backtrace_loop a target os dladdr1 dladdr cb mem strip_pac fuel (Some ctx) s = visit ips s.
Proof.
  intros Hc. revert ctx fuel s. induction Hc as [fp He|fp fp' ip l Hl _ IH];
    intros ctx fuel s Hfp Hf; (destruct fuel as [|fuel]; [simpl in Hf; lia|]);
    cbn [backtrace_loop visit]; unfold bind at 1.
  - by rewrite (step_local_end ctx fp).
  - rewrite (step_local_link ctx fp fp' ip) by done. unfold bind at 1. rewrite get_ip_local.
    unfold bind. destruct (bw_frame_process _ _ _ _ _ _ _ s) as [go s'| | |]; [|done..].
    destruct go; [|done]. cbn [negb]. apply IH; [apply set_frame_fp|simpl in Hf; lia].
Qed.

Lemma bw_backtrace_eq fp ips fuel s :
  chain a mem strip_pac fp ips → (length ips < fuel)%nat →
  bw_backtrace a target os dladdr1 dladdr cb mem strip_pac fuel fp s = visit ips s.
Proof. intros Hc Hf. by apply (backtrace_loop_eq fp). Qed.

(** *** Collecting *)

(** What [bw_backtrace_collect] leaves in the context: the addresses that fit. *)
Definition collected (ips : list Z) (c : bw_context) : bw_context :=
  match take (Z.to_nat (ip_max_cnt c)) ips with
  | [] => c
  | w => set_cells (arr_write (bc_cells c) 0 w) (Z.of_nat (length w)) c
  end.

Lemma collect_loop_eq fp ips ctx fuel (cnt : Z) c :
  chain a mem strip_pac fp ips → data ctx !! 0 = Some fp → (length ips < fuel)%nat →
  0 ≤ cnt ≤ ip_max_cnt c → ip_max_cnt c ≤ bc_cap c →
  ip_max_cnt c < ptr_mod (H:=arch_platform a) →
  collect_loop a mem strip_pac fuel (Some ctx) cnt c =
  Done (cnt + Z.of_nat (length ips) <=? ip_max_cnt c)
    (match take (Z.to_nat (ip_max_cnt c - cnt)) ips with
     | [] => c
     | w => set_cells (arr_write (bc_cells c) cnt w) (cnt + Z.of_nat (length w)) c
     end).
Proof.
  intros Hc. revert ctx fuel cnt c. induction Hc as [fp He|fp fp' ip l Hl _ IH];
    intros ctx fuel cnt c Hfp Hf Hcnt Hcap Hmod;
    (destruct fuel as [|fuel]; [simpl in Hf; lia|]); cbn [collect_loop]; unfold bind at 1.
  - rewrite (step_local_end ctx fp) by done. rewrite take_nil. simpl.
    by rewrite (proj2 (Z.leb_le _ _)) by lia.
  - rewrite (step_local_link ctx fp fp' ip) by done. unfold bind at 1, get.
    destruct (Z.leb_spec (ip_max_cnt c) cnt).
    + rewrite (proj2 (Z.leb_gt _ _)) by (simpl; lia).
      by replace (Z.to_nat (ip_max_cnt c - cnt)) with 0%nat by lia.
    + unfold bind at 1. rewrite get_ip_local. unfold bind, arr_store, put, ret.
      rewrite (proj2 (in_bounds_true _ _)) by lia. rewrite uptr_small by lia.
      rewrite IH; [|apply set_frame_fp|simpl in Hf; lia|simpl; lia|done|done].
      cbn [ip_max_cnt set_cells bc_cells].
      replace (Z.to_nat (ip_max_cnt c - cnt)) with (S (Z.to_nat (ip_max_cnt c - (cnt + 1)))) by lia.
      cbn [take]. f_equal; [apply eq_true_iff_eq; rewrite !Z.leb_le; simpl; lia|].
      destruct (take _ l) as [|x w]; unfold set_cells; cbn; f_equal; lia.
Qed.

Lemma bw_backtrace_collect_eq fp ips fuel c :
  chain a mem strip_pac fp ips → (length ips < fuel)%nat →
  0 ≤ ip_max_cnt c ≤ bc_cap c → ip_max_cnt c < ptr_mod (H:=arch_platform a) →
  bw_backtrace_collect a mem strip_pac fuel fp c =
  Done (Z.of_nat (length ips) <=? ip_max_cnt c) (collected ips c).
Proof.
  intros Hc Hf Hmax Hmod. unfold bw_backtrace_collect, collected.
  rewrite (collect_loop_eq fp ips) by (done || lia). by rewrite Z.sub_0_r.
Qed.

(** An array shorter than the context records is overrun. *)
Lemma collect_loop_overrun fp ips ctx fuel (cnt : Z) c :
  chain a mem strip_pac fp ips → data ctx !! 0 = Some fp → (length ips < fuel)%nat →
  0 ≤ cnt ≤ bc_cap c → bc_cap c < ip_max_cnt c < ptr_mod (H:=arch_platform a) →
  bc_cap c - cnt < Z.of_nat (length ips) →
  collect_loop a mem strip_pac fuel (Some ctx) cnt c = Fault OobWrite.
Proof.
  intros Hc. revert ctx fuel cnt c. induction Hc as [fp He|fp fp' ip l Hl _ IH];
    intros ctx fuel cnt c Hfp Hf Hcnt Hcap Hlen; [simpl in Hlen; lia|].
  destruct fuel as [|fuel]; [simpl in Hf; lia|]. cbn [collect_loop]. unfold bind at 1.
  rewrite (step_local_link ctx fp fp' ip) by done. unfold bind at 1, get.
  rewrite (proj2 (Z.leb_gt _ _)) by lia. unfold bind at 1. rewrite get_ip_local.
  unfold bind, arr_store, put, ret. destruct (in_bounds (bc_cap c) cnt) eqn:Eb; [|done].
  apply in_bounds_true in Eb. rewrite uptr_small by lia.
  apply IH; [apply set_frame_fp|simpl in Hf; lia|simpl; lia|done|simpl in *; lia].
Qed.

(** *** Processing *)

Lemma process_loop_eq l c (i : nat) fuel s :
  ip_cnt c = Z.of_nat (length l) → ip_cnt c ≤ bc_cap c →
  (∀ (k : nat) ip, l !! k = Some ip → bc_cells c !! Z.of_nat k = Some ip) →
  (i ≤ length l)%nat → (length l - i < fuel)%nat →
  process_loop a target os dladdr1 dladdr cb fuel c (Z.of_nat i) s = visit (drop i l) s.
Proof.
  intros Hcnt Hcap Hl. revert i s. induction fuel as [|fuel IH]; intros i s Hi Hf; [lia|].
  cbn [process_loop]. rewrite Hcnt. destruct (Z.ltb_spec (Z.of_nat i) (Z.of_nat (length l))).
  - destruct (lookup_lt_is_Some_2 l i) as [ip Hip]; [lia|]. rewrite (drop_S l ip i Hip).
    cbn [visit]. unfold bind at 1, arr_load. rewrite (proj2 (in_bounds_true _ _)) by lia.
    rewrite (Hl i ip Hip). cbn [of_option ret]. unfold bind.
    destruct (bw_frame_process _ _ _ _ _ _ _ s) as [go s'| | |]; [|done..].
    destruct go; [|done]. cbn [negb].
    replace (Z.of_nat i + 1) with (Z.of_nat (S i)) by lia. apply IH; lia.
  - by rewrite drop_ge by lia.
Qed.

Lemma bw_backtrace_process_eq ips c s :
  ip_cnt c = 0 → 0 ≤ ip_max_cnt c ≤ bc_cap c →
  bw_backtrace_process a target os dladdr1 dladdr cb (collected ips c) s =
  visit (take (Z.to_nat (ip_max_cnt c)) ips) s.
Proof.
  intros Hcnt Hmax. unfold bw_backtrace_process, collected.
  destruct (take (Z.to_nat (ip_max_cnt c)) ips) as [|ip w] eqn:E.
  { rewrite Hcnt. cbn [Z.to_nat process_loop]. by rewrite Hcnt. }
  assert (Hlen : Z.of_nat (length (ip :: w)) ≤ ip_max_cnt c)
    by (rewrite <- E, length_take; lia).
  cbn [ip_cnt set_cells]. apply (process_loop_eq (ip :: w) _ 0); cbn [ip_cnt bc_cap bc_cells set_cells].
  - done.
  - lia.
  - intros k ip' Hk. by apply (arr_write_lookup (bc_cells c) 0 (ip :: w) k).
  - lia.
  - lia.
Qed.
End visit.

(** ** Properties *)

(** C4. [bw_backtrace] calls the callback once for each return address of the
    chain of frames above it, in order, and stops as soon as the callback answers
    false; its answer is false exactly when it was stopped. *)
Theorem bw_backtrace_walks (a : arch) target os dladdr1 dladdr {W : Type}
    (cb : option (frame_info → W → bool * W)) mem strip_pac fp ips fuel s :
  chain a mem strip_pac fp ips → (length ips < fuel)%nat →
  bw_backtrace a target os dladdr1 dladdr cb mem strip_pac fuel fp s =
  visit a target os dladdr1 dladdr cb ips s.
Proof. intros. by apply bw_backtrace_eq. Qed.

(** A callback that keeps the addresses it is given, and no symbols. *)
Definition keep_cb : option (frame_info → list Z → bool * list Z) :=
  Some (λ i l, (true, l ++ [fi_addr i])).
Definition no_os : elf_os := ElfOs (λ _, None) (λ _, None) (λ _ _, None).
Definition at_base (base : Z) : Z → option dl_info := λ _, Some (DlInfo base None None).

Lemma bw_backtrace_walks_witness :
  bw_backtrace X86_64 OtherUnix no_os (λ _, None) (at_base 0x400000) keep_cb stack_ex id 9
    0x7ffd0000 (BtSt [] []) = Done true (BtSt [0x10] []).
Proof.
  rewrite (bw_backtrace_walks X86_64 OtherUnix no_os (λ _, None) (at_base 0x400000) keep_cb
    stack_ex id 0x7ffd0000 [0x400010]); [reflexivity|apply stack_ex_chain|simpl; lia].
Defined.

(** C21. The walk terminates on a stack that grows towards [top]: if every frame in
    [fp, top] is the last one or links to a higher frame in that range, there is a
    chain of at most [top - fp] return addresses, and [bw_backtrace] visits it. *)
Theorem bw_backtrace_terminates (a : arch) target os dladdr1 dladdr {W : Type}
    (cb : option (frame_info → W → bool * W)) mem strip_pac fp top :
  fp ≤ top →
  (∀ f, fp ≤ f ≤ top → frame_end a mem strip_pac f ∨
     ∃ f' ip, frame_link a mem strip_pac f f' ip ∧ f < f' ≤ top) →
  ∃ ips, Z.of_nat (length ips) ≤ top - fp ∧
    ∀ fuel s, (length ips < fuel)%nat →
      bw_backtrace a target os dladdr1 dladdr cb mem strip_pac fuel fp s =
      visit a target os dladdr1 dladdr cb ips s.
Proof.
  intros Hfp Hup.
  assert (Hchain : ∀ n f, fp ≤ f ≤ top → top - f ≤ Z.of_nat n →
    ∃ ips, chain a mem strip_pac f ips ∧ Z.of_nat (length ips) ≤ top - f).
  { induction n as [|n IH]; intros f Hf Hn;
      (destruct (Hup f Hf) as [He|(f' & ip & Hl & Hf')];
       [exists []; split; [by apply chain_end|simpl; lia]|]); [lia|].
    destruct (IH f') as (ips & Hc & Hlen); [lia|lia|].
    exists (ip :: ips). split; [by eapply chain_link|simpl; lia]. }
  destruct (Hchain (Z.to_nat (top - fp)) fp) as (ips & Hc & Hlen); [lia|lia|].
  exists ips. split; [done|]. intros fuel s Hf. by apply bw_backtrace_eq.
Qed.

(** A range of memory in which one frame links up to another, the last one. *)
Definition stack_up (addr : Z) : option Z :=
  Some (if addr =? 0x20000 then 0x20010 else if addr =? 0x20008 then 0x400000 else 0).

Lemma stack_up_ok f :
  0x20000 ≤ f ≤ 0x20010 → frame_end X86_64 stack_up id f ∨
  ∃ f' ip, frame_link X86_64 stack_up id f f' ip ∧ f < f' ≤ 0x20010.
Proof.
  intros Hf. destruct (decide (f = 0x20000)) as [->|H0].
  { right. exists 0x20010, 0x400000. split; [|lia].
    split; try (vm_compute; reflexivity); try discriminate;
      try (apply (bool_decide_unpack _); by vm_compute). by exists 0x400000. }
  left. destruct (decide (f = 0x20008)) as [->|H8].
  { apply (end_ip _ _ _ _ 0x400000 0); [done|done|].
    apply (bool_decide_unpack _). by vm_compute. }
  apply (end_next _ _ _ _ 0).
  - unfold stack_up, saved_fp. simpl. rewrite Z.add_0_r, uptr_small32 by lia.
    by rewrite !(proj2 (Z.eqb_neq _ _)).
  - right. apply (bool_decide_unpack _). by vm_compute.
Qed.

Lemma bw_backtrace_terminates_witness :
  ∃ ips, Z.of_nat (length ips) ≤ 0x20010 - 0x20000 ∧
    ∀ fuel s, (length ips < fuel)%nat →
      bw_backtrace X86_64 OtherUnix no_os (λ _, None) (at_base 0) keep_cb stack_up id fuel 0x20000 s =
      visit X86_64 OtherUnix no_os (λ _, None) (at_base 0) keep_cb ips s.
Proof.
  apply (bw_backtrace_terminates X86_64 OtherUnix no_os (λ _, None) (at_base 0) keep_cb stack_up id
    0x20000 0x20010); [lia|apply stack_up_ok].
Defined.

(** C35. The walk has no bound of its own: only a frame that links to itself is
    caught.  When [fp] is in a set [C] of frames each of which links to a frame of
    the set (the smallest such sets are the cycles of two and more frames), and the
    callback, if there is one, never answers false, [bw_backtrace] does not return:
    no amount of fuel is enough. *)
Theorem bw_backtrace_cycle_diverges (a : arch) target os dladdr1 dladdr {W : Type}
    (cb : option (frame_info → W → bool * W)) mem strip_pac (C : Z → Prop) fp :
  mmap_ok (H:=arch_platform a) os →
  (∀ f info arg, cb = Some f → (f info arg).1 = true) →
  (∀ f, C f → ∃ f' ip, C f' ∧ frame_link a mem strip_pac f f' ip) → C fp →
  ∀ fuel (s : bt_st W),
    bw_backtrace a target os dladdr1 dladdr cb mem strip_pac fuel fp s = NoFuel.
Proof.
  intros Hos Hcb Hcycle Hfp. unfold bw_backtrace.
  assert (Hloop : ∀ fuel ctx f (s : bt_st W), data ctx !! 0 = Some f → C f →
    backtrace_loop a target os dladdr1 dladdr cb mem strip_pac fuel (Some ctx) s = NoFuel).
  { induction fuel as [|fuel IH]; intros ctx f s Hf HC; [done|].
    destruct (Hcycle f HC) as (f' & ip & HC' & Hl). cbn [backtrace_loop]. unfold bind at 1.
    rewrite (step_local_link a mem strip_pac ctx f f' ip) by done. unfold bind at 1.
    rewrite get_ip_local. unfold bind.
    destruct (frame_process_done a target os dladdr1 dladdr cb ip s Hos Hcb) as [s' ->].
    cbn [negb]. by apply (IH (set_frame f' ip ctx) f' s' (set_frame_fp _ _ _)). }
  intros fuel s. by apply (Hloop fuel _ fp).
Qed.

(** Three frames in a cycle. *)
Definition stack_cycle (addr : Z) : option Z :=
  Some (if addr =? 0x20000 then 0x20010 else if addr =? 0x20010 then 0x20020
        else if addr =? 0x20020 then 0x20000 else 0x400000).

Lemma bw_backtrace_cycle_diverges_witness :
  bw_backtrace X86_64 Linux (os_of elf_ex) (λ _, None) (λ _, None) keep_cb stack_cycle id 1000 0x20000
    (BtSt [] []) = NoFuel.
Proof.
  apply (bw_backtrace_cycle_diverges X86_64 Linux (os_of elf_ex) (λ _, None) (λ _, None) keep_cb
    stack_cycle id (λ f, f = 0x20000 ∨ f = 0x20010 ∨ f = 0x20020)); [| | |by left].
  - apply os_of_ok. concrete.
  - by intros f info arg [= <-].
  - intros f Hf.
    assert (Hf' : ∃ f', (f' = 0x20000 ∨ f' = 0x20010 ∨ f' = 0x20020) ∧
      frame_link X86_64 stack_cycle id f f' 0x400000).
    { destruct Hf as [-> | [-> | ->]]; [exists 0x20010|exists 0x20020|exists 0x20000];
        (split; [by auto|]; split; try (vm_compute; reflexivity); try discriminate;
         try (apply (bool_decide_unpack _); by vm_compute); by exists 0x400000). }
    destruct Hf' as (f' & ? & ?). by exists f', 0x400000.
Defined.

(** C12. Collecting and processing is the direct backtrace, in two steps: on a fresh
    context with room for the whole chain, [bw_backtrace_collect] answers true and
    [bw_backtrace_process] then does exactly what [bw_backtrace] does; without the
    room it answers false, and the frames processed are the first ones. *)
Theorem collect_process_backtrace (a : arch) target os dladdr1 dladdr {W : Type}
    (cb : option (frame_info → W → bool * W)) mem strip_pac fp ips fuel c :
  chain a mem strip_pac fp ips → (length ips < fuel)%nat →
  0 ≤ ip_max_cnt c ≤ bc_cap c → ip_max_cnt c < ptr_mod (H:=arch_platform a) → ip_cnt c = 0 →
  ∃ c', bw_backtrace_collect a mem strip_pac fuel fp c =
          Done (bool_decide (Z.of_nat (length ips) ≤ ip_max_cnt c)) c' ∧
    (∀ s, bw_backtrace_process a target os dladdr1 dladdr cb c' s =
          visit a target os dladdr1 dladdr cb (take (Z.to_nat (ip_max_cnt c)) ips) s) ∧
    (Z.of_nat (length ips) ≤ ip_max_cnt c →
     ∀ s, bw_backtrace_process a target os dladdr1 dladdr cb c' s =
          bw_backtrace a target os dladdr1 dladdr cb mem strip_pac fuel fp s).
Proof.
  intros Hc Hf Hmax Hmod Hcnt. exists (collected ips c).
  rewrite (bw_backtrace_collect_eq a mem strip_pac fp ips) by done. split_and!.
  - f_equal. apply eq_true_iff_eq. by rewrite Z.leb_le, bool_decide_eq_true.
  - intros s. by apply bw_backtrace_process_eq.
  - intros Hlen s. rewrite bw_backtrace_process_eq, take_ge by (done || lia).
    by rewrite (bw_backtrace_eq a target os dladdr1 dladdr cb mem strip_pac fp ips).
Qed.

Definition ctx_ex : bw_context := BwContext 1 (Some 2) ∅ 4 0 4.

Lemma collect_process_backtrace_witness :
  ∃ c', bw_backtrace_collect X86_64 stack_ex id 9 0x7ffd0000 ctx_ex = Done true c' ∧
    (∀ s, bw_backtrace_process X86_64 OtherUnix no_os (λ _, None) (at_base 0) keep_cb c' s =
          visit X86_64 OtherUnix no_os (λ _, None) (at_base 0) keep_cb [0x400010] s) ∧
    (1 ≤ 4 → ∀ s, bw_backtrace_process X86_64 OtherUnix no_os (λ _, None) (at_base 0) keep_cb c' s =
          bw_backtrace X86_64 OtherUnix no_os (λ _, None) (at_base 0) keep_cb stack_ex id 9 0x7ffd0000 s).
Proof.
  apply (collect_process_backtrace X86_64 OtherUnix no_os (λ _, None) (at_base 0) keep_cb stack_ex id
    0x7ffd0000 [0x400010] 9 ctx_ex); [apply stack_ex_chain|simpl; lia|concrete|concrete|reflexivity].
Defined.

(** C37. A context that is collected into again keeps its old frames when the new
    walk finds none: [ip_cnt] is only written together with a frame, so that
    [bw_backtrace_collect] answers true and changes nothing. *)
Theorem collect_keeps_stale_frames (a : arch) mem strip_pac fp fuel c :
  frame_end a mem strip_pac fp → (0 < fuel)%nat →
  0 ≤ ip_max_cnt c ≤ bc_cap c → ip_max_cnt c < ptr_mod (H:=arch_platform a) →
  bw_backtrace_collect a mem strip_pac fuel fp c = Done true c.
Proof.
  intros He Hf Hmax Hmod.
  rewrite (bw_backtrace_collect_eq a mem strip_pac fp []);
    [|by apply chain_end|simpl; lia|done|done].
  unfold collected. rewrite take_nil. rewrite (proj2 (Z.leb_le _ _)); [done|simpl; lia].
Qed.

Lemma collect_keeps_stale_frames_witness :
  bw_backtrace_collect X86_64 stack_ex id 9 0x7ffd0040
    (BwContext 1 (Some 2) {[0 := 0x400010]} 4 1 4) =
  Done true (BwContext 1 (Some 2) {[0 := 0x400010]} 4 1 4).
Proof.
  apply collect_keeps_stale_frames; [apply stack_ex_end|lia|concrete|concrete].
Defined.

(** C26. [mkbw_context] and [bw_context_fini] balance: a context that could be made
    has both its blocks allocated, no frames and the depth asked for, and freeing
    it gives back exactly these blocks; when one of the allocations fails, nothing
    stays allocated.  No block is freed twice. *)
Theorem mkbw_context_fini (a : arch) malloc_ok depth h :
  (∀ b, b ∈ hp_live h → b < hp_next h) →
  ∃ c h', mkbw_context a malloc_ok depth h = Done c h' ∧
    match c with
    | None => hp_live h' = hp_live h
    | Some ctx => ip_cnt ctx = 0 ∧ ip_max_cnt ctx = depth ∧
        bc_self ctx ∈ hp_live h' ∧ (∃ ip, bc_ip ctx = Some ip ∧ ip ∈ hp_live h') 
    end ∧
    ∃ h'', bw_context_fini c h' = Done tt h'' ∧ hp_live h'' = hp_live h.
Proof.
  intros Hfresh. assert (Hn1 : hp_next h ∉ hp_live h) by (intros Hin; apply Hfresh in Hin; lia).
  assert (Hn2 : hp_next h + 1 ∉ hp_live h) by (intros Hin; apply Hfresh in Hin; lia).
  unfold mkbw_context, malloc, bind, get, put, ret.
  destruct (malloc_ok _ (sizeof_bw_context a)); [|eexists None, _; split_and!; eauto; done]. cbn.
  set (bytes := uptr _). destruct (malloc_ok _ bytes); cbn.
  - eexists (Some _), _. split; [done|]. cbn. split; [split_and!; [done|done|set_solver|]|].
    + eexists. split; [done|set_solver].
    + unfold bw_context_fini, free, bind, get, put; cbn.
      rewrite decide_True by set_solver. cbn. rewrite decide_True by (apply elem_of_difference; set_solver by lia).
      eexists. split; [done|]. cbn. set_solver.
  - unfold free, bind, get, put; cbn. rewrite decide_True by set_solver.
    eexists None, _. split; [done|]. cbn. split; [set_solver|]. eexists. split; [done|]. cbn. set_solver.
Qed.

(** The first allocation succeeds and the second one fails. *)
Lemma mkbw_context_fini_witness :
  let malloc_ok n (_ : Z) := n =? 1 in
  ∃ c h', mkbw_context X86_64 malloc_ok 3 (Heap 1 ∅) = Done c h' ∧
    match c with
    | None => hp_live h' = ∅
    | Some ctx => ip_cnt ctx = 0 ∧ ip_max_cnt ctx = 3 ∧
        bc_self ctx ∈ hp_live h' ∧ (∃ ip, bc_ip ctx = Some ip ∧ ip ∈ hp_live h')
    end ∧
    ∃ h'', bw_context_fini c h' = Done tt h'' ∧ hp_live h'' = ∅.
Proof.
  intros malloc_ok.
  apply (mkbw_context_fini X86_64 malloc_ok 3 (Heap 1 ∅)). intros b Hb. simpl in Hb. set_solver.
Defined.

(** C39. [mkbw_context] does not check the size it computes.  For every depth whose
    array does not fit the address space, a context that could be made has an array
    shorter than the depth it records, and collecting along any chain with more
    frames than the array has words writes behind the array. *)
Theorem mkbw_context_overflow (a : arch) malloc_ok depth h c h' :
  let H := arch_platform a in
  0 ≤ depth < ptr_mod → ptr_mod ≤ word_size a * depth →
  mkbw_context a malloc_ok depth h = Done (Some c) h' →
  0 ≤ bc_cap c < ip_max_cnt c ∧ ip_max_cnt c = depth ∧
  ∀ mem strip_pac fp ips fuel, chain a mem strip_pac fp ips →
    bc_cap c < Z.of_nat (length ips) → (length ips < fuel)%nat →
    bw_backtrace_collect a mem strip_pac fuel fp c = Fault OobWrite.
Proof.
  intros H Hd Hov E. assert (Hw : word_size a = 4 ∨ word_size a = 8) by (destruct a; auto).
  assert (Hc : bc_cap c = uptr (word_size a * depth) / word_size a ∧ ip_max_cnt c = depth).
  { unfold mkbw_context, malloc, free, bind, get, put, ret in E.
    repeat (case_match; simplify_eq/=); done. }
  destruct Hc as [Hcap Hmax].
  assert (Hlt : 0 ≤ bc_cap c < depth).
  { rewrite Hcap. unfold uptr. pose proof (ptr_mod_bounds (H:=H)) as Hb.
    assert (Hm : 0 < ptr_mod (H:=H)) by lia. pose proof (Z.mod_pos_bound (word_size a * depth) _ Hm).
    split; [apply Z.div_pos; lia|]. apply Z.div_lt_upper_bound; [lia|].
    lia. }
  split_and!; [lia|lia|done|]. intros mem strip_pac fp ips fuel Hchain Hlen Hf.
  subst H. unfold bw_backtrace_collect. apply (collect_loop_overrun a mem strip_pac fp ips); lia || done.
Qed.

(** On x86_64 a context for 2^61 addresses has an array of no words, and one for
    2^61 + 1 addresses has an array of one word. *)
Lemma mkbw_context_overflow_witness :
  match mkbw_context X86_64 (λ _ _, true) (2 ^ 61) (Heap 1 ∅) with
  | Done (Some c) _ =>
      bc_cap c = 0 ∧ ip_max_cnt c = 2 ^ 61 ∧
      bw_backtrace_collect X86_64 stack_ex id 9 0x7ffd0000 c = Fault OobWrite
  | _ => False
  end.
Proof.
  destruct (mkbw_context X86_64 (λ _ _, true) (2 ^ 61) (Heap 1 ∅)) as [[c|] h'| | |] eqn:E;
    try (vm_compute in E; discriminate E).
  destruct (mkbw_context_overflow X86_64 (λ _ _, true) (2 ^ 61) (Heap 1 ∅) c h') as (_ & Hmax & Hcol);
    [by vm_compute|by vm_compute|exact E|].
  assert (Hcap : bc_cap c = 0) by (vm_compute in E; by injection E as <- _).
  split_and!; [done|done|]. apply (Hcol stack_ex id 0x7ffd0000 [0x400010]); [apply stack_ex_chain|by rewrite Hcap|].
  simpl. lia.
Defined.


