(* ===== verification/WinUtil.v ===== *)
(** * Helpers of the Windows symbolizer

    [bw_win_capture], [bw_copy_cstr], [bw_section_name], [bw_section_data] and
    [bw_read_u32] of src/win.c.  The system's [CaptureStackBackTrace] is a
    parameter.  A section header is the list of its bytes, as [memcpy] fills
    it; the fields are those of [IMAGE_SECTION_HEADER] in <winnt.h>. *)

From S2P Require Import Prelude CMonad CMem Cursor Leb128 Decode.

Definition BW_WIN_SKIP : Z := 2.
Definition BW_WIN_MAX_FRAMES : Z := 64.
Definition BW_WIN_FNAME_MAX : Z := 260.
Definition BW_WIN_SNAME_MAX : Z := 512.
Definition BW_WIN_SRC_MAX : Z := 512.

(** ** Capturing frames *)

Section capture.
(** [CaptureStackBackTrace(skip, count, frames, NULL)]: the frames it stores. *)
Context (CaptureStackBackTrace : Z → Z → list Z).

(** [ips[i] = (uintptr_t)frames[i]]; the array [ips] has [cap] words. *)
Definition store_frame (frames : list Z) (cap i : Z) : M (gmap Z Z) unit :=
  let* f := of_option Indeterminate (frames !! Z.to_nat i) in
  let* ips := get in
  let* ips := arr_store cap ips i f in
  put ips.

(** [ips] is null, or points to an array of that many words. *)
Definition bw_win_capture (ips : option Z) (max : Z) : M (gmap Z Z) Z :=
  match ips with
  | None => ret 0
  | Some cap =>
      if max =? 0 then ret 0 else
      let capture := u16 max in
      let capture := if BW_WIN_MAX_FRAMES <? capture then BW_WIN_MAX_FRAMES else capture in
      let frames := CaptureStackBackTrace BW_WIN_SKIP capture in
      let n := u16 (Z.of_nat (length frames)) in
      do* for_range 0 n (λ i _, store_frame frames cap i) tt in
      ret n
  end.

(** What the system promises: no more frames than asked for. *)
Definition capture_ok : Prop :=
  ∀ skip count, 0 ≤ count → Z.of_nat (length (CaptureStackBackTrace skip count)) ≤ count.

(** The frames [bw_win_capture] asks for. *)
Definition capture_count (max : Z) : Z := Z.min BW_WIN_MAX_FRAMES (u16 max).
End capture.

Lemma store_frame_eq (l : list Z) cap (i : nat) f a :
  l !! i = Some f → Z.of_nat i < cap →
  store_frame l cap (Z.of_nat i) a = Done tt (<[Z.of_nat i:=f]> a).
Proof.
  intros Hf Hi. unfold store_frame. rewrite Nat2Z.id, Hf.
  unfold of_option, bind, get, put, ret, arr_store.
  by rewrite (proj2 (in_bounds_true _ _)) by lia.
Qed.

(** A counted loop that writes a list into an array. *)
Lemma for_range_store (l : list Z) cap a :
  Z.of_nat (length l) ≤ cap →
  for_range 0 (Z.of_nat (length l)) (λ i _, store_frame l cap i) tt a =
  Done tt (arr_write a 0 l).
Proof.
  intros Hcap. unfold for_range. rewrite Z.sub_0_r, Nat2Z.id.
  assert (Hsteps : ∀ (n i : nat) a, (i + n = length l)%nat →
    for_steps n (Z.of_nat i) (λ i _, store_frame l cap i) tt a =
    Done tt (arr_write a (Z.of_nat i) (drop i l))).
  { induction n as [|n IH]; intros i a' Hi; simpl.
    - by rewrite drop_ge by lia.
    - destruct (lookup_lt_is_Some_2 l i) as [f Hf]; [lia|].
      unfold bind. rewrite (store_frame_eq _ _ _ f) by (done || lia).
      replace (Z.of_nat i + 1) with (Z.of_nat (S i)) by lia.
      rewrite (IH (S i)) by lia. rewrite (drop_S l f i Hf). simpl. do 2 f_equal. lia. }
  by rewrite (Hsteps (length l) 0%nat) by done.
Qed.

Lemma bw_win_capture_eq CaptureStackBackTrace cap max ips :
  capture_ok CaptureStackBackTrace → 0 < max ≤ cap →
  let frames := CaptureStackBackTrace BW_WIN_SKIP (capture_count max) in
  bw_win_capture CaptureStackBackTrace (Some cap) max ips =
    Done (Z.of_nat (length frames)) (arr_write ips 0 frames) ∧
  Z.of_nat (length frames) ≤ Z.min max BW_WIN_MAX_FRAMES.
Proof.
  intros Hcap Hmax frames. unfold bw_win_capture. rewrite (proj2 (Z.eqb_neq _ _)) by lia.
  assert (H64 : BW_WIN_MAX_FRAMES = 64) by done.
  assert (Hu : 0 ≤ u16 max ≤ max).
  { unfold u16. split; [by apply Z.mod_pos_bound|]. apply Z.mod_le; lia. }
  replace (if _ <? _ then _ else _) with (capture_count max).
  2:{ unfold capture_count. destruct (Z.ltb_spec BW_WIN_MAX_FRAMES (u16 max)); lia. }
  fold frames. assert (Hlen : Z.of_nat (length frames) ≤ capture_count max)
    by (apply Hcap; unfold capture_count; lia).
  unfold capture_count in Hlen.
  replace (u16 (Z.of_nat (length frames))) with (Z.of_nat (length frames)).
  2:{ unfold u16. rewrite Z.mod_small; lia. }
  unfold bind. rewrite for_range_store by lia. split; [done|lia].
Qed.

(** ** Copying a string *)

(** [dst] is a buffer of [dst_len] bytes, unless it is null. *)
Definition bw_copy_cstr (dst_null : bool) (dst_len : Z) (src : option cptr)
    : M (gmap Z byte) unit :=
  if (dst_null || (dst_len =? 0))%bool then ret tt else
  match src with
  | None =>
      let* dst := get in
      let* dst := arr_store dst_len dst 0 x3f in
      do* put dst in
      if 1 <? dst_len then put_nul dst_len 1 else ret tt
  | Some src =>
      let* i := copy_loop (buf_fuel dst_len) dst_len src 0 0 in
      put_nul dst_len i
  end.

(** A caller's buffer: null, or of [ob_len] bytes. *)
Record out_buf := OutBuf { ob_null : bool; ob_len : Z; ob_cells : gmap Z byte }.

(** [bw_copy_cstr] into it. *)
Definition copy_buf {S} (b : out_buf) (src : option cptr) : M S out_buf :=
  let* '(_, cells) := with_local (bw_copy_cstr (ob_null b) (ob_len b) src) (ob_cells b) in
  ret (OutBuf (ob_null b) (ob_len b) cells).

(** ** Sections *)

Definition SECTION_HEADER_SIZE : Z := 40.

Definition le_at (n off : nat) (l : list byte) : Z := le_val (take n (drop off l)).

Definition VirtualAddress (sh : list byte) : Z := le_at 4 12 sh.
Definition SizeOfRawData (sh : list byte) : Z := le_at 4 16 sh.
Definition PointerToRawData (sh : list byte) : Z := le_at 4 20 sh.

(** The bytes of the header from [Name] on, as a [const char *]. *)
Definition sh_name (sh : list byte) : cptr := λ i,
  if i <? 0 then None else sh !! Z.to_nat i.

Definition cptr_add (p : cptr) (off : Z) : cptr := λ i, p (off + i).

(** [c >= '0' && c <= '9'] *)
Definition is_digit (c : byte) : bool := ((48 <=? byte_val c) && (byte_val c <=? 57))%bool.

(** [while (d < 8 && ..) off = off * 10u + (DWORD)(sh->Name[d] - '0');] *)
Fixpoint name_digits {S} (fuel : nat) (sh : list byte) (d off : Z) : M S Z :=
  match fuel with
  | O => no_fuel
  | Datatypes.S fuel' =>
      if d <? 8 then
        let* c := c_at (sh_name sh) d in
        if is_digit c then name_digits fuel' sh (d + 1) (u32 (off * 10 + (byte_val c - 48)))
        else ret off
      else ret off
  end.

(** The loop that copies [name]; [short] says that [name] is [sh->Name].
    [name[i]] is read before [i < 8] is tested: the ninth byte of the header is
    read for a name of eight. *)
Fixpoint section_name_loop (fuel : nat) (out_len : Z) (name : cptr) (short : bool) (i : Z)
    : M (gmap Z byte) Z :=
  match fuel with
  | O => no_fuel
  | S fuel' =>
      if i + 1 <? out_len then
        let* b := c_at name i in
        if is_nul b then ret i else
        if (negb short || (i <? 8))%bool then
          let* out := get in
          let* out := arr_store out_len out i b in
          do* put out in
          section_name_loop fuel' out_len name short (i + 1)
        else ret i
      else ret i
  end.

(** Where the name is read from, and whether that is the header. *)
Definition name_source {S} (sh : list byte) (strtab : option cptr) (str_sz : Z) : M S (cptr * bool) :=
  let* c := c_at (sh_name sh) 0 in
  if Byte.eqb c x2f then
    let* off := name_digits 8 sh 1 0 in
    match strtab with
    | Some strtab =>
        if ((4 <? str_sz) && (off <? str_sz))%bool then ret (cptr_add strtab off, false)
        else ret (sh_name sh, true)
    | None => ret (sh_name sh, true)
    end
  else ret (sh_name sh, true).

Definition bw_section_name (sh : list byte) (strtab : option cptr) (str_sz : Z)
    (out_null : bool) (out_len : Z) : M (gmap Z byte) unit :=
  if (out_null || (out_len =? 0))%bool then ret tt else
  do* put_nul out_len 0 in
  let* '(name, short) := name_source sh strtab str_sz in
  let* i := section_name_loop (buf_fuel out_len) out_len name short 0 in
  put_nul out_len i.

Section data.
Context `{Platform}.

(** The address and length of a section's contents; [None] is a null pointer. *)
Definition bw_section_data (base file_sz : Z) (sh : list byte) : option (Z * Z) :=
  if ((PointerToRawData sh =? 0) || (SizeOfRawData sh =? 0))%bool then None else
  if file_sz <? uptr (PointerToRawData sh + SizeOfRawData sh) then None else
  Some (uptr (base + PointerToRawData sh), SizeOfRawData sh).

(** [memcpy] of [n] bytes from address [a] of a mapped file. *)
Fixpoint load_bytes (map : span) (n : nat) (a : Z) : option (list byte) :=
  match n with
  | O => Some []
  | S n' => b ← sp_read map a; l ← load_bytes map n' (uptr (a + 1)); Some (b :: l)
  end.

Definition memcpy_from {S} (map : span) (n : nat) (a : Z) : M S (list byte) :=
  of_option OobRead (load_bytes map n (uptr a)).

Definition bw_read_u32 {S} (map : span) (p : Z) : M S Z :=
  let* v := memcpy_from map 4 p in ret (le_val v).
End data.

(** ** What the helpers compute *)

(** A buffer filled with [w] and a terminator. *)
Definition with_cstr (dst : gmap Z byte) (w : list byte) : gmap Z byte :=
  <[Z.of_nat (length w) := x00]> (arr_write dst 0 w).

Lemma with_cstr_ok dst_len dst l :
  0 < dst_len → Forall (λ b, b ≠ x00) l →
  is_cstr (arr_cptr dst_len (with_cstr dst (take (Z.to_nat (dst_len - 1)) l)))
    (take (Z.to_nat (dst_len - 1)) l).
Proof.
  intros Hlen Hl. apply is_cstr_buf; [rewrite length_take; lia|by apply Forall_take].
Qed.

Lemma put_nul_write dst_len dst w :
  Z.of_nat (length w) < dst_len →
  put_nul dst_len (Z.of_nat (length w)) (arr_write dst 0 w) = Done tt (with_cstr dst w).
Proof.
  intros Hw. unfold put_nul, bind, get, arr_store.
  by rewrite (proj2 (in_bounds_true _ _)) by lia.
Qed.

Lemma bw_copy_cstr_eq dst_len src l dst :
  0 < dst_len → is_cstr src l →
  bw_copy_cstr false dst_len (Some src) dst =
  Done tt (with_cstr dst (take (Z.to_nat (dst_len - 1)) l)).
Proof.
  intros Hlen Hs. unfold bw_copy_cstr. rewrite orb_false_l, (proj2 (Z.eqb_neq _ _)) by lia.
  unfold bind. rewrite (copy_loop_start dst_len src l) by (done || lia).
  rewrite Z.sub_0_r, Z.add_0_l. apply put_nul_write. rewrite length_take. lia.
Qed.

Definition buf_ok (b : out_buf) : Prop := ob_null b = false ∧ 0 < ob_len b.

(** [b] filled with the string [l], cut to its size. *)
Definition buf_with (b : out_buf) (l : list byte) : out_buf :=
  OutBuf (ob_null b) (ob_len b) (with_cstr (ob_cells b) (take (Z.to_nat (ob_len b - 1)) l)).

(** It holds the string [l], cut to its size. *)
Definition buf_holds (b : out_buf) (l : list byte) : Prop :=
  is_cstr (arr_cptr (ob_len b) (ob_cells b)) (take (Z.to_nat (ob_len b - 1)) l).

Lemma copy_buf_eq {S} b src l (s : S) :
  buf_ok b → is_cstr src l → copy_buf b (Some src) s = Done (buf_with b l) s.
Proof.
  intros [Hnull Hlen] Hl. unfold copy_buf, bind, with_local, buf_with. rewrite Hnull.
  by rewrite (bw_copy_cstr_eq _ _ l).
Qed.

Lemma buf_with_ok b l : buf_ok b → buf_ok (buf_with b l).
Proof. done. Qed.

Lemma buf_with_holds b l : buf_ok b → Forall (λ c, c ≠ x00) l → buf_holds (buf_with b l) l.
Proof. intros [_ Hlen] Hl. by apply with_cstr_ok. Qed.

(** *** Section names *)

(** The leading decimal digits, and their value. *)
Fixpoint take_digits (l : list byte) : list byte :=
  match l with
  | [] => []
  | c :: l' => if is_digit c then c :: take_digits l' else []
  end.

Definition dec_val (off : Z) (l : list byte) : Z :=
  foldl (λ off c, off * 10 + (byte_val c - 48)) off l.

Lemma name_digits_eq {S} fuel sh (d : nat) off (s : S) :
  (8 ≤ length sh)%nat → (1 ≤ d ≤ 8)%nat → (8 - d < fuel)%nat → 0 ≤ off < 10 ^ (Z.of_nat d - 1) →
  name_digits fuel sh (Z.of_nat d) off s =
  Done (dec_val off (take_digits (take (8 - d) (drop d sh)))) s.
Proof.
  intros Hsh. revert d off. induction fuel as [|fuel IH]; intros d off Hd Hf Hoff; [lia|].
  cbn [name_digits]. destruct (Z.ltb_spec (Z.of_nat d) 8).
  - destruct (lookup_lt_is_Some_2 sh d) as [c Hc]; [lia|].
    unfold bind, c_at, sh_name. destruct (Z.ltb_spec (Z.of_nat d) 0); [lia|].
    rewrite Nat2Z.id, Hc. cbn [of_option ret]. rewrite (drop_S sh c d Hc).
    replace (8 - d)%nat with (Datatypes.S (8 - Datatypes.S d)) by lia. cbn [take take_digits].
    destruct (is_digit c) eqn:Ed; [|done].
    unfold is_digit in Ed. zify_bools.
    assert (Hpow : 10 ^ (Z.of_nat (Datatypes.S d) - 1) = 10 * 10 ^ (Z.of_nat d - 1)).
    { rewrite <- Z.pow_succ_r by lia. f_equal. lia. }
    assert (Hmax : 10 ^ (Z.of_nat (Datatypes.S d) - 1) ≤ 10 ^ 7) by (apply Z.pow_le_mono_r; lia).
    rewrite u32_small by lia. replace (Z.of_nat d + 1) with (Z.of_nat (Datatypes.S d)) by lia.
    rewrite IH by lia. done.
  - by replace (8 - d)%nat with 0%nat by lia.
Qed.

(** The bytes [name] can reach: eight of the header, or up to a terminator. *)
Definition name_limit (short : bool) (c : list byte) : list byte :=
  if short then take 8 c else c.

Lemma section_name_loop_eq fuel out_len (name : cptr) (short : bool) (c : list byte) (i : nat) out :
  (∀ (k : nat) b, c !! k = Some b → name (Z.of_nat k) = Some b) →
  (if short then (8 < length c)%nat else x00 ∈ c) →
  (i ≤ length (until_nul (name_limit short c)))%nat →
  Z.of_nat i < out_len → out_len - Z.of_nat i < Z.of_nat fuel →
  let w := take (Z.to_nat (out_len - 1 - Z.of_nat i)) (drop i (until_nul (name_limit short c))) in
  section_name_loop fuel out_len name short (Z.of_nat i) out =
  Done (Z.of_nat i + Z.of_nat (length w)) (arr_write out (Z.of_nat i) w).
Proof.
  intros Hname Hend. set (u := until_nul (name_limit short c)).
  revert i out. induction fuel as [|fuel IH]; intros i out Hi Ho Hf w; [lia|].
  cbn [section_name_loop]. destruct (Z.ltb_spec (Z.of_nat i + 1) out_len).
  2:{ unfold w. replace (Z.to_nat _) with 0%nat by lia. simpl. by rewrite Z.add_0_r. }
  assert (Hb : ∃ b, c !! i = Some b ∧
    match u !! i with Some b' => b' = b ∧ is_nul b = false ∧ (short = true → (i < 8)%nat)
    | None => is_nul b = true ∨ (short = true ∧ i = 8%nat) end).
  { destruct (u !! i) as [b|] eqn:Eu.
    - exists b. pose proof (until_nul_lookup _ _ _ Eu) as Hl.
      pose proof (Forall_lookup_1 _ _ _ _ (until_nul_no_nul _) Eu) as Hnz.
      unfold name_limit in Hl. destruct short.
      + apply lookup_take_Some in Hl as [Hl ?]. by rewrite is_nul_false.
      + by rewrite is_nul_false.
    - assert (i = length u) as -> by (apply lookup_ge_None in Eu; lia). unfold u, name_limit.
      destruct short.
      + destruct (decide (x00 ∈ take 8 c)) as [Hin|Hnin].
        * pose proof (elem_until_nul _ Hin) as Hl. apply lookup_take_Some in Hl as [Hl _].
          exists x00. split; [done|by left].
        * rewrite (until_nul_id (take 8 c)).
          2:{ apply Forall_forall. intros b Hb ->. done. }
          rewrite length_take, Nat.min_l by lia.
          destruct (lookup_lt_is_Some_2 c 8) as [b Hb]; [lia|]. exists b. split; [done|by right].
      + exists x00. split; [by apply elem_until_nul|by left]. }
  destruct Hb as (b & Hb & Hu). unfold bind at 1, c_at. rewrite (Hname _ _ Hb). cbn [of_option ret].
  destruct (u !! i) as [b'|] eqn:Eu.
  - destruct Hu as (-> & -> & Hshort).
    replace (negb short || (Z.of_nat i <? 8))%bool with true.
    2:{ destruct short; [|done]. symmetry. apply Z.ltb_lt. specialize (Hshort eq_refl). lia. }
    unfold bind, get, arr_store. rewrite (proj2 (in_bounds_true _ _)) by lia. unfold put, ret.
    replace (Z.of_nat i + 1) with (Z.of_nat (S i)) by lia.
    apply lookup_lt_Some in Eu as Hlt. rewrite IH by lia. unfold w.
    rewrite (drop_S u b i Eu).
    replace (Z.to_nat (out_len - 1 - Z.of_nat i)) with (S (Z.to_nat (out_len - 1 - Z.of_nat (S i)))) by lia.
    simpl. f_equal; [lia|]. do 2 f_equal. lia.
  - apply lookup_ge_None in Eu. unfold w. rewrite drop_ge, take_nil by lia. simpl. rewrite Z.add_0_r.
    destruct Hu as [-> | [-> ->]]; [done|]. by destruct (is_nul b).
Qed.

(** The string table pointer and offset of a long name, one that starts with a
    slash, if the table can hold it. *)
Definition long_name (sh : list byte) (strtab : option cptr) (str_sz : Z) : option cptr :=
  match sh, strtab with
  | c :: sh', Some strtab =>
      let off := dec_val 0 (take_digits (take 7 sh')) in
      if (Byte.eqb c x2f && (4 <? str_sz) && (off <? str_sz))%bool
      then Some (cptr_add strtab off) else None
  | _, _ => None
  end.

(** [l] is the name of the section with header [sh]. *)
Definition section_named (sh : list byte) (strtab : option cptr) (str_sz : Z) (l : list byte) : Prop :=
  match long_name sh strtab str_sz with
  | Some p => is_cstr p l
  | None => l = until_nul (take 8 sh)
  end.

Lemma name_source_eq {S} sh strtab str_sz (s : S) :
  length sh = 40%nat →
  name_source sh strtab str_sz s =
  Done (match long_name sh strtab str_sz with
        | Some p => (p, false)
        | None => (sh_name sh, true)
        end) s.
Proof.
  intros Hsh. unfold name_source. destruct sh as [|c sh']; [done|].
  unfold bind at 1. change (c_at (sh_name (c :: sh')) 0 s) with (Done c s). cbv iota beta.
  unfold long_name. destruct (Byte.eqb c x2f); [|by destruct strtab].
  unfold bind. rewrite (name_digits_eq 8 (c :: sh') 1 0) by (simpl in *; lia).
  cbn [drop Nat.sub andb]. destruct strtab as [p|]; [|done].
  set (off := dec_val 0 _). by destruct (4 <? str_sz), (off <? str_sz).
Qed.

Lemma section_name_run name short c out_len out :
  0 < out_len → (∀ (k : nat) b, c !! k = Some b → name (Z.of_nat k) = Some b) →
  (if short : bool then (8 < length c)%nat else x00 ∈ c) →
  (let* i := section_name_loop (buf_fuel out_len) out_len name short 0 in put_nul out_len i) out =
  Done tt (with_cstr out (take (Z.to_nat (out_len - 1)) (until_nul (name_limit short c)))).
Proof.
  intros Hout Hname Hend. unfold bind.
  rewrite (section_name_loop_eq _ out_len name short c 0) by (done || unfold buf_fuel; lia).
  rewrite drop_0, Z.sub_0_r, Z.add_0_l. apply put_nul_write. rewrite length_take. lia.
Qed.

Lemma bw_section_name_eq sh strtab str_sz out_len l out :
  length sh = 40%nat → 0 < out_len → section_named sh strtab str_sz l →
  bw_section_name sh strtab str_sz false out_len out =
  Done tt (with_cstr (<[0:=x00]> out) (take (Z.to_nat (out_len - 1)) l)).
Proof.
  intros Hsh Hout Hl. unfold bw_section_name.
  rewrite orb_false_l, (proj2 (Z.eqb_neq _ _)) by lia.
  assert (Hnul : put_nul out_len 0 out = Done tt (<[0:=x00]> out)).
  { unfold put_nul, bind, get, arr_store. by rewrite (proj2 (in_bounds_true _ _)) by lia. }
  unfold bind at 1. rewrite Hnul. unfold bind at 1. rewrite name_source_eq by done.
  unfold section_named in Hl. destruct (long_name sh strtab str_sz) as [p|].
  - rewrite (section_name_run p false (l ++ [x00])); [|done|..].
    + unfold name_limit. rewrite until_nul_app; [done|apply Hl].
    + intros k b Hb. destruct (decide (k < length l)%nat).
      * rewrite lookup_app_l in Hb by done. by apply Hl.
      * assert (k = length l) as -> by (apply lookup_lt_Some in Hb; rewrite length_app in Hb; simpl in Hb; lia).
        rewrite lookup_app_r, Nat.sub_diag in Hb by lia. simplify_eq/=. apply Hl.
    + apply elem_of_app. right. by apply list_elem_of_singleton.
  - subst l. apply (section_name_run _ true sh); [done| |lia]. intros k b Hb. unfold sh_name.
    destruct (Z.ltb_spec (Z.of_nat k) 0); [lia|]. by rewrite Nat2Z.id.
Qed.

(** *** Reading a mapped file *)

Section mapped.
Context `{Platform} (map : span) (Hmap : span_ok map).

(** The [n] bytes at an address of the file. *)
Definition bytes_at (n : nat) (a : Z) : list byte :=
  take n (drop (Z.to_nat (a - sp_base map)) (sp_bytes map)).

(** Of [n] bytes, inside the file. *)
Definition in_file (n a : Z) : Prop := sp_base map ≤ a ∧ a + n ≤ sp_end map.

Lemma length_bytes_at n a : in_file (Z.of_nat n) a → length (bytes_at n a) = n.
Proof.
  unfold in_file, bytes_at, sp_end, sp_len. intros [? ?].
  rewrite length_take, length_drop. lia.
Qed.

Lemma load_bytes_eq n a : in_file (Z.of_nat n) a → load_bytes map n a = Some (bytes_at n a).
Proof using Hmap.
  revert a. induction n as [|n IH]; intros a [Ha Hn]; [done|].
  destruct (sp_read_inside map a) as [b Hb]; [lia|]. destruct Hmap.
  cbn [load_bytes]. rewrite Hb, uptr_small by lia. cbn. rewrite IH by (split; lia). cbn.
  unfold sp_read in Hb. destruct (Z.ltb_spec a (sp_base map)); [done|].
  unfold bytes_at. rewrite (drop_S _ _ _ Hb). cbn [take].
  do 4 f_equal. lia.
Qed.

Lemma le_val_range l : 0 ≤ le_val l < 256 ^ Z.of_nat (length l).
Proof.
  induction l as [|b l IH]; [done|]. cbn [le_val length].
  replace (256 ^ Z.of_nat (S (length l))) with (256 * 256 ^ Z.of_nat (length l)).
  - pose proof (byte_val_range b). lia.
  - rewrite <- Z.pow_succ_r by lia. f_equal. lia.
Qed.

Lemma le_at_range n off l : 0 ≤ le_at n off l < 256 ^ Z.of_nat n.
Proof.
  unfold le_at. pose proof (le_val_range (take n (drop off l))) as Hr.
  split; [lia|]. eapply Z.lt_le_trans; [apply Hr|]. apply Z.pow_le_mono_r; [lia|].
  rewrite length_take. lia.
Qed.

Lemma memcpy_from_eq {S} n a (s : S) :
  in_file (Z.of_nat n) a → memcpy_from map n a s = Done (bytes_at n a) s.
Proof using Hmap.
  intros Ha. unfold memcpy_from. destruct Hmap. pose proof Ha as [? ?].
  rewrite uptr_small by lia. by rewrite load_bytes_eq.
Qed.

Lemma bw_read_u32_eq {S} a (s : S) :
  in_file 4 a → bw_read_u32 map a s = Done (le_val (bytes_at 4 a)) s.
Proof using Hmap. intros Ha. unfold bw_read_u32, bind. by rewrite (memcpy_from_eq 4). Qed.

(** A pointer into the file reads its bytes. *)
Lemma sp_cptr_reads n a (i : nat) b :
  sp_base map ≤ a → bytes_at n a !! i = Some b → sp_cptr map a (Z.of_nat i) = Some b.
Proof.
  unfold bytes_at, sp_cptr, sp_read. intros Ha [Hb _]%lookup_take_Some.
  rewrite lookup_drop in Hb. destruct (Z.ltb_spec (a + Z.of_nat i) (sp_base map)); [lia|].
  rewrite <- Hb. f_equal. lia.
Qed.

(** Where the sum of the two fields does not wrap, the section is in the file. *)
Lemma bw_section_data_inside sh addr len :
  sp_len map + 2 ^ 33 ≤ ptr_mod →
  bw_section_data (sp_base map) (sp_len map) sh = Some (addr, len) →
  sp_base map ≤ addr ∧ 0 < len ∧ addr + len ≤ sp_end map.
Proof using Hmap.
  unfold bw_section_data. intros Hsz. destruct Hmap as [Hb He]. unfold sp_end in *.
  pose proof (le_at_range 4 20 sh : 0 ≤ PointerToRawData sh < 2 ^ 32).
  pose proof (le_at_range 4 16 sh : 0 ≤ SizeOfRawData sh < 2 ^ 32).
  pose proof (sp_len_nonneg map).
  destruct (Z.eqb_spec (PointerToRawData sh) 0), (Z.eqb_spec (SizeOfRawData sh) 0); try done.
  cbn [orb]. rewrite uptr_small by lia. destruct (Z.ltb_spec (sp_len map) (PointerToRawData sh + SizeOfRawData sh)); [done|].
  intros [= <- <-]. rewrite uptr_small; lia.
Qed.
End mapped.

(** ** Properties *)

(** C31. [bw_win_capture] stores the frames the system captures, and no others, from
    the start of the caller's array, never more than the caller's room or 64, and
    answers their number. *)
Theorem bw_win_capture_correct CaptureStackBackTrace cap max ips :
  capture_ok CaptureStackBackTrace → 0 < max ≤ cap →
  let frames := CaptureStackBackTrace BW_WIN_SKIP (capture_count max) in
  bw_win_capture CaptureStackBackTrace (Some cap) max ips =
    Done (Z.of_nat (length frames)) (arr_write ips 0 frames) ∧
  Z.of_nat (length frames) ≤ Z.min max BW_WIN_MAX_FRAMES.
Proof. apply bw_win_capture_eq. Qed.

(** A system with a stack of three frames above the library's two. *)
Definition capture_ex (skip count : Z) : list Z :=
  take (Z.to_nat count) (drop (Z.to_nat skip) [1; 2; 0x401000; 0x402000; 0x403000]).

Lemma capture_ex_ok : capture_ok capture_ex.
Proof. intros skip count Hc. unfold capture_ex. rewrite length_take. lia. Qed.

Lemma bw_win_capture_correct_witness :
  let frames := capture_ex BW_WIN_SKIP (capture_count 2) in
  bw_win_capture capture_ex (Some 2) 2 ∅ = Done (Z.of_nat (length frames)) (arr_write ∅ 0 frames) ∧
  Z.of_nat (length frames) ≤ Z.min 2 BW_WIN_MAX_FRAMES.
Proof. apply (bw_win_capture_correct capture_ex 2 2 ∅ capture_ex_ok). concrete. Defined.

(** C30. [bw_section_name] yields the section's name, cut to the buffer and
    NUL-terminated: the string the decimal offset after a slash points to in the
    string table, or the up to eight bytes of the header when the name has no
    slash, the file no string table or the offset is behind it. *)
Theorem bw_section_name_correct sh strtab str_sz out_len l out :
  length sh = 40%nat → 0 < out_len → section_named sh strtab str_sz l →
  ∃ out', bw_section_name sh strtab str_sz false out_len out = Done tt out' ∧
    is_cstr (arr_cptr out_len out') (take (Z.to_nat (out_len - 1)) l).
Proof.
  intros Hsh Hout Hl. eexists. split; [by apply bw_section_name_eq|].
  apply with_cstr_ok; [done|]. unfold section_named in Hl.
  destruct (long_name sh strtab str_sz); [apply Hl|]. subst l. apply until_nul_no_nul.
Qed.

(** The header of a section called [name]. *)
Definition section_header (name : list byte) (va size ptr : Z) : list byte :=
  take 8 (name ++ replicate 8 x00) ++ le_bytes 4 size ++ le_bytes 4 va ++ le_bytes 4 size
    ++ le_bytes 4 ptr ++ replicate 16 x00.

(** "/4", a table with ".debug_line" at offset 4. *)
Definition strtab_ex : list byte :=
  [x10; x00; x00; x00; x2e; x64; x65; x62; x75; x67; x5f; x6c; x69; x6e; x65].

Lemma bw_section_name_correct_witness :
  ∃ out', bw_section_name (section_header [x2f; x34] 0 0 0) (Some (c_lit strtab_ex)) 16 false 8 ∅ =
      Done tt out' ∧
    is_cstr (arr_cptr 8 out') (take (Z.to_nat (8 - 1)) (drop 4 strtab_ex)).
Proof.
  apply bw_section_name_correct; [reflexivity|concrete|].
  unfold section_named. change (long_name _ _ _) with (Some (cptr_add (c_lit strtab_ex) 4)).
  split_and!; [|reflexivity|by repeat constructor].
  intros i b Hb. do 11 (destruct i as [|i]; [exact Hb|]). discriminate Hb.
Defined.
