(* ===== verification/PeSym.v ===== *)
(** * Symbols and lines of a PE file

    The static table of src/win.c ([bw_pe_mod] .. [bw_dwarf_ready]) and its
    operations: [bw_pe_sym_cmp], [bw_pe_add_name], [bw_pe_load], [bw_pe_find] and
    [bw_pe_line].  The mapped file is a span; the calls that open and map it are
    parameters, logged with the calls that release what they return.  The layout
    of the PE structures is that of <winnt.h>. *)

From S2P Require Import Prelude CMonad CMem Cursor Leb128 Decode Forms Search DwarfTab LineProgram LineUnit DwarfParse WinUtil.

Definition BW_COFF_SYM_SIZE : Z := 18.
Definition BW_PE_SYM_MAX : Z := 4096.
Definition BW_PE_NAME_MAX : Z := 256 * 1024.

Record bw_pe_sym_t := PeSym { pe_addr : Z; pe_name_off : Z }.

(** ** The system *)

(** [CreateFileA], [GetFileSizeEx], [CreateFileMappingA] and [MapViewOfFile];
    [None] is failure. *)
Record win_os := WinOs {
  CreateFileA : list byte → option Z;
  GetFileSizeEx : Z → option Z;
  CreateFileMappingA : Z → option Z;
  MapViewOfFile : Z → option span;
}.

Inductive win_event :=
| EvHandle (h : Z)
| EvCloseHandle (h : Z)
| EvView (addr : Z)
| EvUnmapView (addr : Z).

(** ** The state *)

(** The static variables of src/win.c that hold what is known of one module,
    and the log. *)
Record pe_st := PeSt {
  bw_pe_mod : Z;
  bw_pe_state : Z;
  bw_pe_syms : gmap Z bw_pe_sym_t;
  bw_pe_nsym : Z;
  bw_pe_names : gmap Z byte;
  bw_pe_nlen : Z;
  bw_pe_image_base : Z;
  bw_dwarf : bw_dwarf_tab_t;
  bw_dwarf_ready : Z;
  pe_log : list win_event;
}.

Definition pe_st0 : pe_st := PeSt 0 0 ∅ 0 ∅ 0 0 tab0 0 [].

Definition set_names (names : gmap Z byte) (nlen : Z) (s : pe_st) : pe_st :=
  PeSt (bw_pe_mod s) (bw_pe_state s) (bw_pe_syms s) (bw_pe_nsym s) names nlen
    (bw_pe_image_base s) (bw_dwarf s) (bw_dwarf_ready s) (pe_log s).
Definition set_syms (syms : gmap Z bw_pe_sym_t) (nsym : Z) (s : pe_st) : pe_st :=
  PeSt (bw_pe_mod s) (bw_pe_state s) syms nsym (bw_pe_names s) (bw_pe_nlen s)
    (bw_pe_image_base s) (bw_dwarf s) (bw_dwarf_ready s) (pe_log s).
Definition set_state (state : Z) (s : pe_st) : pe_st :=
  PeSt (bw_pe_mod s) state (bw_pe_syms s) (bw_pe_nsym s) (bw_pe_names s) (bw_pe_nlen s)
    (bw_pe_image_base s) (bw_dwarf s) (bw_dwarf_ready s) (pe_log s).
Definition set_image_base (base : Z) (s : pe_st) : pe_st :=
  PeSt (bw_pe_mod s) (bw_pe_state s) (bw_pe_syms s) (bw_pe_nsym s) (bw_pe_names s) (bw_pe_nlen s)
    base (bw_dwarf s) (bw_dwarf_ready s) (pe_log s).
Definition set_dwarf (tab : bw_dwarf_tab_t) (ready : Z) (s : pe_st) : pe_st :=
  PeSt (bw_pe_mod s) (bw_pe_state s) (bw_pe_syms s) (bw_pe_nsym s) (bw_pe_names s) (bw_pe_nlen s)
    (bw_pe_image_base s) tab ready (pe_log s).
Definition set_log (l : list win_event) (s : pe_st) : pe_st :=
  PeSt (bw_pe_mod s) (bw_pe_state s) (bw_pe_syms s) (bw_pe_nsym s) (bw_pe_names s) (bw_pe_nlen s)
    (bw_pe_image_base s) (bw_dwarf s) (bw_dwarf_ready s) l.

Definition modify (f : pe_st → pe_st) : M pe_st unit := let* s := get in put (f s).
Definition log_win (e : win_event) : M pe_st unit := modify (λ s, set_log (pe_log s ++ [e]) s).

(** The assignments at the start of [bw_pe_load]. *)
Definition pe_reset (module : Z) (s : pe_st) : pe_st :=
  PeSt module (-1) (bw_pe_syms s) 0 (bw_pe_names s) 0 0 (bw_dwarf_tab_reset (bw_dwarf s)) 0
    (pe_log s).

Definition bw_pe_sym_cmp (sa sb : bw_pe_sym_t) : Z :=
  if pe_addr sa <? pe_addr sb then -1
  else if pe_addr sa >? pe_addr sb then 1
  else 0.

(** A zero-initialised cell of [bw_pe_syms]. *)
Definition pe_sym0 : bw_pe_sym_t := PeSym 0 0.

(** The live symbols. *)
Definition pe_symbols (s : pe_st) : list bw_pe_sym_t :=
  arr_seg pe_sym0 (bw_pe_syms s) 0 (bw_pe_nsym s).

Section pe.
Context `{Platform}.

(** ** Names *)

(** [while (i < src_len && src[i] != '\0') ..], returning the final [i]. *)
Fixpoint add_name_loop (fuel : nat) (src : cptr) (src_len i : Z) : M pe_st Z :=
  match fuel with
  | O => no_fuel
  | S fuel' =>
      if i <? src_len then
        let* b := c_at src i in
        if is_nul b then ret i else
        let* s := get in
        let* names := arr_store BW_PE_NAME_MAX (bw_pe_names s) (uptr (bw_pe_nlen s + i)) b in
        do* put (set_names names (bw_pe_nlen s) s) in
        add_name_loop fuel' src src_len (i + 1)
      else ret i
  end.

Definition bw_pe_add_name (src : option cptr) (src_len : Z) : M pe_st Z :=
  let* s := get in
  match src with
  | None => ret (-1)
  | Some src =>
      if ((src_len =? 0) || (BW_PE_NAME_MAX <=? bw_pe_nlen s))%bool then ret (-1) else
      let room := uptr (BW_PE_NAME_MAX - bw_pe_nlen s) in
      let src_len := if room <=? src_len then uptr (room - 1) else src_len in
      if src_len =? 0 then ret (-1) else
      let* i := add_name_loop (S (Z.to_nat src_len)) src src_len 0 in
      if i =? 0 then ret (-1) else
      let* s := get in
      let* names := arr_store BW_PE_NAME_MAX (bw_pe_names s) (uptr (bw_pe_nlen s + i)) x00 in
      let off := sext 32 (u32 (bw_pe_nlen s)) in
      do* put (set_names names (uptr (bw_pe_nlen s + uptr (i + 1))) s) in
      ret off
  end.

(** ** The headers of the file *)

(** The locals of [bw_pe_load] the headers determine. *)
Record pe_headers := PeHeaders {
  e_lfanew : Z;
  nsec : Z;
  sec_off : Z;
  opt_size : Z;
  sym_off : Z;
  nsym : Z;
}.

Definition DOS_HEADER_SIZE : Z := 64.
Definition FILE_HEADER_SIZE : Z := 20.
Definition IMAGE_DOS_SIGNATURE : Z := 0x5a4d.
Definition IMAGE_NT_SIGNATURE : Z := 0x4550.
Definition IMAGE_NT_OPTIONAL_HDR32_MAGIC : Z := 0x10b.
Definition IMAGE_NT_OPTIONAL_HDR64_MAGIC : Z := 0x20b.

Section file.
Context (map : span) (file_sz : Z).

(** From the DOS header to the section table; [None] is [break]. *)
Definition read_headers : M pe_st (option pe_headers) :=
  let base := sp_base map in
  if file_sz <? DOS_HEADER_SIZE then ret None else
  let* dos := memcpy_from map 64 base in
  if (negb (le_at 2 0 dos =? IMAGE_DOS_SIGNATURE) || (sext 32 (le_at 4 60 dos) <? 0))%bool
  then ret None else
  let e_lfanew := le_at 4 60 dos in
  if file_sz <? uptr (e_lfanew + 4 + FILE_HEADER_SIZE) then ret None else
  let* signature := bw_read_u32 map (base + e_lfanew) in
  if negb (signature =? IMAGE_NT_SIGNATURE) then ret None else
  let* fh := memcpy_from map 20 (base + e_lfanew + 4) in
  let nsec := le_at 2 2 fh in
  if ((nsec =? 0) || (96 <? nsec))%bool then ret None else
  let opt_size := le_at 2 16 fh in
  let sec_off := u32 (e_lfanew + 4 + FILE_HEADER_SIZE + opt_size) in
  if file_sz <? uptr (sec_off + nsec * SECTION_HEADER_SIZE) then ret None else
  ret (Some (PeHeaders e_lfanew nsec sec_off opt_size (le_at 4 8 fh) (le_at 4 12 fh))).

Section body.
Context (hd : pe_headers).

(** [bw_pe_image_base] from the optional header; 0 when it has none. *)
Definition read_image_base : M pe_st unit :=
  let opt := sp_base map + e_lfanew hd + 4 + FILE_HEADER_SIZE in
  if 28 <=? opt_size hd then
    let* magic := memcpy_from map 2 opt in
    if ((le_val magic =? IMAGE_NT_OPTIONAL_HDR64_MAGIC) && (32 <=? opt_size hd))%bool then
      let* ib := memcpy_from map 8 (opt + 24) in
      modify (set_image_base (uptr (le_val ib)))
    else if le_val magic =? IMAGE_NT_OPTIONAL_HDR32_MAGIC then
      let* ib := memcpy_from map 4 (opt + 28) in
      modify (set_image_base (uptr (le_val ib)))
    else ret tt
  else ret tt.

(** [str_off] and [str_sz]; [str_sz] is 0 when the file has no string table. *)
Definition read_strtab : M pe_st (Z * Z) :=
  if (negb (sym_off hd =? 0) && negb (nsym hd =? 0) &&
      (uptr (sym_off hd + uptr (nsym hd * BW_COFF_SYM_SIZE) + 4) <=? file_sz))%bool then
    let str_off := u32 (sym_off hd + u32 (nsym hd * BW_COFF_SYM_SIZE)) in
    let* str_sz := bw_read_u32 map (sp_base map + str_off) in
    if ((str_sz <? 4) || (file_sz <? uptr (str_off + str_sz)))%bool
    then ret (str_off, 0) else ret (str_off, str_sz)
  else ret (0, 0).

(** A section header, by its number from 0. *)
Definition read_section (s : Z) : M pe_st (list byte) :=
  memcpy_from map 40 (sp_base map + sec_off hd + u32 (s * SECTION_HEADER_SIZE)).

(** *** Symbols *)

Context (module str_off str_sz : Z).

(** [ISFCN(type)]: the derived type is a function. *)
Definition ISFCN (type : Z) : bool := Z.land type 0x30 =? 0x20.

(** Where a symbol's name is, and the bytes it may have; [None] is a name
    outside the string table. *)
Definition symbol_name (raw : Z) : M pe_st (option (cptr * Z)) :=
  let* zeroes := bw_read_u32 map raw in
  if zeroes =? 0 then
    let* long_off := bw_read_u32 map (raw + 4) in
    if ((str_sz =? 0) || (str_sz <=? long_off))%bool then ret None else
    ret (Some (sp_cptr map (uptr (sp_base map + str_off + long_off)), str_sz - long_off))
  else ret (Some (sp_cptr map raw, 8)).

(** [bw_pe_syms[bw_pe_nsym] = ..; bw_pe_nsym += 1;] *)
Definition push_symbol (addr name_off : Z) : M pe_st unit :=
  let* s := get in
  let* syms := arr_store BW_PE_SYM_MAX (bw_pe_syms s) (bw_pe_nsym s) (PeSym addr (u32 name_off)) in
  put (set_syms syms (uptr (bw_pe_nsym s + 1)) s).

(** The body of the symbol loop behind the auxiliary records: [false] is
    [break], [true] is [continue] or the end of the body. *)
Definition add_symbol (raw value sec_num type : Z) : M pe_st bool :=
  if ((sec_num <=? 0) || (nsec hd <? sec_num))%bool then ret true else
  if negb (ISFCN type) then ret true else
  let* sh := read_section (sec_num - 1) in
  let addr := uptr (uptr (module + VirtualAddress sh) + value) in
  let* name := symbol_name raw in
  match name with
  | None => ret true
  | Some (name, name_len) =>
      let* c := c_at name 0 in
      if (Byte.eqb c x2e || is_nul c)%bool then ret true else
      let* name_off := bw_pe_add_name (Some name) name_len in
      if name_off <? 0 then ret false else
      do* push_symbol addr name_off in
      ret true
  end.

(** [for (i = 0; i < nsym && bw_pe_nsym < BW_PE_SYM_MAX; ++i)]; auxiliary
    records are skipped by moving [i]. *)
Fixpoint symbol_loop (fuel : nat) (i : Z) : M pe_st unit :=
  match fuel with
  | O => no_fuel
  | S fuel' =>
      let* s := get in
      if ((i <? nsym hd) && (bw_pe_nsym s <? BW_PE_SYM_MAX))%bool then
        let raw := uptr (sp_base map + sym_off hd + u32 (i * BW_COFF_SYM_SIZE)) in
        let* value := bw_read_u32 map (raw + 8) in
        let* sec_num := memcpy_from map 2 (raw + 12) in
        let* type := memcpy_from map 2 (raw + 14) in
        let* naux := memcpy_from map 1 (raw + 17) in
        let naux := le_val naux in
        if (negb (naux =? 0) && (nsym hd <=? u32 (i + naux)))%bool then ret tt else
        let i := u32 (i + naux) in
        let* more := add_symbol raw value (sext 16 (le_val sec_num)) (le_val type) in
        if more then symbol_loop fuel' (u32 (i + 1)) else ret tt
      else ret tt
  end.

Definition read_symbols : M pe_st unit :=
  if (negb (sym_off hd =? 0) && negb (nsym hd =? 0) &&
      (uptr (sym_off hd + uptr (nsym hd * BW_COFF_SYM_SIZE)) <=? file_sz))%bool
  then symbol_loop (S (Z.to_nat (nsym hd))) 0 else ret tt.

(** The [qsort], and the state 1. *)
Definition sort_symbols `{QSort} : M pe_st unit :=
  let* s := get in
  if 0 <? bw_pe_nsym s then
    put (set_state 1 (set_syms (arr_write (bw_pe_syms s) 0 (qsort bw_pe_sym_cmp (pe_symbols s)))
                        (bw_pe_nsym s) s))
  else ret tt.

(** *** Lines *)

(** [strcmp(s, lit) == 0] *)
Fixpoint strcmp_eq {S} (s : cptr) (lit : list byte) (i : Z) : M S bool :=
  let* b := c_at s i in
  match lit with
  | [] => ret (is_nul b)
  | c :: lit' => if Byte.eqb b c then strcmp_eq s lit' (i + 1) else ret false
  end.

Definition DEBUG_LINE : list byte :=
  [x2e; x64; x65; x62; x75; x67; x5f; x6c; x69; x6e; x65].
Definition DEBUG_LINE_STR : list byte := DEBUG_LINE ++ [x5f; x73; x74; x72].
Definition DEBUG_STR : list byte := [x2e; x64; x65; x62; x75; x67; x5f; x73; x74; x72].

(** The variables [line], [line_str] and [debug_str] with their lengths; [None]
    is a null pointer. *)
Record debug_sections := DebugSections {
  ds_line : option (Z * Z);
  ds_line_str : option (Z * Z);
  ds_debug_str : option (Z * Z);
}.

(** The size of the local [name]. *)
Definition SECTION_NAME_BUF : Z := 64.

(** One round of [for (s = 0; s < nsec; ++s)]. *)
Definition scan_debug_section (s : Z) (ds : debug_sections) : M pe_st debug_sections :=
  let strtab := if 0 <? str_sz then Some (sp_cptr map (uptr (sp_base map + str_off))) else None in
  let* sh := read_section s in
  let* '(_, name) := with_local (bw_section_name sh strtab str_sz false SECTION_NAME_BUF) ∅ in
  let name := arr_cptr SECTION_NAME_BUF name in
  match bw_section_data (sp_base map) file_sz sh with
  | None => ret ds
  | Some data =>
      let* is_line := strcmp_eq name DEBUG_LINE 0 in
      if is_line then ret (DebugSections (Some data) (ds_line_str ds) (ds_debug_str ds)) else
      let* is_line_str := strcmp_eq name DEBUG_LINE_STR 0 in
      if is_line_str then ret (DebugSections (ds_line ds) (Some data) (ds_debug_str ds)) else
      let* is_debug_str := strcmp_eq name DEBUG_STR 0 in
      if is_debug_str then ret (DebugSections (ds_line ds) (ds_line_str ds) (Some data)) else
      ret ds
  end.

(** The part of the map a section is; one that is not inside the map may not be
    read. *)
Definition section_span (data : option (Z * Z)) : option span :=
  match data with
  | None => Some null_span
  | Some (addr, len) =>
      if ((sp_base map <=? addr) && (addr + len <=? sp_end map))%bool
      then Some (Span addr (take (Z.to_nat len) (drop (Z.to_nat (addr - sp_base map)) (sp_bytes map))))
      else None
  end.

Definition read_lines `{QSort} : M pe_st unit :=
  let* ds := for_range 0 (nsec hd) scan_debug_section (DebugSections None None None) in
  match ds_line ds with
  | None => ret tt
  | Some _ =>
      let* line := of_option OobRead (section_span (ds_line ds)) in
      let* line_str := of_option OobRead (section_span (ds_line_str ds)) in
      let* debug_str := of_option OobRead (section_span (ds_debug_str ds)) in
      let* s := get in
      let* '(ready, tab) :=
        zoom (λ _, tt) (λ _ s, s) (bw_dwarf_tab_parse line line_str debug_str (Some (bw_dwarf s))) in
      modify (set_dwarf (default (bw_dwarf s) tab) (if ready : bool then 1 else 0))
  end.
End body.

(** The [do { .. } while (0)] of [bw_pe_load]. *)
Definition read_file `{QSort} (module : Z) : M pe_st unit :=
  let* hd := read_headers in
  match hd with
  | None => ret tt
  | Some hd =>
      do* modify (λ s, set_dwarf (bw_dwarf_tab_reset (bw_dwarf s)) 0 (set_image_base 0 s)) in
      do* read_image_base hd in
      let* '(str_off, str_sz) := read_strtab hd in
      do* read_symbols hd module str_off str_sz in
      do* sort_symbols in
      read_lines hd str_off str_sz
  end.
End file.

(** ** Loading, finding, lines *)

Context (os : win_os).

(** [path == NULL || path[0] == '\0' || path[0] == '?'] *)
Definition usable_path (path : option (list byte)) : option (list byte) :=
  match path with
  | Some (c :: p) => if Byte.eqb c x3f then None else Some (c :: p)
  | _ => None
  end.

(** A handle or pointer of 0 is null. *)
Definition bw_pe_load `{QSort} (module : Z) (path : option (list byte)) : M pe_st unit :=
  do* modify (pe_reset module) in
  if module =? 0 then ret tt else
  match usable_path path with
  | None => ret tt
  | Some path =>
      match CreateFileA os path with
      | None => ret tt
      | Some file =>
          do* log_win (EvHandle file) in
          match GetFileSizeEx os file with
          | None => log_win (EvCloseHandle file)
          | Some size =>
              if size <=? 0 then log_win (EvCloseHandle file) else
              match CreateFileMappingA os file with
              | None => log_win (EvCloseHandle file)
              | Some h =>
                  do* log_win (EvHandle h) in
                  match MapViewOfFile os h with
                  | None => do* log_win (EvCloseHandle h) in log_win (EvCloseHandle file)
                  | Some map =>
                      do* log_win (EvView (sp_base map)) in
                      do* read_file map (uptr size) module in
                      do* log_win (EvUnmapView (sp_base map)) in
                      do* log_win (EvCloseHandle h) in
                      log_win (EvCloseHandle file)
                  end
              end
          end
      end
  end.

(** [if (bw_pe_mod != module) bw_pe_load(module, path);] *)
Definition ensure_loaded `{QSort} (module : Z) (path : option (list byte)) : M pe_st unit :=
  let* s := get in
  if negb (bw_pe_mod s =? module) then bw_pe_load module path else ret tt.

(** The name is its offset in [bw_pe_names]; [None] is a null pointer. *)
Definition bw_pe_find `{QSort} (module : Z) (path : option (list byte)) (ip : Z)
    : M pe_st (option Z) :=
  if module =? 0 then ret None else
  do* ensure_loaded module path in
  let* s := get in
  if negb (bw_pe_state s =? 1) then ret None else
  let sym_at mid := arr_load0 BW_PE_SYM_MAX pe_sym0 (bw_pe_syms s) mid in
  let key mid := let* x := sym_at mid in ret (pe_addr x) in
  let* best := bsearch_le key ip (bw_pe_nsym s) in
  if best =? size_max then ret None else
  let* x := sym_at best in
  ret (Some (pe_name_off x)).

(** The caller's buffer [src] and variable [*line] ([None] is a null pointer)
    are passed and returned. *)
Definition bw_pe_line `{QSort} (module : Z) (path : option (list byte)) (probe : Z)
    (src : out_buf) (line : option Z) : M pe_st (out_buf * option Z) :=
  if module =? 0 then ret (src, line) else
  do* ensure_loaded module path in
  let* s := get in
  if bw_dwarf_ready s =? 0 then ret (src, line) else
  let linked :=
    if bw_pe_image_base s =? 0 then probe
    else uptr (bw_pe_image_base s + uptr (probe - module)) in
  let* '(found, file, ln) :=
    zoom (λ _, tt) (λ _ s, s) (bw_dwarf_tab_lookup (Some (bw_dwarf s)) linked (Some None) (Some 0)) in
  match found, file with
  | true, Some (Some off) =>
      let file := arr_cptr0 BW_DWARF_STR_MAX (strs (bw_dwarf s)) off in
      let* src := copy_buf src (Some file) in
      ret (src, match line with None => None | Some _ => ln end)
  | _, _ => ret (src, line)
  end.
End pe.

(** ** The invariant *)

(** The name [l] is stored at offset [off]. *)
Definition name_at (s : pe_st) (off : Z) (l : list byte) : Prop :=
  pool_at BW_PE_NAME_MAX (bw_pe_names s) (bw_pe_nlen s) off l.

(** What every step of [bw_pe_load] keeps. *)
Record pe_wf `{Platform} (s : pe_st) : Prop := {
  pe_nsym_ok : 0 ≤ bw_pe_nsym s ≤ BW_PE_SYM_MAX;
  pe_nlen_ok : 0 ≤ bw_pe_nlen s ≤ BW_PE_NAME_MAX;
  pe_names_ok : Forall (λ x, ∃ l, l ≠ [] ∧ name_at s (pe_name_off x) l) (pe_symbols s);
  pe_dwarf_ok : tab_ok (bw_dwarf s);
}.

Definition pe_sorted (s : pe_st) : Prop := StronglySorted Z.le (pe_addr <$> pe_symbols s).

(** What holds between the calls: the tables that are declared ready are. *)
Record pe_ok `{Platform} (s : pe_st) : Prop := {
  pe_ok_wf : pe_wf s;
  pe_ok_syms : bw_pe_state s = 1 → pe_sorted s ∧ 0 < bw_pe_nsym s;
  pe_ok_dwarf : bw_dwarf_ready s ≠ 0 → rows_sorted (bw_dwarf s) ∧ 0 < nrow (bw_dwarf s);
}.

Section spec.
Context `{Platform}.

Lemma pe_st0_ok : pe_ok pe_st0.
Proof.
  split; [|done|done]. split; [unfold BW_PE_SYM_MAX; simpl; lia|unfold BW_PE_NAME_MAX; simpl; lia| |].
  - constructor.
  - apply tab0_ok.
Qed.

(** *** Adding a name *)

(** The bytes [bw_pe_add_name] keeps of [c]. *)
Definition pe_kept (s : pe_st) (c : list byte) : list byte :=
  until_nul (take (Z.to_nat (BW_PE_NAME_MAX - bw_pe_nlen s - 1)) c).

Definition add_name_result (s : pe_st) (w : list byte) : pe_st :=
  set_names (arr_write (bw_pe_names s) (bw_pe_nlen s) (w ++ [x00]))
    (bw_pe_nlen s + Z.of_nat (length w) + 1) s.

(** The [n] bytes a pointer can read. *)
Definition reads (p : cptr) (c : list byte) : Prop :=
  ∀ (i : nat) b, c !! i = Some b → p (Z.of_nat i) = Some b.

Lemma until_nul_stop l : length (until_nul l) ≠ length l → l !! length (until_nul l) = Some x00.
Proof.
  induction l as [|b l IH]; simpl; [done|]. destruct (is_nul b) eqn:E; simpl.
  - intros _. f_equal. by apply is_nul_true.
  - intros Hne. apply IH. lia.
Qed.

Lemma length_until_nul l : (length (until_nul l) ≤ length l)%nat.
Proof. induction l as [|b l IH]; simpl; [done|]. destruct (is_nul b); simpl; lia. Qed.

Lemma add_name_loop_eq fuel src c (n i : nat) s :
  let u := until_nul (take n c) in
  reads src c → (n ≤ length c)%nat → (i ≤ length u)%nat → (n - i < fuel)%nat →
  0 ≤ bw_pe_nlen s → bw_pe_nlen s + Z.of_nat n ≤ BW_PE_NAME_MAX →
  add_name_loop fuel src (Z.of_nat n) (Z.of_nat i) s =
  Done (Z.of_nat (length u))
    (set_names (arr_write (bw_pe_names s) (bw_pe_nlen s + Z.of_nat i) (drop i u)) (bw_pe_nlen s) s).
Proof.
  intros u Hc Hn. pose proof (length_until_nul (take n c)) as Hlu. rewrite length_take in Hlu.
  fold u in Hlu. assert (HM : BW_PE_NAME_MAX = 262144) by done.
  revert i s. induction fuel as [|fuel IH]; intros i s Hi Hf Hl Hmax; [lia|].
  cbn [add_name_loop].
  assert (Hstop : i = length u → Done (S:=pe_st) (Z.of_nat i) s = Done (Z.of_nat (length u))
    (set_names (arr_write (bw_pe_names s) (bw_pe_nlen s + Z.of_nat i) (drop i u)) (bw_pe_nlen s) s)).
  { intros ->. rewrite drop_all. by destruct s. }
  destruct (Z.ltb_spec (Z.of_nat i) (Z.of_nat n)); [|by apply Hstop; lia].
  destruct (lookup_lt_is_Some_2 c i) as [b Hb]; [lia|].
  unfold bind at 1, c_at. rewrite (Hc _ _ Hb). cbn [of_option ret].
  destruct (decide (i = length u)) as [E|E].
  - assert (Ht : take n c !! i = Some x00).
    { rewrite E. apply until_nul_stop. fold u. rewrite length_take. lia. }
    apply lookup_take_Some in Ht as [Ht _]. simplify_eq. by apply Hstop.
  - destruct (lookup_lt_is_Some_2 u i) as [b' Hb']; [lia|].
    pose proof (until_nul_lookup _ _ _ Hb') as Ht. apply lookup_take_Some in Ht as [Ht _].
    assert (b' = b) as -> by congruence. pose proof (Forall_lookup_1 _ _ _ _ (until_nul_no_nul _) Hb') as Hnz.
    rewrite (proj2 (is_nul_false b) Hnz). unfold bind, get, arr_store.
    rewrite uptr_small32, (proj2 (in_bounds_true _ _)) by lia. unfold put, ret.
    replace (Z.of_nat i + 1) with (Z.of_nat (S i)) by lia.
    rewrite IH by (simpl; lia). rewrite (drop_S u b i Hb'). unfold set_names; simpl.
    do 3 f_equal. lia.
Qed.

Lemma bw_pe_add_name_eq src c s :
  0 ≤ bw_pe_nlen s ≤ BW_PE_NAME_MAX → reads src c →
  bw_pe_add_name (Some src) (Z.of_nat (length c)) s =
  match pe_kept s c with
  | [] => Done (-1) s
  | w => Done (bw_pe_nlen s) (add_name_result s w)
  end.
Proof.
  intros Hl Hc. unfold bw_pe_add_name, bind at 1, get, pe_kept.
  assert (HM : BW_PE_NAME_MAX = 262144) by done.
  destruct (Z.eqb_spec (Z.of_nat (length c)) 0) as [|Hc0].
  { assert (c = []) as -> by (apply length_zero_iff_nil; lia). by rewrite take_nil. }
  destruct (Z.leb_spec BW_PE_NAME_MAX (bw_pe_nlen s)).
  { by replace (Z.to_nat (BW_PE_NAME_MAX - bw_pe_nlen s - 1)) with 0%nat by lia. }
  cbn [orb]. rewrite !uptr_small32 by lia.
  set (room := Z.to_nat (BW_PE_NAME_MAX - bw_pe_nlen s - 1)).
  replace (if _ <=? _ then _ else _) with (Z.of_nat (length c `min` room)).
  2:{ unfold room. destruct (Z.leb_spec (BW_PE_NAME_MAX - bw_pe_nlen s) (Z.of_nat (length c))); lia. }
  set (n := (length c `min` room)%nat).
  assert (Hn : (n ≤ length c)%nat ∧ bw_pe_nlen s + Z.of_nat n < BW_PE_NAME_MAX) by (unfold n, room; lia).
  assert (Ht : take room c = take n c).
  { unfold n. destruct (Nat.le_ge_cases (length c) room).
    - by rewrite Nat.min_l, !take_ge by lia.
    - by rewrite Nat.min_r by lia. }
  rewrite Ht. destruct (Z.eqb_spec (Z.of_nat n) 0).
  { by replace n with 0%nat by lia. }
  unfold bind at 1.
  rewrite (add_name_loop_eq _ src c n 0 s) by (done || lia).
  pose proof (length_until_nul (take n c)) as Hu. rewrite length_take in Hu.
  rewrite drop_0, Z.add_0_r. set (u := until_nul (take n c)) in *.
  destruct (Z.eqb_spec (Z.of_nat (length u)) 0).
  { destruct u; [by destruct s|simpl in *; lia]. }
  destruct u as [|b u'] eqn:Eu; [done|]. rewrite <- Eu in *.
  unfold bind, get, arr_store. cbn [bw_pe_nlen bw_pe_names set_names].
  rewrite (uptr_small32 (bw_pe_nlen s + _)), (proj2 (in_bounds_true _ _)) by lia. unfold put, ret.
  rewrite u32_small, sext_int by lia. rewrite !uptr_small32 by (rewrite ?uptr_small32; lia).
  unfold add_name_result, set_names; simpl. rewrite arr_write_app. simpl. by rewrite Z.add_assoc.
Qed.
End spec.
