(* ===== verification/PeSpec.v ===== *)
(** * The symbols of a PE file

    What the symbol loop of [bw_pe_load] (src/win.c) computes: the function
    symbols of a COFF symbol table as a list ([coff_functions]), the table they
    make ([add_functions]), and the theorems that the loop adds exactly these and
    that [bw_pe_find] looks them up. *)

From S2P Require Import Prelude CMonad CMem Cursor Leb128 Decode Forms Search DwarfTab WinUtil PeSym.

Lemma until_nul_take k l : until_nul (take k l) = take k (until_nul l).
Proof.
  revert k. induction l as [|b l IH]; intros [|k]; simpl; [done..|by destruct (is_nul b)|].
  destruct (is_nul b); [done|]. simpl. by rewrite IH.
Qed.

(** ** The functions of a symbol table *)

Section coff.
Context (map : span) (hd : pe_headers).

Definition record_at (i : Z) : Z := sp_base map + sym_off hd + i * BW_COFF_SYM_SIZE.
Definition rec_value (i : Z) : Z := le_val (bytes_at map 4 (record_at i + 8)).
Definition rec_section (i : Z) : Z := sext 16 (le_val (bytes_at map 2 (record_at i + 12))).
Definition rec_type (i : Z) : Z := le_val (bytes_at map 2 (record_at i + 14)).
Definition rec_naux (i : Z) : Z := le_val (bytes_at map 1 (record_at i + 17)).
Definition section_at (k : Z) : list byte :=
  bytes_at map 40 (sp_base map + sec_off hd + k * SECTION_HEADER_SIZE).

Context (str_off str_sz : Z).

(** The bytes the name of record [i] may have: up to eight in the record, or the
    rest of the string table. *)
Definition rec_name (i : Z) : option (list byte) :=
  if le_val (bytes_at map 4 (record_at i)) =? 0 then
    let off := le_val (bytes_at map 4 (record_at i + 4)) in
    if ((str_sz =? 0) || (str_sz <=? off))%bool then None
    else Some (bytes_at map (Z.to_nat (str_sz - off)) (sp_base map + str_off + off))
  else Some (bytes_at map 8 (record_at i)).

Definition rec_is_function (i : Z) : bool :=
  ((0 <? rec_section i) && (rec_section i <=? nsec hd) && ISFCN (rec_type i))%bool.

Context `{Platform} (module : Z).

(** The address record [i] has in the loaded module. *)
Definition rec_addr (i : Z) : Z :=
  uptr (uptr (module + VirtualAddress (section_at (rec_section i - 1))) + rec_value i).

(** The function of record [i]: its address and the bytes of its name. *)
Definition coff_function (i : Z) : option (Z * list byte) :=
  if rec_is_function i then
    match rec_name i with
    | Some (c :: l) => if (Byte.eqb c x2e || is_nul c)%bool then None else Some (rec_addr i, c :: l)
    | _ => None
    end
  else None.

(** The functions from record [i] on; auxiliary records are skipped, and a
    record whose auxiliary records are missing ends the table. *)
Fixpoint coff_functions (fuel : nat) (i : Z) : list (Z * list byte) :=
  match fuel with
  | O => []
  | S fuel' =>
      if i <? nsym hd then
        if (negb (rec_naux i =? 0) && (nsym hd <=? i + rec_naux i))%bool then [] else
        option_list (coff_function i) ++ coff_functions fuel' (i + rec_naux i + 1)
      else []
  end.
End coff.

(** ** The table they make *)

Definition push_result (addr : Z) (w : list byte) (s : pe_st) : pe_st :=
  set_syms (<[bw_pe_nsym s := PeSym addr (bw_pe_nlen s)]> (bw_pe_syms s)) (bw_pe_nsym s + 1)
    (add_name_result s w).

(** Functions are added in order until the table or the names are full. *)
Fixpoint add_functions (l : list (Z * list byte)) (s : pe_st) : pe_st :=
  match l with
  | [] => s
  | (addr, c) :: l' =>
      if bw_pe_nsym s <? BW_PE_SYM_MAX then
        match pe_kept s c with
        | [] => s
        | w => add_functions l' (push_result addr w s)
        end
      else s
  end.

Lemma add_functions_full l s : BW_PE_SYM_MAX ≤ bw_pe_nsym s → add_functions l s = s.
Proof. intros Hs. destruct l as [|[addr c] l]; [done|]. simpl. by rewrite (proj2 (Z.ltb_ge _ _)). Qed.

(** ** The loop adds the functions *)

Section loop.
Context `{Platform} (map : span) (Hmap : span_ok map) (hd : pe_headers).
Context (module str_off str_sz : Z).

(** The tables the headers point to are in the file, which has less than 4 GB. *)
Record tables_ok : Prop := {
  tb_sz : sp_len map < 2 ^ 32;
  tb_sym : 0 ≤ sym_off hd;
  tb_nsym : 0 ≤ nsym hd;
  tb_syms : sym_off hd + nsym hd * BW_COFF_SYM_SIZE ≤ sp_len map;
  tb_sec : 0 ≤ sec_off hd;
  tb_nsec : 0 < nsec hd ≤ 96;
  tb_secs : sec_off hd + nsec hd * SECTION_HEADER_SIZE ≤ sp_len map;
  tb_str_off : 0 ≤ str_off;
  tb_str_sz : 0 ≤ str_sz;
  tb_str : str_sz ≠ 0 → str_off + str_sz ≤ sp_len map;
}.

Context (Hok : tables_ok).

Lemma record_in_file i n off :
  0 ≤ i < nsym hd → 0 ≤ off → off + n ≤ BW_COFF_SYM_SIZE → in_file map n (record_at map hd i + off).
Proof using Hok.
  intros Hi Ho Hn. destruct Hok. unfold in_file, record_at, BW_COFF_SYM_SIZE, sp_end in *. lia.
Qed.

Lemma section_in_file k : 0 ≤ k < nsec hd →
  in_file map 40 (sp_base map + sec_off hd + k * SECTION_HEADER_SIZE).
Proof using Hok.
  intros Hk. destruct Hok. unfold in_file, SECTION_HEADER_SIZE, sp_end in *. lia.
Qed.

Lemma read_section_eq k s : 0 ≤ k < nsec hd →
  read_section map hd k s = Done (section_at map hd k) s.
Proof using Hmap Hok.
  intros Hk. pose proof (section_in_file k Hk) as Hin. destruct Hok. unfold read_section.
  rewrite u32_small by (unfold SECTION_HEADER_SIZE in *; lia). by rewrite memcpy_from_eq.
Qed.

(** A name and what can be read of it. *)
Lemma symbol_name_eq i s : 0 ≤ i < nsym hd →
  match rec_name map hd str_off str_sz i with
  | None => symbol_name map str_off str_sz (record_at map hd i) s = Done None s
  | Some c => ∃ p, symbol_name map str_off str_sz (record_at map hd i) s =
                   Done (Some (p, Z.of_nat (length c))) s ∧ reads p c ∧ c ≠ []
  end.
Proof using Hmap Hok.
  intros Hi. pose proof (record_in_file i 4 0 Hi) as H0. pose proof (record_in_file i 4 4 Hi) as H4.
  pose proof (record_in_file i 8 0 Hi) as H8. rewrite Z.add_0_r in H0, H8.
  pose proof Hok as [? ? ? ? ? ? ? ? ? Hstr]. unfold BW_COFF_SYM_SIZE in *. unfold rec_name, symbol_name, bind.
  rewrite bw_read_u32_eq by (done || apply H0; lia).
  destruct (Z.eqb_spec (le_val (bytes_at map 4 (record_at map hd i))) 0).
  - rewrite bw_read_u32_eq by (done || apply H4; lia).
    set (off := le_val (bytes_at map 4 (record_at map hd i + 4))).
    assert (Ho : 0 ≤ off) by apply le_val_range.
    destruct (Z.eqb_spec str_sz 0) as [|Hne]; [done|]. cbn [orb].
    destruct (Z.leb_spec str_sz off); [done|]. specialize (Hstr Hne). destruct Hmap as [Hb He].
    assert (Hin : in_file map (Z.of_nat (Z.to_nat (str_sz - off))) (sp_base map + str_off + off))
      by (unfold in_file, sp_end in *; lia).
    pose proof (length_bytes_at map _ _ Hin) as Hlen. destruct Hin.
    eexists. rewrite Hlen, Z2Nat.id by lia. split_and!; [done| |].
    + intros k b Hk. rewrite uptr_small by (unfold sp_end in *; lia). by eapply sp_cptr_reads.
    + intros E. apply (f_equal length) in E. simpl in E. lia.
  - specialize (H8 ltac:(lia) ltac:(lia)). pose proof (length_bytes_at map 8 _ H8) as Hlen.
    eexists. rewrite Hlen. split_and!; [done| |].
    + intros k b Hk. eapply sp_cptr_reads; [apply H8|done].
    + intros E. apply (f_equal length) in E. simpl in E. lia.
Qed.

(** Room for one more symbol, and sizes in range. *)
Definition counts_ok (s : pe_st) : Prop :=
  0 ≤ bw_pe_nsym s ≤ BW_PE_SYM_MAX ∧ 0 ≤ bw_pe_nlen s ≤ BW_PE_NAME_MAX.

Lemma push_symbol_eq addr w s :
  counts_ok s → bw_pe_nsym s < BW_PE_SYM_MAX →
  push_symbol addr (bw_pe_nlen s) (add_name_result s w) = Done tt (push_result addr w s).
Proof.
  intros [Hs Hl] Hlt. assert (BW_PE_SYM_MAX = 4096 ∧ BW_PE_NAME_MAX = 262144) as [? ?] by done.
  unfold push_symbol, bind, get, arr_store. cbn [bw_pe_nsym bw_pe_syms add_name_result set_names].
  rewrite (proj2 (in_bounds_true _ _)), u32_small, uptr_small32 by lia. done.
Qed.

Lemma push_result_counts addr c s :
  counts_ok s → bw_pe_nsym s < BW_PE_SYM_MAX → pe_kept s c ≠ [] →
  counts_ok (push_result addr (pe_kept s c) s).
Proof.
  intros [Hs Hl] Hlt Hk. unfold counts_ok, push_result; simpl. split; [lia|].
  unfold pe_kept in *. pose proof (length_until_nul (take (Z.to_nat (BW_PE_NAME_MAX - bw_pe_nlen s - 1)) c)) as Hle.
  rewrite length_take in Hle. destruct (Z.to_nat (BW_PE_NAME_MAX - bw_pe_nlen s - 1)) eqn:E; [done|]. lia.
Qed.

Lemma add_symbol_eq i s : 0 ≤ i < nsym hd → counts_ok s → bw_pe_nsym s < BW_PE_SYM_MAX →
  add_symbol map hd module str_off str_sz (record_at map hd i) (rec_value map hd i)
    (rec_section map hd i) (rec_type map hd i) s =
  match coff_function map hd str_off str_sz module i with
  | None => Done true s
  | Some (addr, c) =>
      match pe_kept s c with
      | [] => Done false s
      | w => Done true (push_result addr w s)
      end
  end.
Proof using Hmap Hok.
  intros Hi Hc Hlt. unfold add_symbol, coff_function, rec_is_function.
  rewrite (Z.leb_antisym 0 (rec_section map hd i)), (Z.ltb_antisym (rec_section map hd i) (nsec hd)).
  destruct (Z.ltb_spec 0 (rec_section map hd i)), (Z.leb_spec (rec_section map hd i) (nsec hd)),
    (ISFCN (rec_type map hd i)); cbn [negb orb andb]; try done.
  unfold bind at 1. rewrite read_section_eq by lia.
  unfold bind at 1. pose proof (symbol_name_eq i s Hi) as Hname.
  destruct (rec_name map hd str_off str_sz i) as [c|]; [|by rewrite Hname].
  destruct Hname as (p & -> & Hp & Hne). destruct c as [|c0 c]; [done|].
  unfold bind at 1, c_at. rewrite (Hp 0%nat c0 eq_refl : p 0 = Some c0). cbn [of_option ret].
  destruct (Byte.eqb c0 x2e || is_nul c0)%bool; [done|].
  unfold bind at 1. rewrite bw_pe_add_name_eq by (done || apply Hc).
  destruct (pe_kept s (c0 :: c)) as [|w0 w] eqn:Ek; [done|].
  rewrite (proj2 (Z.ltb_ge _ _)) by apply Hc.
  unfold bind. by rewrite push_symbol_eq.
Qed.

Lemma rec_naux_range i : 0 ≤ i < nsym hd → 0 ≤ rec_naux map hd i < 256.
Proof using Hok.
  intros Hi. pose proof (le_val_range (bytes_at map 1 (record_at map hd i + 17))) as Hr.
  rewrite length_bytes_at in Hr; [exact Hr|].
  apply record_in_file; [done|lia|unfold BW_COFF_SYM_SIZE; lia].
Qed.

Lemma symbol_loop_eq fuel i s :
  counts_ok s → 0 ≤ i ≤ nsym hd → nsym hd - i < Z.of_nat fuel →
  symbol_loop map hd module str_off str_sz fuel i s =
  Done tt (add_functions (coff_functions map hd str_off str_sz module fuel i) s).
Proof using Hmap Hok.
  revert i s. induction fuel as [|fuel IH]; intros i s Hc Hi Hf; [lia|].
  cbn [symbol_loop coff_functions]. unfold bind at 1, get.
  destruct (Z.ltb_spec i (nsym hd)) as [Hlt|]; [|done]. cbn [andb].
  destruct (Z.ltb_spec (bw_pe_nsym s) BW_PE_SYM_MAX); [|by rewrite add_functions_full].
  pose proof Hok as [? ? ? ? ? ? ? ? ? ?]. destruct Hmap as [Hb He]. unfold BW_COFF_SYM_SIZE, sp_end in *.
  assert (Hraw : uptr (sp_base map + sym_off hd + u32 (i * 18)) = record_at map hd i).
  { rewrite u32_small, uptr_small by lia. done. }
  rewrite Hraw. pose proof (rec_naux_range i ltac:(lia)) as Hnaux.
  assert (Hin : ∀ n off, 0 ≤ off → off + n ≤ 18 → in_file map n (record_at map hd i + off))
    by (intros; apply record_in_file; lia || done).
  unfold bind at 1. rewrite bw_read_u32_eq by (done || apply Hin; lia).
  unfold bind at 1. rewrite memcpy_from_eq by (done || apply Hin; lia).
  unfold bind at 1. rewrite memcpy_from_eq by (done || apply Hin; lia).
  unfold bind at 1. rewrite memcpy_from_eq by (done || apply Hin; lia).
  fold (rec_naux map hd i). rewrite u32_small by lia.
  destruct (negb (rec_naux map hd i =? 0) && (nsym hd <=? i + rec_naux map hd i))%bool eqn:En; [done|].
  assert (Hnext : i + rec_naux map hd i < nsym hd).
  { destruct (Z.eqb_spec (rec_naux map hd i) 0), (Z.leb_spec (nsym hd) (i + rec_naux map hd i)); done || lia. }
  unfold bind. fold (rec_value map hd i) (rec_section map hd i) (rec_type map hd i).
  rewrite add_symbol_eq by (done || lia). rewrite u32_small by lia.
  destruct (coff_function map hd str_off str_sz module i) as [[addr c]|]; simpl; [|apply IH; done || lia].
  rewrite (proj2 (Z.ltb_lt _ _)) by done. destruct (pe_kept s c) as [|w0 w] eqn:Ek; [done|].
  rewrite <- Ek. apply IH; [apply push_result_counts; congruence|lia|lia].
Qed.

End loop.

(** ** The table the functions make *)

Section table.
Context `{Platform}.

Lemma length_pe_symbols s : 0 ≤ bw_pe_nsym s → Z.of_nat (length (pe_symbols s)) = bw_pe_nsym s.
Proof. apply length_arr_seg. Qed.

Lemma pe_symbols_push addr w s : 0 ≤ bw_pe_nsym s →
  pe_symbols (push_result addr w s) = pe_symbols s ++ [PeSym addr (bw_pe_nlen s)].
Proof.
  intros Hn. unfold pe_symbols, push_result; simpl.
  by rewrite arr_seg_snoc, arr_seg_insert_ge, Z.add_0_l, lookup_insert_eq by lia.
Qed.

(** Names already stored stay. *)
Definition names_ext (s s' : pe_st) : Prop :=
  bw_pe_nlen s ≤ bw_pe_nlen s' ∧ ∀ i, i < bw_pe_nlen s → bw_pe_names s' !! i = bw_pe_names s !! i.

#[export] Instance names_ext_preorder : PreOrder names_ext.
Proof.
  split; [by intros s|]. intros s1 s2 s3 [H1 H2] [H3 H4]. split; [lia|].
  intros i Hi. rewrite H4 by lia. auto.
Qed.

Lemma name_at_ext s s' off l : names_ext s s' → name_at s off l → name_at s' off l.
Proof. intros [??]. by apply pool_at_ext. Qed.

Lemma push_names_ext addr w s : names_ext s (push_result addr w s).
Proof.
  split; simpl; [lia|]. intros i Hi. by apply arr_write_lookup_lt.
Qed.

Lemma pe_kept_spec s c : 0 ≤ bw_pe_nlen s ≤ BW_PE_NAME_MAX → pe_kept s c ≠ [] →
  bw_pe_nlen s + Z.of_nat (length (pe_kept s c)) < BW_PE_NAME_MAX ∧
  Forall (λ b, b ≠ x00) (pe_kept s c).
Proof.
  intros Hn Hk. split; [|apply until_nul_no_nul]. unfold pe_kept in *.
  rewrite until_nul_take in *. rewrite length_take.
  destruct (Z.to_nat (BW_PE_NAME_MAX - bw_pe_nlen s - 1)) eqn:E; [done|lia].
Qed.

Lemma push_name_at addr c s : counts_ok s → pe_kept s c ≠ [] →
  name_at (push_result addr (pe_kept s c) s) (bw_pe_nlen s) (pe_kept s c).
Proof.
  intros [_ Hn] Hk. destruct (pe_kept_spec s c Hn Hk). apply pool_at_write; [lia|lia|done].
Qed.

(** The symbol [x] of the table is the function [f]; its name may be cut where
    the pool ends. *)
Definition sym_of (s : pe_st) (x : bw_pe_sym_t) (f : Z * list byte) : Prop :=
  pe_addr x = f.1 ∧ ∃ k, take k (until_nul f.2) ≠ [] ∧
    name_at s (pe_name_off x) (take k (until_nul f.2)).

Lemma sym_of_ext s s' x f : names_ext s s' → sym_of s x f → sym_of s' x f.
Proof. intros Hext [Ha (k & Hne & Hk)]. split; [done|]. exists k. eauto using name_at_ext. Qed.

(** The functions added are the first ones; the table is otherwise as it was. *)
Lemma add_functions_spec l s : counts_ok s →
  let s' := add_functions l s in
  counts_ok s' ∧ names_ext s s' ∧
  (∃ xs, pe_symbols s' = pe_symbols s ++ xs ∧
     Forall2 (sym_of s') xs (take (length xs) l)) ∧
  bw_pe_mod s' = bw_pe_mod s ∧ bw_pe_state s' = bw_pe_state s ∧ pe_log s' = pe_log s ∧
  bw_dwarf s' = bw_dwarf s ∧ bw_dwarf_ready s' = bw_dwarf_ready s ∧
  bw_pe_image_base s' = bw_pe_image_base s.
Proof.
  revert s. induction l as [|[addr c] l IH]; intros s Hc s'.
  { split_and!; try done. exists []. by rewrite app_nil_r. }
  assert (Hstop : s' = s → counts_ok s' ∧ names_ext s s' ∧
    (∃ xs, pe_symbols s' = pe_symbols s ++ xs ∧ Forall2 (sym_of s') xs (take (length xs) ((addr, c) :: l))) ∧
    bw_pe_mod s' = bw_pe_mod s ∧ bw_pe_state s' = bw_pe_state s ∧ pe_log s' = pe_log s ∧
    bw_dwarf s' = bw_dwarf s ∧ bw_dwarf_ready s' = bw_dwarf_ready s ∧
    bw_pe_image_base s' = bw_pe_image_base s).
  { intros ->. split_and!; try done. exists []. by rewrite app_nil_r. }
  unfold s' in *. cbn [add_functions] in *.
  destruct (Z.ltb_spec (bw_pe_nsym s) BW_PE_SYM_MAX); [|by apply Hstop].
  destruct (pe_kept s c) as [|w0 w] eqn:Ek; [by apply Hstop|]. rewrite <- Ek in *. clear Hstop.
  assert (Hk : pe_kept s c ≠ []) by congruence.
  pose proof (push_result_counts addr c s Hc ltac:(done) Hk) as Hc'.
  destruct (IH _ Hc') as (Hc'' & Hext & (xs & Hxs & Hall) & Hrest).
  split_and!; [done| |..|apply Hrest|apply Hrest|apply Hrest|apply Hrest|apply Hrest|apply Hrest].
  { etransitivity; [apply push_names_ext|done]. }
  exists (PeSym addr (bw_pe_nlen s) :: xs). split.
  - rewrite Hxs, pe_symbols_push, <- app_assoc by apply Hc. done.
  - cbn [length take]. constructor; [|done]. apply (sym_of_ext _ _ _ _ Hext).
    split; [done|]. exists (Z.to_nat (BW_PE_NAME_MAX - bw_pe_nlen s - 1)). cbn [snd].
    rewrite <- until_nul_take. fold (pe_kept s c). split; [done|]. by apply push_name_at.
Qed.

(** The space the functions take. *)
Definition names_size (l : list (Z * list byte)) : Z :=
  foldr (λ f n, Z.of_nat (length (until_nul f.2)) + 1 + n) 0 l.

Lemma names_size_nonneg l : 0 ≤ names_size l.
Proof. induction l as [|f l IH]; simpl; lia. Qed.

(** Where there is room for all of them, all of them are added, with their whole
    names. *)
Lemma add_functions_all l s :
  counts_ok s → Forall (λ f, until_nul f.2 ≠ []) l →
  bw_pe_nsym s + Z.of_nat (length l) ≤ BW_PE_SYM_MAX →
  bw_pe_nlen s + names_size l ≤ BW_PE_NAME_MAX →
  let s' := add_functions l s in
  ∃ xs, pe_symbols s' = pe_symbols s ++ xs ∧
    Forall2 (λ x f, pe_addr x = f.1 ∧ name_at s' (pe_name_off x) (until_nul f.2)) xs l.
Proof.
  revert s. induction l as [|[addr c] l IH]; intros s Hc Hne Hn Hl s'.
  { exists []. by rewrite app_nil_r. }
  apply Forall_cons in Hne as [Hcne Hne]. cbn [names_size foldr length snd] in *.
  fold (names_size l) in Hl. pose proof (names_size_nonneg l).
  assert (Ek : pe_kept s c = until_nul c).
  { unfold pe_kept. rewrite until_nul_take. apply take_ge. lia. }
  unfold s'. cbn [add_functions]. rewrite (proj2 (Z.ltb_lt _ _)), Ek by lia.
  destruct (until_nul c) as [|w0 w] eqn:Eu; [done|]. rewrite <- Eu in *. rewrite <- Ek.
  assert (Hk : pe_kept s c ≠ []) by congruence.
  pose proof (push_result_counts addr c s Hc ltac:(lia) Hk) as Hc'.
  destruct (IH _ Hc' Hne) as (xs & Hxs & Hall); [simpl; lia|simpl; rewrite Ek; lia|].
  exists (PeSym addr (bw_pe_nlen s) :: xs). split.
  - rewrite Hxs, pe_symbols_push, <- app_assoc by apply Hc. done.
  - constructor; [|done]. split; [done|]. cbn [snd pe_name_off].
    eapply name_at_ext; [apply add_functions_spec; done|]. rewrite <- Ek. by apply push_name_at.
Qed.

Lemma add_functions_wf l s : pe_wf s → pe_wf (add_functions l s).
Proof.
  intros [Hs Hl Hn Hd]. destruct (add_functions_spec l s (conj Hs Hl))
    as ([Hs' Hl'] & Hext & (xs & Hxs & Hall) & _ & _ & _ & Hdw & _).
  split; [done|done| |by rewrite Hdw]. rewrite Hxs. apply Forall_app. split.
  - eapply Forall_impl; [exact Hn|]. intros x (n & ? & ?). exists n. eauto using name_at_ext.
  - apply Forall_lookup. intros i x Hx. destruct (Forall2_lookup_l _ _ _ _ _ Hall Hx) as (f & _ & _ & k & ? & ?).
    by eexists.
Qed.

(** *** Sorting *)

Lemma bw_pe_sym_cmp_le a b : bw_pe_sym_cmp a b ≤ 0 ↔ pe_addr a ≤ pe_addr b.
Proof.
  unfold bw_pe_sym_cmp. rewrite Z.gtb_ltb.
  destruct (Z.ltb_spec (pe_addr a) (pe_addr b)), (Z.ltb_spec (pe_addr b) (pe_addr a)); lia.
Qed.

Lemma bw_pe_sym_cmp_ok : cmp_ok bw_pe_sym_cmp.
Proof.
  split.
  - intros a b. unfold bw_pe_sym_cmp. rewrite !Z.gtb_ltb.
    destruct (Z.ltb_spec (pe_addr a) (pe_addr b)), (Z.ltb_spec (pe_addr b) (pe_addr a)); simpl; lia.
  - intros a b c. rewrite !bw_pe_sym_cmp_le. lia.
Qed.

(** The state after [sort_symbols]. *)
Definition sorted_symbols `{QSort} (s : pe_st) : pe_st :=
  if 0 <? bw_pe_nsym s then
    set_state 1 (set_syms (arr_write (bw_pe_syms s) 0 (qsort bw_pe_sym_cmp (pe_symbols s))) (bw_pe_nsym s) s)
  else s.

Lemma sorted_symbols_list `{QSort} s : 0 < bw_pe_nsym s →
  pe_symbols (sorted_symbols s) = qsort bw_pe_sym_cmp (pe_symbols s).
Proof.
  intros Hn. unfold sorted_symbols. rewrite (proj2 (Z.ltb_lt _ _)) by done.
  unfold pe_symbols at 1; simpl.
  assert (E : bw_pe_nsym s = Z.of_nat (length (qsort bw_pe_sym_cmp (pe_symbols s))))
    by (rewrite length_qsort, length_pe_symbols; lia).
  rewrite E at 1. apply arr_seg_write.
Qed.

Lemma sorted_symbols_perm `{QSort} s : 0 ≤ bw_pe_nsym s → pe_symbols (sorted_symbols s) ≡ₚ pe_symbols s.
Proof.
  intros Hn. destruct (Z.ltb_spec 0 (bw_pe_nsym s)) as [Hlt|].
  - rewrite sorted_symbols_list by done. apply qsort_perm.
  - unfold sorted_symbols. by rewrite (proj2 (Z.ltb_ge _ _)) by lia.
Qed.

Lemma sorted_symbols_wf `{QSort} s : pe_wf s → pe_wf (sorted_symbols s).
Proof.
  intros [Hs Hl Hn Hd]. pose proof (sorted_symbols_perm s (proj1 Hs)) as Hp.
  assert (E : bw_pe_nsym (sorted_symbols s) = bw_pe_nsym s ∧ bw_pe_nlen (sorted_symbols s) = bw_pe_nlen s ∧
    bw_pe_names (sorted_symbols s) = bw_pe_names s ∧ bw_dwarf (sorted_symbols s) = bw_dwarf s)
    by (unfold sorted_symbols; by case_match).
  destruct E as (E1 & E2 & E3 & E4).
  split; [by rewrite E1|by rewrite E2| |by rewrite E4]. rewrite Hp.
  eapply Forall_impl; [exact Hn|]. intros x (l & ? & Hat). exists l. split; [done|].
  unfold name_at. by rewrite E2, E3.
Qed.

Lemma sorted_symbols_sorted `{QSort} s : 0 < bw_pe_nsym s → pe_sorted (sorted_symbols s).
Proof.
  intros Hn. unfold pe_sorted. rewrite sorted_symbols_list by done.
  pose proof (qsort_sorted bw_pe_sym_cmp (pe_symbols s) bw_pe_sym_cmp_ok) as Hs.
  induction Hs as [|x l _ IH Hx]; simpl; constructor; [done|].
  apply Forall_fmap. eapply Forall_impl; [exact Hx|]. intros y. apply bw_pe_sym_cmp_le.
Qed.
End table.
