(* ===== verification/PeLoad.v ===== *)
(** * Loading a PE file

    The theorems about [bw_pe_load], [bw_pe_find] and [bw_pe_line] of src/win.c:
    the headers and sections of a file as functions of its bytes, loading as a
    whole, and what the loaded tables answer. *)

From S2P Require Import Prelude CMonad CMem Cursor Leb128 Decode Forms Search DwarfTab LineProgram LineUnit DwarfParse WinUtil PeSym PeSpec.

(** ** The headers *)

(** What [read_headers] finds in a file. *)
Definition headers_of (map : span) : option pe_headers :=
  let base := sp_base map in
  let dos := bytes_at map 64 base in
  let lfanew := le_at 4 60 dos in
  let fh := bytes_at map 20 (base + lfanew + 4) in
  let nsec := le_at 2 2 fh in
  let sec_off := lfanew + 4 + FILE_HEADER_SIZE + le_at 2 16 fh in
  if ((DOS_HEADER_SIZE <=? sp_len map) && (le_at 2 0 dos =? IMAGE_DOS_SIGNATURE) &&
      (lfanew <? 2 ^ 31) && (lfanew + 4 + FILE_HEADER_SIZE <=? sp_len map) &&
      (le_val (bytes_at map 4 (base + lfanew)) =? IMAGE_NT_SIGNATURE) &&
      (0 <? nsec) && (nsec <=? 96) && (sec_off + nsec * SECTION_HEADER_SIZE <=? sp_len map))%bool
  then Some (PeHeaders lfanew nsec sec_off (le_at 2 16 fh) (le_at 4 8 fh) (le_at 4 12 fh))
  else None.

Record headers_ok (map : span) (hd : pe_headers) : Prop := {
  hd_lfanew : 0 ≤ e_lfanew hd < 2 ^ 31;
  hd_opt : 0 ≤ opt_size hd < 2 ^ 16;
  hd_sec_off : sec_off hd = e_lfanew hd + 24 + opt_size hd;
  hd_sym_off : 0 ≤ sym_off hd < 2 ^ 32;
  hd_nsym : 0 ≤ nsym hd < 2 ^ 32;
  hd_nsec : 0 < nsec hd ≤ 96;
  hd_secs : sec_off hd + nsec hd * 40 ≤ sp_len map;
}.

Lemma headers_of_ok map hd : headers_of map = Some hd → headers_ok map hd.
Proof.
  unfold headers_of. set (dos := bytes_at map 64 _). set (fh := bytes_at map 20 _).
  case_match eqn:E; [|done]. zify_bools. intros [= <-]. unfold FILE_HEADER_SIZE, SECTION_HEADER_SIZE in *.
  pose proof (le_at_range 4 60 dos). pose proof (le_at_range 2 16 fh : 0 ≤ le_at 2 16 fh < 2 ^ 16).
  pose proof (le_at_range 4 8 fh : 0 ≤ le_at 4 8 fh < 2 ^ 32).
  pose proof (le_at_range 4 12 fh : 0 ≤ le_at 4 12 fh < 2 ^ 32).
  split; cbn; lia.
Qed.

Section file.
Context `{Platform} (map : span) (Hmap : span_ok map).
Context (H64 : ptr_mod = 2 ^ 64) (Hsz : sp_len map < 2 ^ 32).

Lemma read_headers_eq s : read_headers map (sp_len map) s = Done (headers_of map) s.
Proof using Hmap H64 Hsz.
  pose proof (sp_len_nonneg map). pose proof Hmap as [Hb He]. unfold sp_end in He.
  unfold read_headers, headers_of, DOS_HEADER_SIZE, FILE_HEADER_SIZE, SECTION_HEADER_SIZE.
  set (base := sp_base map) in *. set (dos := bytes_at map 64 base).
  rewrite (Z.ltb_antisym 64). destruct (Z.leb_spec 64 (sp_len map)); [|done]. cbn [negb andb].
  unfold bind at 1. rewrite memcpy_from_eq by (done || unfold in_file, sp_end; lia).
  fold base. fold dos. pose proof (le_at_range 4 60 dos : 0 ≤ le_at 4 60 dos < 2 ^ 32) as Hl.
  set (lfanew := le_at 4 60 dos) in *.
  replace (sext 32 lfanew <? 0) with (negb (lfanew <? 2 ^ 31)).
  2:{ unfold sext. destruct (Z.ltb_spec lfanew (2 ^ (32 - 1))) as [Hlt|Hge].
      - rewrite (proj2 (Z.ltb_lt lfanew (2 ^ 31))), (proj2 (Z.ltb_ge lfanew 0)) by lia. done.
      - rewrite (proj2 (Z.ltb_ge lfanew (2 ^ 31))), (proj2 (Z.ltb_lt _ 0)) by lia. done. }
  destruct (le_at 2 0 dos =? IMAGE_DOS_SIGNATURE); [|done]. cbn [negb orb andb].
  destruct (Z.ltb_spec lfanew (2 ^ 31)); [|done]. cbn [negb andb].
  rewrite uptr_small, (Z.ltb_antisym (lfanew + 4 + 20)) by lia.
  destruct (Z.leb_spec (lfanew + 4 + 20) (sp_len map)); [|done]. cbn [negb andb].
  unfold bind at 1. rewrite bw_read_u32_eq by (done || unfold in_file, sp_end; fold base; lia).
  destruct (le_val (bytes_at map 4 (base + lfanew)) =? IMAGE_NT_SIGNATURE); [|done]. cbn [negb andb].
  unfold bind at 1. rewrite memcpy_from_eq by (done || unfold in_file, sp_end; fold base; lia).
  set (fh := bytes_at map 20 (base + lfanew + 4)).
  pose proof (le_at_range 2 2 fh : 0 ≤ le_at 2 2 fh < 2 ^ 16).
  pose proof (le_at_range 2 16 fh : 0 ≤ le_at 2 16 fh < 2 ^ 16).
  rewrite (Z.ltb_antisym (le_at 2 2 fh) 96).
  destruct (Z.eqb_spec (le_at 2 2 fh) 0) as [E0|E0].
  { by rewrite E0. }
  rewrite (proj2 (Z.ltb_lt 0 (le_at 2 2 fh))) by lia.
  destruct (Z.leb_spec (le_at 2 2 fh) 96); [|done]. cbn [negb orb andb].
  rewrite u32_small, uptr_small by lia.
  rewrite (Z.ltb_antisym (lfanew + 4 + 20 + le_at 2 16 fh + le_at 2 2 fh * 40)).
  by destruct (_ <=? sp_len map).
Qed.

Section headers.
Context (hd : pe_headers) (Hhd : headers_ok map hd).

(** The image base the optional header gives. *)
Definition image_base_of : option Z :=
  let opt := sp_base map + e_lfanew hd + 24 in
  let magic := le_val (bytes_at map 2 opt) in
  if 28 <=? opt_size hd then
    if ((magic =? IMAGE_NT_OPTIONAL_HDR64_MAGIC) && (32 <=? opt_size hd))%bool
    then Some (le_val (bytes_at map 8 (opt + 24)))
    else if magic =? IMAGE_NT_OPTIONAL_HDR32_MAGIC
    then Some (le_val (bytes_at map 4 (opt + 28)))
    else None
  else None.

Lemma read_image_base_eq s :
  read_image_base map hd s =
  Done tt (match image_base_of with Some b => set_image_base b s | None => s end).
Proof using Hmap H64 Hsz Hhd.
  destruct Hhd. pose proof Hmap as [Hb He]. unfold sp_end in He.
  unfold read_image_base, image_base_of, FILE_HEADER_SIZE.
  replace (sp_base map + e_lfanew hd + 4 + 20) with (sp_base map + e_lfanew hd + 24) by lia.
  set (opt := sp_base map + e_lfanew hd + 24). unfold sp_end in *.
  assert (Hin : ∀ n off, 0 ≤ off → off + n ≤ 32 → 28 ≤ opt_size hd → in_file map n (opt + off)).
  { intros n off Ho Hn Hopt. unfold in_file, sp_end, opt. lia. }
  destruct (Z.leb_spec 28 (opt_size hd)) as [H28|]; [|done].
  unfold bind at 1. rewrite memcpy_from_eq by (done || (rewrite <- (Z.add_0_r opt); apply Hin; lia)).
  destruct (_ && _)%bool.
  - unfold bind at 1. rewrite memcpy_from_eq by (done || (apply Hin; lia)).
    pose proof (le_val_range (bytes_at map 8 (opt + 24))) as Hr.
    rewrite length_bytes_at in Hr by (apply Hin; lia).
    unfold modify, bind, get, put. rewrite uptr_small by lia. done.
  - destruct (_ =? IMAGE_NT_OPTIONAL_HDR32_MAGIC); [|done].
    unfold bind at 1. rewrite memcpy_from_eq by (done || (apply Hin; lia)).
    pose proof (le_val_range (bytes_at map 4 (opt + 28))) as Hr.
    rewrite length_bytes_at in Hr by (apply Hin; lia).
    unfold modify, bind, get, put. rewrite uptr_small by lia. done.
Qed.

(** The symbol table is in the file. *)
Definition has_symbols : bool :=
  (negb (sym_off hd =? 0) && negb (nsym hd =? 0) && (sym_off hd + nsym hd * 18 <=? sp_len map))%bool.

(** Offset and size of the string table behind it; size 0 when there is none. *)
Definition strtab_of : Z * Z :=
  let off := sym_off hd + nsym hd * 18 in
  let sz := le_val (bytes_at map 4 (sp_base map + off)) in
  if (negb (sym_off hd =? 0) && negb (nsym hd =? 0) && (off + 4 <=? sp_len map))%bool
  then (off, if ((sz <? 4) || (sp_len map <? off + sz))%bool then 0 else sz)
  else (0, 0).

Lemma read_strtab_eq s : read_strtab map (sp_len map) hd s = Done strtab_of s.
Proof using Hmap H64 Hsz Hhd.
  destruct Hhd. pose proof Hmap as [Hb He]. unfold sp_end in He.
  unfold read_strtab, strtab_of, BW_COFF_SYM_SIZE.
  rewrite !uptr_small by (rewrite ?uptr_small; lia).
  destruct (_ && _)%bool eqn:E; [|done]. zify_bools.
  rewrite (u32_small (nsym hd * 18)), u32_small by (rewrite ?u32_small; lia).
  unfold bind at 1.
  assert (Hin : in_file map 4 (sp_base map + (sym_off hd + nsym hd * 18))) by (unfold in_file, sp_end; lia).
  rewrite bw_read_u32_eq by done.
  pose proof (le_val_range (bytes_at map 4 (sp_base map + (sym_off hd + nsym hd * 18)))) as Hr.
  rewrite length_bytes_at in Hr by done.
  rewrite uptr_small by lia. by case_match.
Qed.

Lemma strtab_of_ok : 0 ≤ strtab_of.1 ∧ 0 ≤ strtab_of.2 ∧
  (strtab_of.2 ≠ 0 → strtab_of.1 + strtab_of.2 ≤ sp_len map).
Proof using Hhd.
  destruct Hhd. unfold strtab_of. case_match; [|done]. zify_bools. cbn [fst snd].
  pose proof (le_val_range (bytes_at map 4 (sp_base map + (sym_off hd + nsym hd * 18)))).
  case_match; zify_bools; lia.
Qed.

(** The functions of the file. *)
Definition file_functions (module : Z) : list (Z * list byte) :=
  if has_symbols
  then coff_functions map hd strtab_of.1 strtab_of.2 module (S (Z.to_nat (nsym hd))) 0
  else [].

Lemma read_symbols_eq module s :
  counts_ok s →
  read_symbols map (sp_len map) hd module strtab_of.1 strtab_of.2 s =
  Done tt (add_functions (file_functions module) s).
Proof using Hmap H64 Hsz Hhd.
  intros Hc. unfold read_symbols, file_functions, has_symbols, BW_COFF_SYM_SIZE.
  pose proof strtab_of_ok as (? & ? & ?). destruct Hhd.
  rewrite !uptr_small by (rewrite ?uptr_small; lia).
  destruct (_ && _)%bool eqn:E; [|done]. zify_bools.
  apply symbol_loop_eq; [done| |done|lia|lia].
  split; unfold SECTION_HEADER_SIZE, BW_COFF_SYM_SIZE; done || lia.
Qed.
End headers.
End file.

(** ** The line sections *)

Lemma strcmp_eq_spec {S} p l lit (i : nat) (s : S) :
  is_cstr p l → (i ≤ length l)%nat → Forall (λ b, b ≠ x00) lit →
  strcmp_eq p lit (Z.of_nat i) s = Done (bool_decide (drop i l = lit)) s.
Proof.
  intros Hp. revert i. induction lit as [|c lit IH]; intros i Hi Hlit; cbn [strcmp_eq];
    destruct (is_cstr_at p l i Hp Hi) as (b & Hb & Hn & Hl); unfold bind at 1, c_at; rewrite Hb;
    cbn [of_option ret].
  - unfold ret. f_equal. apply eq_true_iff_eq. rewrite bool_decide_eq_true, Hn.
    split; [intros ->; apply drop_all|]. intros E. apply (f_equal length) in E.
    rewrite length_drop in E. simpl in E. lia.
  - apply Forall_cons in Hlit as [Hc Hlit]. destruct (Byte.eqb b c) eqn:E.
    + apply Byte.byte_dec_bl in E as ->.
      assert (i ≠ length l). { intros ->. destruct Hn as [_ Hn]. by apply Hc, is_nul_true, Hn. }
      destruct (lookup_lt_is_Some_2 l i) as [b' Hb']; [lia|]. rewrite (Hl b' Hb') in Hb'.
      replace (Z.of_nat i + 1) with (Z.of_nat (Datatypes.S i)) by lia.
      rewrite IH by (done || lia). f_equal. apply bool_decide_ext. rewrite (drop_S l c i Hb').
      split; [by intros ->|by intros [= ->]].
    + unfold ret. f_equal. symmetry. apply bool_decide_eq_false. intros Hd.
      assert (Hb' : l !! i = Some c) by (rewrite <- (Nat.add_0_r i), <- lookup_drop, Hd; done).
      rewrite <- (Hl _ Hb') in E. rewrite (Byte.byte_dec_lb (eq_refl c)) in E. done.
Qed.

Section lines.
Context `{Platform} (map : span) (Hmap : span_ok map).
Context (H64 : ptr_mod = 2 ^ 64) (Hsz : sp_len map < 2 ^ 32).
Context (hd : pe_headers) (Hhd : headers_ok map hd).

Definition strtab_ptr : option cptr :=
  if 0 <? (strtab_of map hd).2
  then Some (sp_cptr map (uptr (sp_base map + (strtab_of map hd).1))) else None.

(** Section [k] of the file is called [l]. *)
Definition has_name (k : Z) (l : list byte) : Prop :=
  section_named (section_at map hd k) strtab_ptr (strtab_of map hd).2 l.

(** The contents of section [k]. *)
Definition contents (k : Z) : option (Z * Z) :=
  bw_section_data (sp_base map) (sp_len map) (section_at map hd k).

(** The string table, where there is one, ends with a NUL. *)
Definition names_terminated : Prop :=
  (strtab_of map hd).2 ≠ 0 →
  sp_bytes map !! Z.to_nat ((strtab_of map hd).1 + (strtab_of map hd).2 - 1) = Some x00.

Lemma has_name_exists k : names_terminated → 0 ≤ k < nsec hd → ∃ l, has_name k l.
Proof using Hmap H64 Hsz Hhd.
  intros Hterm Hk. unfold has_name, section_named, strtab_ptr.
  pose proof (strtab_of_ok map hd Hhd) as (Ho & Hz & Hfit). unfold names_terminated in Hterm.
  destruct (strtab_of map hd) as [off sz]. cbn [fst snd] in *.
  destruct (Z.ltb_spec 0 sz); [|by destruct (section_at map hd k); eexists].
  specialize (Hfit ltac:(lia)). specialize (Hterm ltac:(lia)). pose proof Hmap as [Hb He]. unfold sp_end in He.
  unfold long_name. destruct (section_at map hd k) as [|c sh]; [by eexists|].
  set (d := dec_val 0 _). destruct (_ && _)%bool eqn:E; [|by eexists]. zify_bools.
  assert (Hd : 0 ≤ d).
  { unfold d, dec_val. assert (Hgen : ∀ l o, 0 ≤ o →
      0 ≤ foldl (λ off c, off * 10 + (byte_val c - 48)) o (take_digits l)).
    { induction l as [|x l IH]; intros o Hoo; simpl; [done|]. destruct (is_digit x) eqn:Ex; [|done].
      simpl. unfold is_digit in Ex. zify_bools. apply IH. lia. }
    by apply Hgen. }
  rewrite uptr_small by lia. set (a := sp_base map + off + d).
  exists (until_nul (drop (Z.to_nat (a - sp_base map)) (sp_bytes map))).
  assert (Hcs : is_cstr (sp_cptr map a) (until_nul (drop (Z.to_nat (a - sp_base map)) (sp_bytes map)))).
  { apply is_cstr_span; [lia|]. apply list_elem_of_lookup. exists (Z.to_nat (sz - 1 - d)).
    rewrite lookup_drop, <- Hterm. f_equal. lia. }
  destruct Hcs as (Hc1 & Hc2 & Hc3). unfold cptr_add, sp_cptr in *. split_and!; [| |done].
  - intros i b Hi. rewrite <- (Hc1 i b Hi). f_equal. lia.
  - rewrite <- Hc2. f_equal. lia.
Qed.

(** What a round of the section loop keeps of section [k]. *)
Definition debug_step (k : Z) (l : list byte) (ds : debug_sections) : debug_sections :=
  match contents k with
  | None => ds
  | Some data =>
      if bool_decide (l = DEBUG_LINE) then DebugSections (Some data) (ds_line_str ds) (ds_debug_str ds)
      else if bool_decide (l = DEBUG_LINE_STR) then DebugSections (ds_line ds) (Some data) (ds_debug_str ds)
      else if bool_decide (l = DEBUG_STR) then DebugSections (ds_line ds) (ds_line_str ds) (Some data)
      else ds
  end.

Lemma take_name_eq (l lit : list byte) :
  (length lit < 63)%nat → bool_decide (take 63 l = lit) = bool_decide (l = lit).
Proof.
  intros Hlit. apply bool_decide_ext. split; [|intros ->; apply take_ge; lia].
  intros E. assert (length (take 63 l) < 63)%nat as Hl by (rewrite E; lia).
  rewrite length_take in Hl. by rewrite take_ge in E by lia.
Qed.

Lemma scan_debug_section_eq k l ds s :
  0 ≤ k < nsec hd → has_name k l →
  scan_debug_section map (sp_len map) hd (strtab_of map hd).1 (strtab_of map hd).2 k ds s =
  Done (debug_step k l ds) s.
Proof using Hmap H64 Hsz Hhd.
  intros Hk Hl. destruct Hhd. pose proof Hmap as [Hb He]. unfold sp_end in He.
  assert (Hin : in_file map 40 (sp_base map + sec_off hd + k * SECTION_HEADER_SIZE)).
  { unfold in_file, SECTION_HEADER_SIZE, sp_end. lia. }
  unfold scan_debug_section. fold strtab_ptr. unfold bind at 1, read_section.
  rewrite u32_small by (unfold SECTION_HEADER_SIZE; lia). rewrite memcpy_from_eq by done.
  fold (section_at map hd k). unfold bind at 1, with_local.
  rewrite (bw_section_name_eq _ _ _ _ l) by (done || by apply length_bytes_at).
  fold (contents k). unfold debug_step. destruct (contents k) as [data|]; [|done].
  set (name := arr_cptr _ _).
  assert (Hlno : Forall (λ b, b ≠ x00) l).
  { unfold has_name, section_named in Hl. destruct (long_name _ _ _); [apply Hl|].
    subst l. apply until_nul_no_nul. }
  assert (Hname : is_cstr name (take 63 l)) by (by apply (with_cstr_ok SECTION_NAME_BUF)).
  assert (Hcmp : ∀ lit, (length lit < 63)%nat → Forall (λ b, b ≠ x00) lit →
    strcmp_eq name lit 0 s = Done (bool_decide (l = lit)) s).
  { intros lit Hlen Hlit. change 0 with (Z.of_nat 0).
    rewrite (strcmp_eq_spec name (take 63 l)) by (done || lia). by rewrite drop_0, take_name_eq. }
  unfold bind at 1. rewrite Hcmp by (by repeat constructor || (cbn; lia)).
  case_bool_decide; [done|]. unfold bind at 1. rewrite Hcmp by (by repeat constructor || (cbn; lia)).
  case_bool_decide; [done|]. unfold bind. rewrite Hcmp by (by repeat constructor || (cbn; lia)).
  by case_bool_decide.
Qed.

(** The conditions on the line sections under which the parser is safe. *)
Record lines_ok : Prop := {
  ln_names : names_terminated;
  ln_line : ∀ k data line, 0 ≤ k < nsec hd → has_name k DEBUG_LINE → contents k = Some data →
    section_span map (Some data) = Some line → section_fits line;
  ln_strs : ∀ k data str, 0 ≤ k < nsec hd → has_name k DEBUG_LINE_STR ∨ has_name k DEBUG_STR →
    contents k = Some data → section_span map (Some data) = Some str → nul_terminated str;
}.

Lemma contents_span k data : contents k = Some data →
  ∃ sp, section_span map (Some data) = Some sp ∧ span_ok sp.
Proof using Hmap H64 Hsz.
  destruct data as [addr len]. intros Hd. pose proof Hmap as [Hb He].
  destruct (bw_section_data_inside map Hmap _ addr len ltac:(lia) Hd) as (Ha & Hlen & Hend).
  unfold section_span. rewrite (proj2 (Z.leb_le _ _)), (proj2 (Z.leb_le _ _)) by done.
  eexists. split; [done|]. split; cbn [sp_base]; [lia|].
  unfold sp_end, sp_len in *; cbn [sp_base sp_bytes] in *. rewrite length_take, length_drop. lia.
Qed.

Definition good_line (d : option (Z * Z)) : Prop :=
  match d with
  | None => True
  | Some _ => ∃ sp, section_span map d = Some sp ∧ span_ok sp ∧ section_fits sp
  end.

Definition good_str (d : option (Z * Z)) : Prop :=
  ∃ sp, section_span map d = Some sp ∧ str_span_ok sp.

Definition good_sections (ds : debug_sections) : Prop :=
  good_line (ds_line ds) ∧ good_str (ds_line_str ds) ∧ good_str (ds_debug_str ds).

Lemma debug_step_good k l ds : lines_ok → 0 ≤ k < nsec hd → has_name k l →
  good_sections ds → good_sections (debug_step k l ds).
Proof using Hmap H64 Hsz.
  intros [_ Hline Hstrs] Hk Hl (Hg1 & Hg2 & Hg3). unfold debug_step.
  destruct (contents k) as [data|] eqn:Ed; [|done].
  destruct (contents_span k data Ed) as (sp & Hsp & Hok).
  repeat case_bool_decide; subst; split_and!; cbn; try done; exists sp; split_and!; try done.
  - by eapply Hline.
  - right. split; [done|]. eapply Hstrs; eauto.
  - right. split; [done|]. eapply Hstrs; eauto.
Qed.

Lemma read_lines_wp `{QSort} s :
  lines_ok → tab_ok (bw_dwarf s) → bw_dwarf_ready s = 0 →
  wp overflow_only (λ _, False)
    (λ _ s', ∃ tab ready, s' = set_dwarf tab ready s ∧ tab_ok tab ∧
       (ready ≠ 0 → rows_sorted tab ∧ 0 < nrow tab))
    (read_lines map (sp_len map) hd (strtab_of map hd).1 (strtab_of map hd).2 s).
Proof using Hmap H64 Hsz Hhd.
  intros Hln Htab Hready. unfold read_lines. apply wp_bind.
  apply wp_for_range with (I := λ _ ds s', s' = s ∧ good_sections ds).
  - destruct Hhd. lia.
  - split; [done|]. split; [done|split]; (exists null_span; split; [done|by left]).
  - intros k ds s' Hk [-> Hg]. destruct (has_name_exists k (ln_names Hln) Hk) as [l Hl].
    rewrite (scan_debug_section_eq k l) by done. split; [done|]. by apply debug_step_good.
  - intros ds s' [-> (Hg1 & (ls & Els & Hls) & (dstr & Eds & Hds))].
    destruct (ds_line ds) as [data|] eqn:Ed.
    2:{ apply wp_ret. exists (bw_dwarf s), 0. rewrite <- Hready. by destruct s. }
    destruct Hg1 as (line & El & Hline & Hfits). rewrite El, Els, Eds. cbn [of_option].
    wp_steps. eapply wp_mono;
      [apply (bw_dwarf_tab_parse_wp line ls dstr Hline Hls Hds Hfits _ Htab)|apply overflow_in_only|done|].
    cbn beta. intros [ok t'] [] (t'' & -> & Hok' & Hres). cbn beta iota. unfold modify. wp_steps.
    eexists _, _. split; [done|]. split; [done|]. by destruct ok.
Qed.
End lines.

(** ** Loading *)

Section load.
Context `{Platform} `{QSort}.

(** A file that can be loaded: smaller than 4 GB, with a string table and string
    sections that end in a NUL and line sections whose unit headers fit. *)
Record pe_file_ok (map : span) : Prop := {
  pf_sz : sp_len map < 2 ^ 32;
  pf_lines : ∀ hd, headers_of map = Some hd → lines_ok map hd;
}.

(** The table after the symbols of the file [map] are read into an empty one. *)
Definition loaded_symbols (map : span) (module : Z) (s : pe_st) : pe_st :=
  match headers_of map with
  | None => s
  | Some hd => sorted_symbols (add_functions (file_functions map hd module) s)
  end.

(** The state behind the parts of [read_file] that read no lines. *)
Definition file_symbols (map : span) (module : Z) (s : pe_st) : pe_st :=
  match headers_of map with
  | None => s
  | Some hd =>
      loaded_symbols map module
        (set_image_base (default 0 (image_base_of map hd))
           (set_dwarf (bw_dwarf_tab_reset (bw_dwarf s)) 0 s))
  end.

(** An empty table. *)
Definition pe_empty (module : Z) (s : pe_st) : Prop :=
  bw_pe_mod s = module ∧ bw_pe_state s = -1 ∧ bw_pe_nsym s = 0 ∧ bw_pe_nlen s = 0 ∧
  bw_pe_image_base s = 0 ∧ bw_dwarf_ready s = 0 ∧ tab_ok (bw_dwarf s).

Lemma pe_reset_empty module s : pe_empty module (pe_reset module s).
Proof. repeat split; apply tab_reset_ok || done. Qed.

Lemma read_file_wp map module s :
  ptr_mod = 2 ^ 64 → span_ok map → pe_file_ok map → pe_empty module s →
  wp overflow_only (λ _, False)
    (λ _ s', ∃ tab ready, s' = set_dwarf tab ready (file_symbols map module s) ∧ tab_ok tab ∧
       (ready ≠ 0 → rows_sorted tab ∧ 0 < nrow tab))
    (read_file map (sp_len map) module s).
Proof.
  intros H64 Hmap [Hsz Hlines] (Hmod & Hst & Hns & Hnl & Hib & Hrd & Htab).
  unfold read_file, file_symbols, loaded_symbols. apply wp_bind. rewrite read_headers_eq by done. cbn [wp].
  destruct (headers_of map) as [hd|] eqn:Ehd.
  2:{ apply wp_ret. exists (bw_dwarf s), 0. rewrite <- Hrd. destruct s; cbn in *. by subst. }
  pose proof (headers_of_ok map hd Ehd) as Hhd. unfold modify. wp_steps.
  rewrite (read_image_base_eq map Hmap H64 Hsz hd Hhd). cbn [wp].
  apply wp_bind. rewrite (read_strtab_eq map Hmap H64 Hsz hd Hhd). cbn [wp].
  rewrite (surjective_pairing (strtab_of map hd)). apply wp_bind.
  set (s1 := set_image_base (default 0 _) _).
  match goal with |- context [read_symbols _ _ _ _ _ _ ?t] => replace t with s1 end.
  2:{ unfold s1. destruct (image_base_of map hd); done. }
  assert (Hc : counts_ok s1).
  { unfold counts_ok, s1; cbn. rewrite Hns, Hnl. done. }
  rewrite (read_symbols_eq map Hmap H64 Hsz hd Hhd) by done. cbn [wp].
  set (s2 := add_functions _ s1).
  assert (Hs2 : bw_dwarf s2 = bw_dwarf_tab_reset (bw_dwarf s) ∧ bw_dwarf_ready s2 = 0).
  { unfold s2. destruct (add_functions_spec (file_functions map hd module) s1 Hc)
      as (_ & _ & _ & _ & _ & _ & Ed & Er & _). rewrite Ed, Er.
    unfold s1; by destruct (image_base_of map hd). }
  assert (Hs3 : bw_dwarf (sorted_symbols s2) = bw_dwarf s2 ∧
                bw_dwarf_ready (sorted_symbols s2) = bw_dwarf_ready s2)
    by (unfold sorted_symbols; by case_match).
  apply wp_bind.
  assert (Hsort : sort_symbols s2 = Done tt (sorted_symbols s2)).
  { unfold sort_symbols, sorted_symbols, bind, get, put, ret. by case_match. }
  rewrite Hsort. cbn [wp]. apply read_lines_wp; [done..|by apply Hlines| |].
  - destruct Hs3 as [-> _], Hs2 as [-> _]. apply tab_reset_ok.
  - destruct Hs3 as [_ ->], Hs2 as [_ ->]. done.
Qed.

Lemma pe_empty_wf module s : pe_empty module s → pe_wf s.
Proof.
  intros (_ & _ & Hns & Hnl & _ & _ & Htab). split; [by rewrite Hns|by rewrite Hnl| |done].
  unfold pe_symbols. rewrite Hns. constructor.
Qed.

Lemma pe_empty_image_dwarf module b tab s : tab_ok tab →
  pe_empty module s → pe_wf (set_image_base b (set_dwarf tab 0 s)).
Proof.
  intros Htab (_ & _ & Hns & Hnl & _). split; cbn; [by rewrite Hns|by rewrite Hnl| |done].
  unfold pe_symbols. cbn. rewrite Hns. constructor.
Qed.

(** The tables [read_file] leaves, up to the lines. *)
Lemma file_symbols_ok map module s :
  pe_empty module s →
  let s' := file_symbols map module s in
  pe_wf s' ∧ (bw_pe_state s' = 1 → pe_sorted s' ∧ 0 < bw_pe_nsym s') ∧
  bw_pe_mod s' = module ∧ pe_log s' = pe_log s.
Proof.
  intros Hs s'. pose proof Hs as (Hmod & Hst & Hns & _). unfold s', file_symbols, loaded_symbols.
  destruct (headers_of map) as [hd|].
  2:{ split_and!; [by eapply pe_empty_wf| |done|done]. by rewrite Hst. }
  set (s1 := set_image_base _ _).
  assert (Hwf1 : pe_wf s1) by (eapply pe_empty_image_dwarf, Hs; apply tab_reset_ok).
  destruct (add_functions_spec (file_functions map hd module) s1
    (conj (pe_nsym_ok s1 Hwf1) (pe_nlen_ok s1 Hwf1))) as (_ & _ & _ & Em & Est & El & _).
  pose proof (add_functions_wf (file_functions map hd module) s1 Hwf1) as Hwf2.
  set (s2 := add_functions _ s1) in *.
  split; [by apply sorted_symbols_wf|]. split_and!.
  - unfold sorted_symbols at 1. destruct (Z.ltb_spec 0 (bw_pe_nsym s2)).
    + intros _. split; [by apply sorted_symbols_sorted|].
      unfold sorted_symbols. by rewrite (proj2 (Z.ltb_lt _ _)) by done.
    + rewrite Est. unfold s1; cbn. by rewrite Hst.
  - unfold sorted_symbols. by case_match; cbn; rewrite Em.
  - unfold sorted_symbols. by case_match; cbn; rewrite El.
Qed.

Lemma pe_ok_lines s tab ready log :
  pe_wf s → (bw_pe_state s = 1 → pe_sorted s ∧ 0 < bw_pe_nsym s) → tab_ok tab →
  (ready ≠ 0 → rows_sorted tab ∧ 0 < nrow tab) → pe_ok (set_log log (set_dwarf tab ready s)).
Proof. intros [] Hsyms Htab Hrd. by split. Qed.

(** ** The whole call *)

(** Every handle opened is closed, every view unmapped. *)
Definition win_released (l : list win_event) : Prop :=
  omap (λ e, match e with EvHandle h => Some h | _ => None end) l ≡ₚ
  omap (λ e, match e with EvCloseHandle h => Some h | _ => None end) l ∧
  omap (λ e, match e with EvView a => Some a | _ => None end) l =
  omap (λ e, match e with EvUnmapView a => Some a | _ => None end) l.

(** What the system maps at a path, if the code gets that far. *)
Definition mapped_file (os : win_os) (module : Z) (path : option (list byte)) : option span :=
  if module =? 0 then None else
  match usable_path path with
  | None => None
  | Some path =>
      file ← CreateFileA os path;
      size ← GetFileSizeEx os file;
      if size <=? 0 then None else
      h ← CreateFileMappingA os file;
      MapViewOfFile os h
  end.

(** The system maps files as a whole: the view of a file has the file's size. *)
Definition win_os_ok (os : win_os) : Prop :=
  ∀ path file size h map, CreateFileA os path = Some file → GetFileSizeEx os file = Some size →
    CreateFileMappingA os file = Some h → MapViewOfFile os h = Some map →
    sp_len map = size ∧ span_ok map.

(** The file of a module, if the system maps one, can be loaded. *)
Definition module_file_ok (os : win_os) (module : Z) (path : option (list byte)) : Prop :=
  ∀ map, mapped_file os module path = Some map → pe_file_ok map.

(** The state [bw_pe_load] leaves: the tables of the file, or empty ones. *)
Definition loaded (os : win_os) (module : Z) (path : option (list byte)) (s s' : pe_st) : Prop :=
  ∃ l0 l tab ready,
    s' = set_log (pe_log s ++ l) (set_dwarf tab ready
      (match mapped_file os module path with
       | Some map => file_symbols map module (set_log l0 (pe_reset module s))
       | None => pe_reset module s
       end)) ∧
    win_released l ∧ tab_ok tab ∧ (ready ≠ 0 → rows_sorted tab ∧ 0 < nrow tab).

Lemma log_win_eq e s : log_win e s = Done tt (set_log (pe_log s ++ [e]) s).
Proof. done. Qed.

Lemma loaded_none os module path s l :
  mapped_file os module path = None → win_released l →
  loaded os module path s (set_log (pe_log s ++ l) (pe_reset module s)).
Proof.
  intros E Hl. exists [], l, (bw_dwarf (pe_reset module s)), 0. rewrite E.
  split_and!; [done|done|apply tab_reset_ok|done].
Qed.

Lemma loaded_stop os module path s :
  mapped_file os module path = None → loaded os module path s (pe_reset module s).
Proof.
  intros E. pose proof (loaded_none os module path s [] E (conj (Permutation_refl _) eq_refl)) as Hl.
  by rewrite app_nil_r in Hl.
Qed.

(** [mapped_file] is the end of the path of tests taken. *)
Ltac by_mapped_file :=
  unfold mapped_file; repeat (match goal with E : _ = _ |- _ => rewrite E end; cbn); done.

Lemma bw_pe_load_wp os module path s :
  win_os_ok os → ptr_mod = 2 ^ 64 → module_file_ok os module path →
  wp overflow_only (λ _, False) (λ _ s', loaded os module path s s') (bw_pe_load os module path s).
Proof.
  intros Hos H64 Hfile. unfold bw_pe_load, modify. apply wp_bind, wp_bind, wp_get, wp_put.
  destruct (module =? 0) eqn:E0; [apply loaded_stop; by_mapped_file|].
  destruct (usable_path path) as [p|] eqn:Ep; [|apply loaded_stop; by_mapped_file].
  destruct (CreateFileA os p) as [file|] eqn:Ef; [|apply loaded_stop; by_mapped_file].
  apply wp_bind. rewrite log_win_eq. cbn [wp]. set (t1 := set_log _ _).
  assert (Hclose : mapped_file os module path = None →
    wp overflow_only (λ _, False) (λ _ s', loaded os module path s s') (log_win (EvCloseHandle file) t1)).
  { intros E. rewrite log_win_eq. unfold t1; cbn. rewrite <- app_assoc. by apply loaded_none. }
  destruct (GetFileSizeEx os file) as [size|] eqn:Esz; [|apply Hclose; by_mapped_file].
  destruct (size <=? 0) eqn:Ele; [apply Hclose; by_mapped_file|].
  destruct (CreateFileMappingA os file) as [h|] eqn:Eh; [|apply Hclose; by_mapped_file].
  apply wp_bind. rewrite log_win_eq. cbn [wp]. set (t2 := set_log _ t1).
  destruct (MapViewOfFile os h) as [map|] eqn:Em.
  2:{ apply wp_bind. rewrite !log_win_eq. unfold t2, t1; cbn. rewrite <- !app_assoc.
      apply loaded_none; [by_mapped_file|]. split; [apply Permutation_swap|done]. }
  apply wp_bind. rewrite log_win_eq. cbn [wp]. apply wp_bind.
  destruct (Hos p file size h map Ef Esz Eh Em) as [<- Hmap].
  assert (Hmapped : mapped_file os module path = Some map) by by_mapped_file.
  pose proof (Hfile map Hmapped) as Hf.
  rewrite uptr_small by (rewrite H64; destruct Hf as [? _]; pose proof (sp_len_nonneg map); lia).
  set (l0 := pe_log s ++ [EvHandle file; EvHandle h; EvView (sp_base map)]).
  replace (set_log _ t2) with (pe_reset module (set_log l0 s)).
  2:{ unfold t2, t1, l0; cbn. by rewrite <- !app_assoc. }
  eapply wp_call; [apply read_file_wp; [done..|apply pe_reset_empty]|done|].
  cbn beta. intros _ s' (tab & ready & -> & Htab & Hrd).
  destruct (file_symbols_ok map module _ (pe_reset_empty module (set_log l0 s))) as (_ & _ & _ & Elog).
  apply wp_bind. rewrite log_win_eq. cbn [wp]. apply wp_bind. rewrite log_win_eq. cbn [wp].
  rewrite log_win_eq. cbn [wp]. exists l0, [EvHandle file; EvHandle h; EvView (sp_base map);
    EvUnmapView (sp_base map); EvCloseHandle h; EvCloseHandle file], tab, ready.
  rewrite Hmapped.
  split_and!; [|split; [apply Permutation_swap|done]|done|done].
  cbn. rewrite Elog. unfold l0; cbn. by rewrite <- !app_assoc.
Qed.
End load.

(** ** Finding *)

Section find.
Context `{Platform} `{QSort}.

(** The symbol a search for [ip] is meant to find. *)
Definition sym_at (s : pe_st) (ip : Z) : option bw_pe_sym_t :=
  last (filter (λ x, pe_addr x ≤ ip) (pe_symbols s)).

Lemma pe_symbols_load s (i : nat) x : bw_pe_nsym s ≤ BW_PE_SYM_MAX → pe_symbols s !! i = Some x →
  arr_load0 (S:=pe_st) BW_PE_SYM_MAX pe_sym0 (bw_pe_syms s) (Z.of_nat i) s = Done x s.
Proof.
  intros Hn Hx. assert (Hi : Z.of_nat i < bw_pe_nsym s).
  { apply lookup_lt_Some in Hx. unfold pe_symbols, arr_seg in Hx.
    rewrite length_fmap, length_seqZ in Hx. lia. }
  unfold pe_symbols in Hx. rewrite lookup_arr_seg, Z.add_0_l in Hx by done. simplify_eq.
  unfold arr_load0. by rewrite (proj2 (in_bounds_true _ _)) by lia.
Qed.

Lemma bw_pe_find_eq os module path ip s :
  pe_ok s → module ≠ 0 → bw_pe_mod s = module →
  bw_pe_find os module path ip s =
  Done (if bw_pe_state s =? 1 then pe_name_off <$> sym_at s ip else None) s.
Proof.
  intros [[Hn Hl _ _] Hsyms _] Hm0 Hmod. unfold bw_pe_find. rewrite (proj2 (Z.eqb_neq _ _)) by done.
  unfold bind at 1, ensure_loaded, bind at 1, get. rewrite Hmod, Z.eqb_refl. cbn [negb].
  unfold ret at 1, bind at 1. destruct (Z.eqb_spec (bw_pe_state s) 1) as [Est|]; [|done]. cbn [negb].
  destruct (Hsyms Est) as [Hs Hpos]. pose proof ptr_mod_bounds.
  assert (HM : BW_PE_SYM_MAX = 4096) by done.
  pose proof (length_pe_symbols s ltac:(lia)) as Hlen.
  unfold bind at 1. rewrite <- Hlen.
  destruct (bsearch_le_table (λ mid, let* x := arr_load0 BW_PE_SYM_MAX pe_sym0 (bw_pe_syms s) mid in
    ret (pe_addr x)) pe_addr ip (pe_symbols s) s) as (best & -> & Hbest); [done|lia| |].
  { intros i x Hx. unfold bind. by rewrite (pe_symbols_load s i x) by (done || lia). }
  unfold sym_at. destruct (last _) as [x|].
  - destruct Hbest as (Hne & n & -> & Hx). rewrite (proj2 (Z.eqb_neq _ _)) by done.
    unfold bind. by rewrite (pe_symbols_load s n x) by (done || lia).
  - by rewrite Hbest, Z.eqb_refl.
Qed.

(** The address of [probe] in the file, as it was linked. *)
Definition linked_addr (s : pe_st) (module probe : Z) : Z :=
  if bw_pe_image_base s =? 0 then probe
  else uptr (bw_pe_image_base s + uptr (probe - module)).

Lemma bw_pe_line_eq os module path probe src line s :
  pe_ok s → module ≠ 0 → bw_pe_mod s = module → buf_ok src →
  if bw_dwarf_ready s =? 0 then
    bw_pe_line os module path probe src line s = Done (src, line) s
  else
    match row_at (bw_dwarf s) (linked_addr s module probe) with
    | None => bw_pe_line os module path probe src line s = Done (src, line) s
    | Some r => ∃ l, str_at (bw_dwarf s) (row_name_off r) l ∧
        bw_pe_line os module path probe src line s =
        Done (buf_with src l, (λ _, row_line r) <$> line) s
    end.
Proof.
  intros [[Hn Hl _ Htab] _ Hrows] Hm0 Hmod Hsrc.
  assert (Hload : ensure_loaded os module path s = Done tt s).
  { unfold ensure_loaded, bind, get. by rewrite Hmod, Z.eqb_refl. }
  unfold bw_pe_line. rewrite (proj2 (Z.eqb_neq module 0)) by done. unfold bind. rewrite Hload.
  unfold get. destruct (Z.eqb_spec (bw_dwarf_ready s) 0) as [|Hr]; [done|].
  destruct (Hrows Hr) as [Hsorted _]. fold (linked_addr s module probe).
  unfold zoom. rewrite bw_dwarf_tab_lookup_eq by apply Htab || done.
  destruct (row_at (bw_dwarf s) (linked_addr s module probe)) as [r|] eqn:Er; [|done].
  apply row_at_greatest in Er as (Hin & _ & _); [|done].
  destruct (proj1 (Forall_forall _ _) (tab_rows_ok _ Htab) r Hin) as [_ _ [l Hstr]].
  exists l. split; [done|]. cbn. rewrite (copy_buf_eq _ _ l) by (done || apply Hstr). by destruct line.
Qed.
End find.

(** The functions of a file have names. *)
Lemma file_functions_named `{Platform} map hd module :
  Forall (λ f, until_nul f.2 ≠ []) (file_functions map hd module).
Proof.
  unfold file_functions. destruct (has_symbols map hd); [|constructor].
  generalize (S (Z.to_nat (nsym hd))) as fuel. intros fuel. generalize 0.
  induction fuel as [|fuel IH]; intros i; cbn [coff_functions]; [constructor|].
  repeat (case_match; try constructor). apply Forall_app. split; [|apply IH].
  unfold coff_function. repeat (case_match; try constructor); cbn; [|constructor].
  match goal with E : (_ || _)%bool = false |- _ => apply orb_false_iff in E as [_ E]; by rewrite E end.
Qed.

(** The functions fit the table and the name pool. *)
Definition functions_fit (l : list (Z * list byte)) : Prop :=
  Z.of_nat (length l) ≤ BW_PE_SYM_MAX ∧ names_size l ≤ BW_PE_NAME_MAX.

(** The table [s] has the functions [l] of a module, in address order. *)
Definition has_functions (s : pe_st) (l : list (Z * list byte)) : Prop :=
  (∃ xs, pe_symbols s ≡ₚ xs ∧
     Forall2 (λ x f, pe_addr x = f.1 ∧ name_at s (pe_name_off x) (until_nul f.2)) xs l) ∧
  (l = [] ∧ bw_pe_state s = -1 ∨ bw_pe_state s = 1 ∧ pe_sorted s).

Lemma loaded_functions `{Platform} `{QSort} os module path s s' map hd :
  loaded os module path s s' → mapped_file os module path = Some map →
  headers_of map = Some hd → functions_fit (file_functions map hd module) →
  has_functions s' (file_functions map hd module).
Proof.
  intros (l0 & l & tab & ready & -> & _) -> Ehd [Hn Hl]. set (fs := file_functions map hd module) in *.
  unfold file_symbols, loaded_symbols. rewrite Ehd. fold fs.
  set (s1 := set_image_base _ _).
  assert (Hwf1 : pe_wf s1) by (eapply pe_empty_image_dwarf, (pe_reset_empty module); apply tab_reset_ok).
  destruct Hwf1 as [Hs1 Hl1 _ _].
  destruct (add_functions_all fs s1 (conj Hs1 Hl1) (file_functions_named map hd module))
    as (xs & Hxs & Hall); [done|done|].
  assert (E1 : pe_symbols s1 = []) by done. rewrite E1 in Hxs. cbn [app] in Hxs.
  destruct (add_functions_spec fs s1 (conj Hs1 Hl1)) as ([Hs2 _] & _ & _ & _ & Est & _).
  set (s2 := add_functions fs s1) in *. pose proof (sorted_symbols_perm s2 (proj1 Hs2)) as Hp.
  assert (E : bw_pe_nlen (sorted_symbols s2) = bw_pe_nlen s2 ∧
    bw_pe_names (sorted_symbols s2) = bw_pe_names s2) by (unfold sorted_symbols; by case_match).
  destruct E as [E2 E3]. split.
  - exists xs. split; [by rewrite <- Hxs, <- Hp|].
    eapply Forall2_impl; [exact Hall|]. intros x f [? Hat]. split; [done|].
    unfold name_at in *. cbn. by rewrite E2, E3.
  - pose proof (length_pe_symbols s2 (proj1 Hs2)) as Hlen. rewrite Hxs in Hlen.
    pose proof (Forall2_length _ _ _ Hall) as Hlen2.
    destruct (Z.ltb_spec 0 (bw_pe_nsym s2)) as [Hpos|]; [right|left].
    + split; [|by apply sorted_symbols_sorted]. cbn. unfold sorted_symbols.
      by rewrite (proj2 (Z.ltb_lt _ _)).
    + split; [apply length_zero_iff_nil; lia|]. cbn. unfold sorted_symbols.
      rewrite (proj2 (Z.ltb_ge _ _)) by lia. by rewrite Est.
Qed.

(** Finding in a module not loaded yet is loading and then finding. *)
Lemma bw_pe_find_load `{Platform} `{QSort} os module path ip s U F (Q : option Z → pe_st → Prop) :
  module ≠ 0 → bw_pe_mod s ≠ module →
  wp U F (λ _ s', bw_pe_mod s' = module ∧ wp U F Q (bw_pe_find os module path ip s'))
    (bw_pe_load os module path s) →
  wp U F Q (bw_pe_find os module path ip s).
Proof.
  intros Hm0 Hne Hload. unfold bw_pe_find at 1. rewrite (proj2 (Z.eqb_neq _ _)) by done.
  apply wp_bind, wp_bind, wp_get. rewrite (proj2 (Z.eqb_neq (bw_pe_mod s) module)) by done. cbn [negb].
  eapply wp_call; [exact Hload|done|]. cbn beta. intros [] s' [Hmod Hfind].
  unfold bw_pe_find in Hfind. rewrite (proj2 (Z.eqb_neq _ _)) in Hfind by done.
  unfold bind at 1, ensure_loaded, bind at 1, get in Hfind.
  rewrite Hmod, Z.eqb_refl in Hfind. exact Hfind.
Qed.

Lemma loaded_ok `{Platform} `{QSort} os module path s s' :
  loaded os module path s s' →
  pe_ok s' ∧ bw_pe_mod s' = module ∧ ∃ l, pe_log s' = pe_log s ++ l ∧ win_released l.
Proof.
  intros (l0 & l & tab & ready & -> & Hrel & Htab & Hrd).
  assert (Hok : let t := match mapped_file os module path with
      | Some map => file_symbols map module (set_log l0 (pe_reset module s))
      | None => pe_reset module s
      end in pe_wf t ∧ (bw_pe_state t = 1 → pe_sorted t ∧ 0 < bw_pe_nsym t) ∧ bw_pe_mod t = module).
  { destruct (mapped_file os module path) as [map|].
    - destruct (file_symbols_ok map module _ (pe_reset_empty module (set_log l0 s))) as (? & ? & ? & _).
      by split_and!.
    - split; [by eapply pe_empty_wf, pe_reset_empty|done]. }
  destruct Hok as (Hwf & Hsyms & Hmod). split; [by apply pe_ok_lines|]. split; [done|by exists l].
Qed.

(** What a lookup of [ip] among the functions [l] is to give: the name of the one
    with the greatest address not above [ip], or nothing when all are above. *)
Definition nearest_function (l : list (Z * list byte)) (s : pe_st) (ip : Z) (r : option Z) : Prop :=
  match r with
  | Some off => ∃ f, f ∈ l ∧ f.1 ≤ ip ∧ (∀ f', f' ∈ l → f'.1 ≤ ip → f'.1 ≤ f.1) ∧
      name_at s off (until_nul f.2)
  | None => ∀ f, f ∈ l → ip < f.1
  end.

Lemma has_functions_nearest s l ip : has_functions s l →
  nearest_function l s ip (if bw_pe_state s =? 1 then pe_name_off <$> sym_at s ip else None).
Proof.
  intros [(xs & Hp & Hall) Hst].
  destruct Hst as [[-> ->]|[-> Hsorted]]; [intros f Hf; by apply elem_of_nil in Hf|]. cbn.
  assert (Hsym : ∀ f, f ∈ l → ∃ x, x ∈ pe_symbols s ∧ pe_addr x = f.1).
  { intros f [i Hi]%list_elem_of_lookup. destruct (Forall2_lookup_r _ _ _ _ _ Hall Hi) as (x & Hx & Ha & _).
    exists x. split; [|done]. rewrite Hp. by eapply list_elem_of_lookup_2. }
  destruct (sym_at s ip) as [x|] eqn:E; cbn.
  - apply (last_filter_greatest pe_addr) in E as (Hin & Hle & Hmax); [|done].
    rewrite Hp in Hin. apply list_elem_of_lookup in Hin as [i Hi].
    destruct (Forall2_lookup_l _ _ _ _ _ Hall Hi) as (f & Hf & Ha & Hat). exists f.
    split_and!; [by eapply list_elem_of_lookup_2|lia| |done].
    intros f' Hf' Hle'. destruct (Hsym f' Hf') as (y & Hy & Hya). rewrite <- Hya, <- Ha. apply Hmax; [done|lia].
  - intros f Hf. destruct (Hsym f Hf) as (y & Hy & Hya). rewrite <- Hya.
    by apply (last_filter_none pe_addr ip (pe_symbols s)).
Qed.

(** *** What the two lookups promise their caller *)

(** The tables a lookup in a module works on: those the library has, when they are
    the module's, or else those loading the module leaves. *)
Definition ensured `{Platform} `{QSort} (os : win_os) (module : Z) (path : option (list byte))
    (s s' : pe_st) : Prop :=
  if ((module =? 0) || (bw_pe_mod s =? module))%bool then s' = s else loaded os module path s s'.

(** The symbol and the row for an address, in these tables. *)
Definition symbol_for (s : pe_st) (module ip : Z) : option bw_pe_sym_t :=
  if ((module =? 0) || negb (bw_pe_state s =? 1))%bool then None else sym_at s ip.

Definition row_for `{Platform} (s : pe_st) (module probe : Z) : option bw_dwarf_row_t :=
  if ((module =? 0) || (bw_dwarf_ready s =? 0))%bool then None
  else row_at (bw_dwarf s) (linked_addr s module probe).

Section calls.
Context `{Platform} `{QSort} (os : win_os) (Hos : win_os_ok os) (H64 : ptr_mod = 2 ^ 64).
Context (module : Z) (path : option (list byte)) (Hfile : module_file_ok os module path).

Lemma symbol_for_name s ip x : pe_ok s → symbol_for s module ip = Some x →
  ∃ l, l ≠ [] ∧ name_at s (pe_name_off x) l.
Proof.
  intros Hok. unfold symbol_for. destruct (module =? 0); [done|].
  destruct (Z.eqb_spec (bw_pe_state s) 1) as [Est|]; [|done]. cbn [negb orb]. intros Ex.
  destruct (pe_ok_syms s Hok Est) as [Hsorted _].
  apply (last_filter_greatest pe_addr) in Ex as (Hin & _); [|done].
  exact (proj1 (Forall_forall _ _) (pe_names_ok s (pe_ok_wf s Hok)) x Hin).
Qed.

Lemma ensured_again s t t' :
  ensured os module path s t → ensured os module path t t' → t' = t.
Proof.
  unfold ensured. destruct (module =? 0); [done|]. cbn [orb].
  destruct (Z.eqb_spec (bw_pe_mod s) module) as [E|].
  - intros ->. by rewrite E, Z.eqb_refl.
  - intros Hl. apply loaded_ok in Hl as (_ & -> & _). by rewrite Z.eqb_refl.
Qed.

Lemma ensure_loaded_same s : bw_pe_mod s = module → ensure_loaded os module path s = Done tt s.
Proof. intros E. unfold ensure_loaded, bind, get. by rewrite E, Z.eqb_refl. Qed.

(** Both first load the module; behind that they are lookups in a good state. *)
Lemma wp_ensure_loaded {A} (k : M pe_st A) (Q : A → pe_st → Prop) s :
  pe_ok s → module ≠ 0 →
  (∀ t, pe_ok t → bw_pe_mod t = module → ensured os module path s t →
     wp overflow_only (λ _, False) Q ((do* ensure_loaded os module path in k) t)) →
  wp overflow_only (λ _, False) Q ((do* ensure_loaded os module path in k) s).
Proof using Hos H64 Hfile.
  intros Hs Hm0 Hk. apply wp_bind. apply Z.eqb_neq in Hm0.
  assert (Hgo : ∀ t, pe_ok t → bw_pe_mod t = module → ensured os module path s t →
    wp overflow_only (λ _, False) Q (k t)).
  { intros t Hok Hmod He. specialize (Hk t Hok Hmod He). unfold bind at 1 in Hk.
    by rewrite ensure_loaded_same in Hk. }
  unfold ensure_loaded. apply wp_bind, wp_get. unfold ensured in Hgo. rewrite Hm0 in Hgo.
  destruct (Z.eqb_spec (bw_pe_mod s) module); cbn [negb orb] in *; [apply wp_ret; by apply Hgo|].
  eapply wp_call; [by apply bw_pe_load_wp|done|]. cbn beta. intros [] t Hl.
  destruct (loaded_ok _ _ _ _ _ Hl) as (? & ? & _). by apply Hgo.
Qed.

Lemma bw_pe_find_wp ip s :
  pe_ok s →
  wp overflow_only (λ _, False)
    (λ r t, pe_ok t ∧ ensured os module path s t ∧ r = pe_name_off <$> symbol_for t module ip)
    (bw_pe_find os module path ip s).
Proof using Hos H64 Hfile.
  intros Hs. unfold bw_pe_find. destruct (Z.eqb_spec module 0) as [E0|Hm0].
  { apply wp_ret. unfold ensured, symbol_for. by rewrite E0. }
  apply wp_ensure_loaded; [done|done|]. intros t Hok Hmod He.
  pose proof (bw_pe_find_eq os module path ip t Hok Hm0 Hmod) as Hfind. apply Z.eqb_neq in Hm0.
  unfold bw_pe_find in Hfind. rewrite Hm0 in Hfind. rewrite Hfind.
  split_and!; [done|done|]. unfold symbol_for. rewrite Hm0. by destruct (bw_pe_state t =? 1).
Qed.

Lemma bw_pe_line_wp probe src line s :
  pe_ok s → buf_ok src →
  wp overflow_only (λ _, False)
    (λ '(src', line') t, pe_ok t ∧ ensured os module path s t ∧
       match row_for t module probe with
       | None => src' = src ∧ line' = line
       | Some r => ∃ l, str_at (bw_dwarf t) (row_name_off r) l ∧ src' = buf_with src l ∧
                        line' = (λ _, row_line r) <$> line
       end)
    (bw_pe_line os module path probe src line s).
Proof using Hos H64 Hfile.
  intros Hs Hsrc. unfold bw_pe_line. destruct (Z.eqb_spec module 0) as [E0|Hm0].
  { apply wp_ret. unfold ensured, row_for. rewrite E0. by split_and!. }
  apply wp_ensure_loaded; [done|done|]. intros t Hok Hmod He.
  pose proof (bw_pe_line_eq os module path probe src line t Hok Hm0 Hmod Hsrc) as Hline.
  apply Z.eqb_neq in Hm0. unfold bw_pe_line in Hline. rewrite Hm0 in Hline.
  assert (Erow : row_for t module probe = if bw_dwarf_ready t =? 0 then None
    else row_at (bw_dwarf t) (linked_addr t module probe)) by (unfold row_for; by rewrite Hm0).
  destruct (bw_dwarf_ready t =? 0); [rewrite Hline; cbn; by rewrite Erow|].
  destruct (row_at _ _) as [r|]; [|rewrite Hline; cbn; by rewrite Erow].
  destruct Hline as (l & Hl & ->). cbn. rewrite Erow. eauto 6.
Qed.
End calls.

(** ** Properties *)

(** C7. [bw_pe_load] is safe, cleans up and establishes the invariant of the static
    tables, from any state and for any module and path.  The system is 64-bit and
    maps a file as a whole ([win_os_ok]); the file of the module, if one is mapped,
    is smaller than 4 GB, its string table and its string sections end in a NUL,
    and the unit headers of its line section fit ([module_file_ok]).  Then loading
    reads only the view it mapped and writes only the tables, and ends in one of
    two ways.  It returns: the tables belong to the module, are well-formed, and
    are sorted and not empty where they are declared ready, and every handle it
    opened is closed and every view unmapped.  Or it stops at a signed addition on
    the line register of the file's line program that leaves [int64_t]. *)
Theorem bw_pe_load_safe `{Platform} `{QSort} os module path s :
  win_os_ok os → ptr_mod = 2 ^ 64 → module_file_ok os module path →
  match bw_pe_load os module path s with
  | Done _ s' =>
      pe_ok s' ∧ bw_pe_mod s' = module ∧ ∃ l, pe_log s' = pe_log s ++ l ∧ win_released l
  | Fault u => ∃ a b, u = SignedOverflow a b ∧ ¬ - 2 ^ 63 ≤ a + b < 2 ^ 63
  | Fail _ | NoFuel => False
  end.
Proof.
  intros Hos H64 Hfile. pose proof (bw_pe_load_wp os module path s Hos H64 Hfile) as Hwp.
  destruct (bw_pe_load os module path s) as [u s'| | |]; [by eapply loaded_ok|done|exact Hwp|done].
Qed.

(** *** A concrete file *)

Definition pe_dos (lfanew : Z) : list byte := [x4d; x5a] ++ replicate 58 x00 ++ le_bytes 4 lfanew.
Definition pe_nt (nsec sym_off nsym opt_size : Z) : list byte :=
  [x50; x45; x00; x00; x64; x86] ++ le_bytes 2 nsec ++ le_bytes 4 0 ++ le_bytes 4 sym_off
    ++ le_bytes 4 nsym ++ le_bytes 2 opt_size ++ le_bytes 2 0.
Definition pe_opt (magic base : Z) : list byte :=
  le_bytes 2 magic ++ replicate 22 x00 ++ le_bytes 8 base.
Definition coff_sym (name : list byte) (value sec type naux : Z) : list byte :=
  take 8 (name ++ replicate 8 x00) ++ le_bytes 4 value ++ le_bytes 2 sec ++ le_bytes 2 type
    ++ [x02] ++ le_bytes 1 naux.

(** ".text" with the functions "g" at 0x1020 and "f" at 0x1000, behind them a
    string table with the name of the section with the lines of [section_ex]. *)
Definition pe_ex : span :=
  Span (4096 - 306) (pe_dos 64 ++ pe_nt 2 200 4 32 ++ pe_opt 0x20b 0x140000000
    ++ section_header [x2e; x74; x65; x78; x74] 0x1000 0 0 ++ section_header [x2f; x34] 0x2000 65 306
    ++ coff_sym [x67] 0x20 1 0x20 1 ++ replicate 18 x00 ++ coff_sym [x66] 0 1 0x20 0
    ++ coff_sym [x76] 8 1 0 0 ++ le_bytes 4 34 ++ DEBUG_LINE ++ replicate 19 x00
    ++ sp_bytes section_ex).

Definition win_ex : win_os := WinOs (λ _, Some 5) (λ _, Some (sp_len pe_ex)) (λ _, Some 6) (λ _, Some pe_ex).

Lemma headers_ex : headers_of pe_ex = Some (PeHeaders 64 2 120 32 200 4).
Proof. vm_compute. reflexivity. Qed.

Lemma pe_ex_ok : pe_file_ok (H:=plat64) pe_ex.
Proof.
  split; [concrete|]. intros hd. rewrite headers_ex. intros [= <-]. split.
  - intros _. reflexivity.
  - intros k data line Hk _ Hd Hsp. cbn in Hk. assert (k = 0 ∨ k = 1) as [-> | ->] by lia.
    + vm_compute in Hd. discriminate.
    + vm_compute in Hd. injection Hd as <-. vm_compute in Hsp. injection Hsp as <-.
      exact section_ex_fits.
  - intros k data str Hk Hname Hd _. cbn in Hk. assert (k = 0 ∨ k = 1) as [-> | ->] by lia.
    + vm_compute in Hd. discriminate.
    + exfalso. unfold has_name, section_named in Hname.
      set (p := long_name _ _ _) in Hname.
      assert (E : ∃ q, p = Some q ∧ q 6 = Some x5f ∧ q 7 = Some x6c ∧ q 11 = Some x00).
      { eexists. split_and!; [vm_compute; reflexivity|vm_compute; reflexivity..]. }
      destruct E as (q & -> & E6 & E7 & E11). destruct Hname as [Hn|Hn]; destruct Hn as (Hc & _).
      * specialize (Hc 11%nat x5f eq_refl). change (q 11 = Some x5f) in Hc. congruence.
      * specialize (Hc 7%nat x73 eq_refl). change (q 7 = Some x73) in Hc. congruence.
Qed.

Lemma win_ex_ok : win_os_ok (H:=plat64) win_ex.
Proof. intros path file size h map _ [= <-] _ [= <-]. split; [done|concrete]. Qed.

Lemma win_ex_file module path : module_file_ok (H:=plat64) win_ex module path.
Proof.
  intros map. unfold mapped_file. destruct (module =? 0); [done|].
  destruct (usable_path path); [|done]. intros [= <-]. apply pe_ex_ok.
Qed.

Lemma bw_pe_load_safe_witness :
  match bw_pe_load (H:=plat64) win_ex 0x7ff00000 (Some [x61]) pe_st0 with
  | Done _ s' =>
      pe_ok (H:=plat64) s' ∧ bw_pe_mod s' = 0x7ff00000 ∧
      ∃ l, pe_log s' = pe_log pe_st0 ++ l ∧ win_released l
  | Fault u => ∃ a b, u = SignedOverflow a b ∧ ¬ - 2 ^ 63 ≤ a + b < 2 ^ 63
  | Fail _ | NoFuel => False
  end.
Proof.
  apply (bw_pe_load_safe (H:=plat64) win_ex 0x7ff00000 (Some [x61]) pe_st0).
  - apply win_ex_ok.
  - done.
  - apply win_ex_file.
Defined.

(** C3. Looking up an address of a module that is not the cached one loads the
    module's file and answers with its nearest function: [bw_pe_find] returns the
    name of the function symbol of the file with the greatest address not above
    [ip], or a null pointer exactly when every function is above [ip]; the
    functions are those [coff_functions] reads off the COFF symbol table.  The
    system is 64-bit and maps a file as a whole ([win_os_ok]); the file is smaller
    than 4 GB, its string table and string sections end in a NUL and the unit
    headers of its line section fit ([pe_file_ok]); the functions fit the library's
    tables, 4096 symbols and 256 KB of names ([functions_fit]).  The one other end
    is a signed addition on the line register of the file's line program, which
    loading runs as well, that leaves [int64_t]. *)
Theorem bw_pe_find_names `{Platform} `{QSort} os module path ip s map hd :
  let fs := file_functions map hd module in
  win_os_ok os → ptr_mod = 2 ^ 64 → module ≠ 0 → bw_pe_mod s ≠ module →
  mapped_file os module path = Some map → pe_file_ok map →
  headers_of map = Some hd → functions_fit fs →
  match bw_pe_find os module path ip s with
  | Done r s' => bw_pe_mod s' = module ∧
      match r with
      | Some off => ∃ f, f ∈ fs ∧ f.1 ≤ ip ∧ (∀ f', f' ∈ fs → f'.1 ≤ ip → f'.1 ≤ f.1) ∧
          name_at s' off (until_nul f.2)
      | None => ∀ f, f ∈ fs → ip < f.1
      end
  | Fault u => ∃ a b, u = SignedOverflow a b ∧ ¬ - 2 ^ 63 ≤ a + b < 2 ^ 63
  | Fail _ | NoFuel => False
  end.
Proof.
  intros fs Hos H64 Hm0 Hne Hmap Hfok Hhd Hfit.
  assert (Hfile : module_file_ok os module path) by (intros map' E; congruence).
  apply (bw_pe_find_load os module path ip s overflow_only (λ _, False)
    (λ r s', bw_pe_mod s' = module ∧ nearest_function fs s' ip r)); [done|done|].
  eapply wp_call; [by apply bw_pe_load_wp|done|]. cbn beta. intros _ s' Hl.
  destruct (loaded_ok _ _ _ _ _ Hl) as (Hok & Hmod & _). split; [done|].
  rewrite bw_pe_find_eq by done. split; [done|]. apply has_functions_nearest.
  by eapply loaded_functions.
Qed.

Lemma bw_pe_find_names_witness :
  let fs := file_functions (H:=plat64) pe_ex (PeHeaders 64 2 120 32 200 4) 0x7ff00000 in
  (fst <$> fs = [0x7ff01020; 0x7ff01000]) ∧
  match bw_pe_find (H:=plat64) win_ex 0x7ff00000 (Some [x61]) 0x7ff01011 pe_st0 with
  | Done r s' => bw_pe_mod s' = 0x7ff00000 ∧
      match r with
      | Some off => ∃ f, f ∈ fs ∧ f.1 ≤ 0x7ff01011 ∧
          (∀ f', f' ∈ fs → f'.1 ≤ 0x7ff01011 → f'.1 ≤ f.1) ∧ name_at s' off (until_nul f.2)
      | None => ∀ f, f ∈ fs → 0x7ff01011 < f.1
      end
  | Fault u => ∃ a b, u = SignedOverflow a b ∧ ¬ - 2 ^ 63 ≤ a + b < 2 ^ 63
  | Fail _ | NoFuel => False
  end.
Proof.
  intros fs. split; [vm_compute; reflexivity|].
  apply (bw_pe_find_names (H:=plat64) win_ex 0x7ff00000 (Some [x61]) 0x7ff01011 pe_st0 pe_ex);
    [apply win_ex_ok|done|done|done|reflexivity|apply pe_ex_ok|apply headers_ex|concrete].
Defined.

(** C15. [bw_pe_line] answers from the line table of the loaded module: it looks up the
    address of [probe] in the file as it was linked, and gives the caller the file
    name, cut to the buffer and terminated, and the line of the nearest row not
    above that address; when the module has no lines or every row is above, the
    caller's buffer and variable are untouched. *)
Theorem bw_pe_line_correct `{Platform} `{QSort} os module path probe src line s :
  pe_ok s → module ≠ 0 → bw_pe_mod s = module → buf_ok src →
  let linked := linked_addr s module probe in
  (∃ r l src', bw_dwarf_ready s ≠ 0 ∧ r ∈ tab_rows (bw_dwarf s) ∧ row_addr r ≤ linked ∧
     (∀ r', r' ∈ tab_rows (bw_dwarf s) → row_addr r' ≤ linked → row_addr r' ≤ row_addr r) ∧
     str_at (bw_dwarf s) (row_name_off r) l ∧
     bw_pe_line os module path probe src line s =
       Done (src', (λ _, row_line r) <$> line) s ∧ buf_holds src' l) ∨
  ((bw_dwarf_ready s = 0 ∨ ∀ r', r' ∈ tab_rows (bw_dwarf s) → linked < row_addr r') ∧
   bw_pe_line os module path probe src line s = Done (src, line) s).
Proof.
  intros Hok Hm0 Hmod Hsrc linked. pose proof (bw_pe_line_eq os module path probe src line s Hok Hm0 Hmod Hsrc) as Hline.
  fold linked in Hline. destruct (Z.eqb_spec (bw_dwarf_ready s) 0) as [E|E]; [by right; auto|].
  destruct (pe_ok_dwarf s Hok E) as [Hsorted _].
  destruct (row_at (bw_dwarf s) linked) as [r|] eqn:Er.
  - left. destruct Hline as (l & Hl & Hline).
    apply row_at_greatest in Er as (Hin & Hle & Hmax); [|done].
    eexists r, l, _. split_and!; [done|done|done|done|done|exact Hline|].
    apply buf_with_holds; [done|apply Hl].
  - right. split; [|done]. right. by apply (last_filter_none row_addr linked).
Qed.

(** The tables of a module at 0x1000, linked at 0, with the lines of [tab_ex]. *)
Definition pe_lines_ex : pe_st := PeSt 0x1000 (-1) ∅ 0 ∅ 0 8 tab_ex 1 [].

Lemma bw_pe_line_correct_witness :
  let src := OutBuf false 8 ∅ in
  let linked := linked_addr (H:=plat64) pe_lines_ex 0x1000 0x100b in
  linked = 19 ∧
  ((∃ r l src', bw_dwarf_ready pe_lines_ex ≠ 0 ∧ r ∈ tab_rows (bw_dwarf pe_lines_ex) ∧ row_addr r ≤ linked ∧
     (∀ r', r' ∈ tab_rows (bw_dwarf pe_lines_ex) → row_addr r' ≤ linked → row_addr r' ≤ row_addr r) ∧
     str_at (bw_dwarf pe_lines_ex) (row_name_off r) l ∧
     bw_pe_line (H:=plat64) win_ex 0x1000 None 0x100b src (Some 0) pe_lines_ex =
       Done (src', (λ _, row_line r) <$> Some 0) pe_lines_ex ∧ buf_holds src' l) ∨
  ((bw_dwarf_ready pe_lines_ex = 0 ∨ ∀ r', r' ∈ tab_rows (bw_dwarf pe_lines_ex) → linked < row_addr r') ∧
   bw_pe_line (H:=plat64) win_ex 0x1000 None 0x100b src (Some 0) pe_lines_ex = Done (src, Some 0) pe_lines_ex)).
Proof.
  intros src linked. split; [reflexivity|].
  apply (bw_pe_line_correct (H:=plat64) win_ex 0x1000 None 0x100b src (Some 0) pe_lines_ex);
    [|done|done|concrete].
  split; [|done|].
  - split; [concrete|concrete|constructor|apply tab_ex_ok].
  - intros _. split; [apply tab_ex_sorted|concrete].
Defined.

(** A file whose header claims 238609295 symbols, 2^32 + 14 bytes of them. *)
Definition pe_many : span :=
  Span 0x10000 (pe_dos 64 ++ pe_nt 1 88 238609295 0 ++ section_header [] 0 0 0).

(** On a 32-bit target the size of a symbol table can wrap around the check
    against the size of the file, and the loop reads symbols outside the map; on a
    64-bit target the same file is refused. *)
Theorem coff_count_wraps :
  read_file (H:=plat32) pe_many (sp_len pe_many) 0x400000 pe_st0 = Fault OobRead ∧
  has_symbols pe_many (PeHeaders 64 1 88 0 88 238609295) = false.
Proof. split; [lazy; reflexivity|vm_compute; reflexivity]. Qed.

(** A file that ends with a string table without a NUL. *)
Definition pe_open_strtab : span :=
  Span 0x10000 (pe_dos 64 ++ pe_nt 1 128 1 0 ++ section_header [x2f; x34] 0 0 0
    ++ coff_sym [x76] 0 1 0 0 ++ le_bytes 4 6 ++ [x61; x62]).

(** The name of a section is read past the end of the file: the hypothesis
    [names_terminated] of the theorems is needed. *)
Theorem section_name_overread :
  read_file (H:=plat64) pe_open_strtab (sp_len pe_open_strtab) 0x400000 pe_st0 = Fault OobRead.
Proof. vm_compute. reflexivity. Qed.

(** A file with a 32-bit optional header of 28 bytes. *)
Definition pe_short : span :=
  Span 0x10000 (pe_dos 64 ++ pe_nt 1 0 0 28 ++ take 28 (pe_opt 0x10b 0)
    ++ section_header [x2e; x74; x65; x78; x74] 0 0 0).

(** The image base is read behind the optional header: it is the name of the
    first section, ".tex". *)
Theorem image_base_short_header :
  image_base_of pe_short (PeHeaders 64 1 116 28 0 0) = Some (le_val [x2e; x74; x65; x78]) ∧
  headers_of pe_short = Some (PeHeaders 64 1 116 28 0 0).
Proof. split; vm_compute; reflexivity. Qed.
