(* ===== verification/WinResolve.v ===== *)
(** * Frames on Windows

    [bw_sym_init] and [bw_win_resolve] of src/win.c, and the Windows branches of
    [bw_frame_process], [bw_backtrace] and [bw_backtrace_collect] of
    src/backwalk.c.  The functions of DbgHelp and of the loader are parameters;
    the calls on the critical section are logged. *)

From S2P Require Import Prelude CMonad CMem Search DwarfTab ElfSym Context Backtrace WinUtil PeSym PeSpec PeLoad.

Definition MAX_PATH : Z := 260.

(** ** The system *)

Record win_api := WinApi {
  wa_os : win_os;
  (** DbgHelp: whether [SymInitialize] succeeds, the name of a symbol, the file
      name (null or a string) and line of an address; [None] is failure. *)
  SymInitialize : bool;
  SymFromAddr : Z → option (list byte);
  SymGetLineFromAddr64 : Z → option (option (list byte) * Z);
  (** The loader: the module of an address, its path. *)
  GetModuleHandleExA : Z → option Z;
  GetModuleFileNameA : Z → option (list byte);
  CaptureStackBackTrace : Z → Z → list Z;
}.

Inductive win_call :=
| InitializeCriticalSection
| SymSetOptions
| EnterCriticalSection
| LeaveCriticalSection.

#[export] Instance win_call_eq_dec : EqDecision win_call.
Proof. solve_decision. Defined.

(** The static variables of src/win.c: the tables of one module, [bw_sym_once]
    (whether it has run) and [bw_sym_ok]; and the log. *)
Record win_st := WinSt {
  ws_pe : pe_st;
  bw_sym_once : bool;
  bw_sym_ok : bool;
  ws_log : list win_call;
}.

Definition win_st0 : win_st := WinSt pe_st0 false false [].

Definition set_pe (pe : pe_st) (s : win_st) : win_st :=
  WinSt pe (bw_sym_once s) (bw_sym_ok s) (ws_log s).

Definition win_log (c : win_call) : M win_st unit :=
  let* s := get in put (WinSt (ws_pe s) (bw_sym_once s) (bw_sym_ok s) (ws_log s ++ [c])).

(** What the pointer arguments of [bw_win_resolve] point to; a null [mod_addr] or
    [line] is [None]. *)
Record win_out := WinOut {
  wo_mod_addr : option Z;
  wo_fname : out_buf;
  wo_sname : out_buf;
  wo_src : out_buf;
  wo_line : option Z;
}.

Section resolve.
Context `{Platform} `{QSort} (api : win_api).

(** The target is 32-bit x86, whose COFF names have a leading underscore. *)
Context (i386 : bool).

Definition bw_sym_init : M win_st unit :=
  do* win_log InitializeCriticalSection in
  do* win_log SymSetOptions in
  let* s := get in
  put (WinSt (ws_pe s) (bw_sym_once s) (SymInitialize api) (ws_log s)).

(** [InitOnceExecuteOnce] *)
Definition init_once : M win_st unit :=
  let* s := get in
  if bw_sym_once s then ret tt else
  do* bw_sym_init in
  let* s := get in
  put (WinSt (ws_pe s) true (bw_sym_ok s) (ws_log s)).

(** The module of [ip] and its path; 0 and the empty string where there is none.
    [*mod_addr] and [fname] are set on the way. *)
Definition find_module (ip : Z) (o : win_out) : M win_st (Z * list byte * win_out) :=
  match GetModuleHandleExA api ip with
  | None => ret (0, [], o)
  | Some module =>
      if module =? 0 then ret (0, [], o) else
      let mod_addr := match wo_mod_addr o with None => None | Some _ => Some (uptr (ip - module)) end in
      let path := default [] (GetModuleFileNameA api module) in
      let n := Z.min (Z.of_nat (length path)) MAX_PATH in
      if ((n =? 0) || (MAX_PATH <=? n))%bool
      then ret (module, [], WinOut mod_addr (wo_fname o) (wo_sname o) (wo_src o) (wo_line o))
      else
        let* fname := copy_buf (wo_fname o) (Some (c_lit path)) in
        ret (module, path, WinOut mod_addr fname (wo_sname o) (wo_src o) (wo_line o))
  end.

(** What DbgHelp says: a symbol at [ip] or else at [probe], and a line at [probe]
    or else at [ip]. *)
Definition dbghelp_symbol (ip probe : Z) : option (list byte) :=
  match SymFromAddr api ip with Some n => Some n | None => SymFromAddr api probe end.

Definition dbghelp_line (ip probe : Z) : option (option (list byte) * Z) :=
  match SymGetLineFromAddr64 api probe with
  | Some l => Some l
  | None => SymGetLineFromAddr64 api ip
  end.

(** [if (pe_name[0] == '_') pe_name += 1;] on 32-bit x86 *)
Definition skip_underscore {S} (pe_name : cptr) : M S cptr :=
  if i386 then
    let* c := c_at pe_name 0 in
    ret (if Byte.eqb c x5f then cptr_add pe_name 1 else pe_name)
  else ret pe_name.

(** [sname] from the COFF symbols. *)
Definition coff_symbol (module : Z) (path : list byte) (probe : Z) (sname : out_buf) : M win_st out_buf :=
  let* name := zoom ws_pe set_pe (bw_pe_find (wa_os api) module (Some path) probe) in
  match name with
  | None => ret sname
  | Some off =>
      let* s := get in
      let* pe_name := skip_underscore (arr_cptr0 BW_PE_NAME_MAX (bw_pe_names (ws_pe s)) off) in
      copy_buf sname (Some pe_name)
  end.

(** [sname], from DbgHelp or from the COFF symbols. *)
Definition resolve_symbol (dbg : option (list byte)) (module : Z) (path : list byte) (probe : Z)
    (sname : out_buf) : M win_st out_buf :=
  match dbg with
  | Some (c :: n) => copy_buf sname (Some (c_lit (c :: n)))
  | _ => coff_symbol module path probe sname
  end.

(** [src] and [*line], from DbgHelp or from the DWARF lines. *)
Definition resolve_line (dbg : option (option (list byte) * Z)) (module : Z) (path : list byte)
    (probe : Z) (src : out_buf) (line : option Z) : M win_st (out_buf * option Z) :=
  match dbg with
  | Some (Some (c :: f), n) =>
      let* src := copy_buf src (Some (c_lit (c :: f))) in
      ret (src, match line with None => None | Some _ => Some (u32 n) end)
  | _ => zoom ws_pe set_pe (bw_pe_line (wa_os api) module (Some path) probe src line)
  end.

Definition bw_win_resolve (ip : Z) (o : win_out) : M win_st win_out :=
  let mod_addr := match wo_mod_addr o with None => None | Some _ => Some 0 end in
  let line := match wo_line o with None => None | Some _ => Some 0 end in
  let* fname := copy_buf (wo_fname o) (Some (c_lit qmark)) in
  let* sname := copy_buf (wo_sname o) (Some (c_lit qmark)) in
  let* src := copy_buf (wo_src o) (Some (c_lit qmark)) in
  let o := WinOut mod_addr fname sname src line in
  if ip =? 0 then ret o else
  do* init_once in
  let* '(module, path, o) := find_module ip o in
  let probe := if 0 <? ip then ip - 1 else ip in
  do* win_log EnterCriticalSection in
  let* s := get in
  let '(symbol, line) :=
    if bw_sym_ok s then (dbghelp_symbol ip probe, dbghelp_line ip probe) else (None, None) in
  let* sname := resolve_symbol symbol module path probe (wo_sname o) in
  let* '(src, ln) := resolve_line line module path probe (wo_src o) (wo_line o) in
  do* win_log LeaveCriticalSection in
  ret (WinOut (wo_mod_addr o) (wo_fname o) sname src ln).

(** ** The Windows branches of src/backwalk.c *)

(** The automatic buffers of [bw_frame_process]. *)
Definition frame_out : win_out :=
  WinOut (Some 0) (OutBuf false BW_WIN_FNAME_MAX ∅) (OutBuf false BW_WIN_SNAME_MAX ∅)
    (OutBuf false BW_WIN_SRC_MAX ∅) (Some 0).

(** The string in a buffer. *)
Definition buf_string (b : out_buf) : list byte := until_nul (arr_seg x00 (ob_cells b) 0 (ob_len b)).

Definition win_frame_lookup (ip : Z) : M win_st frame_info :=
  let* o := bw_win_resolve ip frame_out in
  ret (FrameInfo (default 0 (wo_mod_addr o)) (buf_string (wo_fname o)) (buf_string (wo_sname o))
         (buf_string (wo_src o)) (default 0 (wo_line o))).

(** What a backtrace changes: the user's [arg] and the library's state. *)
Context {W : Type} (cb : option (frame_info → W → bool * W)).

Definition win_frame_process (ip : Z) : M (W * win_st) bool :=
  let* info := zoom snd (λ w s, (s.1, w)) (win_frame_lookup ip) in
  match cb with
  | None => ret true
  | Some cb =>
      let* s := get in
      let '(go, arg) := cb info s.1 in
      do* put (arg, s.2) in
      ret go
  end.

(** [for (size_t i = 0; i < n; ++i) if (!bw_frame_process(ips[i], cb, arg)) return false;] *)
Fixpoint win_process_loop (fuel : nat) (cap : Z) (ips : gmap Z Z) (n i : Z) : M (W * win_st) bool :=
  match fuel with
  | O => no_fuel
  | S fuel' =>
      if i <? n then
        let* ip := arr_load cap ips i in
        let* go := win_frame_process ip in
        if negb go then ret false else win_process_loop fuel' cap ips n (i + 1)
      else ret true
  end.

Definition win_backtrace : M (W * win_st) bool :=
  let* '(n, ips) :=
    with_local (bw_win_capture (CaptureStackBackTrace api) (Some BW_WIN_MAX_FRAMES) BW_WIN_MAX_FRAMES) ∅ in
  win_process_loop (S (Z.to_nat n)) BW_WIN_MAX_FRAMES ips n 0.

(** [bw_backtrace_process] *)
Definition win_process (c : bw_context) : M (W * win_st) bool :=
  win_process_loop (S (Z.to_nat (ip_cnt c))) (bc_cap c) (bc_cells c) (ip_cnt c) 0.

(** [bw_backtrace_collect]; a context whose [ip] is null has no array. *)
Definition win_collect (ctx : option bw_context) : M unit (bool * option bw_context) :=
  match ctx with
  | None => ret (false, None)
  | Some c =>
      match bc_ip c with
      | None => ret (false, Some c)
      | Some _ =>
          if ip_max_cnt c =? 0 then ret (false, Some c) else
          let* '(n, cells) :=
            with_local (bw_win_capture (CaptureStackBackTrace api) (Some (bc_cap c)) (ip_max_cnt c))
              (bc_cells c) in
          ret (n <? ip_max_cnt c, Some (set_cells cells n c))
      end
  end.
End resolve.

(** ** What resolving an address gives *)

Section spec.
Context `{Platform} `{QSort} (api : win_api) (i386 : bool).

Definition no_nul (l : list byte) : Prop := Forall (λ b, b ≠ x00) l.

(** What the system promises: files mapped as a whole, C strings, and no more
    frames than asked for. *)
Record api_ok : Prop := {
  api_win : win_os_ok (wa_os api);
  api_symbol : ∀ ip n, SymFromAddr api ip = Some n → no_nul n;
  api_line : ∀ ip f n, SymGetLineFromAddr64 api ip = Some (Some f, n) → no_nul f;
  api_path : ∀ m p, GetModuleFileNameA api m = Some p → no_nul p;
  api_capture : capture_ok (CaptureStackBackTrace api);
}.

Context (Hapi : api_ok).

(** The log of a library that is set up at most once, before its first critical
    section, and leaves every critical section it enters. *)
Definition sessions (once : bool) (l : list win_call) : Prop :=
  if once then ∃ k, l = [InitializeCriticalSection; SymSetOptions]
                        ++ concat (replicate k [EnterCriticalSection; LeaveCriticalSection])
  else l = [].

Definition win_inv (s : win_st) : Prop := pe_ok (ws_pe s) ∧ sessions (bw_sym_once s) (ws_log s).

Lemma win_st0_inv : win_inv win_st0.
Proof. split; [apply pe_st0_ok|done]. Qed.

(** The module of an address, and its path as the library keeps it. *)
Definition module_of (ip : Z) : Z := default 0 (GetModuleHandleExA api ip).

Definition path_of (ip : Z) : list byte :=
  let path := default [] (GetModuleFileNameA api (module_of ip)) in
  if ((module_of ip =? 0) || (MAX_PATH <=? Z.of_nat (length path)))%bool then [] else path.

Lemma find_module_eq ip o s : buf_ok (wo_fname o) →
  find_module api ip o s =
  Done (module_of ip, path_of ip,
    WinOut (if module_of ip =? 0 then wo_mod_addr o else (λ _, uptr (ip - module_of ip)) <$> wo_mod_addr o)
      (match path_of ip with [] => wo_fname o | p => buf_with (wo_fname o) p end)
      (wo_sname o) (wo_src o) (wo_line o)) s.
Proof using Hapi.
  intros Hb. unfold find_module, path_of, module_of.
  destruct (GetModuleHandleExA api ip) as [m|]; cbn; [|by destruct o].
  destruct (Z.eqb_spec m 0) as [->|]; cbn; [by destruct o|].
  destruct (GetModuleFileNameA api m) as [p|] eqn:Ep; cbn.
  2:{ by destruct (wo_mod_addr o). }
  pose proof (api_path Hapi m p Ep) as Hp. unfold MAX_PATH.
  destruct p as [|c p]; [by destruct (wo_mod_addr o)|].
  destruct (Z.leb_spec 260 (Z.of_nat (length (c :: p)))) as [Hle|Hlt].
  - rewrite Z.min_r by lia. by destruct (wo_mod_addr o).
  - rewrite Z.min_l by lia. rewrite (proj2 (Z.leb_gt 260 _)) by lia.
    rewrite (proj2 (Z.eqb_neq _ 0)) by (simpl; lia). cbn [orb]. unfold bind.
    rewrite (copy_buf_eq _ _ (c :: p)) by (done || by apply is_cstr_lit).
    by destruct (wo_mod_addr o).
Qed.

(** The parts of the state the lookups leave alone. *)
Definition same_win (s s' : win_st) : Prop :=
  bw_sym_once s' = bw_sym_once s ∧ bw_sym_ok s' = bw_sym_ok s ∧ ws_log s' = ws_log s.

(** The name after the underscore. *)
Lemma is_cstr_tail p c l : is_cstr p (c :: l) → is_cstr (cptr_add p 1) l.
Proof.
  intros (Hl & Hn & Hz). unfold cptr_add. split_and!.
  - intros i b Hb. rewrite <- (Hl (S i) b Hb). f_equal. lia.
  - rewrite <- Hn. f_equal. cbn [length]. lia.
  - by apply Forall_cons in Hz as [_ Hz].
Qed.

(** A COFF name as it is shown. *)
Definition coff_name (l : list byte) : list byte :=
  match l with
  | c :: l' => if (i386 && Byte.eqb c x5f)%bool then l' else l
  | [] => []
  end.

Lemma skip_underscore_eq {S} p l (s : S) : is_cstr p l → l ≠ [] →
  ∃ q, skip_underscore i386 p s = Done q s ∧ is_cstr q (coff_name l).
Proof.
  intros Hp Hne. unfold skip_underscore, coff_name. destruct l as [|c l]; [done|].
  destruct i386; [|by exists p]. unfold bind, c_at. pose proof (proj1 Hp 0%nat c eq_refl) as Hc.
  change (Z.of_nat 0) with 0 in Hc. rewrite Hc. cbn. destruct (Byte.eqb c x5f); [|by eexists].
  eexists. split; [done|]. by eapply is_cstr_tail.
Qed.

(** What a buffer holds that is filled from the tables [t] of the PE file: the name
    of the symbol for [probe], or the file and line of its row; without one the
    default stays. *)
Definition pe_symbol_string (t : pe_st) (module probe : Z) (sn : list byte) : Prop :=
  match symbol_for t module probe with
  | None => sn = qmark
  | Some x => ∃ l, name_at t (pe_name_off x) l ∧ sn = coff_name l
  end.

Definition pe_line_string (t : pe_st) (module probe : Z) (sr : list byte) (line line' : option Z) : Prop :=
  match row_for t module probe with
  | None => sr = qmark ∧ line' = line
  | Some r => str_at (bw_dwarf t) (row_name_off r) sr ∧ line' = (λ _, row_line r) <$> line
  end.

Lemma qmark_no_nul : no_nul qmark.
Proof. by repeat constructor. Qed.

Section lookups.
Context (H64 : ptr_mod = 2 ^ 64).
Context (module : Z) (path : list byte) (Hfile : module_file_ok (wa_os api) module (Some path)).

(** A buffer [b'] with the room of [b] that holds [l]. *)
Definition now_holds (b b' : out_buf) (l : list byte) : Prop :=
  ob_len b' = ob_len b ∧ buf_holds b' l ∧ no_nul l.

Lemma now_holds_with b l : buf_ok b → no_nul l → now_holds b (buf_with b l) l.
Proof. intros. split_and!; [done|by apply buf_with_holds|done]. Qed.

Lemma coff_symbol_wp probe b s :
  pe_ok (ws_pe s) → buf_ok b → buf_holds b qmark →
  wp overflow_only (λ _, False)
    (λ b' s', pe_ok (ws_pe s') ∧ same_win s s' ∧
       ensured (wa_os api) module (Some path) (ws_pe s) (ws_pe s') ∧
       ∃ sn, now_holds b b' sn ∧ pe_symbol_string (ws_pe s') module probe sn)
    (coff_symbol api i386 module path probe b s).
Proof using Hapi H64 Hfile.
  intros Hs Hb Hq. unfold coff_symbol. apply wp_bind, wp_zoom.
  eapply wp_call; [by apply (bw_pe_find_wp _ (api_win Hapi) H64 module (Some path) Hfile)|done|].
  cbn beta. intros r t (Hok & He & ->). unfold pe_symbol_string.
  destruct (symbol_for t module probe) as [x|] eqn:Ex; cbn [fmap option_fmap option_map].
  - destruct (symbol_for_name module t probe x Hok Ex) as (l & Hne & Hl). apply wp_bind, wp_get, wp_bind.
    change (ws_pe (set_pe t s)) with t.
    destruct (skip_underscore_eq _ l (set_pe t s) (proj2 (proj2 Hl)) Hne) as (q & -> & Hq'). cbn [wp].
    rewrite (copy_buf_eq _ _ (coff_name l)) by done. cbn [wp]. split; [done|]. split; [done|].
    split; [done|]. exists (coff_name l). split; [by apply now_holds_with, Hq'|].
    change (ws_pe (set_pe t s)) with t. rewrite Ex. eauto.
  - apply wp_ret. split; [done|]. split; [done|]. split; [done|]. exists qmark.
    change (ws_pe (set_pe t s)) with t. rewrite Ex. split; [split_and!; [done|done|apply qmark_no_nul]|done].
Qed.

Lemma resolve_symbol_wp dbg probe b s :
  pe_ok (ws_pe s) → buf_ok b → buf_holds b qmark → (∀ n, dbg = Some n → no_nul n) →
  wp overflow_only (λ _, False)
    (λ b' s', pe_ok (ws_pe s') ∧ same_win s s' ∧ ∃ sn, now_holds b b' sn ∧
       match dbg with
       | Some (c :: n) => ws_pe s' = ws_pe s ∧ sn = c :: n
       | _ => ensured (wa_os api) module (Some path) (ws_pe s) (ws_pe s') ∧
              pe_symbol_string (ws_pe s') module probe sn
       end)
    (resolve_symbol api i386 dbg module path probe b s).
Proof using Hapi H64 Hfile.
  intros Hs Hb Hq Hdbg.
  assert (Hcoff := coff_symbol_wp probe b s Hs Hb Hq).
  destruct dbg as [[|c n]|]; unfold resolve_symbol; try (eapply wp_call; [exact Hcoff|done|];
    intros b' s' (? & ? & sn & ? & ? & ?); eauto 8).
  specialize (Hdbg _ eq_refl). rewrite (copy_buf_eq _ _ (c :: n)) by (done || by apply is_cstr_lit).
  split; [done|]. split; [done|]. exists (c :: n). split; [by apply now_holds_with|done].
Qed.

Lemma resolve_line_wp dbg probe b line s :
  pe_ok (ws_pe s) → buf_ok b → buf_holds b qmark → (∀ f n, dbg = Some (Some f, n) → no_nul f) →
  wp overflow_only (λ _, False)
    (λ '(b', line') s', pe_ok (ws_pe s') ∧ same_win s s' ∧ ∃ sr, now_holds b b' sr ∧
       match dbg with
       | Some (Some (c :: f), n) =>
           ws_pe s' = ws_pe s ∧ sr = c :: f ∧ line' = (λ _, u32 n) <$> line
       | _ => ensured (wa_os api) module (Some path) (ws_pe s) (ws_pe s') ∧
              pe_line_string (ws_pe s') module probe sr line line'
       end)
    (resolve_line api dbg module path probe b line s).
Proof using Hapi H64 Hfile.
  intros Hs Hb Hq Hdbg.
  assert (Hpe : wp overflow_only (λ _, False) (λ '(b', line') s', pe_ok (ws_pe s') ∧ same_win s s' ∧
      ∃ sr, now_holds b b' sr ∧ ensured (wa_os api) module (Some path) (ws_pe s) (ws_pe s') ∧
              pe_line_string (ws_pe s') module probe sr line line')
    (zoom ws_pe set_pe (bw_pe_line (wa_os api) module (Some path) probe b line) s)).
  { apply wp_zoom. eapply wp_call;
      [by apply (bw_pe_line_wp _ (api_win Hapi) H64 module (Some path) Hfile)|done|].
    cbn beta. intros [b' line'] t (Hok & He & Hr). split; [done|]. split; [done|].
    unfold pe_line_string. change (ws_pe (set_pe t s)) with t.
    destruct (row_for t module probe) as [r|].
    - destruct Hr as (l & Hl & -> & ->). exists l. split; [|done].
      apply now_holds_with; [done|]. apply Hl.
    - destruct Hr as [-> ->]. exists qmark. split; [split_and!; [done|done|apply qmark_no_nul]|done]. }
  destruct dbg as [[[[|c f]|] n]|]; [exact Hpe| |exact Hpe|exact Hpe].
  specialize (Hdbg _ _ eq_refl).
  unfold resolve_line, bind. rewrite (copy_buf_eq _ _ (c :: f)) by (done || by apply is_cstr_lit).
  split; [done|]. split; [done|]. exists (c :: f). split; [by apply now_holds_with|by destruct line].
Qed.
End lookups.

(** The two sources of names DbgHelp has, when it is usable. *)
Definition dbg_symbol (ok : bool) (ip : Z) : option (list byte) :=
  if ok then dbghelp_symbol api ip (ip - 1) else None.
Definition dbg_line (ok : bool) (ip : Z) : option (option (list byte) * Z) :=
  if ok then dbghelp_line api ip (ip - 1) else None.

Lemma dbg_symbol_no_nul ok ip n : dbg_symbol ok ip = Some n → no_nul n.
Proof using Hapi.
  unfold dbg_symbol, dbghelp_symbol. destruct ok; [|done].
  destruct (SymFromAddr api ip) eqn:E; [intros [= <-]|intros]; by eapply api_symbol.
Qed.

Lemma dbg_line_no_nul ok ip f n : dbg_line ok ip = Some (Some f, n) → no_nul f.
Proof using Hapi.
  unfold dbg_line, dbghelp_line. destruct ok; [|done].
  destruct (SymGetLineFromAddr64 api (ip - 1)) eqn:E; [intros [= ->]|intros]; by eapply api_line.
Qed.

(** The set-up at the first call. *)
Lemma init_once_eq s :
  init_once api s =
  Done tt (WinSt (ws_pe s) true (if bw_sym_once s then bw_sym_ok s else SymInitialize api)
    (if bw_sym_once s then ws_log s else ws_log s ++ [InitializeCriticalSection; SymSetOptions])).
Proof.
  unfold init_once, bind at 1, get. destruct s as [pe [] ok l]; [done|]. cbn.
  unfold bind, ret, win_log, get, put, bind; cbn. by rewrite <- app_assoc.
Qed.

Lemma sessions_session once l : sessions once l →
  sessions true ((if once then l else l ++ [InitializeCriticalSection; SymSetOptions])
                 ++ [EnterCriticalSection; LeaveCriticalSection]).
Proof.
  unfold sessions. destruct once.
  - intros [k ->]. exists (S k). rewrite <- app_assoc. f_equal. clear.
    induction k as [|k IH]; [done|]. cbn [replicate concat]. rewrite <- app_assoc, IH. done.
  - intros ->. by exists 1%nat.
Qed.

(** The tables behind a call: left alone when DbgHelp has both answers. *)
Definition tables_after (ok : bool) (ip : Z) (t t' : pe_st) : Prop :=
  match dbg_symbol ok ip, dbg_line ok ip with
  | Some (_ :: _), Some (Some (_ :: _), _) => t' = t
  | _, _ => ensured (wa_os api) (module_of ip) (Some (path_of ip)) t t'
  end.

(** What [bw_win_resolve] gives for an address other than 0, when [ok] says
    whether DbgHelp is usable: the strings of the three buffers, and the line;
    [t] are the tables of the module behind the call. *)
Definition resolved (ok : bool) (ip : Z) (t : pe_st) (fn sn sr : list byte) (line line' : option Z) : Prop :=
  fn = (match path_of ip with [] => qmark | p => p end) ∧
  match dbg_symbol ok ip with
  | Some (c :: n) => sn = c :: n
  | _ => pe_symbol_string t (module_of ip) (ip - 1) sn
  end ∧
  match dbg_line ok ip with
  | Some (Some (c :: f), n) => sr = c :: f ∧ line' = (λ _, u32 n) <$> line
  | _ => pe_line_string t (module_of ip) (ip - 1) sr ((λ _, 0) <$> line) line'
  end.

Lemma qmark_cstr : is_cstr (c_lit qmark) qmark.
Proof. apply is_cstr_lit. by repeat constructor. Qed.

Lemma path_of_no_nul ip : no_nul (path_of ip).
Proof using Hapi.
  unfold path_of. case_match; [constructor|].
  destruct (GetModuleFileNameA api (module_of ip)) eqn:E; [by eapply api_path|constructor].
Qed.

(** The outputs of [bw_win_resolve]. *)
Definition resolve_post (ip : Z) (o : win_out) (o' : win_out) (s s' : win_st) : Prop :=
  win_inv s' ∧
  wo_mod_addr o' = (λ _, if ((ip =? 0) || (module_of ip =? 0))%bool then 0
                         else uptr (ip - module_of ip)) <$> wo_mod_addr o ∧
  ∃ fn sn sr, buf_holds (wo_fname o') fn ∧ buf_holds (wo_sname o') sn ∧ buf_holds (wo_src o') sr ∧
    no_nul fn ∧ no_nul sn ∧ no_nul sr ∧
    ob_len (wo_fname o') = ob_len (wo_fname o) ∧ ob_len (wo_sname o') = ob_len (wo_sname o) ∧
    ob_len (wo_src o') = ob_len (wo_src o) ∧
    if ip =? 0 then
      s' = s ∧ fn = qmark ∧ sn = qmark ∧ sr = qmark ∧ wo_line o' = (λ _, 0) <$> wo_line o
    else bw_sym_once s' = true ∧
      tables_after (bw_sym_ok s') ip (ws_pe s) (ws_pe s') ∧
      resolved (bw_sym_ok s') ip (ws_pe s') fn sn sr (wo_line o) (wo_line o').

(** The two lookups one after the other work on the same tables. *)
Lemma both_lookups ok ip t t1 t2 sn sr line line' :
  match dbg_symbol ok ip with
  | Some (c :: n) => t1 = t ∧ sn = c :: n
  | _ => ensured (wa_os api) (module_of ip) (Some (path_of ip)) t t1 ∧
         pe_symbol_string t1 (module_of ip) (ip - 1) sn
  end →
  match dbg_line ok ip with
  | Some (Some (c :: f), n) => t2 = t1 ∧ sr = c :: f ∧ line' = (λ _, u32 n) <$> line
  | _ => ensured (wa_os api) (module_of ip) (Some (path_of ip)) t1 t2 ∧
         pe_line_string t2 (module_of ip) (ip - 1) sr ((λ _, 0) <$> line) line'
  end →
  tables_after ok ip t t2 ∧
  resolved ok ip t2 (match path_of ip with [] => qmark | p => p end) sn sr line line'.
Proof.
  unfold tables_after, resolved.
  assert (Hsame : ∀ u u', ensured (wa_os api) (module_of ip) (Some (path_of ip)) u u' →
    ∀ u'', ensured (wa_os api) (module_of ip) (Some (path_of ip)) u' u'' → u'' = u')
    by (intros; by eapply ensured_again).
  destruct (dbg_symbol ok ip) as [[|c n]|]; intros [H1 Hsn];
    destruct (dbg_line ok ip) as [[[[|c' f]|] n']|]; intros [H2 Hsr]; subst;
    try (specialize (Hsame _ _ H1 _ H2)); destruct_and?; subst; by split_and!.
Qed.

Lemma path_string ip b : buf_ok b →
  let fn := match path_of ip with [] => qmark | p => p end in
  let b' := match path_of ip with [] => buf_with b qmark | p => buf_with (buf_with b qmark) p end in
  buf_holds b' fn ∧ no_nul fn ∧ ob_len b' = ob_len b.
Proof using Hapi.
  intros Hb. pose proof (path_of_no_nul ip) as Hp.
  assert (Hq : no_nul qmark) by (by repeat constructor).
  destruct (path_of ip) as [|c p]; (split_and!; [by apply buf_with_holds|done|done]).
Qed.

Lemma bw_win_resolve_wp ip o s :
  ptr_mod = 2 ^ 64 → module_file_ok (wa_os api) (module_of ip) (Some (path_of ip)) →
  win_inv s → 0 ≤ ip → buf_ok (wo_fname o) → buf_ok (wo_sname o) → buf_ok (wo_src o) →
  wp overflow_only (λ _, False) (λ o' s', resolve_post ip o o' s s') (bw_win_resolve api i386 ip o s).
Proof using Hapi.
  intros H64 Hfile [Hpe Hlog] Hip Hbf Hbs Hbr. unfold bw_win_resolve.
  assert (Hq : no_nul qmark) by (by repeat constructor).
  assert (Hcopy : ∀ b, buf_ok b → copy_buf b (Some (c_lit qmark)) s = Done (buf_with b qmark) s)
    by (intros; apply copy_buf_eq; [done|apply qmark_cstr]).
  apply wp_bind. rewrite Hcopy by done. cbn [wp]. apply wp_bind. rewrite Hcopy by done. cbn [wp].
  apply wp_bind. rewrite Hcopy by done. cbn [wp]. unfold resolve_post.
  destruct (Z.eqb_spec ip 0) as [|Hip0].
  { apply wp_ret. cbn. split; [by split|]. split; [by destruct (wo_mod_addr o)|].
    exists qmark, qmark, qmark.
    split_and!; done || (by apply buf_with_holds) || by destruct (wo_line o). }
  apply wp_bind. rewrite init_once_eq. cbn [wp].
  set (s1 := WinSt _ true _ _). apply wp_bind.
  rewrite find_module_eq by done. cbn [wp wo_mod_addr wo_fname wo_sname wo_src wo_line].
  rewrite (proj2 (Z.ltb_lt 0 ip)) by lia.
  apply wp_bind. change (win_log EnterCriticalSection s1)
    with (Done tt (WinSt (ws_pe s1) (bw_sym_once s1) (bw_sym_ok s1) (ws_log s1 ++ [EnterCriticalSection]))).
  cbn [wp]. set (s2 := WinSt _ _ _ (_ ++ [EnterCriticalSection])). apply wp_bind, wp_get.
  replace (if bw_sym_ok s2 then _ else (None, None))
    with (dbg_symbol (bw_sym_ok s2) ip, dbg_line (bw_sym_ok s2) ip)
    by (unfold dbg_symbol, dbg_line; by destruct (bw_sym_ok s2)).
  apply wp_bind. eapply wp_call;
    [apply (resolve_symbol_wp H64 _ _ Hfile (dbg_symbol (bw_sym_ok s2) ip));
      [done|done|by apply buf_with_holds|]|done|].
  { intros n. apply dbg_symbol_no_nul. }
  cbn beta. intros sname s3 (Hpe3 & Hsame3 & sn & (Hsn1 & Hsn2 & Hsn3) & Hsn). apply wp_bind.
  eapply wp_call;
    [apply (resolve_line_wp H64 _ _ Hfile (dbg_line (bw_sym_ok s2) ip));
      [done|done|by apply buf_with_holds|]|done|].
  { intros f n. apply dbg_line_no_nul. }
  cbn beta. intros [src ln] s4 (Hpe4 & Hsame4 & sr & (Hsr1 & Hsr2 & Hsr3) & Hsr).
  apply wp_bind, wp_bind, wp_get, wp_put, wp_ret.
  destruct Hsame3 as (Eo3 & Ek3 & El3), Hsame4 as (Eo4 & Ek4 & El4).
  assert (Eok : bw_sym_ok s4 = bw_sym_ok s2) by congruence. cbn.
  assert (Hline : match wo_line o with Some _ => Some 0 | None => None end = (λ _, 0) <$> wo_line o)
    by (by destruct (wo_line o)).
  rewrite Hline in Hsr.
  assert (Hu32 : ∀ n, (λ _ : Z, u32 n) <$> ((λ _ : Z, 0) <$> wo_line o) = (λ _, u32 n) <$> wo_line o)
    by (by destruct (wo_line o)).
  destruct (path_string ip _ Hbf) as (Hf1 & Hf2 & Hf3).
  destruct (both_lookups (bw_sym_ok s2) ip (ws_pe s) (ws_pe s3) (ws_pe s4) sn sr (wo_line o) ln Hsn)
    as [Htab Hres].
  { destruct (dbg_line _ _) as [[[[|c f]|] n]|]; try exact Hsr. by rewrite Hu32 in Hsr. }
  split; [split; [done|]|split].
  - rewrite Eo4, Eo3, El4, El3. cbn [bw_sym_once ws_log s2 s1]. rewrite <- app_assoc.
    by apply (sessions_session (bw_sym_once s)).
  - cbn [orb]. by destruct (module_of ip =? 0), (wo_mod_addr o).
  - eexists _, sn, sr. do 9 (split; [first [exact Hf1|done]|]). split; [by rewrite Eo4, Eo3|].
    rewrite Eok. by split.
Qed.
End spec.

(** ** Walking the captured frames *)

Section walk.
Context `{Platform} `{QSort} (api : win_api) (i386 : bool).
Context {W : Type} (cb : option (frame_info → W → bool * W)).

(** The callback on each address in turn, until it says stop. *)
Fixpoint win_visit (ips : list Z) : M (W * win_st) bool :=
  match ips with
  | [] => ret true
  | ip :: ips =>
      let* go := win_frame_process api i386 cb ip in
      if negb go then ret false else win_visit ips
  end.

Lemma win_process_loop_eq l cap cells (i : nat) fuel s :
  Z.of_nat (length l) ≤ cap → (∀ (k : nat) ip, l !! k = Some ip → cells !! Z.of_nat k = Some ip) →
  (i ≤ length l)%nat → (length l - i < fuel)%nat →
  win_process_loop api i386 cb fuel cap cells (Z.of_nat (length l)) (Z.of_nat i) s = win_visit (drop i l) s.
Proof.
  intros Hcap Hl. revert i s. induction fuel as [|fuel IH]; intros i s Hi Hf; [lia|].
  cbn [win_process_loop]. destruct (Z.ltb_spec (Z.of_nat i) (Z.of_nat (length l))).
  - destruct (lookup_lt_is_Some_2 l i) as [ip Hip]; [lia|]. rewrite (drop_S l ip i Hip).
    cbn [win_visit]. unfold bind at 1, arr_load. rewrite (proj2 (in_bounds_true _ _)) by lia.
    rewrite (Hl i ip Hip). cbn [of_option ret]. unfold bind.
    destruct (win_frame_process _ _ _ _ s) as [go s'| | |]; [|done..].
    destruct go; [|done]. cbn [negb].
    replace (Z.of_nat i + 1) with (Z.of_nat (S i)) by lia. apply IH; lia.
  - by rewrite drop_ge by lia.
Qed.

(** All the captured frames, as they are in the array. *)
Lemma win_process_loop_start l cap cells s : Z.of_nat (length l) ≤ cap →
  win_process_loop api i386 cb (S (length l)) cap (arr_write cells 0 l) (Z.of_nat (length l)) 0 s = win_visit l s.
Proof.
  intros Hcap. apply (win_process_loop_eq l cap (arr_write cells 0 l) 0); [done| |lia|lia].
  intros k ip Hk. by apply (arr_write_lookup cells 0 l k).
Qed.
End walk.

(** ** Properties *)

(** C8. [bw_win_resolve] fills the caller's buffers with what is known of an address
    ([resolve_post]).  The system is 64-bit, maps files as a whole and hands out C
    strings ([api_ok]); the file of the address's module, if one is mapped, can be
    loaded ([module_file_ok]: below 4 GB, NUL-terminated string table and string
    sections, fitting line section).  When the call returns:
    - the buffers hold NUL-terminated strings and keep their size; [*mod_addr] is
      relative to the module; for the address 0 everything is unknown;
    - the first buffer has the module's path, or "?";
    - the second has the name DbgHelp gives, at the return address or else the byte
      before; when it gives none, the name (on 32-bit x86 without its underscore) of
      the COFF symbol nearest to the byte before the return address, or "?";
    - the third, with the line, has the file DbgHelp gives, or else of the line row
      nearest to that byte's address in the linked file, or "?" with line 0;
    - the tables are those of the module: unchanged when DbgHelp had both answers or
      they were the module's already, otherwise as loading its file leaves them;
    - the library was set up exactly once, before its first critical section, and
      every critical section entered has been left.
    The one other end is a signed addition on the line register of the file's line
    program that leaves [int64_t]. *)
Theorem bw_win_resolve_correct `{Platform} `{QSort} api i386 ip o s :
  api_ok api → ptr_mod = 2 ^ 64 →
  module_file_ok (wa_os api) (module_of api ip) (Some (path_of api ip)) →
  win_inv s → 0 ≤ ip → buf_ok (wo_fname o) → buf_ok (wo_sname o) → buf_ok (wo_src o) →
  match bw_win_resolve api i386 ip o s with
  | Done o' s' => resolve_post api i386 ip o o' s s'
  | Fault u => ∃ a b, u = SignedOverflow a b ∧ ¬ - 2 ^ 63 ≤ a + b < 2 ^ 63
  | Fail _ | NoFuel => False
  end.
Proof. intros Hapi. by apply bw_win_resolve_wp. Qed.

(** A system where DbgHelp knows nothing, and one module is at 0x7ff00000. *)
Definition api_ex : win_api :=
  WinApi win_ex true (λ _, None) (λ _, None) (λ ip, if ip <? 0x7ff00000 then None else Some 0x7ff00000)
    (λ _, Some [x61]) capture_ex.

Lemma api_ex_ok : api_ok (H:=plat64) api_ex.
Proof.
  split; [apply win_ex_ok|done|done| |apply capture_ex_ok]. intros m p [= <-]. by repeat constructor.
Qed.

Lemma bw_win_resolve_correct_witness :
  match bw_win_resolve (H:=plat64) api_ex false 0x7ff01012 frame_out win_st0 with
  | Done o' s' => resolve_post (H:=plat64) api_ex false 0x7ff01012 frame_out o' win_st0 s'
  | Fault u => ∃ a b, u = SignedOverflow a b ∧ ¬ - 2 ^ 63 ≤ a + b < 2 ^ 63
  | Fail _ | NoFuel => False
  end.
Proof.
  apply (bw_win_resolve_correct (H:=plat64) api_ex false 0x7ff01012 frame_out win_st0);
    [apply api_ex_ok|done|apply win_ex_file|apply (win_st0_inv (H:=plat64))|done|by split..].
Defined.

(** The name it finds there: of the nearest COFF symbol, "f". *)
Lemma resolve_ex :
  match bw_win_resolve (H:=plat64) api_ex false 0x7ff01012 frame_out win_st0 with
  | Done o _ => buf_string (wo_fname o) = [x61] ∧ buf_string (wo_sname o) = [x66] ∧ wo_mod_addr o = Some 0x1012
  | _ => False
  end.
Proof. vm_compute. done. Qed.

(** C16. On Windows the direct and the collected backtrace call the callback on the
    same addresses, those the system captures, in order, until it answers false: up
    to 64 of them directly, and up to the room of the context when collected. *)
Theorem win_backtrace_visits `{Platform} `{QSort} api i386 {W} (cb : option (frame_info → W → bool * W)) c s :
  capture_ok (CaptureStackBackTrace api) → bc_ip c ≠ None → 0 < ip_max_cnt c ≤ bc_cap c →
  let frames n := CaptureStackBackTrace api BW_WIN_SKIP (capture_count n) in
  win_backtrace api i386 cb s = win_visit api i386 cb (frames BW_WIN_MAX_FRAMES) s ∧
  ∃ c', win_collect api (Some c) tt =
      Done (Z.of_nat (length (frames (ip_max_cnt c))) <? ip_max_cnt c, Some c') tt ∧
    win_process api i386 cb c' s = win_visit api i386 cb (frames (ip_max_cnt c)) s.
Proof.
  intros Hcap Hip Hmax frames. split.
  - destruct (bw_win_capture_eq _ BW_WIN_MAX_FRAMES BW_WIN_MAX_FRAMES ∅ Hcap ltac:(done)) as [E Hlen].
    unfold win_backtrace, bind, with_local. rewrite E. fold (frames BW_WIN_MAX_FRAMES) in *.
    rewrite Nat2Z.id. apply win_process_loop_start. lia.
  - destruct (bw_win_capture_eq _ (bc_cap c) (ip_max_cnt c) (bc_cells c) Hcap Hmax) as [E Hlen].
    fold (frames (ip_max_cnt c)) in *. eexists. split.
    + unfold win_collect. destruct (bc_ip c); [|done]. rewrite (proj2 (Z.eqb_neq _ _)) by lia.
      unfold bind, with_local. rewrite E. reflexivity.
    + unfold win_process. cbn [ip_cnt bc_cap bc_cells set_cells]. rewrite Nat2Z.id.
      apply win_process_loop_start. lia.
Qed.

Lemma win_backtrace_visits_witness :
  let c := BwContext 1 (Some 2) ∅ 2 0 2 in
  let cb := Some (λ (i : frame_info) n, (true, n + 1)) in
  let frames n := CaptureStackBackTrace api_ex BW_WIN_SKIP (capture_count n) in
  let s := (0, win_st0) in
  win_backtrace (H:=plat64) api_ex false cb s = win_visit (H:=plat64) api_ex false cb (frames BW_WIN_MAX_FRAMES) s ∧
  ∃ c', win_collect api_ex (Some c) tt = Done (Z.of_nat (length (frames 2)) <? 2, Some c') tt ∧
    win_process (H:=plat64) api_ex false cb c' s = win_visit (H:=plat64) api_ex false cb (frames 2) s.
Proof.
  intros c cb frames s. apply (win_backtrace_visits (H:=plat64) api_ex false cb c s); [apply capture_ex_ok|done|concrete].
Defined.

(** C34. A context with room for a multiple of 65536 addresses collects nothing, and
    [bw_backtrace_collect] answers that everything was collected: the room is
    converted to a 16-bit count. *)
Theorem win_collect_truncates api c k :
  capture_ok (CaptureStackBackTrace api) → bc_ip c ≠ None → 0 < k → ip_max_cnt c = 65536 * k →
  win_collect api (Some c) tt = Done (true, Some (set_cells (bc_cells c) 0 c)) tt.
Proof.
  intros Hcap Hip Hk Hmax. unfold win_collect. destruct (bc_ip c); [|done].
  rewrite (proj2 (Z.eqb_neq _ _)) by lia. unfold bind, with_local, bw_win_capture.
  rewrite (proj2 (Z.eqb_neq _ _)) by lia.
  assert (E : u16 (ip_max_cnt c) = 0).
  { unfold u16. rewrite Hmax, Z.mul_comm. by apply Z_mod_mult. }
  rewrite E. cbn [Z.ltb Z.compare BW_WIN_MAX_FRAMES].
  pose proof (Hcap BW_WIN_SKIP 0 ltac:(done)) as Hlen.
  assert (CaptureStackBackTrace api BW_WIN_SKIP 0 = []) as -> by (apply length_zero_iff_nil; lia).
  transitivity (Done (S:=unit) (0 <? ip_max_cnt c, Some (set_cells (bc_cells c) 0 c)) tt); [reflexivity|].
  by rewrite (proj2 (Z.ltb_lt 0 (ip_max_cnt c))) by lia.
Qed.

Lemma win_collect_truncates_witness :
  let c := BwContext 1 (Some 2) ∅ 131072 0 131072 in
  win_collect api_ex (Some c) tt = Done (true, Some (set_cells ∅ 0 c)) tt.
Proof.
  intros c. apply (win_collect_truncates api_ex c 2); [apply capture_ex_ok|done|done|reflexivity].
Defined.
