(* ===== verification/Ticket.v ===== *)
(** * Tickets

    [ticket_signal] and [ticket_wait] of src/common.c, one-shot flags with a mutex
    and a condition variable, as threads that take one step at a time.  The
    mutex and the condition variable behave as POSIX says; wake-ups without a
    signal are steps of their own, so that theorems can allow or exclude them. *)

From S2P Require Import Prelude.

(** Where a thread is: in [ticket_wait] (before the lock, before the test of
    [state], asleep in [pthread_cond_wait], woken and about to take the mutex back,
    before the unlock, returned) or in [ticket_signal] (before the lock, before
    the assignment, before the unlock, before [pthread_cond_signal], returned). *)
Inductive pc :=
| WLock | WTest | WSleep | WWake | WUnlock | WDone
| SLock | SSet | SUnlock | SSignal | SDone.

#[export] Instance pc_eq_dec : EqDecision pc.
Proof. solve_decision. Defined.

(** [ticket_t], with the owner of [mtx] and the threads that use it; the threads
    that wait on [cv] are those in [WSleep]. *)
Record ticket_t := Ticket { mtx : option nat; state : bool; threads : list pc }.

(** [ticket_init], and threads about to call the two functions. *)
Definition ticket_init (ts : list pc) : ticket_t := Ticket None false ts.

(** The step thread [t] takes next; [w] is the thread [pthread_cond_signal]
    wakes, which is one that sleeps if there is one.  [None]: the thread is
    blocked or has returned. *)
Definition exec (t w : nat) (c : ticket_t) : option ticket_t :=
  let goto p := <[t := p]> (threads c) in
  let lock p := match mtx c with
                | None => Some (Ticket (Some t) (state c) (goto p))
                | Some _ => None
                end in
  match threads c !! t with
  | Some WLock => lock WTest
  | Some WTest =>
      if state c then Some (Ticket (mtx c) (state c) (goto WUnlock))
      else Some (Ticket None (state c) (goto WSleep))
  | Some WWake => lock WTest
  | Some WUnlock => Some (Ticket None (state c) (goto WDone))
  | Some SLock => lock SSet
  | Some SSet => Some (Ticket (mtx c) true (goto SUnlock))
  | Some SUnlock => Some (Ticket None (state c) (goto SSignal))
  | Some SSignal =>
      if decide (WSleep ∈ threads c) then
        if decide (threads c !! w = Some WSleep)
        then Some (Ticket (mtx c) (state c) (<[w := WWake]> (goto SDone)))
        else None
      else Some (Ticket (mtx c) (state c) (goto SDone))
  | _ => None
  end.

(** A wake-up without a signal. *)
Definition spurious (t : nat) (c : ticket_t) : option ticket_t :=
  if decide (threads c !! t = Some WSleep)
  then Some (Ticket (mtx c) (state c) (<[t := WWake]> (threads c))) else None.

Definition step (c c' : ticket_t) : Prop := ∃ t w, exec t w c = Some c'.
Definition wake (c c' : ticket_t) : Prop := ∃ t, spurious t c = Some c'.

(** The configurations [n] steps away. *)
Inductive steps (R : ticket_t → ticket_t → Prop) : nat → ticket_t → ticket_t → Prop :=
| steps_refl c : steps R 0 c c
| steps_step n c c' c'' : steps R n c c' → R c' c'' → steps R (S n) c c''.

(** All threads have returned. *)
Definition returned (c : ticket_t) : Prop := Forall (λ p, p = WDone ∨ p = SDone) (threads c).

(** Threads about to call the functions. *)
Definition calling (ts : list pc) : Prop := Forall (λ p, p = WLock ∨ p = SLock) ts.

Definition waiter (p : pc) : bool :=
  match p with WLock | WTest | WSleep | WWake | WUnlock | WDone => true | _ => false end.

(** The mutex is held there. *)
Definition locked (p : pc) : bool :=
  match p with WTest | WUnlock | SSet | SUnlock => true | _ => false end.

(** [state] has been set when a thread is there. *)
Definition after_set (p : pc) : bool :=
  match p with SUnlock | SSignal | SDone => true | _ => false end.

Definition passed (p : pc) : bool := match p with WUnlock | WDone => true | _ => false end.

(** ** The invariant *)

Record ticket_ok (c : ticket_t) : Prop := {
  ok_owner : ∀ t p, threads c !! t = Some p → locked p = true ↔ mtx c = Some t;
  ok_owner_in : ∀ t, mtx c = Some t → ∃ p, threads c !! t = Some p ∧ locked p = true;
  ok_passed : ∀ t p, threads c !! t = Some p → passed p = true → state c = true;
  ok_set : state c = true ↔ ∃ t p, threads c !! t = Some p ∧ after_set p = true;
}.

Lemma ticket_init_ok ts : calling ts → ticket_ok (ticket_init ts).
Proof.
  intros Hts. assert (Hcall : ∀ t p, ts !! t = Some p → p = WLock ∨ p = SLock)
    by (intros t p Hp; by apply (Forall_lookup_1 _ _ _ _ Hts Hp)).
  split; cbn.
  - intros t p Hp. by destruct (Hcall t p Hp) as [-> | ->].
  - done.
  - intros t p Hp. by destruct (Hcall t p Hp) as [-> | ->].
  - split; [done|]. intros (t & p & Hp & Ha). by destruct (Hcall t p Hp) as [-> | ->].
Qed.

(** How far a thread is from returning. *)
Definition rank (s : bool) (p : pc) : nat :=
  match p with
  | WLock => 6 | WTest => if s then 2 else 5 | WSleep => 4 | WWake => 3 | WUnlock => 1 | WDone => 0
  | SLock => 4 | SSet => 3 | SUnlock => 2 | SSignal => 1 | SDone => 0
  end.

(** A thread moves from [p] to [p'], with the owner [o] and the state [s] behind it. *)
Record move (c : ticket_t) (t : nat) (p p' : pc) (o : option nat) (s : bool) : Prop := {
  mv_from : threads c !! t = Some p;
  mv_owner : (o = mtx c ∧ locked p' = locked p) ∨ (mtx c = None ∧ o = Some t ∧ locked p' = true) ∨
             (locked p = true ∧ o = None ∧ locked p' = false);
  mv_state : s = state c ∨ (s = true ∧ p' = SUnlock);
  mv_passed : passed p' = true → s = true;
  mv_set : after_set p = true → after_set p' = true;
  mv_set_state : after_set p' = true → s = true;
  mv_role : waiter p' = waiter p;
  mv_sleep : p' = WSleep → s = false;
  mv_pending : p = SUnlock → p' = SSignal;
  mv_rank : (p = WWake → state c = true) → (rank s p' < rank (state c) p)%nat;
  mv_woken : p' = WWake → p = WSleep;
}.

Lemma insert_lookup_cases {A} (l : list A) t p' u q : <[t := p']> l !! u = Some q →
  (u = t ∧ q = p') ∨ (u ≠ t ∧ l !! u = Some q).
Proof.
  intros Hq. destruct (decide (u = t)) as [->|Hne].
  - left. pose proof (lookup_lt_Some _ _ _ Hq) as Hlt. rewrite length_insert in Hlt.
    rewrite list_lookup_insert_eq in Hq by done. by simplify_eq.
  - rewrite list_lookup_insert_ne in Hq by congruence. auto.
Qed.

Lemma move_ok c t p p' o s :
  ticket_ok c → move c t p p' o s → ticket_ok (Ticket o s (<[t := p']> (threads c))).
Proof.
  intros [Hown Hin Hpass Hset] [Hp Ho Hs Hpa Hse Hst _ _ _ _ _].
  assert (Ht : <[t := p']> (threads c) !! t = Some p')
    by (apply list_lookup_insert_eq; by eapply lookup_lt_Some).
  pose proof (insert_lookup_cases (threads c) t p') as Hlook.
  split; cbn.
  - intros u q [[-> ->]|[Hne Hq]]%Hlook.
    + pose proof (Hown t p Hp). destruct Ho as [[-> ->]|[(_ & -> & ->)|(_ & -> & ->)]]; intuition congruence.
    + pose proof (Hown u q Hq). pose proof (Hown t p Hp).
      destruct Ho as [[-> _]|[(E & -> & _)|(E & -> & _)]]; [done|..]; split; intros; intuition congruence.
  - intros u Hu. destruct (decide (u = t)) as [->|Hne].
    + exists p'. split; [done|]. pose proof (Hown t p Hp). destruct Ho as [[-> ->]|[(_ & -> & ->)|(_ & -> & ->)]]; intuition congruence.
    + rewrite list_lookup_insert_ne by congruence.
      destruct Ho as [[-> _]|[(_ & -> & _)|(_ & -> & _)]]; [by apply Hin|congruence|done].
  - intros u q [[-> ->]|[Hne Hq]]%Hlook Hpq; [by apply Hpa|].
    pose proof (Hpass u q Hq Hpq). destruct Hs as [->|[-> _]]; done.
  - split.
    + intros ->. destruct Hs as [Hs|[_ ->]]; [|by exists t, SUnlock].
      symmetry in Hs. apply Hset in Hs as (u & q & Hq & Ha). destruct (decide (u = t)) as [->|Hne].
      * exists t, p'. split; [done|]. apply Hse. congruence.
      * exists u, q. by rewrite list_lookup_insert_ne by congruence.
    + intros (u & q & [[-> ->]|[Hne Hq]]%Hlook & Ha); [by apply Hst|].
      assert (state c = true) by (apply Hset; eauto). by destruct Hs as [->|[-> _]].
Qed.

(** The conditions of [move] at known positions. *)
Ltac solve_move :=
  split; cbn; auto; try done; try (right; right; by auto); try (right; left; by auto);
  intros; repeat case_match; auto; try done; try lia; intuition congruence.

(** Every step is a move, or two of them when [pthread_cond_signal] wakes a thread. *)
Lemma exec_moves c t w c' : ticket_ok c → exec t w c = Some c' →
  ∃ p p' o s, move c t p p' o s ∧
    let c1 := Ticket o s (<[t := p']> (threads c)) in
    c' = c1 ∧ (p = SSignal → WSleep ∉ threads c) ∨
    p = SSignal ∧ p' = SDone ∧ threads c !! w = Some WSleep ∧ move c1 w WSleep WWake o s ∧
      c' = Ticket o s (<[w := WWake]> (threads c1)).
Proof.
  intros [Hown Hin Hpass Hset] E. unfold exec in E.
  destruct (threads c !! t) as [p|] eqn:Hp; [|done].
  pose proof (Hown t p Hp) as Hlk. pose proof (Hpass t p Hp) as Hps.
  assert (Has : after_set p = true → state c = true) by (intros; apply Hset; eauto).
  exists p. destruct p; try done.
  - destruct (mtx c) eqn:Em; [done|]. injection E as <-. exists WTest, (Some t), (state c).
    split; [|by left]. solve_move.
  - destruct (state c) eqn:Es; injection E as <-.
    + exists WUnlock, (mtx c), true. split; [|by left]. solve_move.
    + exists WSleep, None, false. split; [|by left]. solve_move.
  - destruct (mtx c) eqn:Em; [done|]. injection E as <-. exists WTest, (Some t), (state c).
    split; [|by left]. solve_move.
  - injection E as <-. exists WDone, None, (state c). split; [|by left].
    solve_move.
  - destruct (mtx c) eqn:Em; [done|]. injection E as <-. exists SSet, (Some t), (state c).
    split; [|by left]. solve_move.
  - injection E as <-. exists SUnlock, (mtx c), true. split; [|by left]. solve_move.
  - injection E as <-. exists SSignal, None, (state c). split; [|by left].
    solve_move.
  - assert (Hmv : move c t SSignal SDone (mtx c) (state c)) by (solve_move).
    exists SDone, (mtx c), (state c). split; [done|]. destruct (decide (WSleep ∈ threads c)) as [Hsl|].
    + destruct (decide (threads c !! w = Some WSleep)) as [Hw|]; [|done]. injection E as <-. right.
      split_and!; try done. assert (w ≠ t) by (intros ->; congruence).
      split; cbn; auto; try done; by rewrite list_lookup_insert_ne.
    + injection E as <-. left. auto.
Qed.

Lemma step_ok c c' : ticket_ok c → step c c' → ticket_ok c'.
Proof.
  intros Hc (t & w & E). destruct (exec_moves c t w c' Hc E)
    as (p & p' & o & s & Hm & [[-> _]|(_ & _ & _ & Hm2 & ->)]); [by eapply move_ok|].
  eapply (move_ok (Ticket o s (<[t := p']> (threads c)))), Hm2. by eapply move_ok.
Qed.

Lemma wake_ok c c' : ticket_ok c → wake c c' → ticket_ok c'.
Proof.
  intros Hc (t & E). unfold spurious in E.
  destruct (decide (threads c !! t = Some WSleep)) as [Ht|]; [|done]. injection E as <-.
  apply (move_ok c t WSleep WWake); [done|]. split; cbn; auto; done || lia.
Qed.

Lemma steps_inv (R : ticket_t → ticket_t → Prop) (I : ticket_t → Prop) n c c' :
  (∀ c c', I c → R c c' → I c') → I c → steps R n c c' → I c'.
Proof. intros HR Hc. induction 1; eauto. Qed.

(** ** Progress with one waiter *)

(** There is one waiter at most; a waiter asleep behind the assignment of [state]
    will be signalled; without spurious wake-ups a waiter is woken behind it only. *)
Record live_ok (c : ticket_t) : Prop := {
  lv_one : ∀ t u p q, threads c !! t = Some p → threads c !! u = Some q →
    waiter p = true → waiter q = true → t = u;
  lv_sleep : ∀ t, threads c !! t = Some WSleep → state c = true →
    ∃ u p, threads c !! u = Some p ∧ (p = SUnlock ∨ p = SSignal);
}.

Definition woken_ok (c : ticket_t) : Prop :=
  ∀ t, threads c !! t = Some WWake → state c = true.

Lemma ticket_init_live ts :
  calling ts → (∀ i j, ts !! i = Some WLock → ts !! j = Some WLock → i = j) →
  live_ok (ticket_init ts) ∧ woken_ok (ticket_init ts).
Proof.
  intros Hts Hone. assert (Hcall : ∀ t p, ts !! t = Some p → p = WLock ∨ p = SLock)
    by (intros t p Hp; by apply (Forall_lookup_1 _ _ _ _ Hts Hp)).
  split; [split|]; cbn.
  - intros t u p q Hp Hq Hwp Hwq. destruct (Hcall t p Hp) as [-> | ->]; [|done].
    destruct (Hcall u q Hq) as [-> | ->]; [by apply Hone|done].
  - intros t Ht. by destruct (Hcall _ _ Ht).
  - intros t Ht. by destruct (Hcall _ _ Ht).
Qed.

(** One waiter stays one waiter. *)
Lemma move_one c t p p' o s :
  (∀ t u p q, threads c !! t = Some p → threads c !! u = Some q →
     waiter p = true → waiter q = true → t = u) →
  move c t p p' o s →
  ∀ v u q r, <[t := p']> (threads c) !! v = Some q → <[t := p']> (threads c) !! u = Some r →
    waiter q = true → waiter r = true → v = u.
Proof.
  intros Hone [Hp _ _ _ _ _ Hrole _ _ _ _] v u q r
    [[-> ->]|[_ Hq]]%insert_lookup_cases [[-> ->]|[_ Hr]]%insert_lookup_cases Hwq Hwr; [done| | |].
  - apply (Hone t u p r); congruence.
  - apply (Hone v t q p); congruence.
  - by apply (Hone v u q r).
Qed.

Lemma move_woken c t p p' o s :
  woken_ok c → move c t p p' o s → p' ≠ WWake → woken_ok (Ticket o s (<[t := p']> (threads c))).
Proof.
  intros Hw [_ _ Hs _ _ _ _ _ _ _ _] Hne u [[-> E]|[_ Hu]]%insert_lookup_cases; [done|].
  specialize (Hw u Hu). by destruct Hs as [->|[-> _]].
Qed.

Lemma step_live c c' : ticket_ok c → live_ok c → step c c' → live_ok c'.
Proof.
  intros Hc [Hone Hsleep] (t & w & E). destruct (exec_moves c t w c' Hc E)
    as (p & p' & o & s & Hm & Hres). pose proof (move_one c t p p' o s Hone Hm) as Hone1.
  pose proof (move_ok c t p p' o s Hc Hm) as Hok1.
  pose proof Hm as [Hp _ Hs _ _ Hst _ Hsl Hpend _ _]. set (c1 := Ticket o s (<[t := p']> (threads c))) in *.
  assert (Hsome : (t < length (threads c))%nat) by (by eapply lookup_lt_Some).
  destruct Hres as [[-> Hsig]|(-> & -> & Hw & Hm2 & ->)].
  - split; [exact Hone1|]. cbn. intros v [[-> <-]|[Hne Hv]]%insert_lookup_cases Htrue.
    { by rewrite Hsl in Htrue. }
    destruct Hs as [->|[_ ->]]; [|exists t, SUnlock; split; [by apply list_lookup_insert_eq|by left]].
    destruct (Hsleep v Hv Htrue) as (u & q & Hq & Hqp). destruct (decide (u = t)) as [->|Hneu].
    + assert (q = p) as -> by congruence. destruct Hqp as [-> | ->].
      * exists t, SSignal. split; [|by right]. rewrite Hpend by done. by apply list_lookup_insert_eq.
      * exfalso. apply Hsig; [done|]. by eapply list_elem_of_lookup_2.
    + exists u, q. by rewrite list_lookup_insert_ne by congruence.
  - split; [exact (move_one c1 w WSleep WWake o s Hone1 Hm2)|]. cbn.
    intros v [[-> ?]|[Hne Hv]]%insert_lookup_cases _; [done|]. exfalso. apply Hne.
    destruct Hm2 as [Hw1 _ _ _ _ _ _ _ _ _ _]. by apply (Hone1 v w WSleep WSleep).
Qed.

Lemma step_woken c c' : ticket_ok c → woken_ok c → step c c' → woken_ok c'.
Proof.
  intros Hc Hwk (t & w & E). destruct (exec_moves c t w c' Hc E) as (p & p' & o & s & Hm & Hres).
  pose proof Hm as [Hp _ Hs _ _ Hst _ _ _ _ Hww].
  destruct Hres as [[-> _]|(-> & -> & Hw & Hm2 & ->)].
  - apply (move_woken c t p p' o s Hwk Hm). intros ->. specialize (Hww eq_refl). subst p.
    unfold exec in E. rewrite Hp in E. done.
  - intros u _. cbn. by apply Hst.
Qed.

(** *** Every step brings a thread closer to its return *)

Definition total (c : ticket_t) : nat := list_sum (rank (state c) <$> threads c).

Lemma rank_mono s p : (rank true p ≤ rank s p)%nat.
Proof. destruct s, p; cbn; lia. Qed.

Lemma list_sum_cons s p l : list_sum (rank s <$> p :: l) = (rank s p + list_sum (rank s <$> l))%nat.
Proof. done. Qed.

Lemma list_sum_le (l : list pc) s s' : (∀ p, rank s' p ≤ rank s p)%nat →
  (list_sum (rank s' <$> l) ≤ list_sum (rank s <$> l))%nat.
Proof. intros Hr. induction l as [|p l IH]; [done|]. rewrite !list_sum_cons. pose proof (Hr p). lia. Qed.

Lemma move_total c t p p' o s :
  move c t p p' o s → (p = WWake → state c = true) →
  (total (Ticket o s (<[t := p']> (threads c))) < total c)%nat.
Proof.
  intros [Hp _ Hs _ _ _ _ _ _ Hr _] Hw. unfold total; cbn.
  assert (Hmono : ∀ q, (rank s q ≤ rank (state c) q)%nat).
  { intros q. destruct Hs as [->|[-> _]]; [done|apply rank_mono]. }
  rewrite insert_take_drop by (by eapply lookup_lt_Some).
  rewrite <- (take_drop_middle (threads c) t p Hp) at 3. rewrite !fmap_app, !list_sum_app, !list_sum_cons.
  pose proof (list_sum_le (take t (threads c)) (state c) s Hmono).
  pose proof (list_sum_le (drop (S t) (threads c)) (state c) s Hmono).
  specialize (Hr Hw). lia.
Qed.

Lemma step_total c c' : ticket_ok c → woken_ok c → step c c' → (total c' < total c)%nat.
Proof.
  intros Hc Hwk (t & w & E). destruct (exec_moves c t w c' Hc E) as (p & p' & o & s & Hm & Hres).
  assert (Hp : p = WWake → state c = true) by (intros ->; apply (Hwk t), Hm).
  pose proof (move_total c t p p' o s Hm Hp) as Ht1.
  destruct Hres as [[-> _]|(_ & _ & _ & Hm2 & ->)]; [done|].
  etransitivity; [exact (move_total _ w WSleep WWake o s Hm2 ltac:(done))|exact Ht1].
Qed.

(** *** Nothing blocks for ever *)

Lemma exec_locked c t p w : threads c !! t = Some p → locked p = true → ∃ c', exec t w c = Some c'.
Proof. intros Hp Hl. unfold exec. rewrite Hp. destruct p; try done; [destruct (state c)|..]; eauto. Qed.

Lemma exec_signal c t : threads c !! t = Some SSignal → ∃ w c', exec t w c = Some c'.
Proof.
  intros Hp. unfold exec. rewrite Hp. destruct (decide (WSleep ∈ threads c)) as [Hin|]; [|by exists 0%nat; eauto].
  apply list_elem_of_lookup in Hin as [w Hw]. exists w. rewrite decide_True by done. eauto.
Qed.

(** Where a thread waits for the mutex only. *)
Definition wants_lock (p : pc) : bool := match p with WLock | WWake | SLock => true | _ => false end.

Lemma exec_free c t p : mtx c = None → threads c !! t = Some p → wants_lock p = true →
  ∃ c', exec t 0 c = Some c'.
Proof. intros Hm Hp Hl. unfold exec. rewrite Hp, Hm. destruct p; try done; eauto. Qed.

(** With the mutex free, a thread that has not returned is ready or asleep. *)
Lemma pc_cases p : locked p = false →
  p = WDone ∨ p = SDone ∨ p = WSleep ∨ p = SSignal ∨ wants_lock p = true.
Proof. destruct p; cbn; auto 10. Qed.

(** A configuration that cannot step has returned, if it has a signaller. *)
Lemma not_stuck c t0 p0 :
  ticket_ok c → live_ok c → threads c !! t0 = Some p0 → waiter p0 = false →
  returned c ∨ ∃ c', step c c'.
Proof.
  intros [Hown Hin Hpass Hset] [Hone Hsleep] Hp0 Hw0.
  destruct (mtx c) as [t|] eqn:Em.
  { right. destruct (Hin t eq_refl) as (p & Hp & Hl).
    destruct (exec_locked c t p 0 Hp Hl) as [c' E]. by exists c', t, 0%nat. }
  assert (Hunl : ∀ t p, threads c !! t = Some p → locked p = false).
  { intros t p Hp. destruct (locked p) eqn:El; [|done]. by apply (Hown t p Hp) in El. }
  assert (Hsig : ∀ t, threads c !! t = Some SSignal → ∃ c', step c c').
  { intros t Hp. destruct (exec_signal c t Hp) as (w & c' & E). by exists c', t, w. }
  assert (Hfree : ∀ t p, threads c !! t = Some p → wants_lock p = true → ∃ c', step c c').
  { intros t p Hp Hl. destruct (exec_free c t p Em Hp Hl) as [c' E]. by exists c', t, 0%nat. }
  destruct (decide (returned c)) as [|Hret]; [by left|right].
  apply not_Forall_Exists, Exists_exists in Hret as (p & [t Hp]%list_elem_of_lookup & Hnd); [|solve_decision].
  destruct (pc_cases p (Hunl t p Hp)) as [->|[->|[->|[->|Hl]]]];
    [destruct Hnd; by left|destruct Hnd; by right| |by apply (Hsig t)|by apply (Hfree t p)].
  destruct (state c) eqn:Es.
  - destruct (Hsleep t Hp eq_refl) as (u & q & Hq & [-> | ->]); [by specialize (Hunl u _ Hq)|by apply (Hsig u)].
  - assert (Hns : after_set p0 = false).
    { destruct (after_set p0) eqn:Ea; [|done]. symmetry. apply Hset. eauto. }
    apply (Hfree t0 p0 Hp0). pose proof (Hunl t0 p0 Hp0). by destruct p0.
Qed.

(** The roles of threads do not change. *)
Lemma step_roles c c' : ticket_ok c → step c c' → waiter <$> threads c' = waiter <$> threads c.
Proof.
  intros Hc (t & w & E). destruct (exec_moves c t w c' Hc E) as (p & p' & o & s & Hm & Hres).
  assert (Hmove : ∀ c t p p' o s, move c t p p' o s → waiter <$> <[t := p']> (threads c) = waiter <$> threads c).
  { intros c1 t1 p1 p1' o1 s1 [Hp _ _ _ _ _ Hr _ _ _ _]. rewrite list_fmap_insert.
    apply list_insert_id. by rewrite list_lookup_fmap, Hp, Hr. }
  destruct Hres as [[-> _]|(_ & _ & _ & Hm2 & ->)]; [exact (Hmove _ _ _ _ _ _ Hm)|].
  etransitivity; [exact (Hmove _ _ _ _ _ _ Hm2)|exact (Hmove _ _ _ _ _ _ Hm)].
Qed.

Record run_ok (ts : list pc) (c : ticket_t) : Prop := {
  run_ticket : ticket_ok c;
  run_live : live_ok c;
  run_woken : woken_ok c;
  run_roles : waiter <$> threads c = waiter <$> ts;
}.

Lemma steps_run ts n c :
  calling ts → (∀ i j, ts !! i = Some WLock → ts !! j = Some WLock → i = j) →
  steps step n (ticket_init ts) c → run_ok ts c ∧ (n + total c ≤ total (ticket_init ts))%nat.
Proof.
  intros Hts Hone Hn. remember (ticket_init ts) as c0 eqn:E0. induction Hn as [c|n c c1 c2 _ IH Hstep]; subst.
  - destruct (ticket_init_live ts Hts Hone). split; [|lia]. split; [by apply ticket_init_ok|done|done|done].
  - destruct (IH eq_refl) as [[Hok Hlive Hwk Hr] Hle]. pose proof (step_total c1 c2 Hok Hwk Hstep).
    split; [|lia]. split; [by eapply step_ok|by eapply step_live|by eapply step_woken|].
    rewrite <- Hr. by apply step_roles.
Qed.

Lemma total_init ts : calling ts → (total (ticket_init ts) ≤ 6 * length ts)%nat.
Proof.
  unfold total; cbn [threads state ticket_init]. induction 1 as [|p l Hp _ IH]; [done|].
  rewrite list_sum_cons. cbn [length]. assert (rank false p ≤ 6)%nat by (by destruct Hp as [-> | ->]; cbn; lia). lia.
Qed.

(** ** Runs *)

Lemma steps_mono (R R' : ticket_t → ticket_t → Prop) n c c' :
  (∀ c c', R c c' → R' c c') → steps R n c c' → steps R' n c c'.
Proof. intros HR. induction 1; econstructor; eauto. Qed.

Lemma steps_trans R n m c c' c'' : steps R n c c' → steps R m c' c'' → steps R (n + m) c c''.
Proof.
  intros Hn Hm. induction Hm as [c'|m c' c1 c2 _ IH Hstep]; [by rewrite Nat.add_0_r|].
  rewrite Nat.add_succ_r. econstructor; eauto.
Qed.

(** A schedule: the threads that step, and whom they would wake. *)
Fixpoint schedule (l : list (nat * nat)) (c : ticket_t) : option ticket_t :=
  match l with
  | [] => Some c
  | (t, w) :: l' => c' ← exec t w c; schedule l' c'
  end.

Lemma schedule_steps l c c' : schedule l c = Some c' → steps step (length l) c c'.
Proof.
  revert c. induction l as [|[t w] l IH]; intros c; cbn; [intros [= ->]; constructor|].
  destruct (exec t w c) as [c1|] eqn:E; [|done]. intros Hl. apply (steps_trans _ 1 _ _ c1); [|by apply IH].
  econstructor; [constructor|]. by exists t, w.
Qed.

(** A step of the thread in the middle of a list. *)
Lemma list_insert_middle {A} (pre post : list A) x y : <[length pre := y]> (pre ++ x :: post) = pre ++ y :: post.
Proof. by rewrite insert_app_r_alt, Nat.sub_diag. Qed.

Lemma exec_mid_step pre p p' post o o' s s' w :
  (∀ l t, l !! t = Some p → t = length pre → l = pre ++ p :: post →
     exec t w (Ticket o s l) = Some (Ticket o' s' (<[t := p']> l))) →
  steps step 1 (Ticket o s (pre ++ p :: post)) (Ticket o' s' (pre ++ p' :: post)).
Proof.
  intros He. econstructor; [constructor|]. exists (length pre), w.
  rewrite (He (pre ++ p :: post) (length pre)) by (done || by rewrite list_lookup_middle).
  by rewrite list_insert_middle.
Qed.

Ltac mid_step := apply exec_mid_step with (w := 0%nat); intros l t Hl Ht _; unfold exec; cbn; by rewrite Hl, ?Ht.

Lemma wait_sleeps pre post :
  steps step 2 (Ticket None false (pre ++ WLock :: post)) (Ticket None false (pre ++ WSleep :: post)).
Proof.
  apply (steps_trans _ 1 1 _ (Ticket (Some (length pre)) false (pre ++ WTest :: post))); mid_step.
Qed.

Lemma woken_returns pre post :
  steps step 3 (Ticket None true (pre ++ WWake :: post)) (Ticket None true (pre ++ WDone :: post)).
Proof.
  apply (steps_trans _ 1 2 _ (Ticket (Some (length pre)) true (pre ++ WTest :: post))); [mid_step|].
  apply (steps_trans _ 1 1 _ (Ticket (Some (length pre)) true (pre ++ WUnlock :: post))); mid_step.
Qed.

Lemma signal_sets pre post s :
  steps step 3 (Ticket None s (pre ++ SLock :: post)) (Ticket None true (pre ++ SSignal :: post)).
Proof.
  apply (steps_trans _ 1 2 _ (Ticket (Some (length pre)) s (pre ++ SSet :: post))); [mid_step|].
  apply (steps_trans _ 1 1 _ (Ticket (Some (length pre)) true (pre ++ SUnlock :: post))); mid_step.
Qed.

(** [pthread_cond_signal] wakes the thread behind [pre]. *)
Lemma signal_wakes pre mid post :
  steps step 1 (Ticket None true (pre ++ WSleep :: mid ++ SSignal :: post))
               (Ticket None true (pre ++ WWake :: mid ++ SDone :: post)).
Proof.
  econstructor; [constructor|]. exists (length (pre ++ WSleep :: mid)), (length pre). unfold exec; cbn.
  assert (E : ∀ p, pre ++ WSleep :: mid ++ p :: post = (pre ++ WSleep :: mid) ++ p :: post)
    by (intros p; by rewrite <- app_assoc).
  rewrite E, list_lookup_middle, <- E by done.
  rewrite decide_True by (rewrite elem_of_app, elem_of_cons; auto).
  rewrite list_lookup_middle, decide_True by done.
  rewrite E, list_insert_middle, <- E, list_insert_middle. done.
Qed.

Lemma one_wakes pre mid post s :
  steps step 7 (Ticket None s (pre ++ WSleep :: mid ++ SLock :: post))
               (Ticket None true (pre ++ WDone :: mid ++ SDone :: post)).
Proof.
  apply (steps_trans _ 3 4 _ (Ticket None true (pre ++ WSleep :: mid ++ SSignal :: post))).
  - pose proof (signal_sets (pre ++ WSleep :: mid) post s) as Hs. by rewrite <- !app_assoc in Hs.
  - eapply (steps_trans _ 1 3); [apply signal_wakes|apply woken_returns].
Qed.

(** Waiters that come first all sleep. *)
Lemma all_sleep m pre post : ∃ n,
  steps step n (Ticket None false (pre ++ replicate m WLock ++ post))
               (Ticket None false (pre ++ replicate m WSleep ++ post)).
Proof.
  revert pre. induction m as [|m IH]; intros pre; [exists 0%nat; constructor|]. cbn.
  destruct (IH (pre ++ [WSleep])) as [n Hn]. rewrite <- !app_assoc in Hn.
  exists (2 + n)%nat. eapply steps_trans; [apply wait_sleeps|exact Hn].
Qed.

(** Each of [k] signallers wakes one of them. *)
Lemma signals_wake k r j s : ∃ n,
  steps step n
    (Ticket None s (replicate j WDone ++ replicate (k + r) WSleep ++ replicate j SDone ++ replicate k SLock))
    (Ticket None (s || bool_decide (0 < k)%nat)
       (replicate (j + k) WDone ++ replicate r WSleep ++ replicate (j + k) SDone)).
Proof.
  revert j s. induction k as [|k IH]; intros j s.
  - exists 0%nat. rewrite bool_decide_false, orb_false_r, app_nil_r, Nat.add_0_r by lia. constructor.
  - destruct (IH (S j) true) as [n Hn]. exists (7 + n)%nat.
    rewrite (bool_decide_true (0 < S k)%nat), orb_true_r by lia. cbn [orb] in Hn.
    replace (j + S k)%nat with (S j + k)%nat by lia.
    eapply steps_trans; [|exact Hn]. clear.
    rewrite (replicate_S_end j WDone), (replicate_S_end j SDone). cbn [replicate Nat.add].
    rewrite <- !app_assoc. cbn [app].
    rewrite (app_assoc _ (replicate j SDone)), (app_assoc _ (replicate j SDone)). apply one_wakes.
Qed.

(** Threads that have returned or sleep do not step. *)
Lemma exec_at_rest t w c :
  (∀ p, p ∈ threads c → p = WDone ∨ p = WSleep ∨ p = SDone) → exec t w c = None.
Proof.
  intros Hc. unfold exec. destruct (threads c !! t) as [p|] eqn:E; [|done].
  apply list_elem_of_lookup_2 in E. destruct (Hc p E) as [-> | [-> | ->]]; done.
Qed.

(** ** Properties *)

(** C11. A waiter and one or more signallers always finish: with at most one waiter
    and at least one signaller, and without spurious wake-ups, every run of the
    threads has at most six steps per thread, and as long as some thread has not
    returned, some thread can take a step; so no wake-up is lost, whatever the
    interleaving. *)
Theorem ticket_completes ts n c :
  calling ts → (∀ i j, ts !! i = Some WLock → ts !! j = Some WLock → i = j) → SLock ∈ ts →
  steps step n (ticket_init ts) c →
  (n ≤ 6 * length ts)%nat ∧ (returned c ∨ ∃ c', step c c').
Proof.
  intros Hts Hone [t0 Ht0]%list_elem_of_lookup Hn.
  destruct (steps_run ts n c Hts Hone Hn) as [[Hok Hlive _ Hr] Hle].
  pose proof (total_init ts Hts). split; [lia|].
  assert (Hp : (waiter <$> threads c) !! t0 = Some false) by (by rewrite Hr, list_lookup_fmap, Ht0).
  rewrite list_lookup_fmap in Hp. destruct (threads c !! t0) as [p0|] eqn:E; [|done].
  apply (not_stuck c t0 p0 Hok Hlive E). by injection Hp.
Qed.

(** The waiter tests [state] first and sleeps; the signaller wakes it: six steps, of
    which the last is [pthread_cond_signal]. *)
Lemma ticket_completes_witness :
  let c := Ticket None true [WWake; SDone] in
  (6 ≤ 6 * length [WLock; SLock])%nat ∧ (returned c ∨ ∃ c', step c c').
Proof.
  apply (ticket_completes [WLock; SLock] 6).
  - constructor; [by left|constructor; [by right|constructor]].
  - by intros [|[|i]] [|[|j]] Hi Hj; simplify_eq/=.
  - apply list_elem_of_further, list_elem_of_here.
  - apply (schedule_steps [(0, 0); (0, 0); (1, 0); (1, 0); (1, 0); (1, 0)]%nat). reflexivity.
Defined.

(** C23. [ticket_wait] returns only behind the assignment of a [ticket_signal], and
    the mutex protects what it should: in every interleaving, spurious wake-ups
    included, and for any number of threads, when a waiter is past its loop some
    signaller has set [state], and no two threads are between lock and unlock. *)
Theorem ticket_safe ts n c t p :
  calling ts → steps (λ c c', step c c' ∨ wake c c') n (ticket_init ts) c →
  threads c !! t = Some p →
  (passed p = true → state c = true ∧ ∃ u q, threads c !! u = Some q ∧ after_set q = true) ∧
  (∀ u q, threads c !! u = Some q → locked p = true → locked q = true → t = u).
Proof.
  intros Hts Hn Hp. assert (Hok : ticket_ok c).
  { eapply steps_inv, Hn; [|by apply ticket_init_ok]. intros c1 c2 H1 [H2|H2]; eauto using step_ok, wake_ok. }
  destruct Hok as [Hown Hin Hpass Hset]. split.
  - intros Hpp. pose proof (Hpass t p Hp Hpp) as Hs. split; [done|by apply Hset].
  - intros u q Hq Hlp Hlq. apply (Hown t p Hp) in Hlp. apply (Hown u q Hq) in Hlq. congruence.
Qed.

(** Behind five steps the signaller is before its signal and the waiter, past its
    loop, holds the mutex. *)
Lemma ticket_safe_witness :
  let c := Ticket (Some 0%nat) true [WUnlock; SSignal] in
  (passed WUnlock = true → state c = true ∧ ∃ u q, threads c !! u = Some q ∧ after_set q = true) ∧
  (∀ u q, threads c !! u = Some q → locked WUnlock = true → locked q = true → 0%nat = u).
Proof.
  apply (ticket_safe [WLock; SLock] 5 (Ticket (Some 0%nat) true [WUnlock; SSignal]) 0 WUnlock); [| |done].
  - constructor; [by left|constructor; [by right|constructor]].
  - apply (steps_mono step); [by left|].
    apply (schedule_steps [(1, 0); (1, 0); (1, 0); (0, 0); (0, 0)]%nat). reflexivity.
Defined.

(** C36. Signals can be too few: [pthread_cond_signal] wakes one thread, although the
    state a [ticket_signal] sets releases all of them.  For any numbers of
    signallers and of waiters in excess of them, the threads have a run in which
    every signaller returns, as many waiters return, and the [r] others sleep for
    ever, although [state] is set if there was a signaller at all. *)
Theorem ticket_waiters_block k r :
  ∃ n c, steps step n (ticket_init (replicate (k + r) WLock ++ replicate k SLock)) c ∧
    threads c = replicate k WDone ++ replicate r WSleep ++ replicate k SDone ∧
    state c = bool_decide (0 < k)%nat ∧ ∀ t w, exec t w c = None.
Proof.
  destruct (all_sleep (k + r) [] (replicate k SLock)) as [n1 H1].
  destruct (signals_wake k r 0 false) as [n2 H2].
  exists (n1 + n2)%nat, (Ticket None (false || bool_decide (0 < k)%nat)
    (replicate (0 + k) WDone ++ replicate r WSleep ++ replicate (0 + k) SDone)).
  split_and!; [by eapply steps_trans|done|done|].
  intros t w. apply exec_at_rest. intros p Hp. cbn in Hp.
  rewrite !elem_of_app, !elem_of_replicate in Hp. intuition.
Qed.
